(** * x265 transform / quantisation core and intra prediction

    A shallow embedding of [source/common/quant.cpp] and of the DC, planar
    and angular predictors of [source/common/intrapred.cpp], followed by the
    properties proved about it.

    Conventions of the embedding.
    - C integers are [Z]; where the source relies on a fixed width (unsigned
      wrap-around, sign tricks with [>> 31]) the wrap is written out with
      [u32] / [s32] / [u64].
    - C arrays that are written are [list Z] (or [list float]) read with
      [aget] and written with [aset]; read-only tables reached through a
      pointer ([scan], [quantCoef], the CABAC cost tables) are functions from
      the index.
    - [double] is the kernel's IEEE-754 binary64 type [float].
    - a C loop is a fold over its index ([for_up], [for_down]); a loop that
      leaves through [break] is a bounded search. *)

From Stdlib Require Import ZArith Lia Bool List Floats.
From stdpp Require Import base tactics list.

Local Open Scope Z_scope.

(** ** Machine integers *)

Definition u32 (x : Z) : Z := x mod 2 ^ 32.
Definition u64 (x : Z) : Z := x mod 2 ^ 64.
Definition s32 (x : Z) : Z := (x + 2 ^ 31) mod 2 ^ 32 - 2 ^ 31.
Definition s16 (x : Z) : Z := (x + 2 ^ 15) mod 2 ^ 16 - 2 ^ 15.

Definition MAX_INT : Z := 2147483647.
Definition MAX_INT64 : Z := 9223372036854775807.

Definition b2z (b : bool) : Z := if b then 1 else 0.
Definition nz (x : Z) : bool := negb (x =? 0).

(** [Clip3(minVal, maxVal, a)] of common.h. *)
Definition Clip3 (minVal maxVal a : Z) : Z :=
  if a <? minVal then minVal else if a >? maxVal then maxVal else a.

Definition X265_MIN (a b : Z) : Z := if a <? b then a else b.
Definition X265_MAX (a b : Z) : Z := if a >? b then a else b.

(** ** Arrays *)

Definition aget {A} (d : A) (a : list A) (i : Z) : A :=
  if i <? 0 then d else default d (a !! Z.to_nat i).

Definition aset {A} (a : list A) (i : Z) (v : A) : list A :=
  if i <? 0 then a else <[Z.to_nat i := v]> a.

Abbreviation rd := (aget 0).
Abbreviation rdf := (aget 0%float).

(** ** Loops *)

(** [for (i = n - 1; i >= 0; i--) s = body(i, s)] *)
Fixpoint for_down {S} (n : nat) (body : Z -> S -> S) (s : S) : S :=
  match n with
  | O => s
  | S k => for_down k body (body (Z.of_nat k) s)
  end.

(** [for (i = 0; i < n; i++) s = body(i, s)] *)
Fixpoint for_up {S} (n : nat) (body : Z -> S -> S) (s : S) : S :=
  match n with
  | O => s
  | S k => body (Z.of_nat k) (for_up k body s)
  end.

(** [for (i = lo; i < lo + n; i++) s = body(i, s)] *)
Definition for_range {S} (lo : Z) (n : nat) (body : Z -> S -> S) (s : S) : S :=
  for_up n (fun i => body (lo + i)) s.

(** ** Build configuration and global tables

    Compile-time constants and read-only tables that quant.cpp and
    intrapred.cpp take from headers and from TComRom; their values are not
    fixed by the translation units embedded here, so they are fields of a
    configuration the embedding is parameterised by. *)

Class Config := {
  X265_DEPTH : Z;                 (* internal bit depth *)
  pixel_bits : Z;                 (* width of the [pixel] type *)
  MAX_TR_DYNAMIC_RANGE : Z;
  QUANT_SHIFT : Z;
  QUANT_IQUANT_SHIFT : Z;
  SCALE_BITS : Z;
  IEP_RATE : Z;
  COEF_REMAIN_BIN_REDUCTION : Z;
  MAX_DOUBLE : float;
  g_goRiceRange : Z -> Z;
  g_chromaScale : Z -> Z;
  getGroupIdx : Z -> Z;
  s_invQuantScales : Z -> Z       (* ScalingList::s_invQuantScales *)
}.

Definition QP_BD_OFFSET `{Config} : Z := 6 * (X265_DEPTH - 8).

(** The coefficient group is a 4x4 cluster of 16 coefficients. *)
Definition MLS_CG_SIZE : Z := 4.
Definition LOG2_SCAN_SET_SIZE : Z := 4.
Definition SCAN_SET_SIZE : Z := 16.
Definition SBH_THRESHOLD : Z := 4.

Definition X265_CSP_I420 : Z := 1.

Inductive TextType := TEXT_LUMA | TEXT_CHROMA_U | TEXT_CHROMA_V.

Definition ttype_idx (t : TextType) : Z :=
  match t with TEXT_LUMA => 0 | TEXT_CHROMA_U => 1 | TEXT_CHROMA_V => 2 end.

Definition TextType_eqb (a b : TextType) : bool := ttype_idx a =? ttype_idx b.

(** ** intrapred.cpp *)

Definition to_pixel `{Config} (v : Z) : Z := v mod 2 ^ pixel_bits.

(** [dcPredFilter(above, left, dst, dststride, size)]; [above] and [left] are
    offsets into [srcPix]. *)
Definition dcPredFilter `{Config} (srcPix : list Z) (above left : Z)
    (dst : list Z) (dststride : Z) (size : Z) : list Z :=
  let dst := aset dst 0
    (to_pixel ((rd srcPix above + rd srcPix left + 2 * rd dst 0 + 2) ≫ 2)) in
  let dst := for_range 1 (Z.to_nat (size - 1)) (fun x dst =>
    aset dst x (to_pixel ((rd srcPix (above + x) + 3 * rd dst x + 2) ≫ 2))) dst in
  for_range 1 (Z.to_nat (size - 1)) (fun y dst =>
    aset dst (y * dststride)
      (to_pixel ((rd srcPix (left + y) + 3 * rd dst (y * dststride) + 2) ≫ 2))) dst.

(** The accumulation loop of [intra_pred_dc_c_new]. *)
Definition dc_sum (width : Z) (srcPix : list Z) : Z :=
  for_up (Z.to_nat width) (fun i dcVal =>
    dcVal + (rd srcPix (1 + i) + rd srcPix (2 * width + 1 + i))) width.

Definition intra_pred_dc_c_new `{Config} (width : Z) (dst : list Z) (dstStride : Z)
    (srcPix : list Z) (bFilter : bool) : list Z :=
  let dcVal := dc_sum width srcPix in
  let dcVal := dcVal ÷ (width + width) in
  let dst :=
    for_up (Z.to_nat width) (fun k dst =>
      for_up (Z.to_nat width) (fun l dst =>
        aset dst (k * dstStride + l) (to_pixel dcVal)) dst) dst in
  if bFilter then dcPredFilter srcPix 1 (2 * width + 1) dst dstStride width
  else dst.

(** The DC value as section 4.C of the specification words it: the rounded
    average of the 2N top and the 2N left reference samples of the
    [4N+1]-long reference array [top-left, top(0..2N-1), left(0..2N-1)]. *)
Definition dc_average_2N_spec (N : Z) (srcPix : list Z) : Z :=
  (for_up (Z.to_nat (2 * N)) (fun i acc =>
     acc + (rd srcPix (1 + i) + rd srcPix (2 * N + 1 + i))) 0 + 2 * N) ÷ (4 * N).

(** ** quant.cpp: QP set-up *)

Record QpParam := { rem : Z; per : Z; qp : Z }.

(** Modelled from the spec: [QpParam::setQpParam] of quant.h, which is not
    among the sources; section 3 gives [per = qp/6], [rem = qp%6]. *)
Definition setQpParam (qpScaled : Z) : QpParam :=
  {| rem := Z.rem qpScaled 6; per := qpScaled ÷ 6; qp := qpScaled |}.

Definition qpParam_set (m : TextType -> QpParam) (t : TextType) (q : QpParam)
    : TextType -> QpParam :=
  fun t' => if TextType_eqb t t' then q else m t'.

(** [Quant::setQPforQuant(int qpy, TextType ttype, int chromaQPOffset, int chFmt)] *)
Definition setQPforQuant `{Config} (m_qpParam : TextType -> QpParam)
    (qpy : Z) (ttype : TextType) (chromaQPOffset chFmt : Z) : TextType -> QpParam :=
  let qp := Clip3 (- QP_BD_OFFSET) 57 (qpy + chromaQPOffset) in
  let qp :=
    if qp >=? 30 then
      if chFmt =? X265_CSP_I420 then g_chromaScale qp
      else X265_MIN qp 51
    else qp in
  qpParam_set m_qpParam ttype (setQpParam (qp + QP_BD_OFFSET)).

(** [Quant::setQPforQuant(TComDataCU* cu)] *)
Definition setQPforQuant_cu `{Config} (m_qpParam : TextType -> QpParam)
    (qpy chFmt chromaCbQpOffset chromaCrQpOffset : Z) : TextType -> QpParam :=
  let m := qpParam_set m_qpParam TEXT_LUMA (setQpParam (qpy + QP_BD_OFFSET)) in
  let m := setQPforQuant m qpy TEXT_CHROMA_U chromaCbQpOffset chFmt in
  setQPforQuant m qpy TEXT_CHROMA_V chromaCrQpOffset chFmt.

(** ** Collaborators of [Quant] *)

(** [TUEntropyCodingParameters]: [scan] maps a scan position to a raster block
    position, [scanCG] a coefficient-group scan position to a group raster
    position. *)
Record TUEntropyCodingParameters := {
  scan : Z -> Z;
  scanCG : Z -> Z;
  scanType : Z;
  log2TrSizeCG : Z;
  firstSignificanceMapContext : Z
}.

Definition SCAN_VER : Z := 2.

(** The part of [TComDataCU] (with its slice, SPS and PPS) that quant.cpp
    consults. *)
Record TComDataCU := {
  getCUTransquantBypass : Z -> bool;
  isIntra : Z -> bool;                    (* getPredictionMode(i) == MODE_INTRA *)
  getTransformIdx : Z -> Z;
  getCtxQtCbf : TextType -> Z -> Z;
  getTUEntropyCodingParameters : Z -> Z -> bool -> TUEntropyCodingParameters;
  isISlice : bool;                        (* m_slice->m_sliceType == I_SLICE *)
  bSignHideEnabled : bool                 (* m_slice->m_pps->bSignHideEnabled *)
}.

(** [EstBitsSbac], the CABAC cost tables. *)
Record EstBitsSbac := {
  significantCoeffGroupBits : Z -> Z -> Z;
  significantBits : Z -> Z -> Z;
  lastXBits : Z -> Z;
  lastYBits : Z -> Z;
  greaterOneBits : Z -> Z -> Z;
  levelAbsBits : Z -> Z -> Z;
  blockCbpBits : Z -> Z -> Z;
  blockRootCbpBits : Z -> Z -> Z
}.

(** [ScalingList]: the matrices are indexed by [sizeIdx], list type, [rem]
    and coefficient position. *)
Record ScalingList := {
  m_bEnabled : bool;
  m_quantCoef : Z -> Z -> Z -> Z -> Z;
  m_dequantCoef : Z -> Z -> Z -> Z -> Z
}.

(** [NoiseReduction] *)
Record NoiseReduction := {
  bNoiseReduction : bool;
  residualSum : Z -> list Z;
  offsetDenoise : Z -> Z -> Z;
  nr_count : Z -> Z
}.

(** The entries of the primitive table whose arithmetic neither quant.cpp nor
    the specification fixes.  Each takes the previous content of its
    destination buffer and returns the new content. *)
Record EncoderPrimitives := {
  (* dct[index](src, dst, stride) *)
  prim_dct : Z -> list Z -> list Z -> Z -> list Z;
  (* idct[index](src, dst, stride) *)
  prim_idct : Z -> list Z -> list Z -> Z -> list Z;
  (* cvt16to32_shl(dst, src, stride, shift, size) *)
  cvt16to32_shl : list Z -> list Z -> Z -> Z -> Z -> list Z;
  (* cvt16to32_shr[sizeIdx](dst, src, stride, shift, offset) *)
  cvt16to32_shr : Z -> list Z -> list Z -> Z -> Z -> Z -> list Z;
  (* cvt32to16_shr(dst, src, stride, shift, size) *)
  cvt32to16_shr : list Z -> list Z -> Z -> Z -> Z -> list Z;
  (* cvt32to16_shl[sizeIdx](dst, src, stride, shift) *)
  cvt32to16_shl : Z -> list Z -> list Z -> Z -> Z -> list Z;
  (* square_copy_ps[sizeIdx](dst, dstStride, src, srcStride) *)
  square_copy_ps : Z -> list Z -> Z -> list Z -> Z -> list Z;
  (* dequant_scaling(quantCoef, deQuantCoef, coef, num, per, shift) *)
  dequant_scaling : list Z -> (Z -> Z) -> list Z -> Z -> Z -> Z -> list Z;
  (* dequant_normal(quantCoef, coef, num, scale, shift) *)
  dequant_normal : list Z -> list Z -> Z -> Z -> Z -> list Z
}.

(** The members of [class Quant]. *)
Record Quant := {
  m_useRDOQ : bool;
  m_psyRdoqScale : Z;
  m_scalingList : ScalingList;
  m_resiDctCoeff : list Z;
  m_fencDctCoeff : list Z;
  m_fencShortBuf : list Z;
  m_qpParam : TextType -> QpParam;
  m_nr : NoiseReduction;
  m_lambdas : TextType -> float;
  m_estBitsSbac : EstBitsSbac
}.

(** ** Reference primitives the specification describes *)

(** Modelled from the spec: [primitives.count_nonzero] (absent from the
    sources): the count of non-zero entries among the first [numCoeff]. *)
Definition count_nonzero (coeff : list Z) (numCoeff : Z) : Z :=
  for_up (Z.to_nat numCoeff) (fun i cnt => cnt + b2z (nz (rd coeff i))) 0.

(** Modelled from the spec: [primitives.quant] (absent from the sources),
    section 4.D: [absLevel = (|dct| * quantCoef + add) >> qbits], sign
    re-applied, output clamped;
    [deltaU = (|dct|*quantCoef - (absLevel<<qbits)) >> (qbits-8)]; the result
    is [numSig]. *)
Definition quant_c (coef : list Z) (quantCoeff : Z -> Z) (deltaU qCoef : list Z)
    (qBits add numCoeff : Z) : list Z * list Z * Z :=
  for_up (Z.to_nat numCoeff) (fun blockpos '(deltaU, qCoef, numSig) =>
    let level := rd coef blockpos in
    let sign := if level <? 0 then -1 else 1 in
    let tmplevel := Z.abs level * quantCoeff blockpos in
    let absLevel := (tmplevel + add) ≫ qBits in
    let deltaU := aset deltaU blockpos ((tmplevel - (absLevel ≪ qBits)) ≫ (qBits - 8)) in
    let numSig := if nz absLevel then numSig + 1 else numSig in
    (deltaU, aset qCoef blockpos (Clip3 (-32768) 32767 (absLevel * sign)), numSig))
    (deltaU, qCoef, 0).

(** Modelled from the spec: [primitives.nquant] (absent from the sources),
    section 4.E step 1: the initial scalar quantisation yields candidate
    levels and the raw [scaledCoeff = |dct| * quantCoef]. *)
Definition nquant_c (coef : list Z) (quantCoeff : Z -> Z) (scaledCoeff qCoef : list Z)
    (qBits add numCoeff : Z) : list Z * list Z * Z :=
  for_up (Z.to_nat numCoeff) (fun blockpos '(scaledCoeff, qCoef, numSig) =>
    let level := rd coef blockpos in
    let sign := if level <? 0 then -1 else 1 in
    let tmplevel := Z.abs level * quantCoeff blockpos in
    let scaledCoeff := aset scaledCoeff blockpos tmplevel in
    let absLevel := (tmplevel + add) ≫ qBits in
    let numSig := if nz absLevel then numSig + 1 else numSig in
    (scaledCoeff, aset qCoef blockpos (Clip3 (-32768) 32767 (absLevel * sign)), numSig))
    (scaledCoeff, qCoef, 0).

(** Modelled from the spec: [primitives.cvt16to32_cnt[sizeIdx]] (absent from
    the sources), section 4.G: with transquant bypass the residual is copied
    verbatim into the levels and the call returns 0. *)
Definition cvt16to32_cnt (size : Z) (coeff residual : list Z) (stride : Z) : list Z * Z :=
  (for_up (Z.to_nat size) (fun k coeff =>
     for_up (Z.to_nat size) (fun j coeff =>
       aset coeff (k * size + j) (rd residual (k * stride + j))) coeff) coeff, 0).

(** Modelled from the spec: [primitives.blockfill_s[sizeIdx]] (absent from
    the sources), section 4.B: the value is replicated into every sample. *)
Definition blockfill_s (size : Z) (dst : list Z) (stride : Z) (val : Z) : list Z :=
  for_up (Z.to_nat size) (fun y dst =>
    for_up (Z.to_nat size) (fun x dst => aset dst (y * stride + x) val) dst) dst.

(** ** quant.cpp: sign-bit hiding without rate ([signBitHidingHDQ]) *)

(** [for (n = SCAN_SET_SIZE - 1; n >= 0; --n) if (coeff[scan[n + cgStartPos]]) break;]
    started at [n = k - 1]; the result is the final [n] (-1 when the loop
    runs out). *)
Fixpoint lastNZ_from (k : nat) (coeff : list Z) (scan : Z -> Z) (cgStartPos : Z) : Z :=
  match k with
  | O => -1
  | S k' =>
      if nz (rd coeff (scan (Z.of_nat k' + cgStartPos))) then Z.of_nat k'
      else lastNZ_from k' coeff scan cgStartPos
  end.

(** [for (n = 0;; n++) if (coeff[scan[n + cgStartPos]]) break;]  The source
    runs it only after the previous loop has found a non-zero coefficient in
    the group, so it leaves within [SCAN_SET_SIZE] steps. *)
Fixpoint firstNZ_from (fuel : nat) (n : Z) (coeff : list Z) (scan : Z -> Z) (cgStartPos : Z) : Z :=
  match fuel with
  | O => n
  | S f =>
      if nz (rd coeff (scan (n + cgStartPos))) then n
      else firstNZ_from f (n + 1) coeff scan cgStartPos
  end.

(** The locals of the search for the coefficient to toggle. *)
Record sbh_search := {
  minCostInc : Z; minPos : Z; finalChange : Z; curCost : Z; curChange : Z
}.

(** [if (curCost < minCostInc) { minCostInc = curCost; finalChange = curChange; minPos = blkPos; }] *)
Definition sbh_keep_min (blkPos cost change : Z) (s : sbh_search) : sbh_search :=
  if cost <? minCostInc s then
    {| minCostInc := cost; minPos := blkPos; finalChange := change;
       curCost := cost; curChange := change |}
  else
    {| minCostInc := minCostInc s; minPos := minPos s; finalChange := finalChange s;
       curCost := cost; curChange := change |}.

(** Body of the search loop of [signBitHidingHDQ]. *)
Definition hdq_cost_step (coeff deltaU resi : list Z) (scan : Z -> Z)
    (cgStartPos firstNZPosInCG signbit : Z) (n : Z) (s : sbh_search) : sbh_search :=
  let blkPos := scan (n + cgStartPos) in
  let '(cost, change) :=
    if nz (rd coeff blkPos) then
      if rd deltaU blkPos >? 0 then (- rd deltaU blkPos, 1)
      else if (n =? firstNZPosInCG) && (Z.abs (rd coeff blkPos) =? 1)
           then (MAX_INT, curChange s)
           else (rd deltaU blkPos, -1)
    else if n <? firstNZPosInCG then
      let thisSignBit := if rd resi blkPos >=? 0 then 0 else 1 in
      if negb (thisSignBit =? signbit) then (MAX_INT, curChange s)
      else (- rd deltaU blkPos, 1)
    else (- rd deltaU blkPos, 1) in
  sbh_keep_min blkPos cost change s.

(** The update both sign-hiding passes end with: the clamp guard, the
    adjustment of [numSig], and the change applied away from or towards zero
    according to the sign of the DCT coefficient. *)
Definition sbh_apply (coeff resi : list Z) (numSig minPos finalChange : Z) : list Z * Z :=
  let finalChange :=
    if (rd coeff minPos =? 32767) || (rd coeff minPos =? -32768) then -1 else finalChange in
  let numSig :=
    if negb (nz (rd coeff minPos)) then u32 (numSig + 1)
    else if (finalChange =? -1) && (Z.abs (rd coeff minPos) =? 1) then u32 (numSig - 1)
    else numSig in
  let coeff :=
    if rd resi minPos >=? 0 then aset coeff minPos (rd coeff minPos + finalChange)
    else aset coeff minPos (rd coeff minPos - finalChange) in
  (coeff, numSig).

Definition sbh_search_init : sbh_search :=
  {| minCostInc := MAX_INT; minPos := -1; finalChange := 0;
     curCost := MAX_INT; curChange := 0 |}.

(** [signbit] and the parity test of a group whose first and last non-zero
    positions are given. *)
Definition cg_signbit (coeff : list Z) (scan : Z -> Z) (cgStartPos firstNZPosInCG : Z) : Z :=
  if rd coeff (scan (cgStartPos + firstNZPosInCG)) >? 0 then 0 else 1.

Definition cg_absSum (coeff : list Z) (scan : Z -> Z)
    (cgStartPos firstNZPosInCG lastNZPosInCG : Z) : Z :=
  for_range firstNZPosInCG (Z.to_nat (lastNZPosInCG - firstNZPosInCG + 1))
    (fun n absSum => u32 (absSum + rd coeff (scan (n + cgStartPos)))) 0.

(** One iteration of the loop over coefficient groups of [signBitHidingHDQ];
    the state is [(coeff, numSig, lastCG)]. *)
Definition hdq_cg_step (deltaU resi : list Z) (scan : Z -> Z) (cg : Z)
    (st : list Z * Z * bool) : list Z * Z * bool :=
  let '(coeff, numSig, lastCG) := st in
  let cgStartPos := cg ≪ LOG2_SCAN_SET_SIZE in
  let n := lastNZ_from (Z.to_nat SCAN_SET_SIZE) coeff scan cgStartPos in
  if n <? 0 then st
  else
    let lastNZPosInCG := n in
    let firstNZPosInCG := firstNZ_from (Z.to_nat SCAN_SET_SIZE) 0 coeff scan cgStartPos in
    let '(coeff, numSig) :=
      if lastNZPosInCG - firstNZPosInCG >=? SBH_THRESHOLD then
        let signbit := cg_signbit coeff scan cgStartPos firstNZPosInCG in
        let absSum := cg_absSum coeff scan cgStartPos firstNZPosInCG lastNZPosInCG in
        if negb (signbit =? Z.land absSum 1) then
          let s := for_down
                     (Z.to_nat ((if lastCG then lastNZPosInCG else SCAN_SET_SIZE - 1) + 1))
                     (hdq_cost_step coeff deltaU resi scan cgStartPos firstNZPosInCG signbit)
                     sbh_search_init in
          sbh_apply coeff resi numSig (minPos s) (finalChange s)
        else (coeff, numSig)
      else (coeff, numSig) in
    (coeff, numSig, false).

(** [Quant::signBitHidingHDQ(coeff, deltaU, numSig, codeParams)]; [resi] is
    [m_resiDctCoeff].  Returns the levels and the new [numSig]. *)
Definition signBitHidingHDQ (resi : list Z) (coeff deltaU : list Z) (numSig : Z)
    (codeParams : TUEntropyCodingParameters) : list Z * Z :=
  let '(coeff, numSig, _) :=
    for_down (Z.to_nat (1 ≪ (log2TrSizeCG codeParams * 2)))
      (hdq_cg_step deltaU resi (scan codeParams)) (coeff, numSig, true) in
  (coeff, numSig).

(** ** quant.cpp: helpers of the anonymous namespace *)

(** [double] arithmetic.  [Z2d] is the conversion of an integer to [double]
    (round to nearest even), [d2Z] the truncating conversion back. *)
Definition Z2d (z : Z) : float :=
  SF2Prim (SpecFloat.binary_normalize FloatOps.prec FloatOps.emax z 0 false).

Definition d2Z (x : float) : Z :=
  match Prim2SF x with
  | SpecFloat.S754_finite s m e =>
      let a := if e <? 0 then Z.pos m / 2 ^ (- e) else Z.pos m * 2 ^ e in
      if s then - a else a
  | _ => 0
  end.

(** [CLZ32(id, x)]: the macro maps to the BSR instruction, the index of the
    highest set bit. *)
Definition CLZ32 (x : Z) : Z := Z.log2 x.

(** [#define SIGN(x,y) ((x^(y >> 31))-(y >> 31))], as quant.cpp applies it:
    to two [int]s, the subtraction wrapping to 32 bits. *)
Definition SIGN (x y : Z) : Z := s32 (Z.lxor x (y ≫ 31) - (y ≫ 31)).

Record coeffGroupRDStats := {
  nnzBeforePos0 : Z;
  codedLevelAndDist : float;
  uncodedDist : float;
  sigCost : float;
  sigCost0 : float
}.

Definition fastMin (x y : Z) : Z :=
  y + Z.land (s32 (x - y)) (s32 (x - y) ≫ 31).

(** [denoiseDct(dctCoef, resSum, offset, numCoeff)]; [level] and [sign] are
    [int]s and [resSum] holds [uint32_t]s, so every step wraps to 32 bits. *)
Definition denoiseDct (dctCoef resSum : list Z) (offset : Z -> Z) (numCoeff : Z)
    : list Z * list Z :=
  for_up (Z.to_nat numCoeff) (fun i '(dctCoef, resSum) =>
    let level := rd dctCoef i in
    let sign := level ≫ 31 in
    let level := Z.lxor (s32 (level + sign)) sign in
    let resSum := aset resSum i (u32 (rd resSum i + level)) in
    let level := s32 (level - offset i) in
    (aset dctCoef i (if level <? 0 then 0 else s32 (Z.lxor level sign - sign)), resSum))
    (dctCoef, resSum).

Definition getICRate `{Config} (absLevel diffLevel : Z) (greaterOneBits levelAbsBits : Z -> Z)
    (absGoRice c1c2Idx : Z) : Z :=
  if absLevel =? 0 then 0
  else if diffLevel <? 0 then
    let rate := greaterOneBits (b2z (absLevel =? 2)) in
    if absLevel =? 2 then rate + levelAbsBits 0 else rate
  else
    let symbol := u32 diffLevel in
    let maxVlc := g_goRiceRange absGoRice in
    let expGolomb := symbol >? maxVlc in
    let '(rate, symbol) :=
      if expGolomb then
        let absLevel := u32 (symbol - maxVlc) in
        let size := CLZ32 absLevel in
        let egs := size * 2 + 1 in
        (egs ≪ 15, u32 (maxVlc + 1))
      else (0, symbol) in
    let prefLen := u32 ((symbol ≫ absGoRice) + 1) in
    let numBins := u32 (fastMin (u32 (prefLen + absGoRice)) 8) in
    let rate := rate + (numBins ≪ 15) in
    let rate := if nz (Z.land c1c2Idx 1) then rate + greaterOneBits 1 else rate in
    if c1c2Idx =? 3 then rate + levelAbsBits 1 else rate.

(** Calculates the cost for specific absolute transform level. *)
Definition getICRateCost `{Config} (absLevel diffLevel : Z) (greaterOneBits levelAbsBits : Z -> Z)
    (absGoRice c1c2Idx : Z) : Z :=
  if diffLevel <? 0 then
    let rate := u32 (greaterOneBits (b2z (absLevel =? 2))) in
    if absLevel =? 2 then u32 (rate + levelAbsBits 0) else rate
  else
    let symbol := u32 diffLevel in
    let rate :=
      if (symbol ≫ absGoRice) <? COEF_REMAIN_BIN_REDUCTION then
        let length := symbol ≫ absGoRice in
        u32 ((length + 1 + absGoRice) ≪ 15)
      else
        let symbol := u32 ((symbol ≫ absGoRice) - COEF_REMAIN_BIN_REDUCTION) in
        let length := if nz symbol then CLZ32 (u32 (symbol + 1)) else 0 in
        u32 ((COEF_REMAIN_BIN_REDUCTION + length + absGoRice + 1 + length) ≪ 15) in
    let rate := if nz (Z.land c1c2Idx 1) then u32 (rate + greaterOneBits 1) else rate in
    if c1c2Idx =? 3 then u32 (rate + levelAbsBits 1) else rate.

(** ** quant.cpp: context derivation *)

(** Pattern decision for context derivation process of significant_coeff_flag. *)
Definition calcPatternSigCtx (sigCoeffGroupFlag64 cgPosX cgPosY log2TrSizeCG : Z) : Z :=
  if log2TrSizeCG =? 0 then 0
  else
    let trSizeCG := 1 ≪ log2TrSizeCG in
    let sigPos := u32 (sigCoeffGroupFlag64 ≫ (1 + (cgPosY ≪ log2TrSizeCG) + cgPosX)) in
    let sigRight := Z.land (u32 (s32 (cgPosX - (trSizeCG - 1)) ≫ 31)) (Z.land sigPos 1) in
    let sigLower :=
      Z.land (Z.land (u32 (s32 (cgPosY - (trSizeCG - 1)) ≫ 31)) (sigPos ≫ (trSizeCG - 2))) 2 in
    u32 (sigRight + sigLower).

Definition ctxIndMap : list Z :=
  [0; 1; 4; 5;
   2; 3; 4; 5;
   6; 6; 8; 8;
   7; 7; 8; 8].

(** [table_cnt[patternSigCtx][posXinSubset][posYinSubset]] *)
Definition table_cnt : list (list (list Z)) :=
  [ [ [2; 1; 1; 0]; [1; 1; 0; 0]; [1; 0; 0; 0]; [0; 0; 0; 0] ];
    [ [2; 1; 0; 0]; [2; 1; 0; 0]; [2; 1; 0; 0]; [2; 1; 0; 0] ];
    [ [2; 2; 2; 2]; [1; 1; 1; 1]; [0; 0; 0; 0]; [0; 0; 0; 0] ];
    [ [2; 2; 2; 2]; [2; 2; 2; 2]; [2; 2; 2; 2]; [2; 2; 2; 2] ] ].

(** Context derivation process of coeff_abs_significant_flag. *)
Definition getSigCtxInc (patternSigCtx log2TrSize trSize blkPos : Z) (bIsLuma : bool)
    (firstSignificanceMapContext : Z) : Z :=
  if blkPos =? 0 then 0
  else if log2TrSize =? 2 then rd ctxIndMap blkPos
  else
    let posY := blkPos ≫ log2TrSize in
    let posX := Z.land blkPos (trSize - 1) in
    let posXinSubset := Z.land blkPos 3 in
    let posYinSubset := Z.land posY 3 in
    let cnt := rd (aget [] (aget [] table_cnt patternSigCtx) posXinSubset) posYinSubset in
    let offset := firstSignificanceMapContext + cnt in
    if bIsLuma && (Z.lor posX posY >=? 4) then 3 + offset else offset.

(** Calculates the cost of signaling the last significant coefficient in the block. *)
Definition getRateLast `{Config} (est : EstBitsSbac) (posx posy : Z) : Z :=
  let ctxX := getGroupIdx posx in
  let ctxY := getGroupIdx posy in
  let cost := u32 (lastXBits est ctxX + lastYBits est ctxY) in
  let maskX := s32 (2 - posx) ≫ 31 in
  let maskY := s32 (2 - posy) ≫ 31 in
  let cost := u32 (cost + Z.land (u32 maskX) (u32 (IEP_RATE * (u32 (ctxX - 2) ≫ 1)))) in
  u32 (cost + Z.land (u32 maskY) (u32 (IEP_RATE * (u32 (ctxY - 2) ≫ 1)))).

Definition getSigCoeffGroupCtxInc (cgGroupMask cgPosX cgPosY log2TrSizeCG : Z) : Z :=
  let trSizeCG := 1 ≪ log2TrSizeCG in
  let sigPos := u32 (cgGroupMask ≫ (1 + (cgPosY ≪ log2TrSizeCG) + cgPosX)) in
  let sigRight := Z.land (u32 (s32 (cgPosX - (trSizeCG - 1)) ≫ 31)) sigPos in
  let sigLower := Z.land (u32 (s32 (cgPosY - (trSizeCG - 1)) ≫ 31)) (sigPos ≫ (trSizeCG - 1)) in
  Z.land (Z.lor sigRight sigLower) 1.

(** ** quant.cpp: [Quant::rdoQuant] *)

Definition MLS_GRP_NUM : Z := 64.

(** The CABAC estimation state [ctxSet, c1, c2, goRiceParam, c1Idx, c2Idx]. *)
Record rdoq_ctx := {
  ctxSet : Z; c1 : Z; c2 : Z; goRiceParam : Z; c1Idx : Z; c2Idx : Z
}.

(** The local arrays of [rdoQuant]; the cost arrays are indexed by scan
    position, the rate arrays by block position. *)
Record rdoq_tabs := {
  costCoeff : list float;
  costUncoded : list float;
  costSig : list float;
  rateIncUp : list Z;
  rateIncDown : list Z;
  sigRateDelta : list Z;
  deltaU : list Z;
  costCoeffGroupSig : list float
}.

(** The locals the two main loops of [rdoQuant] update. *)
Record rdoq := {
  dstCoeff : list Z;
  tabs : rdoq_tabs;
  ctx : rdoq_ctx;
  sigCoeffGroupFlag64 : Z;
  cgLastScanPos : Z;
  lastScanPos : Z;
  totalUncodedCost : float;
  totalRdCost : float;
  cgRdStats : coeffGroupRDStats
}.

(** The locals of the search for the last position. *)
Record rdoq_last := {
  bestLastIdx : Z;
  bestCost : float;
  lastRdCost : float;       (* totalRdCost *)
  foundLast : bool
}.

Section RdoQuant.
Context `{Config}.
Variables (q : Quant) (cu : TComDataCU).
Variables (log2TrSize : Z) (ttype : TextType) (absPartIdx : Z) (usePsy : bool).

Definition rq_trSize : Z := u32 (1 ≪ log2TrSize).
Definition rq_transformShift : Z := MAX_TR_DYNAMIC_RANGE - X265_DEPTH - log2TrSize.
Definition rq_scalingListType : Z :=
  (if isIntra cu absPartIdx then 0 else 3) + ttype_idx ttype.
Definition rq_rem : Z := rem (m_qpParam q ttype).
Definition rq_per : Z := per (m_qpParam q ttype).
Definition rq_qbits : Z := QUANT_SHIFT + rq_per + rq_transformShift.
Definition rq_add : Z := 1 ≪ (rq_qbits - 1).
Definition rq_qCoef : Z -> Z :=
  m_quantCoef (m_scalingList q) (log2TrSize - 2) rq_scalingListType rq_rem.
Definition rq_numCoeff : Z := 1 ≪ (log2TrSize * 2).

Definition rq_unquantScale : Z -> Z :=
  m_dequantCoef (m_scalingList q) (log2TrSize - 2) rq_scalingListType rq_rem.
(** [unquantShift], [unquantRound], [unquantPreshift] *)
Definition rq_unquant : Z * Z * Z :=
  let unquantShift := QUANT_IQUANT_SHIFT - QUANT_SHIFT - rq_transformShift in
  let unquantShift := unquantShift + 4 in
  if unquantShift >? rq_per then (unquantShift, 1 ≪ (unquantShift - rq_per - 1), 0)
  else (unquantShift + 4, 0, 4).
Definition rq_unquantShift : Z := fst (fst rq_unquant).
Definition rq_unquantRound : Z := snd (fst rq_unquant).
Definition rq_unquantPreshift : Z := snd rq_unquant.
Definition rq_scaleBits : Z := SCALE_BITS - 2 * rq_transformShift.

Definition rq_lambda2 : float := m_lambdas q ttype.
Definition rq_bIsLuma : bool := TextType_eqb ttype TEXT_LUMA.
Definition rq_cgSize : Z := 1 ≪ MLS_CG_SIZE.

Definition rq_codeParams : TUEntropyCodingParameters :=
  getTUEntropyCodingParameters cu absPartIdx log2TrSize rq_bIsLuma.
Definition rq_cgNum : Z := u32 (1 ≪ (log2TrSizeCG rq_codeParams * 2)).

(** [(int)(((m_psyRdoqScale * x) << scaleBits) >> 8)] *)
Definition rq_psy (x : Z) : Z :=
  s32 (u64 (u64 (m_psyRdoqScale q * x) ≪ rq_scaleBits) ≫ 8).

(** Body of the loop over the candidate levels [lvl]; the state is
    [(level, costCoeff[scanPos], costSig[scanPos])]. *)
Definition rq_level_step (scanPos blkPos signCoef predictedCoef : Z)
    (greaterOneBits levelAbsBits : Z -> Z) (goRiceParam c1c2Idx baseLevel sigCoefBits : Z)
    (lvl : Z) (st : Z * float * float) : Z * float * float :=
  let '(level, cc, cs) := st in
  let levelBits :=
    u32 (getICRateCost lvl (s32 (lvl - baseLevel)) greaterOneBits levelAbsBits
           goRiceParam c1c2Idx + IEP_RATE) in
  let unquantAbsLevel :=
    s32 (u32 ((lvl ≪ rq_unquantPreshift) * (rq_unquantScale blkPos ≪ rq_per)
              + rq_unquantRound) ≫ rq_unquantShift) in
  let d := s32 (unquantAbsLevel - Z.abs signCoef) in
  let distortion := u64 (u64 (s32 (d * d)) ≪ rq_scaleBits) in
  let curCost := (Z2d distortion + rq_lambda2 * Z2d (u32 (sigCoefBits + levelBits)))%float in
  let curCost :=
    if usePsy && nz blkPos then
      let reconCoef := s32 (Z.abs (s32 (unquantAbsLevel + SIGN predictedCoef signCoef))) in
      (curCost - Z2d (rq_psy reconCoef))%float
    else curCost in
  if (curCost <? cc)%float then (lvl, curCost, (rq_lambda2 * Z2d sigCoefBits)%float)
  else (level, cc, cs).

(** The loop over the candidate levels, [maxAbsLevel] down to
    [minAbsLevel = X265_MAX(maxAbsLevel - 1, 1)], entered when [maxAbsLevel]
    is not zero; [(level, costCoeff[scanPos], costSig[scanPos])]. *)
Definition rq_choose_level (scanPos blkPos maxAbsLevel signCoef predictedCoef : Z)
    (greaterOneBits levelAbsBits : Z -> Z) (goRiceParam c1c2Idx baseLevel sigCoefBits : Z)
    (cc cs : float) : Z * float * float :=
  if nz maxAbsLevel then
    let minAbsLevel := X265_MAX (maxAbsLevel - 1) 1 in
    for_down (Z.to_nat (maxAbsLevel - minAbsLevel + 1))
      (fun i => rq_level_step scanPos blkPos signCoef predictedCoef greaterOneBits levelAbsBits
                  goRiceParam c1c2Idx baseLevel sigCoefBits (minAbsLevel + i))
      (0, cc, cs)
  else (0, cc, cs).

(** The coded branch of the coefficient loop: level estimation, the records
    for sign hiding and the update of the CABAC estimation state. *)
Definition rq_coded (cgScanPos patternSigCtx scanPos blkPos maxAbsLevel signCoef predictedCoef : Z)
    (scaledCoeff : list Z) (s : rdoq) : rdoq :=
  let est := m_estBitsSbac q in
  let t := tabs s in
  let x := ctx s in
  let c1c2Idx :=
    u32 ((u32 (c1Idx x - 8) ≫ 31) + ((s32 (- c2Idx x) ≫ 31) + 1) * 2) in
  let baseLevel := Z.land (217 ≫ (c1c2Idx * 2)) 3 in
  let oneCtx := u32 (4 * ctxSet x + c1 x) in
  let absCtx := u32 (ctxSet x + c2 x) in
  let gob := greaterOneBits est oneCtx in
  let lab := levelAbsBits est absCtx in
  let cc := MAX_DOUBLE in
  let cs := rdf (costSig t) scanPos in
  let '(cc, cs, srd, sigCoefBits) :=
    if scanPos =? lastScanPos s then (cc, cs, 0, 0)
    else
      let ctxSig := getSigCtxInc patternSigCtx log2TrSize rq_trSize blkPos rq_bIsLuma
                      (firstSignificanceMapContext rq_codeParams) in
      let '(cc, cs) :=
        if maxAbsLevel <? 3 then
          let cs := (rq_lambda2 * Z2d (significantBits est ctxSig 0))%float in
          ((rdf (costUncoded t) scanPos + cs)%float, cs)
        else (cc, cs) in
      (cc, cs, s32 (significantBits est ctxSig 1 - significantBits est ctxSig 0),
       u32 (significantBits est ctxSig 1)) in
  let '(level, cc, cs) :=
    rq_choose_level scanPos blkPos maxAbsLevel signCoef predictedCoef gob lab
      (goRiceParam x) c1c2Idx baseLevel sigCoefBits cc cs in
  let dU := s32 (rd scaledCoeff blkPos - (level ≪ rq_qbits)) ≫ (rq_qbits - 8) in
  let '(up, down) :=
    if nz level then
      let rateNow := getICRate level (s32 (level - baseLevel)) gob lab (goRiceParam x) c1c2Idx in
      (s32 (getICRate (level + 1) (s32 (level + 1 - baseLevel)) gob lab (goRiceParam x) c1c2Idx
            - rateNow),
       s32 (getICRate (level - 1) (s32 (level - 1 - baseLevel)) gob lab (goRiceParam x) c1c2Idx
            - rateNow))
    else (gob 0, 0) in
  let goRice :=
    if (level >=? baseLevel) && (goRiceParam x <? 4) && (level >? (3 ≪ goRiceParam x))
    then goRiceParam x + 1 else goRiceParam x in
  let c1Idx' := u32 (c1Idx x - (s32 (- level) ≫ 31)) in
  let '(c1', c2', c2Idx') :=
    if level >? 1 then (0, c2 x + (u32 (c2 x - 2) ≫ 31), u32 (c2Idx x + 1))
    else if (c1 x <? 3) && (c1 x >? 0) && nz level then (c1 x + 1, c2 x, c2Idx x)
    else (c1 x, c2 x, c2Idx x) in
  let x' :=
    if (Z.rem scanPos SCAN_SET_SIZE =? 0) && nz scanPos then
      let ctxSet' := if (scanPos =? SCAN_SET_SIZE) || negb rq_bIsLuma then 0 else 2 in
      {| ctxSet := u32 (ctxSet' - (s32 (c1' - 1) ≫ 31)); c1 := 1; c2 := 0;
         goRiceParam := 0; c1Idx := 0; c2Idx := 0 |}
    else
      {| ctxSet := ctxSet x; c1 := c1'; c2 := c2'; goRiceParam := goRice;
         c1Idx := c1Idx'; c2Idx := c2Idx' |} in
  {| dstCoeff := aset (dstCoeff s) blkPos level;
     tabs := {| costCoeff := aset (costCoeff t) scanPos cc;
                costUncoded := costUncoded t;
                costSig := aset (costSig t) scanPos cs;
                rateIncUp := aset (rateIncUp t) blkPos up;
                rateIncDown := aset (rateIncDown t) blkPos down;
                sigRateDelta := aset (sigRateDelta t) blkPos srd;
                deltaU := aset (deltaU t) blkPos dU;
                costCoeffGroupSig := costCoeffGroupSig t |};
     ctx := x';
     sigCoeffGroupFlag64 := sigCoeffGroupFlag64 s;
     cgLastScanPos := cgLastScanPos s;
     lastScanPos := lastScanPos s;
     totalUncodedCost := totalUncodedCost s;
     totalRdCost := (totalRdCost s + cc)%float;
     cgRdStats := cgRdStats s |}.

(** Body of the loop over the coefficients of a group, in reverse scan
    order. *)
Definition rq_coeff_step (scaledCoeff : list Z) (cgScanPos patternSigCtx cgBlkPosMask : Z)
    (scanPosinCG : Z) (s : rdoq) : rdoq :=
  let scanPos := u32 ((cgScanPos ≪ MLS_CG_SIZE) + scanPosinCG) in
  let blkPos := scan rq_codeParams scanPos in
  let maxAbsLevel := Z.abs (rd (dstCoeff s) blkPos) in
  let signCoef := rd (m_resiDctCoeff q) blkPos in
  let predictedCoef := s32 (rd (m_fencDctCoeff q) blkPos - signCoef) in
  let cu0 := Z2d (u64 (u64 (s32 (signCoef * signCoef)) ≪ rq_scaleBits)) in
  let cuv := if usePsy && nz blkPos then (cu0 - Z2d (rq_psy predictedCoef))%float else cu0 in
  let t := tabs s in
  let t1 := {| costCoeff := costCoeff t;
               costUncoded := aset (costUncoded t) scanPos cuv;
               costSig := costSig t;
               rateIncUp := rateIncUp t; rateIncDown := rateIncDown t;
               sigRateDelta := sigRateDelta t; deltaU := deltaU t;
               costCoeffGroupSig := costCoeffGroupSig t |} in
  let first := nz maxAbsLevel && (lastScanPos s <? 0) in
  let x := ctx s in
  let s1 :=
    {| dstCoeff := dstCoeff s;
       tabs := t1;
       ctx := if first
              then {| ctxSet := if (scanPos <? SCAN_SET_SIZE) || negb rq_bIsLuma then 0 else 2;
                      c1 := c1 x; c2 := c2 x; goRiceParam := goRiceParam x;
                      c1Idx := c1Idx x; c2Idx := c2Idx x |}
              else x;
       sigCoeffGroupFlag64 := sigCoeffGroupFlag64 s;
       cgLastScanPos := if first then cgScanPos else cgLastScanPos s;
       lastScanPos := if first then scanPos else lastScanPos s;
       totalUncodedCost := (totalUncodedCost s + cuv)%float;
       totalRdCost := totalRdCost s;
       cgRdStats := cgRdStats s |} in
  let s2 :=
    if lastScanPos s1 <? 0 then
      {| dstCoeff := dstCoeff s1;
         tabs := {| costCoeff := aset (costCoeff t1) scanPos 0%float;
                    costUncoded := costUncoded t1;
                    costSig := aset (costSig t1) scanPos 0%float;
                    rateIncUp := rateIncUp t1; rateIncDown := rateIncDown t1;
                    sigRateDelta := sigRateDelta t1; deltaU := deltaU t1;
                    costCoeffGroupSig := costCoeffGroupSig t1 |};
         ctx := ctx s1;
         sigCoeffGroupFlag64 := sigCoeffGroupFlag64 s1;
         cgLastScanPos := cgLastScanPos s1;
         lastScanPos := lastScanPos s1;
         totalUncodedCost := totalUncodedCost s1;
         totalRdCost := (totalRdCost s1 + cuv)%float;
         cgRdStats := cgRdStats s1 |}
    else
      rq_coded cgScanPos patternSigCtx scanPos blkPos maxAbsLevel signCoef predictedCoef
        scaledCoeff s1 in
  let t2 := tabs s2 in
  let g := cgRdStats s2 in
  let sig := rdf (costSig t2) scanPos in
  let coded := nz (rd (dstCoeff s2) blkPos) in
  {| dstCoeff := dstCoeff s2;
     tabs := t2;
     ctx := ctx s2;
     sigCoeffGroupFlag64 :=
       if coded then Z.lor (sigCoeffGroupFlag64 s2) cgBlkPosMask else sigCoeffGroupFlag64 s2;
     cgLastScanPos := cgLastScanPos s2;
     lastScanPos := lastScanPos s2;
     totalUncodedCost := totalUncodedCost s2;
     totalRdCost := totalRdCost s2;
     cgRdStats :=
       {| nnzBeforePos0 := if coded then nnzBeforePos0 g + scanPosinCG else nnzBeforePos0 g;
          codedLevelAndDist :=
            if coded then (codedLevelAndDist g + (rdf (costCoeff t2) scanPos - sig))%float
            else codedLevelAndDist g;
          uncodedDist :=
            if coded then (uncodedDist g + rdf (costUncoded t2) scanPos)%float
            else uncodedDist g;
          sigCost := (sigCost g + sig)%float;
          sigCost0 := if scanPosinCG =? 0 then sig else sigCost0 g |} |}.

(** "reset all coeffs to 0. UNCODE THIS COEFF GROUP!"; the state is
    [(dstCoeff, costCoeff, costSig)]. *)
Definition rq_uncode_cg (costUncoded : list float) (cgScanPos : Z)
    (st : list Z * list float * list float) : list Z * list float * list float :=
  for_down (Z.to_nat rq_cgSize) (fun scanPosinCG '(dst, cc, cs) =>
    let scanPos := u32 (cgScanPos * rq_cgSize + scanPosinCG) in
    let blkPos := scan rq_codeParams scanPos in
    let '(cc, cs) :=
      if nz (rd dst blkPos) then (aset cc scanPos (rdf costUncoded scanPos), aset cs scanPos 0%float)
      else (cc, cs) in
    (aset dst blkPos 0, cc, cs)) st.

Definition rq_with_cg (s : rdoq) (dst : list Z) (cc cs cgs : list float)
    (flag : Z) (total : float) (g : coeffGroupRDStats) : rdoq :=
  let t := tabs s in
  {| dstCoeff := dst;
     tabs := {| costCoeff := cc; costUncoded := costUncoded t; costSig := cs;
                rateIncUp := rateIncUp t; rateIncDown := rateIncDown t;
                sigRateDelta := sigRateDelta t; deltaU := deltaU t;
                costCoeffGroupSig := cgs |};
     ctx := ctx s;
     sigCoeffGroupFlag64 := flag;
     cgLastScanPos := cgLastScanPos s;
     lastScanPos := lastScanPos s;
     totalUncodedCost := totalUncodedCost s;
     totalRdCost := total;
     cgRdStats := g |}.

(** "Summarize costs for the coeff group" *)
Definition rq_cg_summary (cgScanPos cgPosX cgPosY cgBlkPosMask : Z) (s : rdoq) : rdoq :=
  let est := m_estBitsSbac q in
  let t := tabs s in
  let g := cgRdStats s in
  let lg := log2TrSizeCG rq_codeParams in
  if cgLastScanPos s >=? 0 then
    let cgs := aset (costCoeffGroupSig t) cgScanPos 0%float in
    if cgScanPos =? 0 then
      rq_with_cg s (dstCoeff s) (costCoeff t) (costSig t) cgs
        (Z.lor (sigCoeffGroupFlag64 s) cgBlkPosMask) (totalRdCost s) g
    else if Z.land (sigCoeffGroupFlag64 s) cgBlkPosMask =? 0 then
      let ctxSig := getSigCoeffGroupCtxInc (sigCoeffGroupFlag64 s) cgPosX cgPosY lg in
      let c := (rq_lambda2 * Z2d (significantCoeffGroupBits est ctxSig 0))%float in
      rq_with_cg s (dstCoeff s) (costCoeff t) (costSig t) (aset cgs cgScanPos c)
        (sigCoeffGroupFlag64 s) (totalRdCost s + c - sigCost g)%float g
    else if cgScanPos <? cgLastScanPos s then
      let sigCtx := getSigCoeffGroupCtxInc (sigCoeffGroupFlag64 s) cgPosX cgPosY lg in
      let '(total, g) :=
        if nnzBeforePos0 g =? 0 then
          ((totalRdCost s - sigCost0 g)%float,
           {| nnzBeforePos0 := nnzBeforePos0 g; codedLevelAndDist := codedLevelAndDist g;
              uncodedDist := uncodedDist g; sigCost := (sigCost g - sigCost0 g)%float;
              sigCost0 := sigCost0 g |})
        else (totalRdCost s, g) in
      let costZeroCG :=
        (total + rq_lambda2 * Z2d (significantCoeffGroupBits est sigCtx 0)
         + uncodedDist g - codedLevelAndDist g - sigCost g)%float in
      let c1bit := (rq_lambda2 * Z2d (significantCoeffGroupBits est sigCtx 1))%float in
      let cgs := aset cgs cgScanPos c1bit in
      let total := (total + c1bit)%float in
      if (costZeroCG <? total)%float then
        let '(dst, cc, cs) :=
          rq_uncode_cg (costUncoded t) cgScanPos (dstCoeff s, costCoeff t, costSig t) in
        rq_with_cg s dst cc cs
          (aset cgs cgScanPos (rq_lambda2 * Z2d (significantCoeffGroupBits est sigCtx 0))%float)
          (Z.land (sigCoeffGroupFlag64 s) (u64 (Z.lnot cgBlkPosMask))) costZeroCG g
      else rq_with_cg s (dstCoeff s) (costCoeff t) (costSig t) cgs
             (sigCoeffGroupFlag64 s) total g
    else rq_with_cg s (dstCoeff s) (costCoeff t) (costSig t) cgs
           (sigCoeffGroupFlag64 s) (totalRdCost s) g
  else s.

Definition cgRdStats_zero : coeffGroupRDStats :=
  {| nnzBeforePos0 := 0; codedLevelAndDist := 0%float; uncodedDist := 0%float;
     sigCost := 0%float; sigCost0 := 0%float |}.

(** Body of the loop "iterate over coding groups in reverse scan order". *)
Definition rq_cg_step (scaledCoeff : list Z) (cgScanPos : Z) (s : rdoq) : rdoq :=
  let lg := log2TrSizeCG rq_codeParams in
  let cgBlkPos := scanCG rq_codeParams cgScanPos in
  let cgPosY := cgBlkPos ≫ lg in
  let cgPosX := u32 (cgBlkPos - (cgPosY ≪ lg)) in
  let cgBlkPosMask := u64 (1 ≪ cgBlkPos) in
  let s := rq_with_cg s (dstCoeff s) (costCoeff (tabs s)) (costSig (tabs s))
             (costCoeffGroupSig (tabs s)) (sigCoeffGroupFlag64 s) (totalRdCost s)
             cgRdStats_zero in
  let patternSigCtx := calcPatternSigCtx (sigCoeffGroupFlag64 s) cgPosX cgPosY lg in
  let s := for_down (Z.to_nat rq_cgSize)
             (rq_coeff_step scaledCoeff cgScanPos patternSigCtx cgBlkPosMask) s in
  rq_cg_summary cgScanPos cgPosX cgPosY cgBlkPosMask s.

(** The state on entry to the loop over the coefficient groups.  The local
    arrays are not initialised by the source; every entry is written before
    it is read, and they start zero-filled here. *)
Definition rq_init (dst : list Z) : rdoq :=
  let zf := replicate (32 * 32) 0%float in
  let zi := replicate (32 * 32) 0 in
  {| dstCoeff := dst;
     tabs := {| costCoeff := zf; costUncoded := zf; costSig := zf;
                rateIncUp := zi; rateIncDown := zi; sigRateDelta := zi; deltaU := zi;
                costCoeffGroupSig := replicate (Z.to_nat MLS_GRP_NUM) 0%float |};
     ctx := {| ctxSet := 0; c1 := 1; c2 := 0; goRiceParam := 0; c1Idx := 0; c2Idx := 0 |};
     sigCoeffGroupFlag64 := 0;
     cgLastScanPos := -1;
     lastScanPos := -1;
     totalUncodedCost := 0%float;
     totalRdCost := 0%float;
     cgRdStats := cgRdStats_zero |}.

(** The loop "iterate over coding groups in reverse scan order". *)
Definition rq_main (scaledCoeff dst : list Z) : rdoq :=
  for_down (Z.to_nat rq_cgNum) (rq_cg_step scaledCoeff) (rq_init dst).

(** "estimate cost of uncoded block CBF=0": [(bestCost, totalRdCost)]. *)
Definition rq_cbf (s : rdoq) : float * float :=
  let est := m_estBitsSbac q in
  if negb (isIntra cu absPartIdx) && rq_bIsLuma && (getTransformIdx cu absPartIdx =? 0) then
    ((totalUncodedCost s + rq_lambda2 * Z2d (blockRootCbpBits est 0 0))%float,
     (totalRdCost s + rq_lambda2 * Z2d (blockRootCbpBits est 0 1))%float)
  else
    let ctx := getCtxQtCbf cu ttype (getTransformIdx cu absPartIdx) in
    ((totalUncodedCost s + rq_lambda2 * Z2d (blockCbpBits est ctx 0))%float,
     (totalRdCost s + rq_lambda2 * Z2d (blockCbpBits est ctx 1))%float).

(** Body of the inner loop of "Find the least cost last non-zero coefficient
    position"; once [foundLast] is set the loop has been left. *)
Definition rq_last_coeff_step (s : rdoq) (cgScanPos scanPosinCG : Z) (l : rdoq_last)
    : rdoq_last :=
  if foundLast l then l
  else
    let t := tabs s in
    let scanPos := u32 (cgScanPos * rq_cgSize + scanPosinCG) in
    if scanPos >? lastScanPos s then l
    else
      let blkPos := scan rq_codeParams scanPos in
      if nz (rd (dstCoeff s) blkPos) then
        let posY := blkPos ≫ log2TrSize in
        let posX := u32 (blkPos - (posY ≪ log2TrSize)) in
        let bitsLast :=
          if scanType rq_codeParams =? SCAN_VER then getRateLast (m_estBitsSbac q) posY posX
          else getRateLast (m_estBitsSbac q) posX posY in
        let rdCostLast :=
          (lastRdCost l + rq_lambda2 * Z2d bitsLast - rdf (costSig t) scanPos)%float in
        let better := (rdCostLast <? bestCost l)%float in
        let idx := if better then scanPos + 1 else bestLastIdx l in
        let best := if better then rdCostLast else bestCost l in
        if rd (dstCoeff s) blkPos >? 1 then
          {| bestLastIdx := idx; bestCost := best; lastRdCost := lastRdCost l;
             foundLast := true |}
        else
          {| bestLastIdx := idx; bestCost := best;
             lastRdCost := (lastRdCost l - rdf (costCoeff t) scanPos
                            + rdf (costUncoded t) scanPos)%float;
             foundLast := false |}
      else
        {| bestLastIdx := bestLastIdx l; bestCost := bestCost l;
           lastRdCost := (lastRdCost l - rdf (costSig t) scanPos)%float;
           foundLast := false |}.

Definition rq_last_cg_step (s : rdoq) (cgScanPos : Z) (l : rdoq_last) : rdoq_last :=
  if foundLast l then l
  else
    let cgBlkPos := scanCG rq_codeParams cgScanPos in
    let l := {| bestLastIdx := bestLastIdx l; bestCost := bestCost l;
                lastRdCost := (lastRdCost l
                               - rdf (costCoeffGroupSig (tabs s)) cgScanPos)%float;
                foundLast := false |} in
    if Z.land (sigCoeffGroupFlag64 s) (u64 (1 ≪ cgBlkPos)) =? 0 then l
    else for_down (Z.to_nat rq_cgSize) (rq_last_coeff_step s cgScanPos) l.

(** "Find the least cost last non-zero coefficient position" *)
Definition rq_last (s : rdoq) : rdoq_last :=
  let '(bestCost, total) := rq_cbf s in
  for_down (Z.to_nat (cgLastScanPos s + 1)) (rq_last_cg_step s)
    {| bestLastIdx := 0; bestCost := bestCost; lastRdCost := total; foundLast := false |}.

(** "recount non-zero coefficients and re-apply sign of DCT coef" *)
Definition rq_recount (bestLastIdx : Z) (dst : list Z) : list Z * Z :=
  for_up (Z.to_nat bestLastIdx) (fun pos '(dst, numSig) =>
    let blkPos := scan rq_codeParams pos in
    let level := rd dst blkPos in
    let numSig := u32 (numSig + b2z (nz level)) in
    let mask := s32 (rd (m_resiDctCoeff q) blkPos) ≫ 31 in
    (aset dst blkPos (Z.lxor level mask - mask), numSig)) (dst, 0).

(** "clean uncoded coefficients" *)
Definition rq_clean (bestLastIdx lastScanPos : Z) (dst : list Z) : list Z :=
  for_range bestLastIdx (Z.to_nat (lastScanPos - bestLastIdx + 1))
    (fun pos dst => aset dst (scan rq_codeParams pos) 0) dst.

Definition rq_rdFactor : Z :=
  let invQuant := s_invQuantScales rq_rem ≪ rq_per in
  d2Z (Z2d (invQuant * invQuant) / (rq_lambda2 * 16) + 0.5)%float.

(** Body of the search loop of the rate-distortion based sign hiding. *)
Definition rdsbh_cost_step (dst : list Z) (t : rdoq_tabs) (rdFactor : Z) (lastCG : bool)
    (subPos firstNZPosInCG lastNZPosInCG signbit : Z) (n : Z) (s : sbh_search) : sbh_search :=
  let blkPos := scan rq_codeParams (n + subPos) in
  let '(cost, change) :=
    if nz (rd dst blkPos) then
      let costUp := rdFactor * (- rd (deltaU t) blkPos) + rd (rateIncUp t) blkPos in
      let isOne := Z.abs (rd dst blkPos) =? 1 in
      let costDown :=
        rdFactor * rd (deltaU t) blkPos + rd (rateIncDown t) blkPos
        - (if isOne then (1 ≪ 15) + rd (sigRateDelta t) blkPos else 0) in
      let costDown :=
        if lastCG && (lastNZPosInCG =? n) && isOne then costDown - (4 ≪ 15) else costDown in
      if costUp <? costDown then (costUp, 1)
      else if (n =? firstNZPosInCG) && isOne then (MAX_INT64, -1)
      else (costDown, -1)
    else
      let cost := rdFactor * (- Z.abs (rd (deltaU t) blkPos)) + (1 ≪ 15)
                  + rd (rateIncUp t) blkPos + rd (sigRateDelta t) blkPos in
      if n <? firstNZPosInCG then
        let thissignbit := if rd (m_resiDctCoeff q) blkPos >=? 0 then 0 else 1 in
        if negb (thissignbit =? signbit) then (MAX_INT64, 1) else (cost, 1)
      else (cost, 1) in
  sbh_keep_min blkPos cost change s.

Definition rdsbh_search_init : sbh_search :=
  {| minCostInc := MAX_INT64; minPos := -1; finalChange := 0;
     curCost := MAX_INT64; curChange := 0 |}.

(** [absSum] of the rate-distortion pass, an [int]. *)
Definition rdsbh_absSum (dst : list Z) (subPos firstNZPosInCG lastNZPosInCG : Z) : Z :=
  for_range firstNZPosInCG (Z.to_nat (lastNZPosInCG - firstNZPosInCG + 1))
    (fun n absSum => absSum + rd dst (scan rq_codeParams (n + subPos))) 0.

(** One iteration of the loop over [subSet]; the state is
    [(dstCoeff, numSig, lastCG)]. *)
Definition rdsbh_cg_step (t : rdoq_tabs) (rdFactor : Z) (subSet : Z)
    (st : list Z * Z * bool) : list Z * Z * bool :=
  let '(dst, numSig, lastCG) := st in
  let sc := scan rq_codeParams in
  let subPos := subSet ≪ LOG2_SCAN_SET_SIZE in
  let n := lastNZ_from (Z.to_nat SCAN_SET_SIZE) dst sc subPos in
  if n <? 0 then st
  else
    let lastNZPosInCG := n in
    let firstNZPosInCG := firstNZ_from (Z.to_nat SCAN_SET_SIZE) 0 dst sc subPos in
    let '(dst, numSig) :=
      if lastNZPosInCG - firstNZPosInCG >=? SBH_THRESHOLD then
        let signbit := cg_signbit dst sc subPos firstNZPosInCG in
        let absSum := rdsbh_absSum dst subPos firstNZPosInCG lastNZPosInCG in
        if negb (signbit =? Z.land (u32 absSum) 1) then
          let s := for_down
                     (Z.to_nat ((if lastCG then lastNZPosInCG else SCAN_SET_SIZE - 1) + 1))
                     (rdsbh_cost_step dst t rdFactor lastCG subPos firstNZPosInCG
                        lastNZPosInCG signbit)
                     rdsbh_search_init in
          sbh_apply dst (m_resiDctCoeff q) numSig (minPos s) (finalChange s)
        else (dst, numSig)
      else (dst, numSig) in
    (dst, numSig, false).

(** "rate-distortion based sign-hiding" *)
Definition rq_signhide (t : rdoq_tabs) (cgLastScanPos : Z) (dst : list Z) (numSig : Z)
    : list Z * Z :=
  let '(dst, numSig, _) :=
    for_down (Z.to_nat (cgLastScanPos + 1)) (rdsbh_cg_step t rq_rdFactor)
      (dst, numSig, true) in
  (dst, numSig).

(** Everything after the search for the last position. *)
Definition rq_finish (s : rdoq) (bestLastIdx : Z) : list Z * Z :=
  let '(dst, numSig) := rq_recount bestLastIdx (dstCoeff s) in
  let dst := rq_clean bestLastIdx (lastScanPos s) dst in
  if bSignHideEnabled cu && (numSig >=? 2) then
    rq_signhide (tabs s) (cgLastScanPos s) dst numSig
  else (dst, numSig).

(** [Quant::rdoQuant(cu, dstCoeff, log2TrSize, ttype, absPartIdx, usePsy)]:
    the levels written to [dstCoeff] and the returned [numSig]. *)
Definition rdoQuant (dstCoeff0 : list Z) : list Z * Z :=
  let '(scaledCoeff, dst, numSig) :=
    nquant_c (m_resiDctCoeff q) rq_qCoef (replicate (32 * 32) 0) dstCoeff0
      rq_qbits rq_add rq_numCoeff in
  if numSig =? 0 then (dst, 0)
  else
    let s := rq_main scaledCoeff dst in
    if lastScanPos s <? 0 then (dstCoeff s, 0)
    else rq_finish s (bestLastIdx (rq_last s)).

End RdoQuant.

(** ** quant.cpp: the orchestrator *)

(** First DCT entry of the primitive tables; the DST entry precedes it
    ([index = DCT_4x4 + sizeIdx - useDST]). *)
Definition DCT_4x4 : Z := 1.
Definition IDCT_4x4 : Z := 1.

Definition Quant_with_bufs (q : Quant) (resi fencDct fencShort : list Z) (nr : NoiseReduction)
    : Quant :=
  {| m_useRDOQ := m_useRDOQ q; m_psyRdoqScale := m_psyRdoqScale q;
     m_scalingList := m_scalingList q;
     m_resiDctCoeff := resi; m_fencDctCoeff := fencDct; m_fencShortBuf := fencShort;
     m_qpParam := m_qpParam q; m_nr := nr; m_lambdas := m_lambdas q;
     m_estBitsSbac := m_estBitsSbac q |}.

(** The forward stage of [transformNxN]: transform skip or DCT/DST, the
    source DCT for psy-rdoq, and noise reduction. *)
Definition transform_stage `{Config} (p : EncoderPrimitives) (q : Quant) (cu : TComDataCU)
    (fenc : list Z) (fencStride : Z) (residual : list Z) (stride : Z)
    (log2TrSize : Z) (ttype : TextType) (absPartIdx : Z) (useTransformSkip : bool) : Quant :=
  let isLuma := TextType_eqb ttype TEXT_LUMA in
  let usePsy := nz (m_psyRdoqScale q) && isLuma && negb useTransformSkip in
  let isIntra := isIntra cu absPartIdx in
  let transformShift := MAX_TR_DYNAMIC_RANGE - X265_DEPTH - log2TrSize in
  let trSize := 1 ≪ log2TrSize in
  if useTransformSkip then
    let resi :=
      if (X265_DEPTH <=? 10) || (transformShift >=? 0) then
        cvt16to32_shl p (m_resiDctCoeff q) residual stride transformShift trSize
      else
        let shift := - transformShift in
        let offset := 1 ≪ (shift - 1) in
        cvt16to32_shr p (log2TrSize - 2) (m_resiDctCoeff q) residual stride shift offset in
    Quant_with_bufs q resi (m_fencDctCoeff q) (m_fencShortBuf q) (m_nr q)
  else
    let sizeIdx := log2TrSize - 2 in
    let useDST := b2z ((sizeIdx =? 0) && isLuma && isIntra) in
    let index := DCT_4x4 + sizeIdx - useDST in
    let resi := prim_dct p index residual (m_resiDctCoeff q) stride in
    let '(fencShort, fencDct) :=
      if usePsy then
        let fs := square_copy_ps p sizeIdx (m_fencShortBuf q) trSize fenc fencStride in
        (fs, prim_dct p index fs (m_fencDctCoeff q) trSize)
      else (m_fencShortBuf q, m_fencDctCoeff q) in
    let nr := m_nr q in
    if bNoiseReduction nr && negb isIntra then
      let cat := sizeIdx + 4 * b2z (negb isLuma) in
      let numCoeff := 1 ≪ (log2TrSize * 2) in
      let '(resi, sum) := denoiseDct resi (residualSum nr cat) (offsetDenoise nr cat) numCoeff in
      Quant_with_bufs q resi fencDct fencShort
        {| bNoiseReduction := bNoiseReduction nr;
           residualSum := fun c => if c =? cat then sum else residualSum nr c;
           offsetDenoise := offsetDenoise nr;
           nr_count := fun c => if c =? cat then nr_count nr c + 1 else nr_count nr c |}
    else Quant_with_bufs q resi fencDct fencShort nr.

(** [Quant::transformNxN]: the updated object, the levels written to [coeff]
    and the returned [numSig]. *)
Definition transformNxN `{Config} (p : EncoderPrimitives) (q : Quant) (cu : TComDataCU)
    (fenc : list Z) (fencStride : Z) (residual : list Z) (stride : Z) (coeff : list Z)
    (log2TrSize : Z) (ttype : TextType) (absPartIdx : Z) (useTransformSkip : bool)
    : Quant * list Z * Z :=
  if getCUTransquantBypass cu absPartIdx then
    let '(coeff, numSig) := cvt16to32_cnt (1 ≪ log2TrSize) coeff residual stride in
    (q, coeff, numSig)
  else
    let isLuma := TextType_eqb ttype TEXT_LUMA in
    let usePsy := nz (m_psyRdoqScale q) && isLuma && negb useTransformSkip in
    let transformShift := MAX_TR_DYNAMIC_RANGE - X265_DEPTH - log2TrSize in
    let q := transform_stage p q cu fenc fencStride residual stride log2TrSize ttype
               absPartIdx useTransformSkip in
    if m_useRDOQ q then
      let '(coeff, numSig) := rdoQuant q cu log2TrSize ttype absPartIdx usePsy coeff in
      (q, coeff, numSig)
    else
      let scalingListType := ttype_idx ttype + (if isLuma then 3 else 0) in
      let rem := rem (m_qpParam q ttype) in
      let per := per (m_qpParam q ttype) in
      let quantCoeff := m_quantCoef (m_scalingList q) (log2TrSize - 2) scalingListType rem in
      let qbits := QUANT_SHIFT + per + transformShift in
      let add := (if isISlice cu then 171 else 85) ≪ (qbits - 9) in
      let numCoeff := 1 ≪ (log2TrSize * 2) in
      let '(deltaU, coeff, numSig) :=
        quant_c (m_resiDctCoeff q) quantCoeff (replicate (32 * 32) 0) coeff qbits add numCoeff in
      if (numSig >=? 2) && bSignHideEnabled cu then
        let codeParams := getTUEntropyCodingParameters cu absPartIdx log2TrSize isLuma in
        let '(coeff, numSig) := signBitHidingHDQ (m_resiDctCoeff q) coeff deltaU numSig codeParams in
        (q, coeff, numSig)
      else (q, coeff, numSig).

(** The dequantisation stage of [invtransformNxN]: the new [m_resiDctCoeff]. *)
Definition dequant_stage `{Config} (p : EncoderPrimitives) (q : Quant) (coeff : list Z)
    (log2TrSize : Z) (ttype : TextType) (bIntra : bool) : list Z :=
  let rem := rem (m_qpParam q ttype) in
  let per := per (m_qpParam q ttype) in
  let transformShift := MAX_TR_DYNAMIC_RANGE - X265_DEPTH - log2TrSize in
  let shift := QUANT_IQUANT_SHIFT - QUANT_SHIFT - transformShift in
  let numCoeff := 1 ≪ (log2TrSize * 2) in
  if m_bEnabled (m_scalingList q) then
    let scalingListType := (if bIntra then 0 else 3) + ttype_idx ttype in
    let dequantCoef := m_dequantCoef (m_scalingList q) (log2TrSize - 2) scalingListType rem in
    dequant_scaling p coeff dequantCoef (m_resiDctCoeff q) numCoeff per shift
  else
    let scale := s_invQuantScales rem ≪ per in
    dequant_normal p coeff (m_resiDctCoeff q) numCoeff scale shift.

(** The value of the "DC only" branch of [invtransformNxN]. *)
Definition dc_val `{Config} (coef0 : Z) : Z :=
  let shift_1st := 7 in
  let add_1st := 1 ≪ (shift_1st - 1) in
  let shift_2nd := 12 - (X265_DEPTH - 8) in
  let add_2nd := 1 ≪ (shift_2nd - 1) in
  (((coef0 * 64 + add_1st) ≫ shift_1st) * 64 + add_2nd) ≫ shift_2nd.

(** [Quant::invtransformNxN]: the new [m_resiDctCoeff] and the residual. *)
Definition invtransformNxN `{Config} (p : EncoderPrimitives) (q : Quant)
    (transQuantBypass : bool) (residual : list Z) (stride : Z) (coeff : list Z)
    (log2TrSize : Z) (ttype : TextType) (bIntra useTransformSkip : bool) (numSig : Z)
    : list Z * list Z :=
  if transQuantBypass then
    let trSize := 1 ≪ log2TrSize in
    (m_resiDctCoeff q,
     for_up (Z.to_nat trSize) (fun k residual =>
       for_up (Z.to_nat trSize) (fun j residual =>
         aset residual (k * stride + j) (s16 (rd coeff (k * trSize + j)))) residual) residual)
  else
    let transformShift := MAX_TR_DYNAMIC_RANGE - X265_DEPTH - log2TrSize in
    let resi := dequant_stage p q coeff log2TrSize ttype bIntra in
    if useTransformSkip then
      let trSize := 1 ≪ log2TrSize in
      let shift := transformShift in
      (resi,
       if (X265_DEPTH <=? 10) || (shift >=? 0) then
         cvt32to16_shr p residual resi stride shift trSize
       else cvt32to16_shl p (log2TrSize - 2) residual resi stride (- shift))
    else
      let sizeIdx := log2TrSize - 2 in
      let useDST := (sizeIdx =? 0) && TextType_eqb ttype TEXT_LUMA && bIntra in
      if (numSig =? 1) && nz (rd coeff 0) && negb useDST then
        (resi, blockfill_s (1 ≪ log2TrSize) residual stride (s16 (dc_val (rd resi 0))))
      else
        (resi, prim_idct p (IDCT_4x4 + sizeIdx - b2z useDST) resi residual stride).

(** The inverse pipeline without the DC shortcut: dequantisation followed by
    the inverse transform kernel, as section 4.G describes the general path. *)
Definition invtransformNxN_full `{Config} (p : EncoderPrimitives) (q : Quant)
    (residual : list Z) (stride : Z) (coeff : list Z)
    (log2TrSize : Z) (ttype : TextType) (bIntra : bool) : list Z * list Z :=
  let resi := dequant_stage p q coeff log2TrSize ttype bIntra in
  let sizeIdx := log2TrSize - 2 in
  let useDST := (sizeIdx =? 0) && TextType_eqb ttype TEXT_LUMA && bIntra in
  (resi, prim_idct p (IDCT_4x4 + sizeIdx - b2z useDST) resi residual stride).

(** Modelled from the spec: the inverse DCT kernels of dct.cpp, which is not
    among the sources.  Section 4.B: the kernels follow HEVC, two passes of
    the butterfly matrix with right shifts 7 and [12 - (depth-8)], rounding
    by [1 << (shift-1)]; coefficients are 16-bit, so each pass saturates.
    The matrix [g_t] is a parameter. *)
Definition partialButterflyInverse (g_t : Z -> Z -> Z) (N : Z) (src : list Z) (shift : Z)
    : list Z :=
  let add := 1 ≪ (shift - 1) in
  for_up (Z.to_nat N) (fun j dst =>
    for_up (Z.to_nat N) (fun k dst =>
      let sum := for_up (Z.to_nat N) (fun i acc => acc + g_t i k * rd src (i * N + j)) 0 in
      aset dst (j * N + k) (Clip3 (-32768) 32767 ((sum + add) ≫ shift))) dst)
    (replicate (Z.to_nat (N * N)) 0).

Definition idct_c `{Config} (g_t : Z -> Z -> Z) (N : Z) (src dst : list Z) (stride : Z) : list Z :=
  let shift_1st := 7 in
  let shift_2nd := 12 - (X265_DEPTH - 8) in
  let coef := for_up (Z.to_nat (N * N)) (fun i c => aset c i (s16 (rd src i)))
                (replicate (Z.to_nat (N * N)) 0) in
  let block := partialButterflyInverse g_t N coef shift_1st in
  let coef := partialButterflyInverse g_t N block shift_2nd in
  for_up (Z.to_nat N) (fun y dst =>
    for_up (Z.to_nat N) (fun x dst => aset dst (y * stride + x) (rd coef (y * N + x))) dst) dst.

(** ** A concrete build: the 8-bit configuration

    The values of common.h and TComRom.cpp for an 8-bit build, used where a
    property is evaluated on concrete data. *)

Definition table (l : list Z) (i : Z) : Z := rd l i.

#[local] Instance x265_8bit : Config := {|
  X265_DEPTH := 8;
  pixel_bits := 8;
  MAX_TR_DYNAMIC_RANGE := 15;
  QUANT_SHIFT := 14;
  QUANT_IQUANT_SHIFT := 20;
  SCALE_BITS := 15;
  IEP_RATE := 32768;
  COEF_REMAIN_BIN_REDUCTION := 3;
  MAX_DOUBLE := 0x1.e42d130773b76p+1023%float;
  g_goRiceRange := table [7; 14; 26; 46; 78];
  g_chromaScale := table
    [0; 1; 2; 3; 4; 5; 6; 7; 8; 9; 10; 11; 12; 13; 14; 15; 16; 17; 18; 19;
     20; 21; 22; 23; 24; 25; 26; 27; 28; 29; 29; 30; 31; 32; 33; 33; 34; 34; 35; 35;
     36; 36; 37; 37; 38; 39; 40; 41; 42; 43; 44; 45; 46; 47; 48; 49; 50; 51];
  getGroupIdx := table
    [0; 1; 2; 3; 4; 4; 5; 5; 6; 6; 6; 6; 7; 7; 7; 7;
     8; 8; 8; 8; 8; 8; 8; 8; 9; 9; 9; 9; 9; 9; 9; 9];
  s_invQuantScales := table [40; 45; 51; 57; 64; 72]
|}.

(** Sum of the [width] top and the [width] left neighbours of the reference
    array. *)
Definition sumZ (n : nat) (f : Z -> Z) : Z := for_up n (fun i acc => acc + f i) 0.

Definition dc_neighbours (width : Z) (srcPix : list Z) : Z :=
  sumZ (Z.to_nat width) (fun i => rd srcPix (1 + i))
  + sumZ (Z.to_nat width) (fun i => rd srcPix (2 * width + 1 + i)).

(** A reference array for N = 4 whose first four top and left samples are 0
    and whose last four are 100. *)
Definition dc_sample_ref : list Z :=
  [0; 0; 0; 0; 0; 100; 100; 100; 100; 0; 0; 0; 0; 100; 100; 100; 100].

(** ** Sample collaborators

    Concrete objects on which properties are evaluated: a 4x4 transform unit
    in up-right diagonal scan, flat scaling lists, one-bit CABAC costs, and
    a primitive table whose transform entries copy the block. *)

Definition scan4x4_diag : list Z := [0; 4; 1; 8; 5; 2; 12; 9; 6; 3; 13; 10; 7; 14; 11; 15].

Definition sample_codeParams : TUEntropyCodingParameters :=
  {| scan := table scan4x4_diag; scanCG := table [0]; scanType := 0;
     log2TrSizeCG := 0; firstSignificanceMapContext := 0 |}.

Definition sample_cu (bypass intra signHide : bool) : TComDataCU :=
  {| getCUTransquantBypass := fun _ => bypass;
     isIntra := fun _ => intra;
     getTransformIdx := fun _ => 0;
     getCtxQtCbf := fun _ _ => 0;
     getTUEntropyCodingParameters := fun _ _ _ => sample_codeParams;
     isISlice := intra;
     bSignHideEnabled := signHide |}.

Definition sample_estBits : EstBitsSbac :=
  {| significantCoeffGroupBits := fun _ _ => 32768;
     significantBits := fun _ _ => 32768;
     lastXBits := fun _ => 32768;
     lastYBits := fun _ => 32768;
     greaterOneBits := fun _ _ => 32768;
     levelAbsBits := fun _ _ => 32768;
     blockCbpBits := fun _ _ => 32768;
     blockRootCbpBits := fun _ _ => 32768 |}.

Definition sample_scalingList : ScalingList :=
  {| m_bEnabled := false;
     m_quantCoef := fun _ _ rem _ => table [26214; 23302; 20560; 18396; 16384; 14564] rem;
     m_dequantCoef := fun _ _ rem _ => 16 * table [40; 45; 51; 57; 64; 72] rem |}.

Definition sample_nr : NoiseReduction :=
  {| bNoiseReduction := false; residualSum := fun _ => []; offsetDenoise := fun _ _ => 0;
     nr_count := fun _ => 0 |}.

(** A [Quant] object at QP [qpv] for every component, with [m_resiDctCoeff]
    holding [resi]. *)
Definition sample_quant (useRDOQ : bool) (qpv : Z) (lambda : float) (resi : list Z)
    : Quant :=
  {| m_useRDOQ := useRDOQ; m_psyRdoqScale := 0;
     m_scalingList := sample_scalingList;
     m_resiDctCoeff := resi;
     m_fencDctCoeff := replicate (32 * 32) 0;
     m_fencShortBuf := replicate (32 * 32) 0;
     m_qpParam := fun _ => setQpParam qpv;
     m_nr := sample_nr;
     m_lambdas := fun _ => lambda;
     m_estBitsSbac := sample_estBits |}.

(** Copy of a [size] x [size] block from [src] (row length [stride]) to the
    start of [dst]. *)
Definition copy_block (size : Z) (src dst : list Z) (stride : Z) : list Z :=
  for_up (Z.to_nat size) (fun k dst =>
    for_up (Z.to_nat size) (fun j dst =>
      aset dst (k * size + j) (rd src (k * stride + j))) dst) dst.

Definition sample_primitives : EncoderPrimitives :=
  {| prim_dct := fun idx src dst stride => copy_block 4 src dst stride;
     prim_idct := fun idx src dst stride => copy_block 4 src dst 4;
     cvt16to32_shl := fun dst src stride shift size => copy_block size src dst stride;
     cvt16to32_shr := fun _ dst src stride shift offset => copy_block 4 src dst stride;
     cvt32to16_shr := fun dst src stride shift size => copy_block size src dst size;
     cvt32to16_shl := fun _ dst src stride shift => copy_block 4 src dst 4;
     square_copy_ps := fun _ dst dstStride src srcStride => copy_block 4 src dst srcStride;
     dequant_scaling := fun quantCoef deQuantCoef coef num per shift => quantCoef;
     dequant_normal := fun quantCoef coef num scale shift => quantCoef |}.

Definition sample_residual : list Z :=
  [64; -3; 0; 0; 5; 0; 0; 0; 0; 0; 1; 0; 0; 0; 0; -200].

(** ** Vocabulary of the statements *)

(** The level [l] lies on the side of zero its DCT coefficient [d] lies on:
    the sign bit of a non-zero level is the sign bit of [d]. *)
Definition side_ok (l d : Z) : Prop := (0 <= d -> 0 <= l) /\ (d < 0 -> l <= 0).

Definition sides_ok (coeff resi : list Z) : Prop :=
  forall pos, side_ok (rd coeff pos) (rd resi pos).

(** A non-zero level carries the sign of its DCT coefficient. *)
Definition same_sign (l d : Z) : Prop := l <> 0 -> (l < 0 <-> d < 0).

(** Every zero of [b] is a zero of [a]. *)
Definition supp_le (a b : list Z) : Prop := forall p, rd b p = 0 -> rd a p = 0.

(** A non-zero level has the sign of its DCT coefficient. *)
Definition sign_agrees (l d : Z) : Prop := l <> 0 -> Z.sgn l = Z.sgn d.

(** [n] is the first / the last non-zero scan position of the coefficient
    group that starts at scan position [start]. *)
Definition is_firstNZ (coeff : list Z) (scan : Z -> Z) (start n : Z) : Prop :=
  0 <= n < SCAN_SET_SIZE /\ rd coeff (scan (n + start)) <> 0 /\
  forall i, 0 <= i < n -> rd coeff (scan (i + start)) = 0.

Definition is_lastNZ (coeff : list Z) (scan : Z -> Z) (start n : Z) : Prop :=
  0 <= n < SCAN_SET_SIZE /\ rd coeff (scan (n + start)) <> 0 /\
  forall i, n < i < SCAN_SET_SIZE -> rd coeff (scan (i + start)) = 0.

(** Sum of the absolute levels of the group. *)
Definition cg_abs_levels (coeff : list Z) (scan : Z -> Z) (start : Z) : Z :=
  sumZ (Z.to_nat SCAN_SET_SIZE) (fun n => Z.abs (rd coeff (scan (n + start)))).

(** The condition under which sign-bit hiding touches a group: first and last
    non-zero positions at least [SBH_THRESHOLD] apart, and the sign bit of
    the first non-zero level different from the parity of the sum of the
    absolute levels. *)
Definition sbh_condition (coeff : list Z) (scan : Z -> Z) (start : Z) : Prop :=
  exists f l, is_firstNZ coeff scan start f /\ is_lastNZ coeff scan start l /\
    l - f >= SBH_THRESHOLD /\
    (if rd coeff (scan (f + start)) <? 0 then 1 else 0) <> cg_abs_levels coeff scan start mod 2.

(** What quant.cpp expects of the entropy-coding geometry of a transform
    unit of [1 << log2TrSize] samples a side: the coefficient groups tile the
    block and [scan] enumerates its raster positions without repetition. *)
Definition codeParams_wf (cp : TUEntropyCodingParameters) (log2TrSize : Z) : Prop :=
  log2TrSizeCG cp = log2TrSize - 2 /\
  (forall i, 0 <= i < 1 ≪ (log2TrSize * 2) -> 0 <= scan cp i < 1 ≪ (log2TrSize * 2)) /\
  (forall i j, 0 <= i < 1 ≪ (log2TrSize * 2) -> 0 <= j < 1 ≪ (log2TrSize * 2) ->
     scan cp i = scan cp j -> i = j).

(** The 64-bit cost arithmetic of the rate-distortion sign hiding stays in
    range at block position [p]. *)
Definition rdsbh_cost_bounded (t : rdoq_tabs) (rdFactor p : Z) : Prop :=
  Z.abs (rdFactor * rd (deltaU t) p) + Z.abs (rd (rateIncUp t) p)
  + Z.abs (rd (rateIncDown t) p) + Z.abs (rd (sigRateDelta t) p) + 163840 < MAX_INT64.

(** What sign-bit hiding may do to the group starting at scan position
    [start], from the levels [coeff] to the levels [out]: nothing unless
    [sbh_condition] holds, and then exactly one level of the group moves by
    one in absolute value. *)
Definition cg_frame (coeff out : list Z) (scan : Z -> Z) (start : Z) : Prop :=
  (~ sbh_condition coeff scan start ->
   forall n, 0 <= n < SCAN_SET_SIZE -> rd out (scan (n + start)) = rd coeff (scan (n + start))) /\
  (sbh_condition coeff scan start ->
   exists n, 0 <= n < SCAN_SET_SIZE /\
     (Z.abs (rd out (scan (n + start))) = Z.abs (rd coeff (scan (n + start))) + 1 \/
      Z.abs (rd out (scan (n + start))) = Z.abs (rd coeff (scan (n + start))) - 1) /\
     forall m, 0 <= m < SCAN_SET_SIZE -> m <> n ->
       rd out (scan (m + start)) = rd coeff (scan (m + start))).

(** Invariant of the main loop of [rdoQuant] once every scan position from
    [b] upwards has been visited; [dst0] are the levels [nquant] produced.
    Below [b] the levels are untouched; [lastScanPos] is the highest scan
    position with a non-zero level, nothing is set above it, and the levels
    already visited are absolute values. *)
Definition rq_inv (sc : Z -> Z) (N2 : Z) (dst0 : list Z) (b : Z) (s : rdoq) : Prop :=
  length (dstCoeff s) = length dst0 /\
  (forall pos, 0 <= pos < b -> rd (dstCoeff s) (sc pos) = rd dst0 (sc pos)) /\
  (lastScanPos s < 0 ->
     lastScanPos s = -1 /\ cgLastScanPos s = -1 /\ dstCoeff s = dst0 /\
     forall pos, b <= pos < N2 -> rd dst0 (sc pos) = 0) /\
  (0 <= lastScanPos s ->
     b <= lastScanPos s < N2 /\ cgLastScanPos s = lastScanPos s ≫ 4 /\
     (forall pos, lastScanPos s < pos < N2 -> rd (dstCoeff s) (sc pos) = 0) /\
     (forall pos, b <= pos <= lastScanPos s -> 0 <= rd (dstCoeff s) (sc pos))).

(** The entries of [a] are values of a 32-bit [coeff_t]. *)
Definition int32_array (a : list Z) : Prop :=
  forall i, - 2 ^ 31 <= rd a i < 2 ^ 31.

(** The value of the local [bestLastIdx] of [rdoQuant] once the search for
    the last position has run. *)
Definition rdoQuant_bestLastIdx `{Config} (q : Quant) (cu : TComDataCU) (log2TrSize : Z)
    (ttype : TextType) (absPartIdx : Z) (usePsy : bool) (dstCoeff0 : list Z) : Z :=
  let '(scaledCoeff, dst, _) :=
    nquant_c (m_resiDctCoeff q) (rq_qCoef q cu log2TrSize ttype absPartIdx)
      (replicate (32 * 32) 0) dstCoeff0 (rq_qbits q log2TrSize ttype)
      (rq_add q log2TrSize ttype) (rq_numCoeff log2TrSize) in
  bestLastIdx (rq_last q cu log2TrSize ttype absPartIdx
                 (rq_main q cu log2TrSize ttype absPartIdx usePsy scaledCoeff dst)).

(** The 64-bit cost arithmetic of the rate-distortion sign hiding of this
    call of [rdoQuant] stays in range. *)
Definition rdoq_sbh_costs_in_range `{Config} (q : Quant) (cu : TComDataCU) (log2TrSize : Z)
    (ttype : TextType) (absPartIdx : Z) (usePsy : bool) (dstCoeff0 : list Z) : Prop :=
  let '(scaledCoeff, dst, _) :=
    nquant_c (m_resiDctCoeff q) (rq_qCoef q cu log2TrSize ttype absPartIdx)
      (replicate (32 * 32) 0) dstCoeff0 (rq_qbits q log2TrSize ttype)
      (rq_add q log2TrSize ttype) (rq_numCoeff log2TrSize) in
  forall p,
    rdsbh_cost_bounded
      (tabs (rq_main q cu log2TrSize ttype absPartIdx usePsy scaledCoeff dst))
      (rq_rdFactor q ttype) p.

(** ** Decision procedures for the side conditions

    Boolean counterparts of the well-formedness and range conditions, for
    evaluating them on concrete data. *)

Definition Zrange (n : Z) : list Z := Z.of_nat <$> seq 0 (Z.to_nat n).

Definition codeParams_wfb (cp : TUEntropyCodingParameters) (log2TrSize : Z) : bool :=
  let n := 1 ≪ (log2TrSize * 2) in
  (log2TrSizeCG cp =? log2TrSize - 2) &&
  forallb (fun i => (0 <=? scan cp i) && (scan cp i <? n)) (Zrange n) &&
  forallb (fun i => forallb (fun j => negb (scan cp i =? scan cp j) || (i =? j)) (Zrange n))
    (Zrange n).

Definition int32_arrayb (a : list Z) : bool :=
  forallb (fun x => (- 2 ^ 31 <=? x) && (x <? 2 ^ 31)) a.

Definition side_okb (l d : Z) : bool :=
  (negb (0 <=? d) || (0 <=? l)) && (negb (d <? 0) || (l <=? 0)).

Definition sides_okb (coeff resi : list Z) : bool :=
  (length coeff <=? length resi)%nat &&
  forallb (fun i => side_okb (rd coeff i) (rd resi i)) (Zrange (Z.of_nat (length coeff))).

Definition rdsbh_cost_boundedb (t : rdoq_tabs) (rdFactor : Z) : bool :=
  (length (deltaU t) <=? 1024)%nat && (length (rateIncUp t) <=? 1024)%nat &&
  (length (rateIncDown t) <=? 1024)%nat && (length (sigRateDelta t) <=? 1024)%nat &&
  forallb (fun p =>
    Z.abs (rdFactor * rd (deltaU t) p) + Z.abs (rd (rateIncUp t) p)
    + Z.abs (rd (rateIncDown t) p) + Z.abs (rd (sigRateDelta t) p) + 163840 <? MAX_INT64)
    (Zrange 1024).

Definition rdoq_sbh_costs_in_rangeb `{Config} (q : Quant) (cu : TComDataCU) (log2TrSize : Z)
    (ttype : TextType) (absPartIdx : Z) (usePsy : bool) (dstCoeff0 : list Z) : bool :=
  let '(scaledCoeff, dst, _) :=
    nquant_c (m_resiDctCoeff q) (rq_qCoef q cu log2TrSize ttype absPartIdx)
      (replicate (32 * 32) 0) dstCoeff0 (rq_qbits q log2TrSize ttype)
      (rq_add q log2TrSize ttype) (rq_numCoeff log2TrSize) in
  rdsbh_cost_boundedb
    (tabs (rq_main q cu log2TrSize ttype absPartIdx usePsy scaledCoeff dst))
    (rq_rdFactor q ttype).

(** ** Sample blocks *)

(** DCT coefficients of a 4x4 block, in the 32x32 buffer [m_resiDctCoeff]:
    512 at raster position 0 and 200 at raster position 2 (scan position 5
    of the diagonal scan). *)
Definition rdoq_sample_resi : list Z := [512; 0; 200] ++ replicate (32 * 32 - 3) 0.

(** The same block as a residual of stride 4. *)
Definition rdoq_sample_residual : list Z := [512; 0; 200] ++ replicate 13 0.


(** Levels of a 4x4 block with their DCT coefficients and rounding errors:
    the first and the last non-zero scan positions are 0 and 5, the sum of
    the absolute levels is odd and the first level is positive, so sign-bit
    hiding has to change one level. *)
Definition hdq_sample_resi : list Z := [800; 0; 500; 0; -600] ++ replicate (32 * 32 - 5) 0.
Definition hdq_sample_levels : list Z := [3; 0; 2; 0; -2] ++ replicate 11 0.
Definition hdq_sample_deltaU : list Z := [40; 0; -90; 0; 120] ++ replicate 11 0.

(** Cost tables of [rdoQuant] with every entry zero. *)
Definition sample_tabs : rdoq_tabs :=
  {| costCoeff := replicate (32 * 32) 0%float;
     costUncoded := replicate (32 * 32) 0%float;
     costSig := replicate (32 * 32) 0%float;
     rateIncUp := replicate (32 * 32) 0;
     rateIncDown := replicate (32 * 32) 0;
     sigRateDelta := replicate (32 * 32) 0;
     deltaU := hdq_sample_deltaU;
     costCoeffGroupSig := replicate 64 0%float |}.


(** ** Reference kernels of the inverse path for 4x4 units *)

(** Modelled from the spec: [primitives.dequant_normal] (absent from the
    sources), sections 3 and 4.D: the level times the scale, shifted right
    with rounding and clamped to the signed 16-bit interval. *)
Definition dequant_normal_c (quantCoef coef : list Z) (num scale shift : Z) : list Z :=
  let add := 1 ≪ (shift - 1) in
  for_up (Z.to_nat num) (fun n coef =>
    aset coef n (Clip3 (-32768) 32767 ((rd quantCoef n * scale + add) ≫ shift))) coef.

(** Modelled from the spec: [primitives.cvt32to16_shr] (absent from the
    sources), glossary: transform skip performs only a shift. *)
Definition cvt32to16_shr_c (dst src : list Z) (stride shift size : Z) : list Z :=
  let round := 1 ≪ (shift - 1) in
  for_up (Z.to_nat size) (fun i dst =>
    for_up (Z.to_nat size) (fun j dst =>
      aset dst (i * stride + j) (s16 ((rd src (i * size + j) + round) ≫ shift))) dst) dst.

(** The 4x4 DCT matrix of HEVC. *)
Definition g_t4 (i k : Z) : Z :=
  table [64; 64; 64; 64; 83; 36; -36; -83; 64; -64; -64; 64; 36; -83; 83; -36] (i * 4 + k).

(** The sample primitive table with the reference kernels on the inverse
    side. *)
Definition reference_primitives `{Config} : EncoderPrimitives :=
  {| prim_dct := prim_dct sample_primitives;
     prim_idct := fun idx src dst stride => idct_c g_t4 4 src dst stride;
     cvt16to32_shl := cvt16to32_shl sample_primitives;
     cvt16to32_shr := cvt16to32_shr sample_primitives;
     cvt32to16_shr := cvt32to16_shr_c;
     cvt32to16_shl := cvt32to16_shl sample_primitives;
     square_copy_ps := square_copy_ps sample_primitives;
     dequant_scaling := dequant_scaling sample_primitives;
     dequant_normal := dequant_normal_c |}.

(** A 4x4 block of levels whose only non-zero level is the DC level. *)
Definition dc_sample_levels : list Z := [5] ++ replicate 15 0.

(** Only the coefficient at position 0 of the [n] coefficients may be
    non-zero. *)
Definition dc_only (a : list Z) (n : Z) : Prop := forall i, 0 < i < n -> rd a i = 0.

Definition dc_onlyb (a : list Z) (n : Z) : bool :=
  forallb (fun i => (i =? 0) || (rd a i =? 0)) (Zrange n).

(** What the inverse path expects of the dequantiser: a zero level
    dequantises to zero and every dequantised coefficient is a signed 16-bit
    value. *)
Definition dequant_contract (coeff resi : list Z) (n : Z) : Prop :=
  forall i, 0 <= i < n ->
    (rd coeff i = 0 -> rd resi i = 0) /\ -32768 <= rd resi i <= 32767.

Definition dequant_contractb (coeff resi : list Z) (n : Z) : bool :=
  forallb (fun i => (nz (rd coeff i) || (rd resi i =? 0)) &&
                    (-32768 <=? rd resi i) && (rd resi i <=? 32767)) (Zrange n).


(** ** Notions of the proofs *)

(** A block written sample by sample, as the two nested loops of the copy
    and fill routines do. *)
Definition fill2 (n m : nat) (idx val : Z -> Z -> Z) (a : list Z) : list Z :=
  for_up n (fun k a => for_up m (fun l a => aset a (idx k l) (val k l)) a) a.

(** Sum of a list. *)
Definition zsum (l : list Z) : Z := foldr Z.add 0 l.

(** The search has settled on a coefficient of the group and on a change of
    +1 or -1, +1 if the coefficient is zero. *)
Definition sbh_chosen (coeff : list Z) (scan : Z -> Z) (start top : Z) (s : sbh_search) : Prop :=
  exists n, 0 <= n <= top /\ minPos s = scan (n + start) /\
    (finalChange s = 1 \/ finalChange s = -1) /\
    (rd coeff (minPos s) = 0 -> finalChange s = 1).

(** Invariant of the search loops once the iterations down to [i] have run:
    either a coefficient is chosen, or the locals are as initialised; with
    [forced], the latter only while the last non-zero position [l] is still
    ahead. *)
Definition sbh_inv (coeff : list Z) (scan : Z -> Z) (start top l MAXV : Z) (forced : Prop)
    (i : Z) (s : sbh_search) : Prop :=
  minCostInc s <= MAXV /\
  (sbh_chosen coeff scan start top s \/
   (minPos s = -1 /\ finalChange s = 0 /\ minCostInc s = MAXV /\ (forced -> l < i))).

(** Case analysis on the pairs a loop state is matched against. *)
Ltac destruct_pairs :=
  repeat match goal with
         | |- context [match ?e with pair _ _ => _ end] => destruct e
         end.

(** What the search loops of both sign-hiding passes never settle on: a zero
    coefficient before the first non-zero one whose DCT coefficient has the
    other sign bit, and lowering the first non-zero coefficient from
    magnitude 1. *)
Definition sbh_vetoed (coeff resi : list Z) (scan : Z -> Z) (start f signbit : Z)
    (s : sbh_search) : Prop :=
  forall n, 0 <= n < SCAN_SET_SIZE -> minPos s = scan (n + start) ->
    (n < f -> (if rd resi (scan (n + start)) >=? 0 then 0 else 1) = signbit) /\
    (n = f -> ~ (finalChange s = -1 /\ Z.abs (rd coeff (scan (n + start))) = 1)).

(** The levels of every coefficient group obey the sign-hiding rule: where
    the first and the last non-zero level are at least [SBH_THRESHOLD] apart,
    the sign bit of the first is the parity of the sum of the absolute
    levels. *)
Definition sign_hidden (coeff : list Z) (cp : TUEntropyCodingParameters) : Prop :=
  forall cg, 0 <= cg < 1 ≪ (log2TrSizeCG cp * 2) ->
    ~ sbh_condition coeff (scan cp) (cg ≪ LOG2_SCAN_SET_SIZE).


(** ** intrapred.cpp: planar prediction *)

(** [planar_pred_c_new<log2Size>(dst, dstStride, srcPix, dirMode, bFilter)];
    [above = srcPix + 1] and [left = srcPix + (2 * blkSize + 1)]. *)
Definition planar_pred_c_new `{Config} (log2Size : Z) (dst : list Z) (dstStride : Z)
    (srcPix : list Z) : list Z :=
  let blkSize := 1 ≪ log2Size in
  let above := 1 in
  let left := 2 * blkSize + 1 in
  let topRight := rd srcPix (above + blkSize) in
  let bottomLeft := rd srcPix (left + blkSize) in
  for_up (Z.to_nat blkSize) (fun y dst =>
    for_up (Z.to_nat blkSize) (fun x dst =>
      aset dst (y * dstStride + x)
        (to_pixel (((blkSize - 1 - x) * rd srcPix (left + y)
                    + (blkSize - 1 - y) * rd srcPix (above + x)
                    + (x + 1) * topRight + (y + 1) * bottomLeft + blkSize)
                   ≫ (log2Size + 1)))) dst) dst.

(** A reference array for a 4x4 block: corner, 8 top and 8 left samples. *)
Definition planar_sample_ref : list Z :=
  [128; 100; 104; 108; 112; 116; 120; 124; 128; 90; 88; 86; 84; 82; 80; 78; 76].

(** [planar_sample_ref] with the top and the left samples exchanged. *)
Definition planar_sample_ref_T : list Z :=
  [128; 90; 88; 86; 84; 82; 80; 78; 76; 100; 104; 108; 112; 116; 120; 124; 128].

(** ** intrapred.cpp: angular prediction *)

Definition angleTable : list Z :=
  [-32; -26; -21; -17; -13; -9; -5; -2; 0; 2; 5; 9; 13; 17; 21; 26; 32].

Definition invAngleTable : list Z := [4096; 1638; 910; 630; 482; 390; 315; 256].

(** The neighbours with top and left exchanged, as [intra_pred_ang_c_new]
    builds them in its local [neighbourBuf] for a horizontal mode. *)
Definition flip_neighbours (neighbourBuf : list Z) (width : Z) (srcPix : list Z) : list Z :=
  let width2 := width ≪ 1 in
  let neighbourBuf := aset neighbourBuf 0 (rd srcPix 0) in
  for_up (Z.to_nat (width ≪ 1)) (fun i neighbourBuf =>
    let neighbourBuf := aset neighbourBuf (1 + i) (rd srcPix (width2 + 1 + i)) in
    aset neighbourBuf (width2 + 1 + i) (rd srcPix (1 + i))) neighbourBuf.

(** The reference row of an angular mode: the array [ref] points into and
    the index of [ref[0]] in it.  For a negative angle it is the local
    [refBuf], filled with the projected left neighbours and the top-left and
    top pixels. *)
Definition ang_reference (refBuf : list Z) (width : Z) (srcPix : list Z)
    (angleOffset angle : Z) : list Z * Z :=
  let width2 := width ≪ 1 in
  if angle <? 0 then
    let nbProjected := - ((width * angle) ≫ 5) - 1 in
    let ref := nbProjected + 1 in
    let invAngle := rd invAngleTable (- angleOffset - 1) in
    let '(refBuf, _) :=
      for_up (Z.to_nat nbProjected) (fun i '(refBuf, invAngleSum) =>
        let invAngleSum := invAngleSum + invAngle in
        (aset refBuf (ref + (- 2 - i)) (rd srcPix (width2 + (invAngleSum ≫ 8))),
         invAngleSum)) (refBuf, 128) in
    let refBuf :=
      for_up (Z.to_nat (width + 1)) (fun i refBuf =>
        aset refBuf (ref + (- 1 + i)) (rd srcPix i)) refBuf in
    (refBuf, ref)
  else (srcPix, 1).

(** The in-place transposition of a [width] x [width] block at [dst + off],
    the loop that ends [intra_pred_ang_c_new] and the one in the body of
    [all_angs_pred_c_new]. *)
Definition flip_block (dst : list Z) (off dstStride width : Z) : list Z :=
  for_up (Z.to_nat (width - 1)) (fun y dst =>
    for_range (y + 1) (Z.to_nat (width - (y + 1))) (fun x dst =>
      let tmp := rd dst (off + (y * dstStride + x)) in
      let dst := aset dst (off + (y * dstStride + x)) (rd dst (off + (x * dstStride + y))) in
      aset dst (off + (x * dstStride + y)) tmp) dst) dst.

(** [intra_pred_ang_c_new<width>(dst, dstStride, srcPix, dirMode, bFilter)].
    [dst] points at index [off] of its array; [neighbourBuf] and [refBuf]
    are the initial contents of the two local arrays; [x265_clip] is the
    clipping to the pixel range of common.h. *)
Definition intra_pred_ang_c_new `{Config} (x265_clip : Z -> Z) (neighbourBuf refBuf : list Z)
    (width : Z) (dst : list Z) (off dstStride : Z) (srcPix : list Z)
    (dirMode : Z) (bFilter : bool) : list Z :=
  let width2 := width ≪ 1 in
  let horMode := dirMode <? 18 in
  let srcPix := if horMode then flip_neighbours neighbourBuf width srcPix else srcPix in
  let angleOffset := if horMode then 10 - dirMode else dirMode - 26 in
  let angle := rd angleTable (8 + angleOffset) in
  let dst :=
    if angle =? 0 then
      let dst :=
        for_up (Z.to_nat width) (fun y dst =>
          for_up (Z.to_nat width) (fun x dst =>
            aset dst (off + (y * dstStride + x)) (rd srcPix (1 + x))) dst) dst in
      if bFilter then
        let topLeft := rd srcPix 0 in
        let top := rd srcPix 1 in
        for_up (Z.to_nat width) (fun y dst =>
          aset dst (off + y * dstStride)
            (x265_clip (s16 (top + ((rd srcPix (width2 + 1 + y) - topLeft) ≫ 1))))) dst
      else dst
    else
      let '(refArr, ref) := ang_reference refBuf width srcPix angleOffset angle in
      (for_up (Z.to_nat width) (fun y '(dst, angleSum) =>
         let angleSum := angleSum + angle in
         let offset := angleSum ≫ 5 in
         let fraction := Z.land angleSum 31 in
         let dst :=
           if nz fraction then
             for_up (Z.to_nat width) (fun x dst =>
               aset dst (off + (y * dstStride + x))
                 (to_pixel (((32 - fraction) * rd refArr (ref + (offset + x))
                             + fraction * rd refArr (ref + (offset + x + 1)) + 16) ≫ 5))) dst
           else
             for_up (Z.to_nat width) (fun x dst =>
               aset dst (off + (y * dstStride + x)) (rd refArr (ref + (offset + x)))) dst in
         (dst, angleSum)) (dst, 0)).1 in
  if horMode then flip_block dst off dstStride width else dst.

(** [all_angs_pred_c_new<log2Size>(dest, refPix, filtPix, bLuma)];
    [g_intraFilterFlags] is a table of TComRom. *)
Definition all_angs_pred_c_new `{Config} (g_intraFilterFlags : Z -> Z) (x265_clip : Z -> Z)
    (neighbourBuf refBuf : list Z) (log2Size : Z) (dest refPix filtPix : list Z)
    (bLuma : bool) : list Z :=
  let size := 1 ≪ log2Size in
  for_range 2 33 (fun mode dest =>
    let srcPix := if nz (Z.land (g_intraFilterFlags mode) size) then filtPix else refPix in
    let out := (mode - 2) ≪ (log2Size * 2) in
    let dest :=
      intra_pred_ang_c_new x265_clip neighbourBuf refBuf size dest out size srcPix mode bLuma in
    let modeHor := mode <? 18 in
    if modeHor then flip_block dest out size size else dest) dest.

(** The indices of the [width] x [width] block at [dst + off]. *)
Definition in_block (off dstStride width pos : Z) : Prop :=
  exists y x, 0 <= y < width /\ 0 <= x < width /\ pos = off + (y * dstStride + x).

(** The sample an angular mode writes in row [y], column [x] from the
    reference row: the row loop of [intra_pred_ang_c_new] with its running
    [angleSum] written as [(y + 1) * angle]. *)
Definition ang_sample `{Config} (refArr : list Z) (ref angle y x : Z) : Z :=
  let angleSum := (y + 1) * angle in
  let offset := angleSum ≫ 5 in
  let fraction := Z.land angleSum 31 in
  if nz fraction then
    to_pixel (((32 - fraction) * rd refArr (ref + (offset + x))
               + fraction * rd refArr (ref + (offset + x + 1)) + 16) ≫ 5)
  else rd refArr (ref + (offset + x)).

(** The sample [intra_pred_ang_c_new] computes for row [y], column [x] before
    the final flip. *)
Definition ang_value `{Config} (x265_clip : Z -> Z) (refBuf : list Z) (width : Z)
    (srcPix : list Z) (angleOffset : Z) (bFilter : bool) (y x : Z) : Z :=
  let angle := rd angleTable (8 + angleOffset) in
  if angle =? 0 then
    if bFilter && (x =? 0)
    then x265_clip (s16 (rd srcPix 1 + ((rd srcPix (width ≪ 1 + 1 + y) - rd srcPix 0) ≫ 1)))
    else rd srcPix (1 + x)
  else
    let '(refArr, ref) := ang_reference refBuf width srcPix angleOffset angle in
    ang_sample refArr ref angle y x.

(** [v] is one of the levels [rdoQuant] considers for a coefficient that
    [nquant] gave the level [n]: zero, [|n|], or [|n| - 1] when [|n| >= 2]. *)
Definition rdoq_candidate (v n : Z) : Prop :=
  v = 0 \/ v = Z.abs n \/ (2 <= Z.abs n /\ v = Z.abs n - 1).

(** Every scan position from [b] upwards holds a candidate level; [dst0] are
    the levels [nquant] produced. *)
Definition rq_cands (sc : Z -> Z) (N2 : Z) (dst0 : list Z) (b : Z) (s : rdoq) : Prop :=
  forall pos, b <= pos < N2 -> rdoq_candidate (rd (dstCoeff s) (sc pos)) (rd dst0 (sc pos)).

(** ** intrapred.cpp: the angular predictor on separate reference arrays *)

Definition angTable : list Z := [0; 2; 5; 9; 13; 17; 21; 26; 32].

Definition invAngTable : list Z := [0; 4096; 1638; 910; 630; 482; 390; 315; 256].

(** [intra_pred_ang_c<width>(dst, dstStride, refLeft, refAbove, dirMode, bFilter)].
    [refLeft] and [refAbove] point at the indices of those names in two
    separate arrays, which the function extends to the left of the pointer;
    the result is [dst] and the two arrays.  [VER_IDX] and [HOR_IDX] are
    constants of a header; [x265_clip] is the clipping of common.h. *)
Definition intra_pred_ang_c `{Config} (VER_IDX HOR_IDX : Z) (x265_clip : Z -> Z)
    (width : Z) (dst : list Z) (off dstStride : Z)
    (refLeftBuf : list Z) (refLeft : Z) (refAboveBuf : list Z) (refAbove : Z)
    (dirMode : Z) (bFilter : bool) : list Z * list Z * list Z :=
  let modeHor := dirMode <? 18 in
  let modeVer := negb modeHor in
  let intraPredAngle :=
    if modeVer then dirMode - VER_IDX else if modeHor then - (dirMode - HOR_IDX) else 0 in
  let absAng := Z.abs intraPredAngle in
  let signAng := if intraPredAngle <? 0 then -1 else 1 in
  let invAngle := rd invAngTable absAng in
  let absAng := rd angTable absAng in
  let intraPredAngle := signAng * absAng in
  let '(mainBuf, refMain, sideBuf, refSide) :=
    if modeVer then (refAboveBuf, refAbove, refLeftBuf, refLeft)
    else (refLeftBuf, refLeft, refAboveBuf, refAbove) in
  let mainBuf :=
    if intraPredAngle <? 0 then
      (for_up (Z.to_nat (- 1 - ((width * intraPredAngle) ≫ 5)))
         (fun i '(mainBuf, invAngleSum) =>
            let k := - 1 - i in
            let invAngleSum := invAngleSum + invAngle in
            (aset mainBuf (refMain + k) (rd sideBuf (refSide + (invAngleSum ≫ 8))),
             invAngleSum)) (mainBuf, 128)).1
    else mainBuf in
  let dst :=
    if intraPredAngle =? 0 then
      let dst :=
        for_up (Z.to_nat width) (fun k dst =>
          for_up (Z.to_nat width) (fun l dst =>
            aset dst (off + (k * dstStride + l)) (rd mainBuf (refMain + (l + 1)))) dst) dst in
      if bFilter then
        for_up (Z.to_nat width) (fun k dst =>
          aset dst (off + k * dstStride)
            (x265_clip (s16 (rd dst (off + k * dstStride)
                             + ((rd sideBuf (refSide + (k + 1)) - rd sideBuf (refSide + 0)) ≫ 1)))))
          dst
      else dst
    else
      (for_up (Z.to_nat width) (fun k '(dst, deltaPos) =>
         let deltaPos := deltaPos + intraPredAngle in
         let deltaInt := deltaPos ≫ 5 in
         let deltaFract := Z.land deltaPos (32 - 1) in
         let dst :=
           if nz deltaFract then
             for_up (Z.to_nat width) (fun l dst =>
               let refMainIndex := l + deltaInt + 1 in
               aset dst (off + (k * dstStride + l))
                 (to_pixel (((32 - deltaFract) * rd mainBuf (refMain + refMainIndex)
                             + deltaFract * rd mainBuf (refMain + (refMainIndex + 1)) + 16) ≫ 5)))
               dst
           else
             for_up (Z.to_nat width) (fun l dst =>
               aset dst (off + (k * dstStride + l)) (rd mainBuf (refMain + (l + deltaInt + 1))))
               dst in
         (dst, deltaPos)) (dst, 0)).1 in
  let dst := if modeHor then flip_block dst off dstStride width else dst in
  if modeVer then (dst, sideBuf, mainBuf) else (dst, mainBuf, sideBuf).

(** Reference arrays for a 4x4 block that hold the samples of
    [planar_sample_ref], each with room for four samples before the pointer
    at index 4. *)
Definition ang_sample_above : list Z :=
  [0; 0; 0; 0; 128; 100; 104; 108; 112; 116; 120; 124; 128].
Definition ang_sample_left : list Z :=
  [0; 0; 0; 0; 128; 90; 88; 86; 84; 82; 80; 78; 76].

(** * Properties *)

(** ** Arrays and loops *)

Lemma aget_aset_eq {A} (d : A) (a : list A) (i : Z) (v : A) :
  0 <= i < Z.of_nat (length a) -> aget d (aset a i v) i = v.
Proof.
  intros Hi. unfold aget, aset.
  destruct (Z.ltb_spec i 0) as [?|_]; [lia|].
  rewrite list_lookup_insert_eq by lia. reflexivity.
Qed.

Lemma aget_aset_ne {A} (d : A) (a : list A) (i j : Z) (v : A) :
  i <> j -> aget d (aset a i v) j = aget d a j.
Proof.
  intros Hne. unfold aget, aset.
  destruct (Z.ltb_spec j 0) as [?|Hj]; [reflexivity|].
  destruct (Z.ltb_spec i 0) as [?|Hi]; [reflexivity|].
  rewrite list_lookup_insert_ne by lia. reflexivity.
Qed.

Lemma length_aset {A} (a : list A) (i : Z) (v : A) : length (aset a i v) = length a.
Proof. unfold aset. destruct (i <? 0); [reflexivity | apply length_insert]. Qed.

Lemma aget_aset_same {A} (d : A) (a : list A) (i j : Z) :
  aget d (aset a i (aget d a i)) j = aget d a j.
Proof.
  destruct (Z.eq_dec i j) as [->|Hne]; [|by apply aget_aset_ne].
  unfold aget, aset. destruct (Z.ltb_spec j 0) as [?|Hj]; [reflexivity|].
  destruct (decide (Z.to_nat j < length a)%nat) as [Hlt|Hge].
  - rewrite list_lookup_insert_eq by lia. destruct (lookup_lt_is_Some_2 a _ Hlt) as [x ->]. reflexivity.
  - rewrite list_insert_ge by lia. reflexivity.
Qed.

Lemma list_eq_aget (a b : list Z) :
  length a = length b ->
  (forall i, 0 <= i < Z.of_nat (length a) -> rd a i = rd b i) -> a = b.
Proof.
  intros Hlen Hget. apply list_eq. intros n.
  destruct (decide (n < length a)%nat) as [Hlt|Hge].
  - specialize (Hget (Z.of_nat n) ltac:(lia)). unfold aget in Hget.
    destruct (Z.ltb_spec (Z.of_nat n) 0); [lia|]. rewrite Nat2Z.id in Hget.
    destruct (lookup_lt_is_Some_2 a n Hlt) as [x Hx].
    destruct (lookup_lt_is_Some_2 b n ltac:(lia)) as [y Hy].
    rewrite Hx, Hy in *. simpl in Hget. congruence.
  - rewrite !lookup_ge_None_2 by lia. reflexivity.
Qed.

Lemma for_up_S {S} (n : nat) (f : Z -> S -> S) (s : S) :
  for_up (Datatypes.S n) f s = f (Z.of_nat n) (for_up n f s).
Proof. reflexivity. Qed.

(** Invariant rule of an ascending loop: [P i s] holds of the state before
    iteration [i]. *)
Lemma for_up_ind {S} (P : Z -> S -> Prop) (n : nat) (f : Z -> S -> S) (s0 : S) :
  P 0 s0 ->
  (forall i s, 0 <= i < Z.of_nat n -> P i s -> P (i + 1) (f i s)) ->
  P (Z.of_nat n) (for_up n f s0).
Proof.
  intros H0 Hstep. induction n as [|n IH]; [exact H0|].
  rewrite for_up_S. replace (Z.of_nat (Datatypes.S n)) with (Z.of_nat n + 1) by lia.
  apply Hstep; [lia|]. apply IH. intros i s Hi. apply Hstep. lia.
Qed.

(** Invariant rule of a descending loop: [P i s] holds of the state once the
    iterations [n-1 .. i] have run. *)
Lemma for_down_ind {S} (P : Z -> S -> Prop) (n : nat) (f : Z -> S -> S) (s0 : S) :
  P (Z.of_nat n) s0 ->
  (forall i s, 0 <= i < Z.of_nat n -> P (i + 1) s -> P i (f i s)) ->
  P 0 (for_down n f s0).
Proof.
  revert s0. induction n as [|n IH]; intros s0 H0 Hstep; [exact H0|].
  simpl. apply IH.
  - apply Hstep; [lia|]. replace (Z.of_nat n + 1) with (Z.of_nat (Datatypes.S n)) by lia. exact H0.
  - intros i s Hi. apply Hstep. lia.
Qed.

Lemma for_down_inv {S} (P : S -> Prop) (n : nat) (f : Z -> S -> S) (s0 : S) :
  P s0 -> (forall i s, 0 <= i < Z.of_nat n -> P s -> P (f i s)) -> P (for_down n f s0).
Proof. intros H0 Hstep. apply (for_down_ind (fun _ => P)); [done|]. intros; by apply Hstep. Qed.

Lemma for_up_inv {S} (P : S -> Prop) (n : nat) (f : Z -> S -> S) (s0 : S) :
  P s0 -> (forall i s, 0 <= i < Z.of_nat n -> P s -> P (f i s)) -> P (for_up n f s0).
Proof. intros H0 Hstep. apply (for_up_ind (fun _ => P)); [done|]. intros; by apply Hstep. Qed.

Lemma for_up_ext {S} (n : nat) (f g : Z -> S -> S) (s : S) :
  (forall i s, 0 <= i < Z.of_nat n -> f i s = g i s) ->
  for_up n f s = for_up n g s.
Proof.
  intros Hfg. induction n as [|n IH]; [reflexivity|].
  rewrite !for_up_S, IH, Hfg by (intros; try apply Hfg; lia). reflexivity.
Qed.

Lemma fill2_length n m idx val a : length (fill2 n m idx val a) = length a.
Proof.
  unfold fill2.
  apply (for_up_ind (fun _ s => length s = length a)); [reflexivity|].
  intros k s _ Hs.
  apply (for_up_ind (fun _ s => length s = length a)); [exact Hs|].
  intros l s' _ Hs'. rewrite length_aset. exact Hs'.
Qed.

(** If every write that lands on [pos] stores [v], then [pos] holds [v] after
    the block is written as soon as it held [v] before or is written at all. *)
Lemma fill2_agree n m idx val a pos v :
  (forall k l, 0 <= k < Z.of_nat n -> 0 <= l < Z.of_nat m -> idx k l = pos -> val k l = v) ->
  (rd a pos = v \/
   (0 <= pos < Z.of_nat (length a) /\
    exists k l, 0 <= k < Z.of_nat n /\ 0 <= l < Z.of_nat m /\ idx k l = pos)) ->
  rd (fill2 n m idx val a) pos = v.
Proof.
  intros Hval Hor. unfold fill2.
  pose (I := fun (k : Z) (l : Z) (s : list Z) =>
    length s = length a /\
    (rd s pos = v \/
     (0 <= pos < Z.of_nat (length a) /\
      exists k' l', 0 <= k' < Z.of_nat n /\ 0 <= l' < Z.of_nat m /\ idx k' l' = pos /\
                    (k < k' \/ (k = k' /\ l <= l'))))).
  assert (Hfin : I (Z.of_nat n) 0 (for_up n
            (fun k a => for_up m (fun l a => aset a (idx k l) (val k l)) a) a)).
  { apply (for_up_ind (fun k s => I k 0 s)).
    - split; [reflexivity|]. destruct Hor as [?|(Hp & k & l & Hk & Hl & Hi)]; [by left|].
      right. split; [done|]. exists k, l. repeat split; try lia; try done.
    - intros k s Hk HI.
      assert (HI' : I k (Z.of_nat m) (for_up m (fun l a => aset a (idx k l) (val k l)) s)).
      { apply (for_up_ind (fun l s => I k l s)); [exact HI|].
        intros l s' Hl [Hlen Hs']. split; [by rewrite length_aset|].
        destruct (Z.eq_dec (idx k l) pos) as [Heq|Hne].
        - destruct Hs' as [Hs'|(Hp & _)].
          + left. destruct (decide (0 <= pos < Z.of_nat (length s'))) as [Hin|Hout].
            * rewrite Heq, aget_aset_eq by done. by apply Hval.
            * rewrite Heq. unfold aset. destruct (Z.ltb_spec pos 0); [done|].
              rewrite list_insert_ge by lia. done.
          + left. rewrite Heq, aget_aset_eq by lia. by apply Hval.
        - destruct Hs' as [Hs'|(Hp & k' & l' & Hk' & Hl' & Hi' & Hord)].
          + left. by rewrite aget_aset_ne.
          + right. split; [done|]. exists k', l'. repeat split; try lia; try done.
            destruct Hord as [?|[-> Hle]]; [by left|]. right. split; [done|].
            destruct (Z.eq_dec l l') as [->|?]; [congruence|lia]. }
      destruct HI' as [Hlen HI']. split; [done|].
      destruct HI' as [?|(Hp & k' & l' & Hk' & Hl' & Hi' & Hord)]; [by left|].
      right. split; [done|]. exists k', l'. repeat split; try lia; try done. }
  destruct Hfin as [_ [?|(_ & k' & l' & Hk' & Hl' & _ & Hord)]]; [done|lia].
Qed.

Lemma fill2_other n m idx val a pos :
  (forall k l, 0 <= k < Z.of_nat n -> 0 <= l < Z.of_nat m -> idx k l <> pos) ->
  rd (fill2 n m idx val a) pos = rd a pos.
Proof.
  intros Hne. apply fill2_agree; [|by left].
  intros k l Hk Hl Heq. exfalso. by eapply Hne.
Qed.

Lemma fill2_ext n m idx val val' a :
  (forall k l, 0 <= k < Z.of_nat n -> 0 <= l < Z.of_nat m -> val k l = val' k l) ->
  fill2 n m idx val a = fill2 n m idx val' a.
Proof.
  intros Hv. unfold fill2. apply for_up_ext. intros k s Hk.
  apply for_up_ext. intros l s' Hl. by rewrite Hv.
Qed.

Lemma sumZ_bounds (n : nat) (f : Z -> Z) (lo hi : Z) :
  (forall i, 0 <= i < Z.of_nat n -> lo <= f i <= hi) ->
  Z.of_nat n * lo <= sumZ n f <= Z.of_nat n * hi.
Proof.
  intros Hf. unfold sumZ.
  apply (for_up_ind (fun i acc => i * lo <= acc <= i * hi)); [lia|].
  intros i acc Hi Hacc. specialize (Hf i Hi). nia.
Qed.

(** ** Soundness of the decision procedures *)

Lemma elem_of_Zrange (n i : Z) : i ∈ Zrange n <-> 0 <= i < n.
Proof.
  unfold Zrange. rewrite list_elem_of_fmap. split.
  - intros (k & -> & Hk). apply elem_of_seq in Hk. lia.
  - intros Hi. exists (Z.to_nat i). split; [lia|]. apply elem_of_seq. lia.
Qed.

Lemma forallb_Zrange (f : Z -> bool) (n : Z) :
  forallb f (Zrange n) = true <-> forall i, 0 <= i < n -> f i = true.
Proof.
  rewrite forallb_forall. split.
  - intros Hf i Hi. apply Hf. apply list_elem_of_In. by apply elem_of_Zrange.
  - intros Hf i Hi. apply Hf. apply elem_of_Zrange. by apply list_elem_of_In.
Qed.

Lemma codeParams_wfb_sound (cp : TUEntropyCodingParameters) (log2TrSize : Z) :
  codeParams_wfb cp log2TrSize = true -> codeParams_wf cp log2TrSize.
Proof.
  unfold codeParams_wfb, codeParams_wf. cbv zeta.
  rewrite !andb_true_iff, !forallb_Zrange.
  intros [[H1 H2] H3]. split; [lia|]. split.
  - intros i Hi. specialize (H2 i Hi). lia.
  - intros i j Hi Hj Heq. specialize (H3 i Hi).
    rewrite forallb_Zrange in H3. specialize (H3 j Hj). rewrite Heq, Z.eqb_refl in H3.
    simpl in H3. lia.
Qed.

Lemma rd_lookup (a : list Z) (i : Z) :
  rd a i = 0 \/ In (rd a i) a.
Proof.
  unfold aget. destruct (i <? 0); [by left|].
  destruct (a !! Z.to_nat i) eqn:E; [|by left]. right.
  apply list_elem_of_In. by eapply list_elem_of_lookup_2.
Qed.

Lemma int32_arrayb_sound (a : list Z) : int32_arrayb a = true -> int32_array a.
Proof.
  unfold int32_arrayb. rewrite forallb_forall. intros Ha i.
  destruct (rd_lookup a i) as [->|Hin]; [lia|]. specialize (Ha _ Hin). lia.
Qed.

Lemma rd_out_of_range (a : list Z) (i : Z) :
  ~ (0 <= i < Z.of_nat (length a)) -> rd a i = 0.
Proof.
  intros Hi. unfold aget. destruct (Z.ltb_spec i 0); [done|].
  rewrite lookup_ge_None_2; [done|]. lia.
Qed.

Lemma sides_okb_sound (coeff resi : list Z) :
  sides_okb coeff resi = true -> sides_ok coeff resi.
Proof.
  unfold sides_okb. rewrite andb_true_iff, forallb_Zrange. intros [Hlen Hall] pos.
  apply Nat.leb_le in Hlen.
  destruct (decide (0 <= pos < Z.of_nat (length coeff))) as [Hin|Hout].
  - specialize (Hall pos Hin). unfold side_okb in Hall. unfold side_ok. lia.
  - rewrite (rd_out_of_range coeff pos Hout). unfold side_ok. lia.
Qed.

Lemma rdsbh_cost_boundedb_sound (t : rdoq_tabs) (rdFactor : Z) :
  rdsbh_cost_boundedb t rdFactor = true -> forall p, rdsbh_cost_bounded t rdFactor p.
Proof.
  unfold rdsbh_cost_boundedb, rdsbh_cost_bounded.
  rewrite !andb_true_iff, forallb_Zrange. intros [[[[L1 L2] L3] L4] Hall] p.
  apply Nat.leb_le in L1, L2, L3, L4.
  destruct (decide (0 <= p < 1024)) as [Hin|Hout].
  - specialize (Hall p Hin). lia.
  - rewrite !rd_out_of_range by lia. rewrite Z.mul_0_r. unfold MAX_INT64. simpl. lia.
Qed.

Lemma rdoq_sbh_costs_in_rangeb_sound `{Config} (q : Quant) (cu : TComDataCU) (log2TrSize : Z)
    (ttype : TextType) (absPartIdx : Z) (usePsy : bool) (dstCoeff0 : list Z) :
  rdoq_sbh_costs_in_rangeb q cu log2TrSize ttype absPartIdx usePsy dstCoeff0 = true ->
  rdoq_sbh_costs_in_range q cu log2TrSize ttype absPartIdx usePsy dstCoeff0.
Proof.
  unfold rdoq_sbh_costs_in_rangeb, rdoq_sbh_costs_in_range.
  destruct (nquant_c _ _ _ _ _ _ _) as [[scaled dst] n].
  apply rdsbh_cost_boundedb_sound.
Qed.

(** ** Intra DC prediction *)

Lemma dc_sum_split (width : Z) (srcPix : list Z) :
  dc_sum width srcPix =
  width + sumZ (Z.to_nat width) (fun i => rd srcPix (1 + i))
        + sumZ (Z.to_nat width) (fun i => rd srcPix (2 * width + 1 + i)).
Proof.
  unfold dc_sum, sumZ. induction (Z.to_nat width) as [|n IH]; [simpl; lia|].
  rewrite !for_up_S, IH. lia.
Qed.

Lemma pow2_pos (b : Z) : 0 <= b -> 0 < 2 ^ b.
Proof. intros. apply Z.pow_pos_nonneg; lia. Qed.

Section IntraDC.
Context `{Config}.
Variables (width : Z) (dst : list Z) (dstStride : Z) (srcPix : list Z).
Hypothesis width_pos : 0 < width.
Hypothesis stride_nonneg : 0 <= dstStride.
Hypothesis bits_nonneg : 0 <= pixel_bits.
Hypothesis src_pixels : forall i, 0 <= rd srcPix i < 2 ^ pixel_bits.

Local Abbreviation dc_neighbours := (dc_neighbours width srcPix).

Lemma dc_neighbours_bounds : 0 <= dc_neighbours <= 2 * width * (2 ^ pixel_bits - 1).
Proof.
  unfold dc_neighbours.
  pose proof (sumZ_bounds (Z.to_nat width) (fun i => rd srcPix (1 + i)) 0 (2 ^ pixel_bits - 1)) as H1.
  pose proof (sumZ_bounds (Z.to_nat width) (fun i => rd srcPix (2 * width + 1 + i)) 0
                (2 ^ pixel_bits - 1)) as H2.
  rewrite Z2Nat.id in H1, H2 by lia.
  specialize (H1 ltac:(intros i _; pose proof (src_pixels (1 + i)); lia)).
  specialize (H2 ltac:(intros i _; pose proof (src_pixels (2 * width + 1 + i)); lia)).
  lia.
Qed.

Lemma dc_value_is_pixel :
  to_pixel (dc_sum width srcPix ÷ (width + width)) = (dc_neighbours + width) ÷ (2 * width).
Proof.
  rewrite dc_sum_split.
  pose proof dc_neighbours_bounds as Hb. pose proof (pow2_pos pixel_bits bits_nonneg) as Hp.
  match goal with |- to_pixel (?s ÷ _) = _ =>
    replace s with (dc_neighbours + width) by (unfold dc_neighbours; lia) end.
  replace (width + width) with (2 * width) by lia.
  unfold to_pixel. apply Z.mod_small.
  rewrite Z.quot_div_nonneg by lia. split.
  - apply Z.div_pos; lia.
  - apply Z.div_lt_upper_bound; nia.
Qed.

(** C7, as the code has it.  With the edge filter off, every sample of the
    N-by-N block holds the rounded average of the N top and the N left
    reference samples, [(sum + N) / 2N], i.e. the integer [v] with
    [2N*v <= sum + N < 2N*(v+1)]. *)
Theorem intra_pred_dc_fills_rounded_average (k l : Z) :
  0 <= k < width -> 0 <= l < width ->
  k * dstStride + l < Z.of_nat (length dst) ->
  let v := rd (intra_pred_dc_c_new width dst dstStride srcPix false) (k * dstStride + l) in
  v = (dc_neighbours + width) ÷ (2 * width) /\
  2 * width * v <= dc_neighbours + width < 2 * width * (v + 1).
Proof.
  intros Hk Hl Hlen v.
  assert (Hv : v = (dc_neighbours + width) ÷ (2 * width)).
  { subst v. unfold intra_pred_dc_c_new.
    change (for_up (Z.to_nat width) _ dst) with
      (fill2 (Z.to_nat width) (Z.to_nat width) (fun k l => k * dstStride + l)
         (fun _ _ => to_pixel (dc_sum width srcPix ÷ (width + width))) dst).
    rewrite <- dc_value_is_pixel. apply fill2_agree; [reflexivity|].
    right. split; [nia|]. exists k, l. lia. }
  split; [exact Hv|]. rewrite Hv.
  pose proof dc_neighbours_bounds as Hb.
  rewrite Z.quot_div_nonneg by lia.
  pose proof (Z.mul_div_le (dc_neighbours + width) (2 * width) ltac:(lia)).
  pose proof (Z.mul_succ_div_gt (dc_neighbours + width) (2 * width) ltac:(lia)).
  lia.
Qed.
End IntraDC.

Lemma intra_pred_dc_fills_rounded_average_witness :
  let v := rd (intra_pred_dc_c_new 4 (replicate 16 0) 4 dc_sample_ref false) (1 * 4 + 2) in
  v = (dc_neighbours 4 dc_sample_ref + 4) ÷ (2 * 4) /\
  2 * 4 * v <= dc_neighbours 4 dc_sample_ref + 4 < 2 * 4 * (v + 1).
Proof.
  apply (intra_pred_dc_fills_rounded_average 4 (replicate 16 0) 4 dc_sample_ref);
    try (simpl; lia).
  intros i. unfold aget. destruct (i <? 0); [simpl; lia|].
  assert (Hall : Forall (fun x => 0 <= x < 2 ^ 8) dc_sample_ref)
    by (repeat constructor; lia).
  destruct (dc_sample_ref !! Z.to_nat i) as [x|] eqn:Hx; [|simpl; lia].
  simpl. exact (proj1 (Forall_lookup _ _) Hall _ _ Hx).
Defined.

(** C7, as stated, fails: on a reference array whose first N top and left
    samples are 0 and whose last N are 100, the code fills the block with 0,
    while the rounded average of all 2N top and 2N left samples is 50. *)
Lemma intra_pred_dc_not_average_of_2N :
  rd (intra_pred_dc_c_new 4 (replicate 16 0) 4 dc_sample_ref false) 0 = 0 /\
  dc_average_2N_spec 4 dc_sample_ref = 50 /\
  rd (intra_pred_dc_c_new 4 (replicate 16 0) 4 dc_sample_ref false) 0
    <> dc_average_2N_spec 4 dc_sample_ref.
Proof. vm_compute. repeat split; discriminate. Qed.

(** ** Chroma QP *)

Lemma TextType_eqb_eq (a b : TextType) : TextType_eqb a b = true <-> a = b.
Proof. destruct a, b; unfold TextType_eqb; simpl; split; congruence. Qed.

Lemma TextType_eqb_refl (a : TextType) : TextType_eqb a a = true.
Proof. by apply TextType_eqb_eq. Qed.

Lemma Clip3_spec (lo hi a : Z) :
  lo <= hi ->
  lo <= Clip3 lo hi a <= hi /\
  (lo <= a <= hi -> Clip3 lo hi a = a) /\
  (a < lo -> Clip3 lo hi a = lo) /\
  (hi < a -> Clip3 lo hi a = hi).
Proof.
  intros Hle. unfold Clip3.
  destruct (Z.ltb_spec a lo); destruct (Z.gtb_spec a hi); lia.
Qed.

(** C8.  [setQPforQuant] for a chroma component clips [qpy + chromaQPOffset]
    into [[-QP_BD_OFFSET, 57]]; a clipped QP below 30 is used unchanged, a
    clipped QP of at least 30 is mapped through [g_chromaScale] for 4:2:0
    and limited to 51 for the other chroma formats.  The result (plus
    [QP_BD_OFFSET]) is what [setQpParam] receives for that component; the
    other components are left alone. *)
Theorem setQPforQuant_chroma `{Config} (m : TextType -> QpParam) (qpy : Z) (ttype : TextType)
    (chromaQPOffset chFmt : Z) :
  8 <= X265_DEPTH ->
  let c := Clip3 (- QP_BD_OFFSET) 57 (qpy + chromaQPOffset) in
  let m' := setQPforQuant m qpy ttype chromaQPOffset chFmt in
  (- QP_BD_OFFSET <= c <= 57 /\ c = Z.max (- QP_BD_OFFSET) (Z.min 57 (qpy + chromaQPOffset))) /\
  (c < 30 -> m' ttype = setQpParam (c + QP_BD_OFFSET)) /\
  (30 <= c -> chFmt = X265_CSP_I420 ->
     m' ttype = setQpParam (g_chromaScale c + QP_BD_OFFSET)) /\
  (30 <= c -> chFmt <> X265_CSP_I420 ->
     m' ttype = setQpParam (Z.min c 51 + QP_BD_OFFSET) /\ qp (m' ttype) <= 51 + QP_BD_OFFSET) /\
  (forall t, t <> ttype -> m' t = m t).
Proof.
  intros Hdepth c m'.
  assert (Hbd : 0 <= QP_BD_OFFSET) by (unfold QP_BD_OFFSET; lia).
  assert (Hle : - QP_BD_OFFSET <= 57) by lia.
  pose proof (Clip3_spec _ _ (qpy + chromaQPOffset) Hle) as (Hr & Hin & Hlo & Hhi).
  fold c in Hr, Hin, Hlo, Hhi.
  assert (Hm' : m' ttype = setQpParam
            ((if c >=? 30 then if chFmt =? X265_CSP_I420 then g_chromaScale c else X265_MIN c 51
              else c) + QP_BD_OFFSET)).
  { subst m' c. unfold setQPforQuant, qpParam_set. by rewrite TextType_eqb_refl. }
  repeat split.
  - lia.
  - lia.
  - lia.
  - intros Hc. rewrite Hm'. destruct (Z.geb_spec c 30); [lia|done].
  - intros Hc ->. rewrite Hm'. destruct (Z.geb_spec c 30); [|lia]. by rewrite Z.eqb_refl.
  - rewrite Hm'. destruct (Z.geb_spec c 30); [|lia].
    destruct (Z.eqb_spec chFmt X265_CSP_I420); [done|].
    unfold X265_MIN. destruct (Z.ltb_spec c 51); f_equal; lia.
  - rewrite Hm'. destruct (Z.geb_spec c 30); [|lia].
    destruct (Z.eqb_spec chFmt X265_CSP_I420); [done|].
    unfold X265_MIN. simpl. destruct (Z.ltb_spec c 51); lia.
  - intros t Hne. subst m'. unfold setQPforQuant, qpParam_set.
    destruct (TextType_eqb ttype t) eqn:E; [|done].
    apply TextType_eqb_eq in E. congruence.
Qed.

Lemma setQPforQuant_chroma_witness :
  let m := fun _ : TextType => setQpParam 0 in
  let c := Clip3 (- QP_BD_OFFSET) 57 (40 + 2) in
  let m' := setQPforQuant m 40 TEXT_CHROMA_U 2 X265_CSP_I420 in
  (- QP_BD_OFFSET <= c <= 57 /\ c = Z.max (- QP_BD_OFFSET) (Z.min 57 (40 + 2))) /\
  (c < 30 -> m' TEXT_CHROMA_U = setQpParam (c + QP_BD_OFFSET)) /\
  (30 <= c -> X265_CSP_I420 = X265_CSP_I420 ->
     m' TEXT_CHROMA_U = setQpParam (g_chromaScale c + QP_BD_OFFSET)) /\
  (30 <= c -> X265_CSP_I420 <> X265_CSP_I420 ->
     m' TEXT_CHROMA_U = setQpParam (Z.min c 51 + QP_BD_OFFSET) /\
     qp (m' TEXT_CHROMA_U) <= 51 + QP_BD_OFFSET) /\
  (forall t, t <> TEXT_CHROMA_U -> m' t = m t).
Proof.
  apply (setQPforQuant_chroma (fun _ => setQpParam 0) 40 TEXT_CHROMA_U 2 X265_CSP_I420).
  simpl. lia.
Defined.

(** ** Transquant bypass *)

Lemma s16_small (x : Z) : -32768 <= x <= 32767 -> s16 x = x.
Proof. intros Hx. unfold s16. rewrite Z.mod_small; lia. Qed.

Lemma shiftl_1_pos (n : Z) : 0 <= n -> 0 < 1 ≪ n.
Proof. intros. rewrite Z.shiftl_1_l. by apply pow2_pos. Qed.

Lemma cvt16to32_cnt_copy (size : Z) (coeff residual : list Z) (stride k j : Z) :
  0 < size -> size * size <= Z.of_nat (length coeff) ->
  0 <= k < size -> 0 <= j < size ->
  rd (cvt16to32_cnt size coeff residual stride).1 (k * size + j) = rd residual (k * stride + j).
Proof.
  intros Hs Hlen Hk Hj. unfold cvt16to32_cnt. simpl.
  change (for_up (Z.to_nat size) _ coeff) with
    (fill2 (Z.to_nat size) (Z.to_nat size) (fun k j => k * size + j)
       (fun k j => rd residual (k * stride + j)) coeff).
  apply fill2_agree.
  - intros k' j' Hk' Hj' Heq.
    assert (k' = k) by nia. subst k'. assert (j' = j) by lia. by subst j'.
  - right. split; [nia|]. exists k, j. lia.
Qed.

(** C2.  With [cu_transquant_bypass] set for the partition, [transformNxN]
    returns 0, leaves the [Quant] object alone, and the level array holds
    the residual samples verbatim. *)
Theorem transformNxN_bypass `{Config} (p : EncoderPrimitives) (q : Quant) (cu : TComDataCU)
    (fenc : list Z) (fencStride : Z) (residual : list Z) (stride : Z) (coeff : list Z)
    (log2TrSize : Z) (ttype : TextType) (absPartIdx : Z) (useTransformSkip : bool) :
  getCUTransquantBypass cu absPartIdx = true ->
  0 <= log2TrSize ->
  (1 ≪ log2TrSize) * (1 ≪ log2TrSize) <= Z.of_nat (length coeff) ->
  let r := transformNxN p q cu fenc fencStride residual stride coeff log2TrSize ttype
             absPartIdx useTransformSkip in
  r.2 = 0 /\ r.1.1 = q /\ length r.1.2 = length coeff /\
  forall k j, 0 <= k < 1 ≪ log2TrSize -> 0 <= j < 1 ≪ log2TrSize ->
    rd r.1.2 (k * (1 ≪ log2TrSize) + j) = rd residual (k * stride + j).
Proof.
  intros Hby Hlog Hlen r. subst r. unfold transformNxN. rewrite Hby.
  pose proof (shiftl_1_pos log2TrSize Hlog) as HN.
  destruct (cvt16to32_cnt (1 ≪ log2TrSize) coeff residual stride) as [c n] eqn:E.
  assert (Hc : c = (cvt16to32_cnt (1 ≪ log2TrSize) coeff residual stride).1) by (by rewrite E).
  assert (Hn : n = 0) by (unfold cvt16to32_cnt in E; congruence).
  simpl. repeat split; [done| |].
  - rewrite Hc. unfold cvt16to32_cnt. simpl. apply fill2_length.
  - intros k j Hk Hj. rewrite Hc. by apply cvt16to32_cnt_copy.
Qed.

(** C4.  With transquant bypass, [invtransformNxN] applied to the levels
    [transformNxN] produced gives back the residual: every sample of the
    block in any destination buffer, and the whole buffer when the residual
    buffer itself is the destination. *)
Theorem bypass_roundtrip `{Config} (p : EncoderPrimitives) (q : Quant) (cu : TComDataCU)
    (fenc : list Z) (fencStride : Z) (residual : list Z) (stride : Z) (coeff : list Z)
    (log2TrSize : Z) (ttype : TextType) (absPartIdx : Z) (useTransformSkip bIntra : bool)
    (numSig : Z) :
  getCUTransquantBypass cu absPartIdx = true ->
  0 <= log2TrSize -> 0 <= stride ->
  (1 ≪ log2TrSize) * (1 ≪ log2TrSize) <= Z.of_nat (length coeff) ->
  (forall i, -32768 <= rd residual i <= 32767) ->
  let levels := (transformNxN p q cu fenc fencStride residual stride coeff log2TrSize ttype
                   absPartIdx useTransformSkip).1.2 in
  let inverse := fun dst =>
    (invtransformNxN p q true dst stride levels log2TrSize ttype bIntra useTransformSkip
       numSig).2 in
  (forall dst k j, 0 <= k < 1 ≪ log2TrSize -> 0 <= j < 1 ≪ log2TrSize ->
     k * stride + j < Z.of_nat (length dst) ->
     rd (inverse dst) (k * stride + j) = rd residual (k * stride + j)) /\
  inverse residual = residual.
Proof.
  intros Hby Hlog Hstride Hlen Hr16 levels inverse.
  pose proof (shiftl_1_pos log2TrSize Hlog) as HN.
  set (N := 1 ≪ log2TrSize) in *.
  assert (Hlev : forall k j, 0 <= k < N -> 0 <= j < N ->
            rd levels (k * N + j) = rd residual (k * stride + j)).
  { subst levels. unfold transformNxN. rewrite Hby. fold N.
    destruct (cvt16to32_cnt N coeff residual stride) as [c n] eqn:E. simpl.
    intros k j Hk Hj. replace c with (cvt16to32_cnt N coeff residual stride).1 by (by rewrite E).
    by apply cvt16to32_cnt_copy. }
  assert (Hinv : forall dst, inverse dst =
            fill2 (Z.to_nat N) (Z.to_nat N) (fun k j => k * stride + j)
              (fun k j => s16 (rd levels (k * N + j))) dst) by reflexivity.
  assert (Hwr : forall pos k j, 0 <= k < Z.of_nat (Z.to_nat N) -> 0 <= j < Z.of_nat (Z.to_nat N) ->
            k * stride + j = pos -> s16 (rd levels (k * N + j)) = rd residual pos).
  { intros pos k j Hk Hj <-. rewrite Hlev by lia. by apply s16_small. }
  split.
  - intros dst k j Hk Hj Hd. rewrite Hinv. apply fill2_agree; [by apply Hwr|].
    right. split; [nia|]. exists k, j. lia.
  - apply list_eq_aget.
    + rewrite Hinv. apply fill2_length.
    + intros i _. rewrite Hinv. apply fill2_agree; [by apply Hwr|by left].
Qed.

Lemma in_range_sample (l : list Z) (lo hi : Z) :
  lo <= 0 <= hi -> Forall (fun x => lo <= x <= hi) l -> forall i, lo <= rd l i <= hi.
Proof.
  intros H0 Hall i. unfold aget. destruct (i <? 0); [lia|].
  destruct (l !! Z.to_nat i) as [x|] eqn:Hx; [|simpl; lia].
  simpl. exact (proj1 (Forall_lookup _ _) Hall _ _ Hx).
Qed.

Lemma transformNxN_bypass_witness :
  let r := transformNxN sample_primitives
             (sample_quant false 22 1%float (replicate (32 * 32) 0))
             (sample_cu true true false) [] 4 sample_residual 4 (replicate 16 0)
             2 TEXT_LUMA 0 false in
  r.2 = 0 /\
  r.1.1 = sample_quant false 22 1%float (replicate (32 * 32) 0) /\
  length r.1.2 = length (replicate 16 0) /\
  forall k j, 0 <= k < 1 ≪ 2 -> 0 <= j < 1 ≪ 2 ->
    rd r.1.2 (k * (1 ≪ 2) + j) = rd sample_residual (k * 4 + j).
Proof.
  apply (transformNxN_bypass sample_primitives
           (sample_quant false 22 1%float (replicate (32 * 32) 0))
           (sample_cu true true false) [] 4 sample_residual 4 (replicate 16 0)
           2 TEXT_LUMA 0 false); [reflexivity | lia | vm_compute; discriminate].
Defined.

Lemma bypass_roundtrip_witness :
  let levels := (transformNxN sample_primitives
                   (sample_quant false 22 1%float (replicate (32 * 32) 0))
                   (sample_cu true true false) [] 4 sample_residual 4 (replicate 16 0)
                   2 TEXT_LUMA 0 false).1.2 in
  let inverse := fun dst =>
    (invtransformNxN sample_primitives (sample_quant false 22 1%float (replicate (32 * 32) 0))
       true dst 4 levels 2 TEXT_LUMA true false 0).2 in
  (forall dst k j, 0 <= k < 1 ≪ 2 -> 0 <= j < 1 ≪ 2 ->
     k * 4 + j < Z.of_nat (length dst) ->
     rd (inverse dst) (k * 4 + j) = rd sample_residual (k * 4 + j)) /\
  inverse sample_residual = sample_residual.
Proof.
  apply (bypass_roundtrip sample_primitives
           (sample_quant false 22 1%float (replicate (32 * 32) 0))
           (sample_cu true true false) [] 4 sample_residual 4 (replicate 16 0)
           2 TEXT_LUMA 0 false true 0); [reflexivity | lia | lia | vm_compute; discriminate |].
  apply in_range_sample; [lia|]. repeat constructor; lia.
Defined.

(** ** Sign-bit hiding: the searches *)

Lemma nz_true (x : Z) : nz x = true <-> x <> 0.
Proof. unfold nz. destruct (Z.eqb_spec x 0); simpl; split; congruence. Qed.

Lemma nz_false (x : Z) : nz x = false <-> x = 0.
Proof. unfold nz. destruct (Z.eqb_spec x 0); simpl; split; congruence. Qed.

Lemma lastNZ_from_spec (k : nat) (coeff : list Z) (scan : Z -> Z) (start : Z) :
  let n := lastNZ_from k coeff scan start in
  (n = -1 /\ forall i, 0 <= i < Z.of_nat k -> rd coeff (scan (i + start)) = 0) \/
  (0 <= n < Z.of_nat k /\ rd coeff (scan (n + start)) <> 0 /\
   forall i, n < i < Z.of_nat k -> rd coeff (scan (i + start)) = 0).
Proof.
  induction k as [|k IH]; simpl.
  - left. split; [done|]. intros; lia.
  - destruct (nz (rd coeff (scan (Z.of_nat k + start)))) eqn:E.
    + right. apply nz_true in E. split; [lia|]. split; [done|]. intros; lia.
    + apply nz_false in E. destruct IH as [[Hn Hz]|(Hn & Hnz & Hz)].
      * left. split; [done|]. intros i Hi.
        destruct (Z.eq_dec i (Z.of_nat k)) as [->|?]; [done|]. apply Hz. lia.
      * right. split; [lia|]. split; [done|]. intros i Hi.
        destruct (Z.eq_dec i (Z.of_nat k)) as [->|?]; [done|]. apply Hz. lia.
Qed.

Lemma firstNZ_from_spec (fuel : nat) (n0 : Z) (coeff : list Z) (scan : Z -> Z) (start m : Z) :
  n0 <= m < n0 + Z.of_nat fuel -> rd coeff (scan (m + start)) <> 0 ->
  let n := firstNZ_from fuel n0 coeff scan start in
  n0 <= n <= m /\ rd coeff (scan (n + start)) <> 0 /\
  forall i, n0 <= i < n -> rd coeff (scan (i + start)) = 0.
Proof.
  revert n0. induction fuel as [|fuel IH]; intros n0 Hm Hnz; simpl; [lia|].
  destruct (nz (rd coeff (scan (n0 + start)))) eqn:E.
  - apply nz_true in E. split; [lia|]. split; [done|]. intros; lia.
  - apply nz_false in E.
    assert (n0 <> m) by (intros ->; done).
    destruct (IH (n0 + 1) ltac:(lia) Hnz) as (Hr & Hn & Hz).
    split; [lia|]. split; [done|]. intros i Hi.
    destruct (Z.eq_dec i n0) as [->|?]; [done|]. apply Hz. lia.
Qed.

(** The two searches find the first and last non-zero positions of a group
    that has one. *)
Lemma cg_first_last (coeff : list Z) (scan : Z -> Z) (start : Z) :
  let l := lastNZ_from (Z.to_nat SCAN_SET_SIZE) coeff scan start in
  let f := firstNZ_from (Z.to_nat SCAN_SET_SIZE) 0 coeff scan start in
  (l = -1 /\ forall i, 0 <= i < SCAN_SET_SIZE -> rd coeff (scan (i + start)) = 0) \/
  (is_lastNZ coeff scan start l /\ is_firstNZ coeff scan start f /\ f <= l).
Proof.
  intros l f.
  destruct (lastNZ_from_spec (Z.to_nat SCAN_SET_SIZE) coeff scan start) as [[Hn Hz]|(Hn & Hnz & Hz)];
    fold l in Hn, Hz |- *.
  - left. split; [done|]. intros i Hi. apply Hz. unfold SCAN_SET_SIZE in *. lia.
  - right. fold l in Hnz.
    assert (Hl : 0 <= l < SCAN_SET_SIZE) by (unfold SCAN_SET_SIZE in *; lia).
    destruct (firstNZ_from_spec (Z.to_nat SCAN_SET_SIZE) 0 coeff scan start l
                ltac:(unfold SCAN_SET_SIZE in *; lia) Hnz) as (Hr & Hfnz & Hfz).
    fold f in Hr, Hfnz, Hfz.
    split; [|split; [|lia]].
    + split; [done|]. split; [done|]. intros i Hi. apply Hz. unfold SCAN_SET_SIZE in *. lia.
    + split; [lia|]. split; [done|]. intros i Hi. apply Hfz. lia.
Qed.

Lemma is_firstNZ_unique coeff scan start f f' :
  is_firstNZ coeff scan start f -> is_firstNZ coeff scan start f' -> f = f'.
Proof.
  intros (Hf & Hnz & Hz) (Hf' & Hnz' & Hz').
  destruct (Z.lt_trichotomy f f') as [Hlt|[?|Hgt]]; [|done|].
  - exfalso. apply Hnz. apply Hz'. lia.
  - exfalso. apply Hnz'. apply Hz. lia.
Qed.

Lemma is_lastNZ_unique coeff scan start l l' :
  is_lastNZ coeff scan start l -> is_lastNZ coeff scan start l' -> l = l'.
Proof.
  intros (Hl & Hnz & Hz) (Hl' & Hnz' & Hz').
  destruct (Z.lt_trichotomy l l') as [Hlt|[?|Hgt]]; [|done|].
  - exfalso. apply Hnz'. apply Hz. lia.
  - exfalso. apply Hnz. apply Hz'. lia.
Qed.

Lemma sumZ_S (n : nat) (f : Z -> Z) : sumZ (S n) f = sumZ n f + f (Z.of_nat n).
Proof. reflexivity. Qed.

Lemma sumZ_window (n : nat) (g : Z -> Z) (lo cnt : Z) :
  0 <= lo -> 0 <= cnt -> lo + cnt <= Z.of_nat n ->
  (forall i, 0 <= i < Z.of_nat n -> i < lo \/ lo + cnt <= i -> g i = 0) ->
  sumZ n g = sumZ (Z.to_nat cnt) (fun i => g (lo + i)).
Proof.
  intros Hlo Hcnt Hn Hz. unfold sumZ at 1.
  assert (H : (fun i acc => acc = sumZ (Z.to_nat (Z.min (Z.max (i - lo) 0) cnt))
                                   (fun j => g (lo + j)))
              (Z.of_nat n) (for_up n (fun i acc => acc + g i) 0)).
  { apply for_up_ind.
    - replace (Z.min (Z.max (0 - lo) 0) cnt) with 0 by lia. reflexivity.
    - intros i acc Hi ->.
      destruct (Z_lt_dec i lo) as [Hl|Hl].
      + rewrite (Hz i Hi) by lia.
        replace (Z.min (Z.max (i + 1 - lo) 0) cnt) with 0 by lia.
        replace (Z.min (Z.max (i - lo) 0) cnt) with 0 by lia. simpl. unfold sumZ. simpl. lia.
      + destruct (Z_le_dec (lo + cnt) i) as [Hh|Hh].
        * rewrite (Hz i Hi) by lia.
          replace (Z.min (Z.max (i + 1 - lo) 0) cnt) with cnt by lia.
          replace (Z.min (Z.max (i - lo) 0) cnt) with cnt by lia. lia.
        * replace (Z.min (Z.max (i + 1 - lo) 0) cnt) with (i - lo + 1) by lia.
          replace (Z.min (Z.max (i - lo) 0) cnt) with (i - lo) by lia.
          replace (Z.to_nat (i - lo + 1)) with (S (Z.to_nat (i - lo))) by lia.
          rewrite sumZ_S. rewrite Z2Nat.id by lia. f_equal. f_equal. lia. }
  simpl in H. rewrite H. f_equal. lia.
Qed.

Lemma land_1_mod (x : Z) : Z.land x 1 = x mod 2.
Proof. change 1 with (Z.ones 1). by rewrite Z.land_ones. Qed.

Lemma u32_parity (x : Z) : u32 x mod 2 = x mod 2.
Proof.
  unfold u32. apply Z.mod_mod_divide. exists (2 ^ 31). reflexivity.
Qed.

Lemma abs_parity (a b x : Z) : a mod 2 = b mod 2 -> (a + x) mod 2 = (b + Z.abs x) mod 2.
Proof. intros Hab. Z.div_mod_to_equations. lia. Qed.

(** The parity the code tests, that of the wrapped sum of the signed levels
    between the first and last non-zero positions, is the parity of the sum
    of the absolute levels of the group. *)
Lemma cg_absSum_parity (coeff : list Z) (scan : Z -> Z) (start f l : Z) :
  is_firstNZ coeff scan start f -> is_lastNZ coeff scan start l -> f <= l ->
  Z.land (cg_absSum coeff scan start f l) 1 = cg_abs_levels coeff scan start mod 2.
Proof.
  intros (Hf & _ & Hfz) (Hl & _ & Hlz) Hfl. rewrite land_1_mod.
  unfold cg_abs_levels.
  rewrite (sumZ_window _ _ f (l - f + 1)); unfold SCAN_SET_SIZE in *; try lia.
  - unfold cg_absSum, for_range, sumZ.
    induction (Z.to_nat (l - f + 1)) as [|n IH]; [reflexivity|].
    rewrite !for_up_S. rewrite u32_parity. by apply abs_parity.
  - intros i Hi [Hlt|Hge].
    + rewrite Hfz by lia. reflexivity.
    + rewrite Hlz by lia. reflexivity.
Qed.

Lemma rdsbh_absSum_parity `{Config} (q : Quant) (cu : TComDataCU) (log2TrSize : Z)
    (ttype : TextType) (absPartIdx : Z) (dst : list Z) (start f l : Z) :
  let sc := scan (rq_codeParams cu log2TrSize ttype absPartIdx) in
  is_firstNZ dst sc start f -> is_lastNZ dst sc start l -> f <= l ->
  Z.land (u32 (rdsbh_absSum cu log2TrSize ttype absPartIdx dst start f l)) 1
  = cg_abs_levels dst sc start mod 2.
Proof.
  intros sc (Hf & _ & Hfz) (Hl & _ & Hlz) Hfl. rewrite land_1_mod, u32_parity.
  unfold cg_abs_levels.
  rewrite (sumZ_window _ _ f (l - f + 1)); unfold SCAN_SET_SIZE in *; try lia.
  - unfold rdsbh_absSum, for_range, sumZ. fold sc.
    induction (Z.to_nat (l - f + 1)) as [|n IH]; [reflexivity|].
    rewrite !for_up_S. by apply abs_parity.
  - intros i Hi [Hlt|Hge].
    + rewrite Hfz by lia. reflexivity.
    + rewrite Hlz by lia. reflexivity.
Qed.

(** ** Sign-bit hiding: the coefficient that is chosen *)

Lemma sbh_keep_min_inv coeff scan start top l MAXV (forced : Prop) i cost change s :
  0 <= i <= top ->
  (cost < MAXV -> (change = 1 \/ change = -1) /\ (rd coeff (scan (i + start)) = 0 -> change = 1)) ->
  (forced -> i = l -> cost < MAXV) ->
  sbh_inv coeff scan start top l MAXV forced (i + 1) s ->
  sbh_inv coeff scan start top l MAXV forced i (sbh_keep_min (scan (i + start)) cost change s).
Proof.
  intros Hi Hchg Hforce (Hle & Hs). unfold sbh_keep_min.
  destruct (Z.ltb_spec cost (minCostInc s)) as [Hlt|Hge].
  - split; [simpl; lia|]. left. exists i. simpl.
    destruct (Hchg ltac:(lia)) as [H1 H2]. split; [lia|]. split; [done|]. split; done.
  - split; [done|]. destruct Hs as [Hc|(Hp & Hf & Hm & Hl)].
    + left. destruct Hc as (n & Hn & Hmp & Hfc & Hz). exists n. simpl.
      split; [lia|]. split; [done|]. split; done.
    + right. simpl. split; [done|]. split; [done|]. split; [done|]. intros Hfo.
      specialize (Hl Hfo). specialize (Hforce Hfo).
      destruct (Z.eq_dec i l) as [->|?]; [|lia]. specialize (Hforce eq_refl). lia.
Qed.

Lemma hdq_search_inv (coeff deltaU resi : list Z) (scan : Z -> Z)
    (start f l signbit top : Z) :
  is_firstNZ coeff scan start f -> is_lastNZ coeff scan start l ->
  l - f >= SBH_THRESHOLD -> l <= top ->
  sbh_chosen coeff scan start top
    (for_down (Z.to_nat (top + 1)) (hdq_cost_step coeff deltaU resi scan start f signbit)
       sbh_search_init).
Proof.
  intros (Hf & Hfnz & Hfz) (Hl & Hlnz & Hlz) Hdist Htop.
  unfold SBH_THRESHOLD, SCAN_SET_SIZE in *.
  assert (H : sbh_inv coeff scan start top l MAX_INT True 0
            (for_down (Z.to_nat (top + 1)) (hdq_cost_step coeff deltaU resi scan start f signbit)
               sbh_search_init)).
  { apply (for_down_ind (sbh_inv coeff scan start top l MAX_INT True)).
    - split; [simpl; lia|]. right. simpl. repeat split; try done. lia.
    - intros i s Hi HI. unfold hdq_cost_step.
      match goal with |- context [let '(cost, change) := ?e in _] =>
        remember e as cc eqn:E; destruct cc as [cost change] end.
      apply sbh_keep_min_inv; [lia | | | done].
      + intros Hlt. revert E.
        destruct (nz (rd coeff (scan (i + start)))) eqn:Enz.
        * apply nz_true in Enz.
          destruct (rd deltaU (scan (i + start)) >? 0);
            [|destruct ((i =? f) && (Z.abs (rd coeff (scan (i + start))) =? 1))];
            intros [= -> ->]; try (unfold MAX_INT in *; lia); split; auto; done.
        * destruct (i <? f);
            [destruct (negb ((if rd resi (scan (i + start)) >=? 0 then 0 else 1) =? signbit))|];
            intros [= -> ->]; try (unfold MAX_INT in *; lia); split; auto.
      + intros _ ->. revert E.
        destruct (nz (rd coeff (scan (l + start)))) eqn:Enz;
          [|apply nz_false in Enz; done].
        destruct (Z.gtb_spec (rd deltaU (scan (l + start))) 0).
        * intros [= -> ->]. unfold MAX_INT. lia.
        * destruct (Z.eqb_spec l f); [lia|]. simpl.
          intros [= -> ->]. unfold MAX_INT. lia. }
  destruct H as (_ & [Hc|(_ & _ & _ & Hl')]); [done|]. specialize (Hl' I). lia.
Qed.

Lemma rdsbh_search_inv `{Config} (q : Quant) (cu : TComDataCU) (log2TrSize : Z)
    (ttype : TextType) (absPartIdx : Z) (dst : list Z) (t : rdoq_tabs) (rdFactor : Z)
    (lastCG : bool) (start f l signbit top : Z) (forced : Prop) :
  let sc := scan (rq_codeParams cu log2TrSize ttype absPartIdx) in
  is_firstNZ dst sc start f -> is_lastNZ dst sc start l ->
  l - f >= SBH_THRESHOLD -> l <= top ->
  (forced -> rdsbh_cost_bounded t rdFactor (sc (l + start))) ->
  sbh_inv dst sc start top l MAX_INT64 forced 0
    (for_down (Z.to_nat (top + 1))
       (rdsbh_cost_step q cu log2TrSize ttype absPartIdx dst t rdFactor lastCG start f l signbit)
       rdsbh_search_init).
Proof.
  intros sc (Hf & Hfnz & Hfz) (Hl & Hlnz & Hlz) Hdist Htop Hforce.
  unfold SBH_THRESHOLD, SCAN_SET_SIZE in *.
  apply (for_down_ind (sbh_inv dst sc start top l MAX_INT64 forced)).
  - split; [simpl; lia|]. right. simpl. repeat split; try done. lia.
  - intros i s Hi HI. unfold rdsbh_cost_step. fold sc.
    match goal with |- context [let '(cost, change) := ?e in _] =>
      remember e as cc eqn:E; destruct cc as [cost change] end.
    apply sbh_keep_min_inv; [lia | | | done].
    + intros Hlt. revert E.
      destruct (nz (rd dst (sc (i + start)))) eqn:Enz.
      * apply nz_true in Enz.
        match goal with |- context [if ?a <? ?b then _ else _] => destruct (a <? b) end;
          [|destruct ((i =? f) && (Z.abs (rd dst (sc (i + start))) =? 1))];
          intros [= -> ->]; try (unfold MAX_INT64 in *; lia); split; auto; done.
      * destruct (i <? f);
          [destruct (negb ((if rd (m_resiDctCoeff q) (sc (i + start)) >=? 0 then 0 else 1) =? signbit))|];
          intros [= -> ->]; try (unfold MAX_INT64 in *; lia); split; auto.
    + intros Hfo ->. specialize (Hforce Hfo). unfold rdsbh_cost_bounded in Hforce. revert E.
      destruct (nz (rd dst (sc (l + start)))) eqn:Enz;
        [|apply nz_false in Enz; done].
      rewrite Z.eqb_refl.
      destruct (Z.eqb_spec l f); [lia|]. simpl.
      match goal with |- context [if ?a <? ?b then _ else _] => destruct (Z.ltb_spec a b) end.
      * intros [= -> ->]. lia.
      * intros [= -> ->].
        destruct (Z.abs (rd dst (sc (l + start))) =? 1), lastCG; simpl in *; 
          change (1 ≪ 15) with 32768 in *; change (4 ≪ 15) with 131072 in *; try lia.
Qed.

(** ** Sign-bit hiding: the update *)

Lemma aget_aset {A} (d : A) (a : list A) (i j : Z) (v : A) :
  aget d (aset a i v) j =
  if decide (i = j /\ 0 <= i < Z.of_nat (length a)) then v else aget d a j.
Proof.
  destruct (decide (i = j /\ 0 <= i < Z.of_nat (length a))) as [[-> Hin]|Hn].
  - by apply aget_aset_eq.
  - destruct (Z.eq_dec i j) as [->|Hne]; [|by apply aget_aset_ne].
    unfold aset. destruct (Z.ltb_spec j 0); [done|].
    rewrite list_insert_ge by lia. done.
Qed.

Lemma sbh_apply_fst (coeff resi : list Z) (numSig p fc : Z) :
  (fc = 1 \/ fc = -1) ->
  exists v, (sbh_apply coeff resi numSig p fc).1 = aset coeff p v /\
            (v = rd coeff p + 1 \/ v = rd coeff p - 1).
Proof.
  intros Hfc. unfold sbh_apply. simpl.
  destruct ((rd coeff p =? 32767) || (rd coeff p =? -32768)), (rd resi p >=? 0);
    eexists; (split; [reflexivity|]); lia.
Qed.

Lemma sbh_apply_untouched (coeff resi : list Z) (numSig p fc : Z) :
  p < 0 -> (sbh_apply coeff resi numSig p fc).1 = coeff.
Proof.
  intros Hp. unfold sbh_apply, aset. simpl.
  destruct (Z.ltb_spec p 0); [|lia]. by destruct (rd resi p >=? 0).
Qed.

Lemma sbh_apply_sides (coeff resi : list Z) (numSig p fc : Z) :
  sides_ok coeff resi -> (fc = 1 \/ fc = -1) -> (rd coeff p = 0 -> fc = 1) ->
  sides_ok (sbh_apply coeff resi numSig p fc).1 resi.
Proof.
  intros Hs Hfc Hz pos. specialize (Hs pos) as Hpos. specialize (Hs p) as [Hp1 Hp2].
  unfold sbh_apply. simpl.
  destruct (Z.eqb_spec (rd coeff p) 32767), (Z.eqb_spec (rd coeff p) (-32768)),
    (Z.geb_spec (rd resi p) 0); simpl;
    rewrite aget_aset; case_decide as Hd; try done; destruct Hd as [<- _];
    unfold side_ok; lia.
Qed.

Lemma count_nonzero_S (coeff : list Z) (n : nat) :
  count_nonzero coeff (Z.of_nat (S n)) =
  count_nonzero coeff (Z.of_nat n) + b2z (nz (rd coeff (Z.of_nat n))).
Proof. unfold count_nonzero. rewrite !Nat2Z.id. reflexivity. Qed.

Lemma count_nonzero_bounds (coeff : list Z) (N : Z) :
  0 <= N -> 0 <= count_nonzero coeff N <= N.
Proof.
  intros HN. unfold count_nonzero.
  assert (H : (fun i cnt => 0 <= cnt <= i) (Z.of_nat (Z.to_nat N))
                (for_up (Z.to_nat N) (fun i cnt => cnt + b2z (nz (rd coeff i))) 0)).
  { apply for_up_ind; [lia|].
    intros i s Hi Hs. unfold b2z. destruct (nz (rd coeff i)); lia. }
  simpl in H. rewrite Z2Nat.id in H by lia. exact H.
Qed.

Lemma count_nonzero_aset (coeff : list Z) (p v N : Z) :
  0 <= p < N -> N <= Z.of_nat (length coeff) ->
  count_nonzero (aset coeff p v) N =
  count_nonzero coeff N - b2z (nz (rd coeff p)) + b2z (nz v).
Proof.
  intros Hp HN.
  assert (H : forall n : nat, Z.of_nat n <= Z.of_nat (length coeff) ->
            count_nonzero (aset coeff p v) (Z.of_nat n) =
            count_nonzero coeff (Z.of_nat n)
            + (if p <? Z.of_nat n then b2z (nz v) - b2z (nz (rd coeff p)) else 0)).
  { induction n as [|n IH]; intros Hn.
    - change (Z.of_nat 0) with 0. destruct (Z.ltb_spec p 0); [lia|]. reflexivity.
    - rewrite !count_nonzero_S, IH by lia. rewrite aget_aset.
      case_decide as Hd.
      + destruct Hd as [-> _].
        destruct (Z.ltb_spec (Z.of_nat n) (Z.of_nat n)); [lia|].
        destruct (Z.ltb_spec (Z.of_nat n) (Z.of_nat (S n))); lia.
      + assert (p <> Z.of_nat n) by lia.
        destruct (Z.ltb_spec p (Z.of_nat n)), (Z.ltb_spec p (Z.of_nat (S n))); lia. }
  specialize (H (Z.to_nat N)). rewrite Z2Nat.id in H by lia.
  rewrite H by lia. destruct (Z.ltb_spec p N); lia.
Qed.

Lemma sbh_apply_length (coeff resi : list Z) (numSig p fc : Z) :
  length (sbh_apply coeff resi numSig p fc).1 = length coeff.
Proof.
  unfold sbh_apply. simpl. destruct (rd resi p >=? 0); apply length_aset.
Qed.

(** [numSig] stays the count of non-zero levels across the update. *)
Lemma sbh_apply_numSig (coeff resi : list Z) (numSig p fc N : Z) :
  numSig = count_nonzero coeff N ->
  0 <= p < N -> N <= Z.of_nat (length coeff) -> N < 2 ^ 32 ->
  side_ok (rd coeff p) (rd resi p) ->
  (fc = 1 \/ fc = -1) -> (rd coeff p = 0 -> fc = 1) ->
  (sbh_apply coeff resi numSig p fc).2 = count_nonzero (sbh_apply coeff resi numSig p fc).1 N.
Proof.
  intros -> Hp HN H32 [Hs1 Hs2] Hfc Hz.
  pose proof (count_nonzero_bounds coeff N ltac:(lia)) as Hb.
  unfold sbh_apply. simpl.
  set (fc' := if (rd coeff p =? 32767) || (rd coeff p =? -32768) then -1 else fc).
  assert (Hfc' : (fc' = 1 \/ fc' = -1) /\ (rd coeff p = 0 -> fc' = 1)).
  { subst fc'. destruct (Z.eqb_spec (rd coeff p) 32767), (Z.eqb_spec (rd coeff p) (-32768));
      simpl; split; try lia; auto. }
  destruct Hfc' as [Hfc1 Hfc2].
  assert (Hnew : count_nonzero
            (if rd resi p >=? 0 then aset coeff p (rd coeff p + fc')
             else aset coeff p (rd coeff p - fc')) N =
          count_nonzero coeff N - b2z (nz (rd coeff p))
          + b2z (nz (if rd resi p >=? 0 then rd coeff p + fc' else rd coeff p - fc'))).
  { destruct (rd resi p >=? 0); by apply count_nonzero_aset. }
  rewrite Hnew. clear Hnew.
  assert (Hcnt : nz (rd coeff p) = true -> 1 <= count_nonzero coeff N).
  { intros Hnz. pose proof (count_nonzero_aset coeff p 0 N Hp HN) as Ha.
    pose proof (count_nonzero_bounds (aset coeff p 0) N ltac:(lia)).
    rewrite Hnz in Ha. change (b2z (nz 0)) with 0 in Ha. change (b2z true) with 1 in Ha. lia. }
  assert (Hcnt0 : nz (rd coeff p) = false -> count_nonzero coeff N < N).
  { intros Hnz. pose proof (count_nonzero_aset coeff p 1 N Hp HN) as Ha.
    pose proof (count_nonzero_bounds (aset coeff p 1) N ltac:(lia)).
    rewrite Hnz in Ha. change (b2z (nz 1)) with 1 in Ha. change (b2z false) with 0 in Ha. lia. }
  destruct (nz (rd coeff p)) eqn:Enz; simpl.
  - apply nz_true in Enz. specialize (Hcnt eq_refl).
    destruct (Z.eqb_spec fc' (-1)) as [Hm|Hm]; simpl.
    + destruct (Z.eqb_spec (Z.abs (rd coeff p)) 1) as [Ha|Ha].
      * unfold u32. rewrite Z.mod_small by lia.
        destruct (Z.geb_spec (rd resi p) 0).
        -- replace (rd coeff p + fc') with 0 by lia. simpl. lia.
        -- replace (rd coeff p - fc') with 0 by lia. simpl. lia.
      * destruct (Z.geb_spec (rd resi p) 0).
        -- assert (Hn : nz (rd coeff p + fc') = true) by (apply nz_true; lia).
           rewrite Hn. simpl. lia.
        -- assert (Hn : nz (rd coeff p - fc') = true) by (apply nz_true; lia).
           rewrite Hn. simpl. lia.
    + destruct (Z.geb_spec (rd resi p) 0).
      * assert (Hn : nz (rd coeff p + fc') = true) by (apply nz_true; lia).
        rewrite Hn. simpl. lia.
      * assert (Hn : nz (rd coeff p - fc') = true) by (apply nz_true; lia).
        rewrite Hn. simpl. lia.
  - apply nz_false in Enz as Hz0. specialize (Hcnt0 eq_refl). specialize (Hfc2 Hz0).
    unfold u32. rewrite Z.mod_small by lia.
    destruct (Z.geb_spec (rd resi p) 0).
    + replace (rd coeff p + fc') with 1 by lia. simpl. lia.
    + replace (rd coeff p - fc') with (-1) by lia. simpl. lia.
Qed.

(** ** Sign-bit hiding: one coefficient group *)

Lemma sbh_chosen_weaken coeff scan start top top' s :
  top <= top' -> sbh_chosen coeff scan start top s -> sbh_chosen coeff scan start top' s.
Proof. intros Hle (n & Hn & H). exists n. split; [lia|done]. Qed.

Lemma sbh_condition_iff (coeff : list Z) (scan : Z -> Z) (start f l : Z) :
  is_firstNZ coeff scan start f -> is_lastNZ coeff scan start l ->
  sbh_condition coeff scan start <->
  (l - f >= SBH_THRESHOLD /\
   (if rd coeff (scan (f + start)) <? 0 then 1 else 0) <> cg_abs_levels coeff scan start mod 2).
Proof.
  intros Hf Hl. split.
  - intros (f' & l' & Hf' & Hl' & Hd & Hp).
    rewrite (is_firstNZ_unique _ _ _ _ _ Hf Hf'), (is_lastNZ_unique _ _ _ _ _ Hl Hl'). done.
  - intros [Hd Hp]. by exists f, l.
Qed.

Lemma let_pair_fst {A B} (x : A * B) (b : bool) :
  (let '(a, n) := x in (a, n, b)).1 = x.
Proof. by destruct x. Qed.

Lemma hdq_cg_step_cases (deltaU resi : list Z) (scan : Z -> Z) (cg : Z)
    (c : list Z) (ns : Z) (lc : bool) :
  let start := cg ≪ LOG2_SCAN_SET_SIZE in
  let r := hdq_cg_step deltaU resi scan cg (c, ns, lc) in
  (~ sbh_condition c scan start /\ r.1 = (c, ns)) \/
  (sbh_condition c scan start /\
   exists s, sbh_chosen c scan start (SCAN_SET_SIZE - 1) s /\
             r.1 = sbh_apply c resi ns (minPos s) (finalChange s)).
Proof.
  intros start r. subst r. unfold hdq_cg_step. fold start.
  destruct (cg_first_last c scan start) as [[Hl Hz]|(Hl & Hf & Hfl)].
  - rewrite Hl. left. split; [|done].
    intros (f & l & (Hf & Hfnz & _) & _). apply Hfnz. apply Hz. lia.
  - set (l := lastNZ_from (Z.to_nat SCAN_SET_SIZE) c scan start) in *.
    set (f := firstNZ_from (Z.to_nat SCAN_SET_SIZE) 0 c scan start) in *.
    pose proof (sbh_condition_iff c scan start f l Hf Hl) as Hiff.
    pose proof Hl as (Hlr & Hlnz & Hlz). pose proof Hf as (Hfr & Hfnz & Hfz).
    destruct (Z.ltb_spec l 0); [lia|]. rewrite let_pair_fst.
    destruct (Z.geb_spec (l - f) SBH_THRESHOLD) as [Hd|Hd].
    + assert (Hsb : cg_signbit c scan start f = if rd c (scan (f + start)) <? 0 then 1 else 0).
      { unfold cg_signbit. replace (start + f) with (f + start) by lia.
        destruct (Z.gtb_spec (rd c (scan (f + start))) 0), (Z.ltb_spec (rd c (scan (f + start))) 0); lia. }
      rewrite (cg_absSum_parity c scan start f l) by (done || lia).
      destruct (Z.eqb_spec (cg_signbit c scan start f)
                  (cg_abs_levels c scan start mod 2)) as [He|He]; cbn [negb].
      * left. split; [|done]. rewrite Hiff, <- Hsb. intros [_ Hp]. done.
      * right. split; [apply Hiff; rewrite <- Hsb; split; [lia|done]|].
        eexists. split; [|reflexivity].
        eapply sbh_chosen_weaken; [|apply hdq_search_inv with (l := l); try done; try lia].
        -- destruct lc; unfold SCAN_SET_SIZE in *; lia.
        -- destruct lc; unfold SCAN_SET_SIZE in *; lia.
    + left. split; [|done]. rewrite Hiff. intros [Hd' _]. lia.
Qed.

(** ** [signBitHidingHDQ] *)

Lemma sumZ_ext (n : nat) (f g : Z -> Z) :
  (forall i, 0 <= i < Z.of_nat n -> f i = g i) -> sumZ n f = sumZ n g.
Proof.
  intros Hfg. unfold sumZ. apply for_up_ext. intros i s Hi. by rewrite Hfg.
Qed.

Lemma sbh_condition_ext (c c' : list Z) (scan : Z -> Z) (start : Z) :
  (forall n, 0 <= n < SCAN_SET_SIZE -> rd c (scan (n + start)) = rd c' (scan (n + start))) ->
  sbh_condition c scan start -> sbh_condition c' scan start.
Proof.
  intros Heq (f & l & (Hf & Hfnz & Hfz) & (Hl & Hlnz & Hlz) & Hd & Hp).
  exists f, l. split; [|split; [|split; [done|]]].
  - split; [done|]. split; [by rewrite <- Heq|]. intros i Hi. rewrite <- Heq by lia. by apply Hfz.
  - split; [done|]. split; [by rewrite <- Heq|]. intros i Hi. rewrite <- Heq by lia. by apply Hlz.
  - rewrite <- Heq by done.
    replace (cg_abs_levels c' scan start) with (cg_abs_levels c scan start); [done|].
    unfold cg_abs_levels. apply sumZ_ext. intros i Hi. rewrite Heq; [done|].
    unfold SCAN_SET_SIZE in *. lia.
Qed.

Lemma shiftl_4 (cg : Z) : cg ≪ LOG2_SCAN_SET_SIZE = 16 * cg.
Proof. unfold LOG2_SCAN_SET_SIZE. rewrite Z.shiftl_mul_pow2 by lia. lia. Qed.

Lemma numCG_numCoeff (log2TrSize : Z) :
  2 <= log2TrSize -> 16 * (1 ≪ ((log2TrSize - 2) * 2)) = 1 ≪ (log2TrSize * 2).
Proof.
  intros H. rewrite !Z.shiftl_1_l.
  replace (log2TrSize * 2) with (4 + (log2TrSize - 2) * 2) by lia.
  rewrite Z.pow_add_r by lia. reflexivity.
Qed.

Section HDQ.
Variables (resi deltaU : list Z) (cp : TUEntropyCodingParameters) (log2TrSize : Z).
Hypothesis wf : codeParams_wf cp log2TrSize.
Hypothesis log2_ge : 2 <= log2TrSize.

Local Abbreviation G := (1 ≪ (log2TrSizeCG cp * 2)).
Local Abbreviation N2 := (1 ≪ (log2TrSize * 2)).

Lemma hdq_G_pos : 0 < G /\ 16 * G = N2.
Proof.
  destruct wf as (-> & _). split; [apply shiftl_1_pos; lia | by apply numCG_numCoeff].
Qed.

Lemma hdq_scan_range (cg n : Z) :
  0 <= cg < G -> 0 <= n < SCAN_SET_SIZE ->
  0 <= scan cp (n + cg ≪ LOG2_SCAN_SET_SIZE) < N2.
Proof.
  intros Hcg Hn. destruct wf as (_ & Hr & _). pose proof hdq_G_pos.
  apply Hr. rewrite shiftl_4. unfold SCAN_SET_SIZE in *. lia.
Qed.

Lemma hdq_scan_inj (cg n cg' n' : Z) :
  0 <= cg < G -> 0 <= n < SCAN_SET_SIZE -> 0 <= cg' < G -> 0 <= n' < SCAN_SET_SIZE ->
  scan cp (n + cg ≪ LOG2_SCAN_SET_SIZE) = scan cp (n' + cg' ≪ LOG2_SCAN_SET_SIZE) ->
  cg = cg' /\ n = n'.
Proof.
  intros Hcg Hn Hcg' Hn' Heq. destruct wf as (_ & _ & Hi). pose proof hdq_G_pos.
  rewrite !shiftl_4 in Heq. unfold SCAN_SET_SIZE in *.
  apply Hi in Heq; lia.
Qed.

(** Sign-bit hiding keeps every level on the side of its DCT coefficient. *)
Lemma signBitHidingHDQ_sides (coeff : list Z) (numSig : Z) :
  sides_ok coeff resi ->
  sides_ok (signBitHidingHDQ resi coeff deltaU numSig cp).1 resi.
Proof.
  intros Hs. unfold signBitHidingHDQ.
  assert (H : (fun st : list Z * Z * bool => sides_ok st.1.1 resi)
            (for_down (Z.to_nat G) (hdq_cg_step deltaU resi (scan cp)) (coeff, numSig, true))).
  { apply for_down_inv; [done|]. intros i [[c ns] lc] Hi Hc. simpl in Hc.
    destruct (hdq_cg_step_cases deltaU resi (scan cp) i c ns lc) as [[_ Hr]|[_ (s & Hch & Hr)]].
    - by rewrite Hr.
    - rewrite Hr. destruct Hch as (n & _ & _ & Hfc & Hz). by apply sbh_apply_sides. }
  simpl in H. by destruct (for_down _ _ _) as [[c ns] lc].
Qed.

(** Sign-bit hiding keeps [numSig] the count of non-zero levels. *)
Lemma signBitHidingHDQ_numSig (coeff : list Z) (numSig : Z) :
  N2 <= Z.of_nat (length coeff) -> N2 < 2 ^ 32 ->
  sides_ok coeff resi -> numSig = count_nonzero coeff N2 ->
  let r := signBitHidingHDQ resi coeff deltaU numSig cp in
  r.2 = count_nonzero r.1 N2 /\ length r.1 = length coeff.
Proof.
  intros Hlen H32 Hs Hns r. subst r. unfold signBitHidingHDQ.
  assert (H : (fun st : list Z * Z * bool =>
                 sides_ok st.1.1 resi /\ st.1.2 = count_nonzero st.1.1 N2 /\
                 length st.1.1 = length coeff)
            (for_down (Z.to_nat G) (hdq_cg_step deltaU resi (scan cp)) (coeff, numSig, true))).
  { apply for_down_inv; [done|]. intros i [[c ns] lc] Hi (Hc & Hn & Hl). simpl in Hc, Hn, Hl.
    pose proof hdq_G_pos as [HG _]. rewrite Z2Nat.id in Hi by lia.
    destruct (hdq_cg_step_cases deltaU resi (scan cp) i c ns lc) as [[_ Hr]|[_ (s & Hch & Hr)]].
    - by rewrite Hr.
    - rewrite Hr. destruct Hch as (n & Hn' & Hmp & Hfc & Hz).
      split; [by apply sbh_apply_sides|]. split; [|by rewrite sbh_apply_length].
      apply sbh_apply_numSig; try done; try lia.
      rewrite Hmp. apply hdq_scan_range; unfold SCAN_SET_SIZE in *; lia. }
  destruct (for_down _ _ _) as [[c ns] lc]. simpl in *. tauto.
Qed.

Lemma cg_frame_ext (coeff c c' : list Z) (sc : Z -> Z) (start : Z) :
  (forall n, 0 <= n < SCAN_SET_SIZE -> rd c' (sc (n + start)) = rd c (sc (n + start))) ->
  cg_frame coeff c sc start -> cg_frame coeff c' sc start.
Proof.
  intros Heq [Hno Hyes]. split.
  - intros Hc n Hn. rewrite Heq by done. by apply Hno.
  - intros Hc. destruct (Hyes Hc) as (n & Hn & Habs & Hoth). exists n.
    split; [done|]. split; [by rewrite Heq|]. intros m Hm Hne. rewrite Heq by done. by apply Hoth.
Qed.

(** C9.  [signBitHidingHDQ] leaves a coefficient group alone unless its first
    and last non-zero scan positions are at least [SBH_THRESHOLD] apart and
    the sign bit of the first non-zero level differs from the parity of the
    sum of the absolute levels; in that case exactly one level of the group
    changes, by one in absolute value.  Levels outside the scanned block are
    untouched. *)
Theorem signBitHidingHDQ_frame (coeff : list Z) (numSig : Z) :
  N2 <= Z.of_nat (length coeff) ->
  let out := (signBitHidingHDQ resi coeff deltaU numSig cp).1 in
  (forall cg, 0 <= cg < G -> cg_frame coeff out (scan cp) (cg ≪ LOG2_SCAN_SET_SIZE)) /\
  (forall pos, (forall i, 0 <= i < N2 -> scan cp i <> pos) -> rd out pos = rd coeff pos).
Proof.
  intros Hlen out. subst out. unfold signBitHidingHDQ.
  pose proof hdq_G_pos as [HG HGN].
  set (P := fun (i : Z) (st : list Z * Z * bool) =>
    length st.1.1 = length coeff /\
    (forall cg, i <= cg < G -> cg_frame coeff st.1.1 (scan cp) (cg ≪ LOG2_SCAN_SET_SIZE)) /\
    (forall cg n, 0 <= cg < i -> 0 <= n < SCAN_SET_SIZE ->
       rd st.1.1 (scan cp (n + cg ≪ LOG2_SCAN_SET_SIZE))
       = rd coeff (scan cp (n + cg ≪ LOG2_SCAN_SET_SIZE))) /\
    (forall pos, (forall i, 0 <= i < N2 -> scan cp i <> pos) -> rd st.1.1 pos = rd coeff pos)).
  assert (H : P 0 (for_down (Z.to_nat G) (hdq_cg_step deltaU resi (scan cp))
                     (coeff, numSig, true))).
  { apply for_down_ind.
    - subst P. simpl. split; [done|]. split; [intros; lia|]. split; done.
    - intros i [[c ns] lc] Hi (Hl & Hfr & Hlow & Hout). simpl in Hl, Hfr, Hlow, Hout.
      rewrite Z2Nat.id in Hi by lia.
      assert (Hgrp : forall n, 0 <= n < SCAN_SET_SIZE ->
                rd c (scan cp (n + i ≪ LOG2_SCAN_SET_SIZE))
                = rd coeff (scan cp (n + i ≪ LOG2_SCAN_SET_SIZE))).
      { intros n Hn. apply Hlow; [lia|done]. }
      destruct (hdq_cg_step_cases deltaU resi (scan cp) i c ns lc)
        as [[Hno Hr]|[Hyes (s & Hch & Hr)]]; subst P; cbv beta; rewrite Hr; cbn [fst snd].
      + split; [done|]. split; [|split; [|done]].
        * intros cg Hcg. destruct (Z.eq_dec cg i) as [->|?]; [|apply Hfr; lia].
          split; [intros _ n Hn; by apply Hgrp|].
          intros Hc. exfalso. apply Hno. eapply sbh_condition_ext; [|exact Hc].
          intros n Hn. symmetry. by apply Hgrp.
        * intros cg n Hcg Hn. apply Hlow; [lia|done].
      + destruct Hch as (n & Hn & Hmp & Hfc & Hz).
        destruct (sbh_apply_fst c resi ns (minPos s) (finalChange s) Hfc) as (v & -> & Hv).
        assert (Hnr : 0 <= n < SCAN_SET_SIZE) by (unfold SCAN_SET_SIZE in *; lia).
        pose proof (hdq_scan_range i n ltac:(lia) Hnr) as Hp. rewrite <- Hmp in Hp.
        split; [by rewrite length_aset|]. split; [|split].
        * intros cg Hcg. destruct (Z.eq_dec cg i) as [->|Hne].
          -- split.
             ++ intros Hc. exfalso. apply Hc. eapply sbh_condition_ext; [|exact Hyes]. done.
             ++ intros _. exists n. split; [done|]. split.
                ** rewrite <- (Hgrp n Hnr). rewrite <- Hmp.
                   rewrite aget_aset_eq by lia. lia.
                ** intros m Hm Hmn. rewrite aget_aset_ne; [by apply Hgrp|].
                   rewrite Hmp. intros Heq.
                   apply hdq_scan_inj in Heq; try done; lia.
          -- apply (cg_frame_ext coeff c); [|apply Hfr; lia].
             intros m Hm. apply aget_aset_ne. rewrite Hmp. intros Heq.
             apply hdq_scan_inj in Heq; try done; lia.
        * intros cg m Hcg Hm. rewrite aget_aset_ne; [apply Hlow; lia|].
          rewrite Hmp. intros Heq. apply hdq_scan_inj in Heq; try done; lia.
        * intros pos Hpos. rewrite aget_aset_ne; [by apply Hout|].
          rewrite Hmp. apply Hpos. rewrite shiftl_4. unfold SCAN_SET_SIZE in *. lia. }
  destruct (for_down _ _ _) as [[c ns] lc]. destruct H as (_ & Hfr & _ & Hout). simpl in *.
  split; [|done]. intros cg Hcg. apply Hfr. lia.
Qed.
End HDQ.

Lemma signBitHidingHDQ_frame_witness :
  let out := (signBitHidingHDQ hdq_sample_resi hdq_sample_levels hdq_sample_deltaU 3
                sample_codeParams).1 in
  (forall cg, 0 <= cg < 1 ≪ (log2TrSizeCG sample_codeParams * 2) ->
     cg_frame hdq_sample_levels out (scan sample_codeParams) (cg ≪ LOG2_SCAN_SET_SIZE)) /\
  (forall pos, (forall i, 0 <= i < 1 ≪ (2 * 2) -> scan sample_codeParams i <> pos) ->
     rd out pos = rd hdq_sample_levels pos).
Proof.
  apply (signBitHidingHDQ_frame hdq_sample_resi hdq_sample_deltaU sample_codeParams 2).
  - apply codeParams_wfb_sound. vm_compute. reflexivity.
  - lia.
  - vm_compute. discriminate.
Defined.

(** ** Rate-distortion sign hiding: one coefficient group *)

Section RDSBH.
Context `{Config}.
Variables (q : Quant) (cu : TComDataCU) (log2TrSize : Z) (ttype : TextType) (absPartIdx : Z).
Variables (t : rdoq_tabs) (rdFactor : Z).

Local Abbreviation sc := (scan (rq_codeParams cu log2TrSize ttype absPartIdx)).
Local Abbreviation resi := (m_resiDctCoeff q).

Lemma let_pair_snd {A B} (x : A * B) (b : bool) :
  (let '(a, n) := x in (a, n, b)).2 = b.
Proof. by destruct x. Qed.

Lemma rdsbh_cg_step_cases (forced : Prop) (subSet : Z) (c : list Z) (ns : Z) (lc : bool) :
  (forced -> forall p, rdsbh_cost_bounded t rdFactor p) ->
  let start := subSet ≪ LOG2_SCAN_SET_SIZE in
  let r := rdsbh_cg_step q cu log2TrSize ttype absPartIdx t rdFactor subSet (c, ns, lc) in
  ((forall n, 0 <= n < SCAN_SET_SIZE -> rd c (sc (n + start)) = 0) /\ r = (c, ns, lc)) \/
  (exists l, is_lastNZ c sc start l /\ r.2 = false /\
     (r.1 = (c, ns) \/
      exists s, (sbh_chosen c sc start (if lc then l else SCAN_SET_SIZE - 1) s \/
                 (~ forced /\ minPos s = -1)) /\
                r.1 = sbh_apply c resi ns (minPos s) (finalChange s))).
Proof.
  intros Hb start r. subst r. unfold rdsbh_cg_step. fold start.
  destruct (cg_first_last c sc start) as [[Hl Hz]|(Hl & Hf & Hfl)].
  - rewrite Hl. left. split; [|done]. intros n Hn. apply Hz. lia.
  - set (l := lastNZ_from (Z.to_nat SCAN_SET_SIZE) c sc start) in *.
    set (f := firstNZ_from (Z.to_nat SCAN_SET_SIZE) 0 c sc start) in *.
    pose proof Hl as (Hlr & Hlnz & Hlz).
    destruct (Z.ltb_spec l 0); [lia|]. right. exists l. split; [done|].
    rewrite let_pair_snd, let_pair_fst. split; [done|].
    destruct (Z.geb_spec (l - f) SBH_THRESHOLD) as [Hd|Hd]; [|by left].
    match goal with |- context [negb ?b] => destruct b end; cbn [negb]; [by left|].
    right. eexists. split; [|reflexivity].
    assert (Htop : l <= (if lc then l else SCAN_SET_SIZE - 1))
      by (destruct lc; unfold SCAN_SET_SIZE in *; lia).
    pose proof (rdsbh_search_inv q cu log2TrSize ttype absPartIdx c t rdFactor lc start f l
                  (cg_signbit c sc start f) (if lc then l else SCAN_SET_SIZE - 1) forced
                  Hf Hl ltac:(lia) Htop ltac:(intros; by apply Hb)) as (_ & Hinv).
    destruct Hinv as [Hc|(Hm & _ & _ & Hfo)]; [by left|].
    right. split; [|done]. intros Hfo'. specialize (Hfo Hfo'). lia.
Qed.

End RDSBH.

Section RDSBH_pass.
Context `{Config}.
Variables (q : Quant) (cu : TComDataCU) (log2TrSize : Z) (ttype : TextType) (absPartIdx : Z).
Variable t : rdoq_tabs.

Local Abbreviation sc := (scan (rq_codeParams cu log2TrSize ttype absPartIdx)).
Local Abbreviation resi := (m_resiDctCoeff q).

(** The rate-distortion sign hiding keeps every level on the side of its DCT
    coefficient. *)
Lemma rq_signhide_sides (cgLast : Z) (dst : list Z) (numSig : Z) :
  sides_ok dst resi ->
  sides_ok (rq_signhide q cu log2TrSize ttype absPartIdx t cgLast dst numSig).1 resi.
Proof.
  intros Hs. unfold rq_signhide.
  assert (Hinv : (fun st : list Z * Z * bool => sides_ok st.1.1 resi)
            (for_down (Z.to_nat (cgLast + 1))
               (rdsbh_cg_step q cu log2TrSize ttype absPartIdx t
                  (rq_rdFactor q ttype)) (dst, numSig, true))).
  { apply for_down_inv; [done|]. intros i [[c ns] lc] Hi Hc. simpl in Hc.
    destruct (rdsbh_cg_step_cases q cu log2TrSize ttype absPartIdx t (rq_rdFactor q ttype)
                False i c ns lc ltac:(done))
      as [[_ ->]|(l & _ & _ & [Hr|(s & Hs' & Hr)])]; [done|by rewrite Hr|].
    rewrite Hr. destruct Hs' as [(n & _ & _ & Hfc & Hz)|[_ Hm]].
    - by apply sbh_apply_sides.
    - rewrite sbh_apply_untouched by lia. done. }
  destruct (for_down _ _ _) as [[c ns] lc]. done.
Qed.
End RDSBH_pass.

(** ** Sign hiding never flips a sign *)

Lemma sides_ok_same_sign (coeff resi : list Z) (pos : Z) :
  sides_ok coeff resi -> same_sign (rd coeff pos) (rd resi pos).
Proof. intros Hs Hnz. destruct (Hs pos). lia. Qed.

(** C10.  Both sign-hiding passes apply their change on the side of zero the
    DCT coefficient lies on: if every level is on the side of its DCT
    coefficient before [signBitHidingHDQ], respectively before the
    rate-distortion sign hiding of [rdoQuant], then so is every level
    afterwards; hence a non-zero level still carries the sign of its DCT
    coefficient, and no level has moved across zero. *)
Theorem sign_hiding_never_flips `{Config} (q : Quant) (cu : TComDataCU)
    (log2TrSize : Z) (ttype : TextType) (absPartIdx : Z)
    (coeff deltaU : list Z) (numSig : Z) (cp : TUEntropyCodingParameters)
    (t : rdoq_tabs) (cgLast : Z) :
  sides_ok coeff (m_resiDctCoeff q) ->
  let hdq := (signBitHidingHDQ (m_resiDctCoeff q) coeff deltaU numSig cp).1 in
  let rd_sbh := (rq_signhide q cu log2TrSize ttype absPartIdx t cgLast coeff numSig).1 in
  forall pos,
    (side_ok (rd hdq pos) (rd (m_resiDctCoeff q) pos) /\
     same_sign (rd hdq pos) (rd (m_resiDctCoeff q) pos) /\
     0 <= rd coeff pos * rd hdq pos) /\
    (side_ok (rd rd_sbh pos) (rd (m_resiDctCoeff q) pos) /\
     same_sign (rd rd_sbh pos) (rd (m_resiDctCoeff q) pos) /\
     0 <= rd coeff pos * rd rd_sbh pos).
Proof.
  intros Hs hdq rd_sbh pos.
  pose proof (signBitHidingHDQ_sides (m_resiDctCoeff q) deltaU cp coeff numSig Hs) as H1.
  pose proof (rq_signhide_sides q cu log2TrSize ttype absPartIdx t cgLast coeff numSig Hs) as H2.
  fold hdq in H1. fold rd_sbh in H2.
  specialize (Hs pos) as [Ha Hb].
  split.
  - split; [apply H1|]. split; [by apply sides_ok_same_sign|].
    destruct (H1 pos). nia.
  - split; [apply H2|]. split; [by apply sides_ok_same_sign|].
    destruct (H2 pos). nia.
Qed.

Lemma sign_hiding_never_flips_witness :
  let q := sample_quant true 22 1%float hdq_sample_resi in
  let hdq := (signBitHidingHDQ (m_resiDctCoeff q) hdq_sample_levels hdq_sample_deltaU 3
                sample_codeParams).1 in
  let rd_sbh := (rq_signhide q (sample_cu false true true) 2 TEXT_LUMA 0 sample_tabs 0
                   hdq_sample_levels 3).1 in
  (side_ok (rd hdq 4) (rd (m_resiDctCoeff q) 4) /\
   same_sign (rd hdq 4) (rd (m_resiDctCoeff q) 4) /\
   0 <= rd hdq_sample_levels 4 * rd hdq 4) /\
  (side_ok (rd rd_sbh 4) (rd (m_resiDctCoeff q) 4) /\
   same_sign (rd rd_sbh 4) (rd (m_resiDctCoeff q) 4) /\
   0 <= rd hdq_sample_levels 4 * rd rd_sbh 4).
Proof.
  apply (sign_hiding_never_flips (sample_quant true 22 1%float hdq_sample_resi)
           (sample_cu false true true) 2 TEXT_LUMA 0 hdq_sample_levels hdq_sample_deltaU 3
           sample_codeParams sample_tabs 0).
  apply sides_okb_sound. vm_compute. reflexivity.
Defined.

(** ** [rdoQuant]: the loop over the coefficients *)

Section RdoQuantMain.
Context `{Config}.
Variables (q : Quant) (cu : TComDataCU).
Variables (log2TrSize : Z) (ttype : TextType) (absPartIdx : Z) (usePsy : bool).

Local Abbreviation cp := (rq_codeParams cu log2TrSize ttype absPartIdx).
Local Abbreviation sc := (scan (rq_codeParams cu log2TrSize ttype absPartIdx)).
Local Abbreviation N2 := (1 ≪ (log2TrSize * 2)).

Lemma rq_choose_level_nonneg scanPos blkPos maxAbsLevel signCoef predictedCoef gob lab
    goRice c1c2Idx baseLevel sigCoefBits cc cs :
  0 <= (rq_choose_level q cu log2TrSize ttype absPartIdx usePsy scanPos blkPos maxAbsLevel
          signCoef predictedCoef gob lab goRice c1c2Idx baseLevel sigCoefBits cc cs).1.1.
Proof.
  unfold rq_choose_level. destruct (nz maxAbsLevel); [|simpl; lia].
  apply (for_down_inv (fun st : Z * float * float => 0 <= st.1.1)); [simpl; lia|].
  intros i [[level c] s] Hi Hl. simpl in Hl. unfold rq_level_step.
  match goal with |- context [if ?b then _ else _] => destruct b end; simpl; [|done].
  unfold X265_MAX. destruct (maxAbsLevel - 1 >? 1) eqn:E; lia.
Qed.

Lemma rq_coded_proj cgScanPos patternSigCtx scanPos blkPos maxAbsLevel signCoef predictedCoef
    scaledCoeff (s : rdoq) :
  let s' := rq_coded q cu log2TrSize ttype absPartIdx usePsy cgScanPos patternSigCtx scanPos
              blkPos maxAbsLevel signCoef predictedCoef scaledCoeff s in
  exists level, 0 <= level /\
    dstCoeff s' = aset (dstCoeff s) blkPos level /\
    lastScanPos s' = lastScanPos s /\ cgLastScanPos s' = cgLastScanPos s.
Proof.
  intros s'. subst s'. unfold rq_coded. cbv zeta.
  match goal with |- context [match ?e with pair _ _ => _ end] => destruct e as [[[cc cs] srd] sb] end.
  match goal with |- context [rq_choose_level ?a1 ?a2 ?a3 ?a4 ?a5 ?a6 ?a7 ?a8 ?a9 ?a10 ?a11 ?a12
                                ?a13 ?a14 ?a15 ?a16 ?a17 ?a18 ?a19] =>
    pose proof (rq_choose_level_nonneg a7 a8 a9 a10 a11 a12 a13 a14 a15 a16 a17 a18 a19) as Hlev;
    destruct (rq_choose_level a1 a2 a3 a4 a5 a6 a7 a8 a9 a10 a11 a12 a13 a14 a15 a16 a17 a18 a19)
      as [[level cc'] cs'] end.
  simpl in Hlev. destruct_pairs. exists level. cbn. done.
Qed.

Lemma rq_coeff_step_proj scaledCoeff cgScanPos patternSigCtx cgBlkPosMask scanPosinCG (s : rdoq) :
  let scanPos := u32 ((cgScanPos ≪ MLS_CG_SIZE) + scanPosinCG) in
  let blkPos := sc scanPos in
  let first := nz (Z.abs (rd (dstCoeff s) blkPos)) && (lastScanPos s <? 0) in
  let s' := rq_coeff_step q cu log2TrSize ttype absPartIdx usePsy scaledCoeff cgScanPos
              patternSigCtx cgBlkPosMask scanPosinCG s in
  lastScanPos s' = (if first then scanPos else lastScanPos s) /\
  cgLastScanPos s' = (if first then cgScanPos else cgLastScanPos s) /\
  (if lastScanPos s' <? 0 then dstCoeff s' = dstCoeff s
   else exists level, 0 <= level /\ dstCoeff s' = aset (dstCoeff s) blkPos level).
Proof.
  intros scanPos blkPos first s'. subst s'. unfold rq_coeff_step. cbv zeta.
  fold scanPos. fold blkPos. fold first. cbn [lastScanPos cgLastScanPos dstCoeff].
  destruct ((if first then scanPos else lastScanPos s) <? 0) eqn:E.
  - cbn. rewrite E. done.
  - match goal with |- context [rq_coded ?a1 ?a2 ?a3 ?a4 ?a5 ?a6 ?a7 ?a8 ?a9 ?a10 ?a11 ?a12 ?a13
                                  ?a14 ?a15] =>
      destruct (rq_coded_proj a7 a8 a9 a10 a11 a12 a13 a14 a15) as (level & Hl & Hd & Hls & Hcg)
    end.
    cbn [lastScanPos cgLastScanPos dstCoeff] in *. rewrite Hls, Hcg, Hd. rewrite E.
    split; [done|]. split; [done|]. by exists level.
Qed.

Hypothesis wf : codeParams_wf cp log2TrSize.
Hypothesis log2_range : 2 <= log2TrSize <= 5.

Local Abbreviation G := (1 ≪ (log2TrSizeCG cp * 2)).

Lemma rq_G : 0 < G /\ 16 * G = N2 /\ N2 <= 1024.
Proof.
  pose proof (hdq_G_pos cp log2TrSize wf ltac:(lia)) as [H1 H2].
  split; [done|]. split; [done|].
  rewrite Z.shiftl_1_l. change 1024 with (2 ^ 10). apply Z.pow_le_mono_r; lia.
Qed.

Lemma rq_cgNum_eq : rq_cgNum cu log2TrSize ttype absPartIdx = G.
Proof. unfold rq_cgNum, u32. pose proof rq_G. apply Z.mod_small. lia. Qed.

Lemma rq_scanPos_eq (cg n : Z) :
  0 <= cg < G -> 0 <= n < 16 ->
  u32 ((cg ≪ MLS_CG_SIZE) + n) = 16 * cg + n /\ u32 (cg * rq_cgSize + n) = 16 * cg + n /\
  0 <= 16 * cg + n < N2 /\ (16 * cg + n) ≫ 4 = cg.
Proof.
  intros Hcg Hn. pose proof rq_G as (HG & HGN & HN).
  change MLS_CG_SIZE with LOG2_SCAN_SET_SIZE. rewrite shiftl_4.
  change rq_cgSize with 16. unfold u32. rewrite !Z.mod_small by lia.
  repeat split; try lia.
  rewrite Z.shiftr_div_pow2 by lia. change (2 ^ 4) with 16.
  symmetry. apply (Z.div_unique _ _ _ n); lia.
Qed.

Lemma sc_range (i : Z) : 0 <= i < N2 -> 0 <= sc i < N2.
Proof. destruct wf as (_ & Hr & _). apply Hr. Qed.

Lemma sc_inj (i j : Z) : 0 <= i < N2 -> 0 <= j < N2 -> sc i = sc j -> i = j.
Proof. destruct wf as (_ & _ & Hi). apply Hi. Qed.

Lemma rq_coeff_step_inv (dst0 scaledCoeff : list Z) cg patternSigCtx cgBlkPosMask n (s : rdoq) :
  Z.of_nat (length dst0) = N2 -> 0 <= cg < G -> 0 <= n < 16 ->
  rq_inv sc N2 dst0 (16 * cg + n + 1) s ->
  rq_inv sc N2 dst0 (16 * cg + n)
    (rq_coeff_step q cu log2TrSize ttype absPartIdx usePsy scaledCoeff cg patternSigCtx
       cgBlkPosMask n s).
Proof.
  intros Hlen Hcg Hn (Hl & Hlow & Hneg & Hpos).
  destruct (rq_scanPos_eq cg n Hcg Hn) as (Hsp & _ & Hspr & Hshr).
  pose proof (rq_coeff_step_proj scaledCoeff cg patternSigCtx cgBlkPosMask n s) as Hp.
  cbv zeta in Hp. rewrite Hsp in Hp. destruct Hp as (Hls & Hcgl & Hdst).
  set (s' := rq_coeff_step _ _ _ _ _ _ _ _ _ _ _ _) in *.
  set (p := 16 * cg + n) in *.
  pose proof (sc_range p Hspr) as Hbr.
  assert (Hne : forall pos, 0 <= pos < N2 -> pos <> p -> sc p <> sc pos).
  { intros pos Hpr Hne Heq. apply sc_inj in Heq; lia. }
  destruct (Z.ltb_spec (lastScanPos s) 0) as [Hlt|Hge].
  - destruct (Hneg Hlt) as (Hm1 & Hcm1 & Hd0 & Hz).
    destruct (nz (Z.abs (rd (dstCoeff s) (sc p)))) eqn:Enz; cbn [andb] in Hls, Hcgl.
    + rewrite Hls in Hdst. rewrite (proj2 (Z.ltb_ge p 0)) in Hdst by lia.
      destruct Hdst as (level & Hlev & Hd).
      split; [by rewrite Hd, length_aset|]. split; [|split; [lia|]].
      * intros pos Hpr. rewrite Hd, aget_aset_ne by (apply Hne; lia). apply Hlow. lia.
      * intros _. rewrite Hls, Hcgl. split; [lia|]. split; [by rewrite Hshr|]. split.
        -- intros pos Hpr. rewrite Hd, aget_aset_ne by (apply Hne; lia).
           rewrite Hd0. apply Hz. lia.
        -- intros pos Hpr. assert (pos = p) by lia. subst pos.
           rewrite Hd, aget_aset_eq by lia. done.
    + rewrite Hls in Hdst. rewrite (proj2 (Z.ltb_lt (lastScanPos s) 0)) in Hdst by lia.
      apply nz_false in Enz.
      split; [by rewrite Hdst|]. split; [|split; [|lia]].
      * intros pos Hpr. rewrite Hdst. apply Hlow. lia.
      * intros _. rewrite Hls, Hcgl, Hdst. repeat split; try done.
        intros pos Hpr. destruct (Z.eq_dec pos p) as [->|?]; [|apply Hz; lia].
        rewrite Hd0 in Enz. lia.
  - destruct (Hpos Hge) as (Hr & Hcl & Hz & Hnn).
    rewrite andb_false_r in Hls, Hcgl. rewrite Hls in Hdst. rewrite (proj2 (Z.ltb_ge (lastScanPos s) 0)) in Hdst by lia.
    destruct Hdst as (level & Hlev & Hd).
    split; [by rewrite Hd, length_aset|]. split; [|split; [lia|]].
    + intros pos Hpr. rewrite Hd, aget_aset_ne by (apply Hne; lia). apply Hlow. lia.
    + intros _. rewrite Hls, Hcgl. split; [lia|]. split; [done|]. split.
      * intros pos Hpr. rewrite Hd, aget_aset_ne by (apply Hne; lia). by apply Hz.
      * intros pos Hpr. destruct (Z.eq_dec pos p) as [->|?].
        -- rewrite Hd, aget_aset_eq by lia. done.
        -- rewrite Hd, aget_aset_ne by (apply Hne; lia). apply Hnn. lia.
Qed.

(** ** [rdoQuant]: the loop over the coefficient groups *)

Lemma rq_uncode_cg_dst (costUncoded : list float) (cg : Z) (dst : list Z) (cc cs : list float) :
  0 <= cg < G -> Z.of_nat (length dst) = N2 ->
  let dst' := (rq_uncode_cg cu log2TrSize ttype absPartIdx costUncoded cg (dst, cc, cs)).1.1 in
  length dst' = length dst /\
  (forall n, 0 <= n < 16 -> rd dst' (sc (16 * cg + n)) = 0) /\
  (forall pos, 0 <= pos < N2 -> (pos < 16 * cg \/ 16 * cg + 16 <= pos) ->
     rd dst' (sc pos) = rd dst (sc pos)).
Proof.
  intros Hcg Hlen dst'. subst dst'. unfold rq_uncode_cg.
  set (P := fun (i : Z) (st : list Z * list float * list float) =>
    length st.1.1 = length dst /\
    (forall n, i <= n < 16 -> rd st.1.1 (sc (16 * cg + n)) = 0) /\
    (forall pos, 0 <= pos < N2 -> (pos < 16 * cg \/ 16 * cg + 16 <= pos) ->
       rd st.1.1 (sc pos) = rd dst (sc pos))).
  assert (HP : P 0 (for_down (Z.to_nat rq_cgSize)
     (fun scanPosinCG '(dst, cc, cs) =>
        let scanPos := u32 (cg * rq_cgSize + scanPosinCG) in
        let blkPos := sc scanPos in
        let '(cc, cs) :=
          if nz (rd dst blkPos)
          then (aset cc scanPos (rdf costUncoded scanPos), aset cs scanPos 0%float)
          else (cc, cs) in
        (aset dst blkPos 0, cc, cs)) (dst, cc, cs))).
  { apply for_down_ind.
    - subst P. simpl. split; [done|]. split; [|done]. intros n Hn. change rq_cgSize with 16 in Hn. lia.
    - intros i [[d c1'] c2'] Hi (Hl & Hz & Ho). simpl in Hl, Hz, Ho.
      change (Z.of_nat (Z.to_nat rq_cgSize)) with 16 in Hi.
      destruct (rq_scanPos_eq cg i Hcg Hi) as (_ & Hsp & Hr & _).
      cbv zeta. rewrite Hsp. destruct (nz (rd d (sc (16 * cg + i)))); subst P; cbn [fst snd].
      all: (split; [by rewrite length_aset|]; split;
        [ intros n Hn; destruct (Z.eq_dec n i) as [->|?];
          [ rewrite aget_aset_eq; [done|]; pose proof (sc_range _ Hr); lia
          | rewrite aget_aset_ne; [apply Hz; lia|];
            intros Heq; apply sc_inj in Heq; try lia;
            destruct (rq_scanPos_eq cg n Hcg ltac:(lia)) as (_ & _ & ? & _); lia ]
        | intros pos Hpr Hout; rewrite aget_aset_ne; [by apply Ho|];
          intros Heq; apply sc_inj in Heq; lia ]). }
  destruct HP as (Hl & Hz & Ho). split; [done|]. split; [|done].
  intros n Hn. apply Hz. lia.
Qed.

Lemma rq_cg_summary_proj cgScanPos cgPosX cgPosY cgBlkPosMask (s : rdoq) :
  let s' := rq_cg_summary q cu log2TrSize ttype absPartIdx cgScanPos cgPosX cgPosY
              cgBlkPosMask s in
  lastScanPos s' = lastScanPos s /\ cgLastScanPos s' = cgLastScanPos s /\
  (dstCoeff s' = dstCoeff s \/
   (0 <= cgLastScanPos s /\ cgScanPos < cgLastScanPos s /\
    dstCoeff s' = (rq_uncode_cg cu log2TrSize ttype absPartIdx (costUncoded (tabs s))
                     cgScanPos (dstCoeff s, costCoeff (tabs s), costSig (tabs s))).1.1)).
Proof.
  intros s'. subst s'. unfold rq_cg_summary. cbv zeta.
  destruct (Z.geb_spec (cgLastScanPos s) 0); [|by auto].
  destruct (cgScanPos =? 0); [by auto|].
  destruct (_ =? 0); [by auto|].
  destruct (Z.ltb_spec cgScanPos (cgLastScanPos s)); [|by auto].
  destruct (nnzBeforePos0 (cgRdStats s) =? 0).
  - match goal with |- context [if ?b then _ else _] => destruct b end; [|by auto].
    destruct (rq_uncode_cg _ _ _ _ _ _ _) as [[d c1'] c2'] eqn:E. cbn. split; [done|]. split; [done|].
    right. split; [lia|]. done.
  - match goal with |- context [if ?b then _ else _] => destruct b end; [|by auto].
    destruct (rq_uncode_cg _ _ _ _ _ _ _) as [[d c1'] c2'] eqn:E. cbn. split; [done|]. split; [done|].
    right. split; [lia|]. done.
Qed.

Lemma rq_inv_ext (dst0 : list Z) (b : Z) (s s' : rdoq) :
  dstCoeff s' = dstCoeff s -> lastScanPos s' = lastScanPos s ->
  cgLastScanPos s' = cgLastScanPos s ->
  rq_inv sc N2 dst0 b s -> rq_inv sc N2 dst0 b s'.
Proof. unfold rq_inv. intros -> -> ->. done. Qed.

Lemma rq_cg_step_inv (dst0 scaledCoeff : list Z) (cg : Z) (s : rdoq) :
  Z.of_nat (length dst0) = N2 -> 0 <= cg < G ->
  rq_inv sc N2 dst0 (16 * (cg + 1)) s ->
  rq_inv sc N2 dst0 (16 * cg)
    (rq_cg_step q cu log2TrSize ttype absPartIdx usePsy scaledCoeff cg s).
Proof.
  intros Hlen Hcg Hinv. unfold rq_cg_step. cbv zeta.
  match goal with |- context [for_down ?n ?f ?s0] =>
    assert (Hloop : rq_inv sc N2 dst0 (16 * cg + 0) (for_down n f s0)) end.
  { apply (for_down_ind (fun n s => rq_inv sc N2 dst0 (16 * cg + n) s)).
    - change (Z.of_nat (Z.to_nat rq_cgSize)) with 16.
      replace (16 * cg + 16) with (16 * (cg + 1)) by lia.
      eapply rq_inv_ext; [| | |exact Hinv]; reflexivity.
    - intros n s1 Hn Hs1. change (Z.of_nat (Z.to_nat rq_cgSize)) with 16 in Hn.
      apply rq_coeff_step_inv; try done. by replace (16 * cg + n + 1) with (16 * cg + (n + 1)) by lia. }
  rewrite Z.add_0_r in Hloop.
  match goal with |- context [rq_cg_summary _ _ _ _ _ ?a ?b ?c ?d ?s1] =>
    set (s2 := s1) in *;
    destruct (rq_cg_summary_proj a b c d s2) as (Hls & Hcl & [Hd|(Hge & Hlt & Hd)]) end.
  - eapply rq_inv_ext; [exact Hd|exact Hls|exact Hcl|exact Hloop].
  - destruct Hloop as (Hl & Hlow & Hneg & Hpos).
    assert (Hlen2 : Z.of_nat (length (dstCoeff s2)) = N2) by lia.
    destruct (rq_uncode_cg_dst (costUncoded (tabs s2)) cg (dstCoeff s2) (costCoeff (tabs s2))
                (costSig (tabs s2)) Hcg Hlen2) as (Hul & Huz & Huo).
    rewrite <- Hd in Hul, Huz, Huo.
    assert (Hlsp : 0 <= lastScanPos s2).
    { destruct (Z_lt_dec (lastScanPos s2) 0) as [Hn|Hn]; [|lia].
      destruct (Hneg Hn) as (_ & Hc & _). lia. }
    destruct (Hpos Hlsp) as (Hr & Hcgl & Hz & Hnn).
    assert (Hcgle : 16 * cg + 16 <= lastScanPos s2).
    { rewrite Hcgl in Hlt. rewrite Z.shiftr_div_pow2 in Hlt by lia. change (2 ^ 4) with 16 in Hlt.
      pose proof (Z.mul_div_le (lastScanPos s2) 16 ltac:(lia)). lia. }
    split; [lia|]. split; [|split].
    + intros pos Hpr. rewrite Huo by lia. apply Hlow. lia.
    + intros Hn. rewrite Hls in Hn. lia.
    + intros _. rewrite Hls, Hcl. split; [lia|]. split; [done|]. split.
      * intros pos Hpr. rewrite Huo by lia. by apply Hz.
      * intros pos Hpr. destruct (Z_lt_dec pos (16 * cg + 16)) as [Hin|Hout].
        -- replace pos with (16 * cg + (pos - 16 * cg)) by lia. rewrite Huz by lia. lia.
        -- rewrite Huo by lia. apply Hnn. lia.
Qed.

Lemma rq_main_inv (dst0 scaledCoeff : list Z) :
  Z.of_nat (length dst0) = N2 ->
  rq_inv sc N2 dst0 0 (rq_main q cu log2TrSize ttype absPartIdx usePsy scaledCoeff dst0).
Proof.
  intros Hlen. unfold rq_main. rewrite rq_cgNum_eq.
  pose proof rq_G as (HG & HGN & _).
  replace 0 with (16 * 0) by lia.
  apply (for_down_ind (fun cg s => rq_inv sc N2 dst0 (16 * cg) s)).
  - rewrite Z2Nat.id by lia. unfold rq_inv, rq_init. cbn [dstCoeff lastScanPos cgLastScanPos].
    split; [done|]. split; [done|]. split; [|lia]. intros _. repeat split; try done. intros; lia.
  - intros cg s Hcg Hs. rewrite Z2Nat.id in Hcg by lia. by apply rq_cg_step_inv.
Qed.

(** ** [rdoQuant]: the last position *)

Lemma rq_last_spec (s : rdoq) :
  cgLastScanPos s < G ->
  let B := bestLastIdx (rq_last q cu log2TrSize ttype absPartIdx s) in
  B = 0 \/ (1 <= B <= lastScanPos s + 1 /\ rd (dstCoeff s) (sc (B - 1)) <> 0).
Proof.
  intros HcgL B. subst B. unfold rq_last. destruct (rq_cbf _ _ _ _ _) as [bc tot].
  set (P := fun l : rdoq_last =>
    bestLastIdx l = 0 \/
    (1 <= bestLastIdx l <= lastScanPos s + 1 /\ rd (dstCoeff s) (sc (bestLastIdx l - 1)) <> 0)).
  apply (for_down_inv P); [by left|].
  intros cg l Hcg Hl. unfold rq_last_cg_step.
  destruct (foundLast l); [done|]. cbv zeta.
  destruct (_ =? 0); [done|].
  apply (for_down_inv P); [done|].
  intros n l' Hn Hl'. change (Z.of_nat (Z.to_nat rq_cgSize)) with 16 in Hn.
  unfold rq_last_coeff_step. destruct (foundLast l'); [done|]. cbv zeta.
  destruct (rq_scanPos_eq cg n ltac:(lia) Hn) as (_ & Hsp & Hr & _). rewrite Hsp.
  destruct (Z.gtb_spec (16 * cg + n) (lastScanPos s)); [done|].
  destruct (nz (rd (dstCoeff s) (sc (16 * cg + n)))) eqn:Enz; [|done].
  apply nz_true in Enz.
  match goal with |- context [if ?b then 16 * cg + n + 1 else _] => destruct b end;
    destruct (_ >? 1); subst P; cbn [bestLastIdx]; try done;
    right; (split; [lia|]); by replace (16 * cg + n + 1 - 1) with (16 * cg + n) by lia.
Qed.

Lemma nquant_c_spec (coef : list Z) (qc : Z -> Z) (scaled0 coeff : list Z) (qbits add N : Z) :
  0 <= N <= Z.of_nat (length coeff) ->
  let r := nquant_c coef qc scaled0 coeff qbits add N in
  length r.1.2 = length coeff /\ r.2 = count_nonzero r.1.2 N.
Proof.
  intros HN r. subst r. unfold nquant_c.
  set (P := fun (i : Z) (st : list Z * list Z * Z) =>
    length st.1.2 = length coeff /\ st.2 = count_nonzero st.1.2 i).
  match goal with |- context [for_up ?n ?f ?s0] => assert (HP : P (Z.of_nat n) (for_up n f s0)) end.
  { apply for_up_ind; [done|].
    intros i [[sc0 d] ns] Hi (Hl & Hns). simpl in Hl, Hns. rewrite Z2Nat.id in Hi by lia.
    subst P. cbn [fst snd]. split; [by rewrite length_aset|].
    replace (i + 1) with (Z.of_nat (S (Z.to_nat i))) by lia.
    rewrite count_nonzero_S, Z2Nat.id by lia.
    rewrite aget_aset_eq by lia.
    assert (Hc : count_nonzero (aset d i (Clip3 (-32768) 32767
                   (((Z.abs (rd coef i) * qc i + add) ≫ qbits) * (if rd coef i <? 0 then -1 else 1)))) i
                 = count_nonzero d i).
    { pose proof (count_nonzero_aset d i 0 (i + 1)) as H1.
      pose proof (count_nonzero_aset d i (Clip3 (-32768) 32767
                   (((Z.abs (rd coef i) * qc i + add) ≫ qbits) * (if rd coef i <? 0 then -1 else 1)))
                   (i + 1)) as H2.
      replace (i + 1) with (Z.of_nat (S (Z.to_nat i))) in H1, H2 by lia.
      rewrite !count_nonzero_S, !Z2Nat.id, !aget_aset_eq in H1, H2 by lia.
      specialize (H1 ltac:(lia) ltac:(lia)). specialize (H2 ltac:(lia) ltac:(lia)). lia. }
    rewrite Hc, <- Hns.
    set (a := (Z.abs (rd coef i) * qc i + add) ≫ qbits).
    assert (Hnz : nz (Clip3 (-32768) 32767 (a * (if rd coef i <? 0 then -1 else 1))) = nz a).
    { unfold nz, Clip3. destruct (rd coef i <? 0);
        repeat match goal with |- context [if ?b then _ else _] =>
          let E := fresh in destruct b eqn:E end; lia. }
    rewrite Hnz. unfold b2z. destruct (nz a); lia. }
  rewrite Z2Nat.id in HP by lia. exact HP.
Qed.
End RdoQuantMain.

(** ** The scalar quantiser *)

Lemma count_nonzero_ext (a b : list Z) (n : Z) :
  (forall i, 0 <= i < n -> rd a i = rd b i) -> count_nonzero a n = count_nonzero b n.
Proof.
  intros Hab. unfold count_nonzero. apply for_up_ext. intros i s Hi. rewrite Hab; [done|lia].
Qed.

Lemma quant_level_sign (d qcv add qbits : Z) :
  0 <= qcv -> 0 <= add ->
  let a := (Z.abs d * qcv + add) ≫ qbits in
  let l := Clip3 (-32768) 32767 (a * (if d <? 0 then -1 else 1)) in
  side_ok l d /\ nz l = nz a.
Proof.
  intros Hq Ha a l.
  assert (H0 : 0 <= a) by (apply Z.shiftr_nonneg; nia).
  subst l. unfold side_ok, nz, Clip3.
  destruct (Z.ltb_spec d 0);
    repeat match goal with |- context [if ?b then _ else _] =>
      let E := fresh in destruct b eqn:E end; lia.
Qed.

Lemma quant_c_spec (coef : list Z) (qc : Z -> Z) (deltaU0 coeff : list Z) (qbits add N : Z) :
  Z.of_nat (length coeff) = N -> (forall p, 0 <= qc p) -> 0 <= add ->
  let r := quant_c coef qc deltaU0 coeff qbits add N in
  length r.1.2 = length coeff /\ r.2 = count_nonzero r.1.2 N /\ sides_ok r.1.2 coef.
Proof.
  intros HN Hq Ha r. subst r. unfold quant_c.
  set (P := fun (i : Z) (st : list Z * list Z * Z) =>
    length st.1.2 = length coeff /\ st.2 = count_nonzero st.1.2 i /\
    forall p, 0 <= p < i -> side_ok (rd st.1.2 p) (rd coef p)).
  match goal with |- context [for_up ?n ?f ?s0] => assert (HP : P (Z.of_nat n) (for_up n f s0)) end.
  { apply for_up_ind; [subst P; cbn; repeat split; intros; lia|].
    intros i [[dU d] ns] Hi (Hl & Hns & Hs). simpl in Hl, Hns, Hs. rewrite Z2Nat.id in Hi by lia.
    subst P. cbn [fst snd].
    destruct (quant_level_sign (rd coef i) (qc i) add qbits (Hq i) Ha) as [Hside Hnz].
    cbv zeta in Hside, Hnz.
    split; [by rewrite length_aset|]. split.
    - replace (i + 1) with (Z.of_nat (S (Z.to_nat i))) by lia.
      rewrite count_nonzero_S, Z2Nat.id by lia. rewrite aget_aset_eq by lia.
      rewrite (count_nonzero_ext _ d i) by (intros; apply aget_aset_ne; lia).
      rewrite Hnz, <- Hns. unfold b2z.
      destruct (nz ((Z.abs (rd coef i) * qc i + add) ≫ qbits)); lia.
    - intros p Hp. destruct (Z.eq_dec p i) as [->|?].
      + rewrite aget_aset_eq by lia. done.
      + rewrite aget_aset_ne by lia. apply Hs. lia. }
  rewrite Z2Nat.id in HP by lia. set (res := for_up _ _ _) in *. destruct HP as (Hl & Hns & Hs).
  split; [done|]. split; [done|]. intros p.
  destruct (decide (0 <= p < N)) as [Hin|Hout]; [by apply Hs|].
  assert (rd res.1.2 p = 0) as ->.
  { unfold aget. destruct (Z.ltb_spec p 0); [done|]. rewrite lookup_ge_None_2; [done|].
    cbv beta in Hl. lia. }
  unfold side_ok. lia.
Qed.

(** ** Counting along the scan *)

Lemma zsum_app (l k : list Z) : zsum (l ++ k) = zsum l + zsum k.
Proof. induction l as [|x l IH]; simpl; [done|]. rewrite IH. lia. Qed.

Lemma zsum_perm (l k : list Z) : l ≡ₚ k -> zsum l = zsum k.
Proof. induction 1; simpl; lia. Qed.

Lemma sumZ_zsum (n : nat) (f : Z -> Z) :
  sumZ n f = zsum (f <$> (Z.of_nat <$> seq 0 n)).
Proof.
  induction n as [|n IH]; [done|].
  rewrite sumZ_S, IH, seq_S, !fmap_app, zsum_app. simpl. lia.
Qed.

Lemma count_nonzero_sumZ (a : list Z) (n : nat) :
  count_nonzero a (Z.of_nat n) = sumZ n (fun i => b2z (nz (rd a i))).
Proof. unfold count_nonzero, sumZ. by rewrite Nat2Z.id. Qed.

(** A scan that enumerates the block positions without repetition visits
    each of them exactly once, so counting along the scan is counting the
    block. *)
Lemma count_nonzero_scan (a : list Z) (sc : Z -> Z) (n : nat) :
  (forall i, 0 <= i < Z.of_nat n -> 0 <= sc i < Z.of_nat n) ->
  (forall i j, 0 <= i < Z.of_nat n -> 0 <= j < Z.of_nat n -> sc i = sc j -> i = j) ->
  count_nonzero a (Z.of_nat n) = sumZ n (fun pos => b2z (nz (rd a (sc pos)))).
Proof.
  intros Hr Hi. rewrite count_nonzero_sumZ, !sumZ_zsum.
  set (ix := Z.of_nat <$> seq 0 n).
  assert (Hix : forall x, x ∈ ix <-> 0 <= x < Z.of_nat n).
  { intros x. subst ix. rewrite list_elem_of_fmap. split.
    - intros (k & -> & Hk). apply elem_of_seq in Hk. lia.
    - intros Hx. exists (Z.to_nat x). split; [lia|]. apply elem_of_seq. lia. }
  assert (Hnd : NoDup ix).
  { subst ix. apply NoDup_fmap_2; [intros ??; lia|apply NoDup_seq]. }
  assert (Hperm : sc <$> ix ≡ₚ ix).
  { apply submseteq_length_Permutation.
    - apply NoDup_submseteq.
      + apply NoDup_fmap_2_strong; [|done]. intros x y Hx Hy. apply Hi; by apply Hix.
      + intros x Hx. apply list_elem_of_fmap in Hx as (y & -> & Hy). apply Hix, Hr. by apply Hix.
    - by rewrite length_fmap. }
  rewrite <- (zsum_perm _ _ (fmap_Permutation (fun i => b2z (nz (rd a i))) _ _ Hperm)).
  by rewrite <- list_fmap_compose.
Qed.

Lemma bounded_search (f : Z -> Z) (n : nat) (p : Z) :
  (exists i, 0 <= i < Z.of_nat n /\ f i = p) \/ (forall i, 0 <= i < Z.of_nat n -> f i <> p).
Proof.
  induction n as [|n [(i & Hi & Hf)|Hno]].
  - right. intros; lia.
  - left. exists i. split; [lia|done].
  - destruct (Z.eq_dec (f (Z.of_nat n)) p) as [He|Hne].
    + left. exists (Z.of_nat n). split; [lia|done].
    + right. intros i Hi. destruct (Z.eq_dec i (Z.of_nat n)) as [->|?]; [done|]. apply Hno. lia.
Qed.

(** An injective scan of the block onto itself reaches every position. *)
Lemma scan_surj (sc : Z -> Z) (n : nat) :
  (forall i, 0 <= i < Z.of_nat n -> 0 <= sc i < Z.of_nat n) ->
  (forall i j, 0 <= i < Z.of_nat n -> 0 <= j < Z.of_nat n -> sc i = sc j -> i = j) ->
  forall p, 0 <= p < Z.of_nat n -> exists pos, 0 <= pos < Z.of_nat n /\ sc pos = p.
Proof.
  intros Hr Hi p Hp. destruct (bounded_search sc n p) as [?|Hno]; [done|]. exfalso.
  pose proof (count_nonzero_scan (replicate n 0) sc n Hr Hi) as Hc0.
  pose proof (count_nonzero_scan (aset (replicate n 0) p 1) sc n Hr Hi) as Hc1.
  rewrite count_nonzero_aset in Hc1 by (rewrite ?length_replicate; lia).
  rewrite (sumZ_ext _ _ (fun pos => b2z (nz (rd (replicate n 0) (sc pos))))) in Hc1.
  - rewrite <- Hc0 in Hc1.
    assert (rd (replicate n 0) p = 0) as Hrp.
    { unfold aget. destruct (p <? 0); [done|].
      destruct (replicate _ _ !! _) eqn:E; [|done]. by apply lookup_replicate in E as [-> _]. }
    rewrite Hrp in Hc1. change (b2z (nz 0)) with 0 in Hc1. change (b2z (nz 1)) with 1 in Hc1. lia.
  - intros pos Hpos. rewrite aget_aset_ne; [done|]. intros Heq. by apply (Hno pos).
Qed.

(** ** [rdoQuant]: recount, clean-up and sign hiding *)

Lemma s32_small (x : Z) : - 2 ^ 31 <= x < 2 ^ 31 -> s32 x = x.
Proof. intros Hx. unfold s32. rewrite Z.mod_small; lia. Qed.

Lemma sign_mask (x : Z) :
  - 2 ^ 31 <= x < 2 ^ 31 -> s32 x ≫ 31 = if x <? 0 then -1 else 0.
Proof.
  intros Hx. rewrite s32_small by done. rewrite Z.shiftr_div_pow2 by lia.
  destruct (Z.ltb_spec x 0).
  - symmetry. apply (Z.div_unique _ _ _ (x + 2 ^ 31)); lia.
  - apply Z.div_small. lia.
Qed.

Lemma apply_sign_mask (level x : Z) :
  - 2 ^ 31 <= x < 2 ^ 31 ->
  Z.lxor level (s32 x ≫ 31) - (s32 x ≫ 31) = if x <? 0 then - level else level.
Proof.
  intros Hx. rewrite sign_mask by done. destruct (x <? 0).
  - rewrite Z.lxor_m1_r. unfold Z.lnot. lia.
  - rewrite Z.lxor_0_r. lia.
Qed.

Section RdoQuantTail.
Context `{Config}.
Variables (q : Quant) (cu : TComDataCU).
Variables (log2TrSize : Z) (ttype : TextType) (absPartIdx : Z).

Local Abbreviation cp := (rq_codeParams cu log2TrSize ttype absPartIdx).
Local Abbreviation sc := (scan (rq_codeParams cu log2TrSize ttype absPartIdx)).
Local Abbreviation N2 := (1 ≪ (log2TrSize * 2)).
Local Abbreviation G := (1 ≪ (log2TrSizeCG cp * 2)).
Local Abbreviation resi := (m_resiDctCoeff q).

Hypothesis wf : codeParams_wf cp log2TrSize.
Hypothesis log2_range : 2 <= log2TrSize <= 5.
Hypothesis resi_int32 : int32_array resi.

Lemma rq_recount_spec (B : Z) (dst : list Z) :
  0 <= B <= N2 -> Z.of_nat (length dst) = N2 ->
  (forall pos, 0 <= pos < B -> 0 <= rd dst (sc pos)) ->
  let r := rq_recount q cu log2TrSize ttype absPartIdx B dst in
  length r.1 = length dst /\
  (forall pos, B <= pos < N2 -> rd r.1 (sc pos) = rd dst (sc pos)) /\
  (forall pos, 0 <= pos < B ->
     side_ok (rd r.1 (sc pos)) (rd resi (sc pos)) /\
     nz (rd r.1 (sc pos)) = nz (rd dst (sc pos))) /\
  r.2 = sumZ (Z.to_nat B) (fun pos => b2z (nz (rd dst (sc pos)))).
Proof.
  intros HB Hlen Hnn r. subst r. unfold rq_recount.
  pose proof (rq_G cu log2TrSize ttype absPartIdx wf log2_range) as (_ & _ & HN).
  set (P := fun (i : Z) (st : list Z * Z) =>
    length st.1 = length dst /\
    (forall pos, i <= pos < N2 -> rd st.1 (sc pos) = rd dst (sc pos)) /\
    (forall pos, 0 <= pos < i ->
       side_ok (rd st.1 (sc pos)) (rd resi (sc pos)) /\
       nz (rd st.1 (sc pos)) = nz (rd dst (sc pos))) /\
    st.2 = sumZ (Z.to_nat i) (fun pos => b2z (nz (rd dst (sc pos)))) /\ 0 <= st.2 <= i).
  match goal with |- context [for_up ?n ?f ?s0] => assert (HP : P (Z.of_nat n) (for_up n f s0)) end.
  { apply for_up_ind.
    - subst P. cbn. repeat split; try done; intros; lia.
    - intros i [d ns] Hi (Hl & Hhi & Hlo & Hns & Hb). simpl in Hl, Hhi, Hlo, Hns, Hb.
      rewrite Z2Nat.id in Hi by lia.
      pose proof (sc_range cu log2TrSize ttype absPartIdx wf i ltac:(lia)) as Hr.
      assert (Hne : forall pos, 0 <= pos < N2 -> pos <> i -> sc i <> sc pos).
      { intros pos Hpr Hne Heq.
        apply (sc_inj cu log2TrSize ttype absPartIdx wf) in Heq; lia. }
      subst P. cbn [fst snd]. rewrite apply_sign_mask by apply resi_int32.
      rewrite (Hhi i) by lia. specialize (Hnn i ltac:(lia)).
      split; [by rewrite length_aset|]. split; [|split; [|split]].
      + intros pos Hpr. rewrite aget_aset_ne by (apply Hne; lia). apply Hhi. lia.
      + intros pos Hpr. destruct (Z.eq_dec pos i) as [->|?].
        * rewrite aget_aset_eq by lia. unfold side_ok, nz.
          destruct (Z.ltb_spec (rd resi (sc i)) 0);
            repeat match goal with |- context [if ?b then _ else _] =>
              let E := fresh in destruct b eqn:E end; simpl; try lia.
          all: destruct (Z.eqb_spec (rd dst (sc i)) 0); simpl; split; try lia; try done.
        * rewrite aget_aset_ne by (apply Hne; lia). apply Hlo. lia.
      + replace (Z.to_nat (i + 1)) with (S (Z.to_nat i)) by lia.
        rewrite sumZ_S, Z2Nat.id, <- Hns by lia. unfold u32. apply Z.mod_small.
        unfold b2z. destruct (nz _); lia.
      + unfold u32. rewrite Z.mod_small; unfold b2z; destruct (nz _); lia. }
  rewrite Z2Nat.id in HP by lia. destruct HP as (H1 & H2 & H3 & H4 & _). done.
Qed.

Lemma rq_clean_spec (B L : Z) (dst : list Z) :
  0 <= B -> L < N2 -> Z.of_nat (length dst) = N2 ->
  let d := rq_clean cu log2TrSize ttype absPartIdx B L dst in
  length d = length dst /\
  (forall pos, B <= pos <= L -> rd d (sc pos) = 0) /\
  (forall pos, 0 <= pos < N2 -> (pos < B \/ L < pos) -> rd d (sc pos) = rd dst (sc pos)).
Proof.
  intros HB HL Hlen d. subst d. unfold rq_clean, for_range.
  set (P := fun (i : Z) (st : list Z) =>
    length st = length dst /\
    (forall pos, B <= pos < B + i -> rd st (sc pos) = 0) /\
    (forall pos, 0 <= pos < N2 -> (pos < B \/ L < pos) -> rd st (sc pos) = rd dst (sc pos))).
  match goal with |- context [for_up ?n ?f ?s0] => assert (HP : P (Z.of_nat n) (for_up n f s0)) end.
  { apply for_up_ind.
    - subst P. cbn. repeat split; try done; intros; lia.
    - intros i st Hi (Hl & Hz & Ho).
      pose proof (sc_range cu log2TrSize ttype absPartIdx wf (B + i) ltac:(lia)) as Hr.
      assert (Hne : forall pos, 0 <= pos < N2 -> pos <> B + i -> sc (B + i) <> sc pos).
      { intros pos Hpr Hne Heq.
        apply (sc_inj cu log2TrSize ttype absPartIdx wf) in Heq; lia. }
      split; [by rewrite length_aset|]. split.
      + intros pos Hpr. destruct (Z.eq_dec pos (B + i)) as [->|?].
        * rewrite aget_aset_eq by lia. done.
        * rewrite aget_aset_ne by (apply Hne; lia). apply Hz. lia.
      + intros pos Hpr Hout. rewrite aget_aset_ne by (apply Hne; lia). by apply Ho. }
  destruct HP as (H1 & H2 & H3). split; [done|]. split; [|done].
  intros pos Hpr. apply H2. lia.
Qed.

(** The rate-distortion sign hiding keeps the levels on the side of their
    DCT coefficient, sets nothing at or above scan position [B] if nothing
    was set there, and, its cost arithmetic staying in range, keeps [numSig]
    the count of non-zero levels. *)
Lemma rq_signhide_spec (t : rdoq_tabs) (cgLast B : Z) (dst : list Z) (numSig : Z) :
  cgLast < G -> Z.of_nat (length dst) = N2 ->
  sides_ok dst resi ->
  (forall pos, B <= pos < N2 -> rd dst (sc pos) = 0) ->
  numSig = count_nonzero dst N2 ->
  let r := rq_signhide q cu log2TrSize ttype absPartIdx t cgLast dst numSig in
  length r.1 = length dst /\ sides_ok r.1 resi /\
  (forall pos, B <= pos < N2 -> rd r.1 (sc pos) = 0) /\
  ((forall p, rdsbh_cost_bounded t (rq_rdFactor q ttype) p) -> r.2 = count_nonzero r.1 N2).
Proof.
  intros HcgL Hlen Hs Hz Hns r. subst r. unfold rq_signhide.
  pose proof (rq_G cu log2TrSize ttype absPartIdx wf log2_range) as (HG & HGN & HN).
  set (forced := forall p, rdsbh_cost_bounded t (rq_rdFactor q ttype) p).
  set (P := fun (i : Z) (st : list Z * Z * bool) =>
    length st.1.1 = length dst /\ sides_ok st.1.1 resi /\
    (forall pos, B <= pos < N2 -> rd st.1.1 (sc pos) = 0) /\
    (forced -> st.1.2 = count_nonzero st.1.1 N2) /\
    (st.2 = false -> 16 * i <= B)).
  match goal with |- context [for_down ?n ?f ?s0] => assert (HP : P 0 (for_down n f s0)) end.
  { apply for_down_ind.
    { subst P. cbn. split; [done|]. split; [done|]. split; [done|]. split; [done|]. intros [=]. }
    intros i [[c ns] lc] Hi (Hl & Hsd & Hzz & Hcnt & Hlc). simpl in Hl, Hsd, Hzz, Hcnt, Hlc.
    assert (Hig : 0 <= i < G) by lia.
    pose proof (rdsbh_cg_step_cases q cu log2TrSize ttype absPartIdx t (rq_rdFactor q ttype)
                forced i c ns lc (fun Hf => Hf)) as Hcases.
    cbv zeta in Hcases.
    destruct Hcases as [[_ ->]|(l & Hlast & Hfl & Hcase)].
    { subst P. cbn [fst snd]. split; [done|]. split; [done|]. split; [done|]. split; [done|].
      intros Hf. specialize (Hlc Hf). lia. }
    rewrite shiftl_4 in Hlast, Hcase. destruct Hlast as (Hlr & Hlnz & _).
    unfold SCAN_SET_SIZE in *.
    assert (HlB : l + 16 * i < B).
    { destruct (Z_lt_dec (l + 16 * i) B) as [?|Hge]; [done|]. exfalso. apply Hlnz, Hzz. lia. }
    subst P. cbv beta. rewrite Hfl.
    destruct Hcase as [Hr|(s & Hch & Hr)]; rewrite Hr; cbn [fst snd].
    { split; [done|]. split; [done|]. split; [done|]. split; [done|]. intros _. lia. }
    destruct Hch as [(n & Hn & Hmp & Hfc & Hz0)|(Hnf & Hm)].
    - assert (HnB : 0 <= n + 16 * i < B).
      { destruct lc; [lia|]. specialize (Hlc eq_refl). lia. }
      assert (Hn15 : n <= 15) by (destruct lc; lia).
      pose proof (sc_range cu log2TrSize ttype absPartIdx wf (n + 16 * i) ltac:(lia)) as Hpr.
      rewrite <- Hmp in Hpr.
      split; [by rewrite sbh_apply_length|]. split; [by apply sbh_apply_sides|].
      split; [|split; [|intros _; lia]].
      + intros pos Hpos.
        destruct (sbh_apply_fst c resi ns (minPos s) (finalChange s) Hfc) as (v & -> & _).
        rewrite aget_aset_ne; [by apply Hzz|]. rewrite Hmp. intros Heq.
        apply (sc_inj cu log2TrSize ttype absPartIdx wf) in Heq; lia.
      + intros Hf. apply sbh_apply_numSig; try done; try lia. by apply Hcnt.
    - rewrite sbh_apply_untouched by lia.
      split; [done|]. split; [done|]. split; [done|]. split; [done|]. intros _. lia. }
  destruct (for_down _ _ _) as [[c ns] lc]. destruct HP as (H1 & H2 & H3 & H4 & _).
  simpl in *. done.
Qed.

(** What [rdoQuant] leaves once the main loop has run and found a non-zero
    level: the block is as long as before, every level is on the side of its
    DCT coefficient, nothing is set from scan position [bestLastIdx] on, and
    [numSig] counts the non-zero levels. *)
Lemma rq_finish_spec (dst0 : list Z) (s : rdoq) :
  Z.of_nat (length dst0) = N2 ->
  rq_inv sc N2 dst0 0 s -> 0 <= lastScanPos s ->
  let B := bestLastIdx (rq_last q cu log2TrSize ttype absPartIdx s) in
  let r := rq_finish q cu log2TrSize ttype absPartIdx s B in
  Z.of_nat (length r.1) = N2 /\ sides_ok r.1 resi /\
  (forall pos, B <= pos < N2 -> rd r.1 (sc pos) = 0) /\
  0 <= B <= N2 /\
  ((bSignHideEnabled cu = true ->
    forall p, rdsbh_cost_bounded (tabs s) (rq_rdFactor q ttype) p) ->
   r.2 = count_nonzero r.1 N2) /\
  (bSignHideEnabled cu = false -> 1 <= B -> rd r.1 (sc (B - 1)) <> 0).
Proof.
  intros Hlen (Hl & _ & _ & Hpos) Hls B r.
  pose proof (rq_G cu log2TrSize ttype absPartIdx wf log2_range) as (HG & HGN & HN).
  destruct (Hpos Hls) as (Hr & Hcgl & Hz & Hnn).
  assert (HcgL : cgLastScanPos s < G).
  { rewrite Hcgl, Z.shiftr_div_pow2 by lia. change (2 ^ 4) with 16.
    apply Z.div_lt_upper_bound; lia. }
  assert (HB : 0 <= B <= lastScanPos s + 1 /\
               (1 <= B -> rd (dstCoeff s) (sc (B - 1)) <> 0)).
  { destruct (rq_last_spec q cu log2TrSize ttype absPartIdx wf log2_range s HcgL) as [H0|[H1 H2]];
      fold B in H0 || fold B in H1, H2; split; try lia; done. }
  destruct HB as [HB HBnz].
  subst r. unfold rq_finish.
  destruct (rq_recount_spec B (dstCoeff s) ltac:(lia) ltac:(lia)
              ltac:(intros; apply Hnn; lia)) as (R1 & R2 & R3 & R4).
  destruct (rq_recount q cu log2TrSize ttype absPartIdx B (dstCoeff s)) as [d1 ns1].
  cbn [fst snd] in R1, R2, R3, R4.
  destruct (rq_clean_spec B (lastScanPos s) d1 ltac:(lia) ltac:(lia) ltac:(lia))
    as (C1 & C2 & C3).
  set (d2 := rq_clean cu log2TrSize ttype absPartIdx B (lastScanPos s) d1) in *.
  assert (Hzero : forall pos, B <= pos < N2 -> rd d2 (sc pos) = 0).
  { intros pos Hp. destruct (Z_le_dec pos (lastScanPos s)); [apply C2; lia|].
    rewrite C3, R2 by lia. apply Hz. lia. }
  assert (Hside : sides_ok d2 resi).
  { intros p. destruct (decide (0 <= p < N2)) as [Hin|Hout].
    - assert (Hex : exists pos, 0 <= pos < N2 /\ sc pos = p).
      { pose proof (scan_surj sc (Z.to_nat N2)) as Hsj. rewrite Z2Nat.id in Hsj by lia.
        apply Hsj; [apply wf|apply wf|done]. }
      destruct Hex as (pos & Hp & <-).
      destruct (Z_lt_dec pos B).
      + rewrite C3 by lia. apply R3. lia.
      + rewrite Hzero by lia. unfold side_ok. lia.
    - assert (rd d2 p = 0) as ->; [|unfold side_ok; lia].
      unfold aget. destruct (Z.ltb_spec p 0); [done|]. rewrite lookup_ge_None_2; [done|]. lia. }
  assert (Hcount : ns1 = count_nonzero d2 N2).
  { pose proof (count_nonzero_scan d2 sc (Z.to_nat N2)) as Hc.
    rewrite !Z2Nat.id in Hc by lia.
    rewrite Hc by (apply wf). rewrite R4.
    rewrite (sumZ_window (Z.to_nat N2) _ 0 B); [|lia|lia|lia|].
    - apply sumZ_ext. intros i Hi. rewrite Z2Nat.id in Hi by lia.
      replace (0 + i) with i by lia. rewrite C3 by lia. f_equal. symmetry. apply R3. lia.
    - intros i Hi [?|?]; [lia|]. rewrite Hzero by lia. done. }
  assert (Hlast : 1 <= B -> rd d2 (sc (B - 1)) <> 0).
  { intros HB1. rewrite C3 by lia. apply nz_true.
    rewrite (proj2 (R3 (B - 1) ltac:(lia))). apply nz_true. by apply HBnz. }
  destruct (bSignHideEnabled cu) eqn:Esh; cbn [andb].
  - destruct (Z.geb_spec ns1 2).
    + destruct (rq_signhide_spec (tabs s) (cgLastScanPos s) B d2 ns1 HcgL ltac:(lia) Hside Hzero
                  Hcount) as (S1 & S2 & S3 & S4).
      split; [lia|]. split; [done|]. split; [done|]. split; [lia|]. split; [|done].
      intros Hb. apply S4. by apply Hb.
    + cbn [fst snd]. split; [lia|]. split; [done|]. split; [done|]. split; [lia|].
      split; done.
  - cbn [fst snd]. split; [lia|]. split; [done|]. split; [done|]. split; [lia|].
    split; [done|]. intros _. by apply Hlast.
Qed.
End RdoQuantTail.

(** ** Zero coefficients stay zero without sign hiding *)

Lemma supp_le_refl (a : list Z) : supp_le a a.
Proof. by intros p. Qed.

Lemma supp_le_trans (a b c : list Z) : supp_le a b -> supp_le b c -> supp_le a c.
Proof. intros Hab Hbc p Hp. by apply Hab, Hbc. Qed.

Lemma supp_le_aset (a : list Z) (p v : Z) : (rd a p = 0 -> v = 0) -> supp_le (aset a p v) a.
Proof.
  intros Hv i Hi. rewrite aget_aset. destruct (decide _) as [[-> _]|_]; [by apply Hv|done].
Qed.

Lemma round_shift_zero (qbits : Z) : (1 ≪ (qbits - 1)) ≫ qbits = 0.
Proof.
  destruct (Z_le_dec 1 qbits) as [Hq|Hq].
  - rewrite Z.shiftl_1_l, Z.shiftr_div_pow2 by lia. apply Z.div_small.
    split; [apply Z.pow_nonneg; lia|]. apply Z.pow_lt_mono_r; lia.
  - rewrite Z.shiftl_div_pow2 by lia. rewrite Z.div_small; [apply Z.shiftr_0_l|].
    split; [lia|]. apply Z.pow_gt_1; lia.
Qed.

Lemma scalar_round_zero (c qbits : Z) : 0 <= c < 512 -> (c ≪ (qbits - 9)) ≫ qbits = 0.
Proof.
  intros Hc. destruct (Z_le_dec 9 qbits) as [Hq|Hq].
  - rewrite Z.shiftl_mul_pow2, Z.shiftr_div_pow2 by lia. apply Z.div_small.
    assert (Hp : 2 ^ qbits = 512 * 2 ^ (qbits - 9)).
    { replace qbits with (9 + (qbits - 9)) at 1 by lia. by rewrite Z.pow_add_r by lia. }
    pose proof (pow2_pos (qbits - 9) ltac:(lia)). nia.
  - rewrite Z.shiftl_div_pow2 by lia. destruct (Z_le_dec 0 qbits) as [H0|H0].
    + rewrite Z.shiftr_div_pow2 by lia. rewrite Z.div_div by (apply Z.pow_nonneg || lia; lia).
      rewrite <- Z.pow_add_r by lia. replace (- (qbits - 9) + qbits) with 9 by lia.
      apply Z.div_small. change (2 ^ 9) with 512. lia.
    + rewrite Z.div_small; [apply Z.shiftr_0_l|]. split; [lia|].
      assert (2 ^ 9 <= 2 ^ (- (qbits - 9))) by (apply Z.pow_le_mono_r; lia).
      change (2 ^ 9) with 512 in *. lia.
Qed.

Lemma quant_c_support (coef : list Z) (qc : Z -> Z) (deltaU0 coeff : list Z) (qbits add N : Z) :
  Z.of_nat (length coeff) = N -> add ≫ qbits = 0 ->
  supp_le (quant_c coef qc deltaU0 coeff qbits add N).1.2 coef.
Proof.
  intros HN Hadd. unfold quant_c.
  set (P := fun (i : Z) (st : list Z * list Z * Z) =>
    length st.1.2 = length coeff /\
    forall p, 0 <= p < i -> rd coef p = 0 -> rd st.1.2 p = 0).
  match goal with |- context [for_up ?n ?f ?s0] => assert (HP : P (Z.of_nat n) (for_up n f s0)) end.
  { apply for_up_ind; [subst P; cbn; split; [done|intros; lia]|].
    intros i [[dU d] ns] Hi (Hl & Hs). simpl in Hl, Hs. rewrite Z2Nat.id in Hi by lia.
    subst P. cbn [fst snd]. split; [by rewrite length_aset|].
    intros p Hp Hz. destruct (Z.eq_dec p i) as [->|?].
    - rewrite aget_aset_eq by lia. rewrite Hz.
      change (Z.abs 0 * qc i + add) with add. by rewrite Hadd.
    - rewrite aget_aset_ne by lia. apply Hs; [lia|done]. }
  rewrite Z2Nat.id in HP by lia. set (res := for_up _ _ _) in *. destruct HP as (Hl & Hs).
  intros p Hz. destruct (decide (0 <= p < N)) as [Hin|Hout]; [by apply Hs|].
  apply rd_out_of_range. cbv beta in Hl. lia.
Qed.

Lemma nquant_c_support (coef : list Z) (qc : Z -> Z) (scaled0 coeff : list Z) (qbits add N : Z) :
  Z.of_nat (length coeff) = N -> add ≫ qbits = 0 ->
  supp_le (nquant_c coef qc scaled0 coeff qbits add N).1.2 coef.
Proof.
  intros HN Hadd. unfold nquant_c.
  set (P := fun (i : Z) (st : list Z * list Z * Z) =>
    length st.1.2 = length coeff /\
    forall p, 0 <= p < i -> rd coef p = 0 -> rd st.1.2 p = 0).
  match goal with |- context [for_up ?n ?f ?s0] => assert (HP : P (Z.of_nat n) (for_up n f s0)) end.
  { apply for_up_ind; [subst P; cbn; split; [done|intros; lia]|].
    intros i [[dU d] ns] Hi (Hl & Hs). simpl in Hl, Hs. rewrite Z2Nat.id in Hi by lia.
    subst P. cbn [fst snd]. split; [by rewrite length_aset|].
    intros p Hp Hz. destruct (Z.eq_dec p i) as [->|?].
    - rewrite aget_aset_eq by lia. rewrite Hz.
      change (Z.abs 0 * qc i + add) with add. by rewrite Hadd.
    - rewrite aget_aset_ne by lia. apply Hs; [lia|done]. }
  rewrite Z2Nat.id in HP by lia. set (res := for_up _ _ _) in *. destruct HP as (Hl & Hs).
  intros p Hz. destruct (decide (0 <= p < N)) as [Hin|Hout]; [by apply Hs|].
  apply rd_out_of_range. cbv beta in Hl. lia.
Qed.

Section RdoQuantSupport.
Context `{Config}.
Variables (q : Quant) (cu : TComDataCU).
Variables (log2TrSize : Z) (ttype : TextType) (absPartIdx : Z) (usePsy : bool).

Lemma rq_coded_supp cgScanPos patternSigCtx scanPos blkPos maxAbsLevel signCoef predictedCoef
    scaledCoeff (s : rdoq) :
  maxAbsLevel = Z.abs (rd (dstCoeff s) blkPos) ->
  supp_le (dstCoeff (rq_coded q cu log2TrSize ttype absPartIdx usePsy cgScanPos patternSigCtx
                       scanPos blkPos maxAbsLevel signCoef predictedCoef scaledCoeff s))
    (dstCoeff s).
Proof.
  intros Hmax. destruct (Z.eq_dec maxAbsLevel 0) as [H0|H0].
  - assert (Hd : dstCoeff (rq_coded q cu log2TrSize ttype absPartIdx usePsy cgScanPos
                             patternSigCtx scanPos blkPos maxAbsLevel signCoef predictedCoef
                             scaledCoeff s) = aset (dstCoeff s) blkPos 0).
    { rewrite H0. unfold rq_coded, rq_choose_level. cbv zeta.
      change (nz 0) with false. cbv iota. destruct_pairs. reflexivity. }
    rewrite Hd. by apply supp_le_aset.
  - destruct (rq_coded_proj q cu log2TrSize ttype absPartIdx usePsy cgScanPos patternSigCtx
                scanPos blkPos maxAbsLevel signCoef predictedCoef scaledCoeff s)
      as (level & _ & Hd & _).
    rewrite Hd. apply supp_le_aset. lia.
Qed.

Lemma rq_coeff_step_supp scaledCoeff cgScanPos patternSigCtx cgBlkPosMask scanPosinCG
    (s : rdoq) :
  supp_le (dstCoeff (rq_coeff_step q cu log2TrSize ttype absPartIdx usePsy scaledCoeff cgScanPos
                       patternSigCtx cgBlkPosMask scanPosinCG s))
    (dstCoeff s).
Proof.
  unfold rq_coeff_step. cbv zeta. cbn [dstCoeff].
  match goal with |- supp_le (dstCoeff (if ?b then _ else _)) _ => destruct b end.
  - cbn [dstCoeff]. apply supp_le_refl.
  - eapply supp_le_trans; [apply rq_coded_supp; reflexivity|]. cbn [dstCoeff]. apply supp_le_refl.
Qed.

Lemma rq_uncode_cg_supp (costUncoded : list float) (cg : Z) (dst : list Z) (cc cs : list float) :
  supp_le (rq_uncode_cg cu log2TrSize ttype absPartIdx costUncoded cg (dst, cc, cs)).1.1 dst.
Proof.
  unfold rq_uncode_cg.
  apply (for_down_inv (fun st : list Z * list float * list float => supp_le st.1.1 dst));
    [apply supp_le_refl|].
  intros i [[d c1'] c2'] Hi Hs. simpl in Hs. cbv zeta.
  match goal with |- context [if ?b then _ else _] => destruct b end; cbn [fst snd];
    (eapply supp_le_trans; [by apply supp_le_aset|exact Hs]).
Qed.

Lemma rq_cg_step_supp (scaledCoeff : list Z) (cg : Z) (s : rdoq) :
  supp_le (dstCoeff (rq_cg_step q cu log2TrSize ttype absPartIdx usePsy scaledCoeff cg s))
    (dstCoeff s).
Proof.
  unfold rq_cg_step. cbv zeta.
  match goal with |- context [for_down ?n ?f ?s0] =>
    assert (Hloop : supp_le (dstCoeff (for_down n f s0)) (dstCoeff s)) end.
  { apply (for_down_inv (fun s1 => supp_le (dstCoeff s1) (dstCoeff s))); [apply supp_le_refl|].
    intros n s1 _ Hs1. eapply supp_le_trans; [apply rq_coeff_step_supp|exact Hs1]. }
  match goal with |- context [rq_cg_summary _ _ _ _ _ ?a ?b ?c ?d ?s1] =>
    set (s2 := s1) in *;
    destruct (rq_cg_summary_proj q cu log2TrSize ttype absPartIdx a b c d s2)
      as (_ & _ & [Hd|(_ & _ & Hd)]) end; rewrite Hd.
  - exact Hloop.
  - eapply supp_le_trans; [apply rq_uncode_cg_supp|exact Hloop].
Qed.

Lemma rq_main_supp (scaledCoeff dst0 : list Z) :
  supp_le (dstCoeff (rq_main q cu log2TrSize ttype absPartIdx usePsy scaledCoeff dst0)) dst0.
Proof.
  unfold rq_main.
  apply (for_down_inv (fun s => supp_le (dstCoeff s) dst0)); [apply supp_le_refl|].
  intros cg s _ Hs. eapply supp_le_trans; [apply rq_cg_step_supp|exact Hs].
Qed.

Lemma rq_recount_supp (B : Z) (dst : list Z) :
  supp_le (rq_recount q cu log2TrSize ttype absPartIdx B dst).1 dst.
Proof.
  unfold rq_recount.
  apply (for_up_inv (fun st : list Z * Z => supp_le st.1 dst)); [apply supp_le_refl|].
  intros i [d ns] _ Hs. simpl in Hs. cbn [fst].
  eapply supp_le_trans; [|exact Hs]. apply supp_le_aset. intros ->.
  rewrite Z.lxor_0_l. lia.
Qed.

Lemma rq_clean_supp (B L : Z) (dst : list Z) :
  supp_le (rq_clean cu log2TrSize ttype absPartIdx B L dst) dst.
Proof.
  unfold rq_clean, for_range.
  apply (for_up_inv (fun d => supp_le d dst)); [apply supp_le_refl|].
  intros i d _ Hs. eapply supp_le_trans; [by apply supp_le_aset|exact Hs].
Qed.

(** Without sign hiding [rdoQuant] leaves a zero level wherever the DCT
    coefficient is zero. *)
Lemma rdoQuant_support (coeff : list Z) :
  Z.of_nat (length coeff) = 1 ≪ (log2TrSize * 2) -> bSignHideEnabled cu = false ->
  supp_le (rdoQuant q cu log2TrSize ttype absPartIdx usePsy coeff).1 (m_resiDctCoeff q).
Proof.
  intros Hlen Hsh. unfold rdoQuant.
  pose proof (nquant_c_support (m_resiDctCoeff q) (rq_qCoef q cu log2TrSize ttype absPartIdx)
                (replicate (32 * 32) 0) coeff (rq_qbits q log2TrSize ttype)
                (rq_add q log2TrSize ttype) (rq_numCoeff log2TrSize) Hlen
                (round_shift_zero _)) as Hnq.
  destruct (nquant_c _ _ _ _ _ _ _) as [[scaled dst] ns0]. cbn [fst snd] in Hnq.
  destruct (ns0 =? 0); [exact Hnq|].
  pose proof (rq_main_supp scaled dst) as Hmain.
  destruct (_ <? 0); cbn [fst].
  - eapply supp_le_trans; [exact Hmain|exact Hnq].
  - unfold rq_finish. rewrite Hsh. cbn [andb].
    pose proof (rq_recount_supp
                  (bestLastIdx (rq_last q cu log2TrSize ttype absPartIdx
                                  (rq_main q cu log2TrSize ttype absPartIdx usePsy scaled dst)))
                  (dstCoeff (rq_main q cu log2TrSize ttype absPartIdx usePsy scaled dst)))
      as Hrc.
    destruct (rq_recount _ _ _ _ _ _ _) as [d1 ns1]. cbn [fst] in *.
    eapply supp_le_trans; [apply rq_clean_supp|].
    eapply supp_le_trans; [exact Hrc|]. eapply supp_le_trans; [exact Hmain|exact Hnq].
Qed.
End RdoQuantSupport.

(** ** [rdoQuant] as a whole *)

Lemma count_nonzero_zero (a : list Z) (n : nat) :
  count_nonzero a (Z.of_nat n) = 0 <-> forall i, 0 <= i < Z.of_nat n -> rd a i = 0.
Proof.
  induction n as [|n IH].
  - split; [intros; lia|done].
  - rewrite count_nonzero_S.
    pose proof (count_nonzero_bounds a (Z.of_nat n) ltac:(lia)) as Hb. split.
    + intros Hc i Hi. assert (H0 : count_nonzero a (Z.of_nat n) = 0 /\ nz (rd a (Z.of_nat n)) = false).
      { unfold b2z in Hc. destruct (nz (rd a (Z.of_nat n))); split; try done; lia. }
      destruct H0 as [H0 H1]. destruct (Z.eq_dec i (Z.of_nat n)) as [->|?].
      * by apply nz_false.
      * apply IH; [done|lia].
    + intros Hz. rewrite (proj2 IH) by (intros; apply Hz; lia).
      rewrite Hz by lia. reflexivity.
Qed.

Lemma zero_block_sides (a resi : list Z) (N : Z) :
  Z.of_nat (length a) = N -> count_nonzero a N = 0 -> sides_ok a resi.
Proof.
  intros Hlen Hc pos. assert (rd a pos = 0) as ->; [|unfold side_ok; lia].
  destruct (decide (0 <= pos < N)) as [Hin|Hout].
  - rewrite <- Hlen in Hc, Hin. by apply (proj1 (count_nonzero_zero a (length a)) Hc).
  - unfold aget. destruct (Z.ltb_spec pos 0); [done|]. rewrite lookup_ge_None_2; [done|]. lia.
Qed.

Section RdoQuantWhole.
Context `{Config}.
Variables (q : Quant) (cu : TComDataCU).
Variables (log2TrSize : Z) (ttype : TextType) (absPartIdx : Z) (usePsy : bool).

Local Abbreviation cp := (rq_codeParams cu log2TrSize ttype absPartIdx).
Local Abbreviation sc := (scan (rq_codeParams cu log2TrSize ttype absPartIdx)).
Local Abbreviation N2 := (1 ≪ (log2TrSize * 2)).
Local Abbreviation resi := (m_resiDctCoeff q).

Hypothesis wf : codeParams_wf cp log2TrSize.
Hypothesis log2_range : 2 <= log2TrSize <= 5.
Hypothesis resi_int32 : int32_array resi.

Lemma rdoQuant_spec (coeff : list Z) :
  Z.of_nat (length coeff) = N2 ->
  let out := rdoQuant q cu log2TrSize ttype absPartIdx usePsy coeff in
  let B := rdoQuant_bestLastIdx q cu log2TrSize ttype absPartIdx usePsy coeff in
  Z.of_nat (length out.1) = N2 /\ sides_ok out.1 resi /\
  ((bSignHideEnabled cu = true ->
    rdoq_sbh_costs_in_range q cu log2TrSize ttype absPartIdx usePsy coeff) ->
   out.2 = count_nonzero out.1 N2) /\
  (out.2 <> 0 ->
   (forall pos, B <= pos < N2 -> rd out.1 (sc pos) = 0) /\
   (bSignHideEnabled cu = false -> 1 <= B <= N2 /\ rd out.1 (sc (B - 1)) <> 0)).
Proof.
  intros Hlen out B. subst out B.
  unfold rdoQuant, rdoQuant_bestLastIdx, rdoq_sbh_costs_in_range.
  pose proof (rq_G cu log2TrSize ttype absPartIdx wf log2_range) as (HG & HGN & HN).
  pose proof (shiftl_1_pos (log2TrSize * 2) ltac:(lia)) as HN0.
  pose proof (nquant_c_spec resi (rq_qCoef q cu log2TrSize ttype absPartIdx)
                (replicate (32 * 32) 0) coeff (rq_qbits q log2TrSize ttype)
                (rq_add q log2TrSize ttype) (rq_numCoeff log2TrSize)) as Hnq.
  unfold rq_numCoeff in *.
  specialize (Hnq ltac:(lia)). cbv zeta in Hnq.
  destruct (nquant_c _ _ _ _ _ _ _) as [[scaled dst] ns0]. cbn [fst snd] in Hnq.
  destruct Hnq as [Hl0 Hns0].
  destruct (Z.eqb_spec ns0 0) as [Hz|Hnz].
  { cbn [fst snd]. split; [lia|]. split; [|split; [|done]].
    - apply (zero_block_sides _ _ N2); [lia|]. by rewrite <- Hns0.
    - intros _. by rewrite <- Hns0. }
  pose proof (rq_main_inv q cu log2TrSize ttype absPartIdx usePsy wf log2_range dst scaled
                ltac:(lia)) as Hinv.
  set (s := rq_main q cu log2TrSize ttype absPartIdx usePsy scaled dst) in *.
  destruct (Z.ltb_spec (lastScanPos s) 0) as [Hlt|Hge].
  { destruct Hinv as (Hl & _ & Hneg & _). destruct (Hneg Hlt) as (_ & _ & Hd & Hzz).
    assert (Hc0 : count_nonzero (dstCoeff s) N2 = 0).
    { pose proof (count_nonzero_scan (dstCoeff s) sc (Z.to_nat N2)) as Hc.
      rewrite !Z2Nat.id in Hc by lia. rewrite Hc by apply wf.
      rewrite (sumZ_ext _ _ (fun _ => 0)).
      - unfold sumZ. apply (for_up_inv (fun acc => acc = 0)); [done|]. intros; lia.
      - intros i Hi. rewrite Z2Nat.id in Hi by lia. rewrite Hd, Hzz by lia. reflexivity. }
    cbn [fst snd]. split; [lia|]. split; [|split; [|done]].
    - apply (zero_block_sides _ _ N2); [lia|done].
    - intros _. by rewrite Hc0. }
  destruct (rq_finish_spec q cu log2TrSize ttype absPartIdx wf log2_range resi_int32 dst s
              ltac:(lia) Hinv Hge) as (F1 & F2 & F3 & F4 & F5 & F6).
  cbv zeta in F1, F2, F3, F4, F5, F6.
  split; [done|]. split; [done|]. split; [done|].
  intros Hout. split; [done|]. intros Hsh.
  assert (HB1 : 1 <= bestLastIdx (rq_last q cu log2TrSize ttype absPartIdx s)).
  { destruct (Z_lt_dec (bestLastIdx (rq_last q cu log2TrSize ttype absPartIdx s)) 1) as [Hb0|?];
      [|lia].
    exfalso. apply Hout. rewrite F5 by (rewrite Hsh; done).
    pose proof (count_nonzero_scan
                  (rq_finish q cu log2TrSize ttype absPartIdx s
                     (bestLastIdx (rq_last q cu log2TrSize ttype absPartIdx s))).1 sc
                  (Z.to_nat N2)) as Hc.
    rewrite !Z2Nat.id in Hc by lia. rewrite Hc by apply wf.
    rewrite (sumZ_ext _ _ (fun _ => 0)).
    - unfold sumZ. apply (for_up_inv (fun acc => acc = 0)); [done|]. intros; lia.
    - intros i Hi. rewrite Z2Nat.id in Hi by lia. rewrite F3 by lia. reflexivity. }
  split; [lia|]. by apply F6.
Qed.
(** C3.  After [rdoQuant] returns a non-zero count, every level at a scan
    position greater than or equal to [bestLastIdx] is zero; and when sign
    hiding is disabled, [bestLastIdx] is at least 1 and the level at scan
    position [bestLastIdx - 1] is non-zero: [bestLastIdx] is one past the
    last significant level. *)
Theorem rdoQuant_last_position (coeff : list Z) :
  Z.of_nat (length coeff) = N2 ->
  let out := rdoQuant q cu log2TrSize ttype absPartIdx usePsy coeff in
  let B := rdoQuant_bestLastIdx q cu log2TrSize ttype absPartIdx usePsy coeff in
  out.2 <> 0 ->
  (forall pos, B <= pos < N2 -> rd out.1 (sc pos) = 0) /\
  (bSignHideEnabled cu = false -> 1 <= B <= N2 /\ rd out.1 (sc (B - 1)) <> 0).
Proof.
  intros Hlen out B Hout.
  destruct (rdoQuant_spec coeff Hlen) as (_ & _ & _ & Hlast). by apply Hlast.
Qed.
End RdoQuantWhole.

Lemma sample_codeParams_wf : codeParams_wf sample_codeParams 2.
Proof. apply codeParams_wfb_sound. vm_compute. reflexivity. Defined.

Lemma rdoQuant_last_position_witness :
  let q := sample_quant true 22 1%float rdoq_sample_resi in
  let cu := sample_cu false true false in
  let out := rdoQuant q cu 2 TEXT_LUMA 0 false (replicate 16 0) in
  let B := rdoQuant_bestLastIdx q cu 2 TEXT_LUMA 0 false (replicate 16 0) in
  (forall pos, B <= pos < 1 ≪ (2 * 2) ->
     rd out.1 (scan (rq_codeParams cu 2 TEXT_LUMA 0) pos) = 0) /\
  (1 <= B <= 1 ≪ (2 * 2) /\ rd out.1 (scan (rq_codeParams cu 2 TEXT_LUMA 0) (B - 1)) <> 0).
Proof.
  intros q cu out B.
  assert (Hrange : 2 <= 2 <= 5) by lia.
  assert (Hint : int32_array (m_resiDctCoeff q))
    by (apply int32_arrayb_sound; vm_compute; reflexivity).
  assert (Hlen : Z.of_nat (length (replicate 16 0)) = 1 ≪ (2 * 2)) by reflexivity.
  assert (Hout : out.2 <> 0) by (vm_compute; discriminate).
  destruct (rdoQuant_last_position q cu 2 TEXT_LUMA 0 false sample_codeParams_wf Hrange Hint
              (replicate 16 0) Hlen Hout) as [Hzero Hlast].
  split; [exact Hzero|exact (Hlast eq_refl)].
Defined.

(** The level at scan position [bestLastIdx] is zero in a block [rdoQuant]
    returns a non-zero count for; and with sign hiding enabled the level at
    [bestLastIdx - 1] can be zero as well.  The 4x4 block holds 512 and 200
    at scan positions 0 and 5; without sign hiding the levels are 2 and 1,
    [bestLastIdx] is 6; the sign hiding lowers the 1 to 0. *)
Lemma rdoQuant_level_at_bestLastIdx_zero :
  let q := sample_quant true 22 1%float rdoq_sample_resi in
  let sc := scan sample_codeParams in
  (let cu := sample_cu false true false in
   let out := rdoQuant q cu 2 TEXT_LUMA 0 false (replicate 16 0) in
   let B := rdoQuant_bestLastIdx q cu 2 TEXT_LUMA 0 false (replicate 16 0) in
   out.2 = 2 /\ B = 6 /\ rd out.1 (sc 5) = 1 /\
   ~ (out.2 <> 0 -> (forall pos, B < pos < 16 -> rd out.1 (sc pos) = 0) /\
                    rd out.1 (sc B) <> 0)) /\
  (let cu := sample_cu false true true in
   let out := rdoQuant q cu 2 TEXT_LUMA 0 false (replicate 16 0) in
   let B := rdoQuant_bestLastIdx q cu 2 TEXT_LUMA 0 false (replicate 16 0) in
   out.2 = 1 /\ B = 6 /\ rd out.1 (sc 5) = 0 /\ rd out.1 (sc 6) = 0).
Proof.
  split.
  - intros cu out B.
    assert (E2 : out.2 = 2) by (vm_compute; reflexivity).
    assert (EB : B = 6) by (vm_compute; reflexivity).
    assert (E6 : rd out.1 (scan sample_codeParams B) = 0) by (vm_compute; reflexivity).
    split; [exact E2|]. split; [exact EB|]. split; [vm_compute; reflexivity|].
    intros Hclaim. destruct Hclaim as [_ Hnz]; [rewrite E2; discriminate|].
    apply Hnz, E6.
  - vm_compute. repeat split; reflexivity.
Qed.

(** ** [transformNxN] *)

Lemma transform_stage_keeps `{Config} (p : EncoderPrimitives) (q : Quant) (cu : TComDataCU)
    (fenc : list Z) (fencStride : Z) (residual : list Z) (stride : Z)
    (log2TrSize : Z) (ttype : TextType) (absPartIdx : Z) (useTransformSkip : bool) :
  let q' := transform_stage p q cu fenc fencStride residual stride log2TrSize ttype absPartIdx
              useTransformSkip in
  m_useRDOQ q' = m_useRDOQ q /\ m_scalingList q' = m_scalingList q /\
  m_qpParam q' = m_qpParam q /\ m_psyRdoqScale q' = m_psyRdoqScale q.
Proof.
  unfold transform_stage. cbv zeta. destruct useTransformSkip; [done|].
  destruct (nz (m_psyRdoqScale q) && TextType_eqb ttype TEXT_LUMA && negb false);
    destruct (bNoiseReduction (m_nr q) && negb (isIntra cu absPartIdx)); try done;
    destruct (denoiseDct _ _ _ _); done.
Qed.

Section TransformNxN.
Context `{Config}.
Variables (p : EncoderPrimitives) (q : Quant) (cu : TComDataCU).
Variables (fenc : list Z) (fencStride : Z) (residual : list Z) (stride : Z) (coeff : list Z).
Variables (log2TrSize : Z) (ttype : TextType) (absPartIdx : Z) (useTransformSkip : bool).

Local Abbreviation N2 := (1 ≪ (log2TrSize * 2)).
Local Abbreviation isLuma := (TextType_eqb ttype TEXT_LUMA).
Local Abbreviation usePsy := (nz (m_psyRdoqScale q) && isLuma && negb useTransformSkip).
Local Abbreviation q' :=
  (transform_stage p q cu fenc fencStride residual stride log2TrSize ttype absPartIdx
     useTransformSkip).
Local Abbreviation result :=
  (transformNxN p q cu fenc fencStride residual stride coeff log2TrSize ttype absPartIdx
     useTransformSkip).

Hypothesis no_bypass : getCUTransquantBypass cu absPartIdx = false.
Hypothesis log2_range : 2 <= log2TrSize <= 5.
Hypothesis coeff_len : Z.of_nat (length coeff) = N2.
Hypothesis wf :
  codeParams_wf (getTUEntropyCodingParameters cu absPartIdx log2TrSize isLuma) log2TrSize.
Hypothesis resi_int32 : int32_array (m_resiDctCoeff q').
Hypothesis quantCoef_nonneg :
  forall sizeIdx listType rem pos, 0 <= m_quantCoef (m_scalingList q) sizeIdx listType rem pos.

(** What every non-bypass path of [transformNxN] establishes. *)
Lemma transformNxN_spec :
  result.1.1 = q' /\ Z.of_nat (length result.1.2) = N2 /\
  sides_ok result.1.2 (m_resiDctCoeff q') /\
  ((m_useRDOQ q = true -> bSignHideEnabled cu = true ->
    rdoq_sbh_costs_in_range q' cu log2TrSize ttype absPartIdx usePsy coeff) ->
   result.2 = count_nonzero result.1.2 N2).
Proof.
  unfold transformNxN. rewrite no_bypass. cbv zeta.
  destruct (transform_stage_keeps p q cu fenc fencStride residual stride log2TrSize ttype
              absPartIdx useTransformSkip) as (K1 & K2 & K3 & K4).
  cbv zeta in K1, K2, K3, K4.
  pose proof (shiftl_1_pos (log2TrSize * 2) ltac:(lia)) as HN0.
  assert (HN : N2 <= 1024).
  { rewrite Z.shiftl_1_l. change 1024 with (2 ^ 10). apply Z.pow_le_mono_r; lia. }
  rewrite K1. destruct (m_useRDOQ q) eqn:Erdoq.
  - destruct (rdoQuant_spec q' cu log2TrSize ttype absPartIdx usePsy wf log2_range resi_int32
                coeff coeff_len) as (R1 & R2 & R3 & _).
    destruct (rdoQuant _ _ _ _ _ _ _) as [c n]. cbn [fst snd] in *.
    split; [done|]. split; [done|]. split; [done|]. intros Hb. apply R3. intros Hsh. by apply Hb.
  - rewrite K2, K3.
    match goal with |- context [quant_c ?a ?b ?c ?d ?e ?f ?g] =>
      pose proof (quant_c_spec a b c d e f g coeff_len ltac:(intros; apply quantCoef_nonneg)
                    ltac:(apply Z.shiftl_nonneg; destruct (isISlice cu); lia)) as Hq;
      destruct (quant_c a b c d e f g) as [[dU c1'] n1] end.
    cbv zeta in Hq. cbn [fst snd] in Hq. destruct Hq as (Q1 & Q2 & Q3).
    destruct ((n1 >=? 2) && bSignHideEnabled cu).
    + pose proof (signBitHidingHDQ_numSig (m_resiDctCoeff q') dU
                    (getTUEntropyCodingParameters cu absPartIdx log2TrSize isLuma) log2TrSize
                    wf ltac:(lia) c1' n1 ltac:(lia) ltac:(lia) Q3 Q2) as [S1 S2].
      pose proof (signBitHidingHDQ_sides (m_resiDctCoeff q') dU
                    (getTUEntropyCodingParameters cu absPartIdx log2TrSize isLuma)
                    c1' n1 Q3) as S3.
      destruct (signBitHidingHDQ _ _ _ _ _) as [c2' n2]. cbn [fst snd] in *.
      split; [done|]. split; [lia|]. split; [done|]. done.
    + cbn [fst snd]. split; [done|]. split; [lia|]. split; [done|]. done.
Qed.

(** C1.  On every path of [transformNxN] other than transquant bypass - the
    scalar quantiser, the scalar quantiser followed by sign-bit hiding, and
    RDOQ with or without its sign hiding - the returned [numSig] is the
    number of non-zero entries of the level array, for every block size
    [log2TrSize] in 2..5 and every texture type and QP. *)
Theorem transformNxN_numSig :
  (m_useRDOQ q = true -> bSignHideEnabled cu = true ->
   rdoq_sbh_costs_in_range q' cu log2TrSize ttype absPartIdx usePsy coeff) ->
  result.2 = count_nonzero result.1.2 N2.
Proof. intros Hb. by apply transformNxN_spec. Qed.

(** Without sign hiding no path of [transformNxN] produces a level where the
    DCT coefficient is zero. *)
Lemma transformNxN_support :
  bSignHideEnabled cu = false -> supp_le result.1.2 (m_resiDctCoeff q').
Proof.
  intros Hsh. unfold transformNxN. rewrite no_bypass. cbv zeta.
  destruct (transform_stage_keeps p q cu fenc fencStride residual stride log2TrSize ttype
              absPartIdx useTransformSkip) as (K1 & K2 & K3 & K4).
  cbv zeta in K1, K2, K3, K4.
  rewrite K1. destruct (m_useRDOQ q).
  - pose proof (rdoQuant_support q' cu log2TrSize ttype absPartIdx usePsy coeff coeff_len Hsh)
      as R.
    destruct (rdoQuant _ _ _ _ _ _ _) as [c n]. exact R.
  - rewrite K2, K3.
    match goal with |- context [quant_c ?a ?b ?c ?d ?e ?f ?g] =>
      pose proof (quant_c_support a b c d e f g coeff_len) as Hq;
      destruct (quant_c a b c d e f g) as [[dU c1'] n1] end.
    cbn [fst snd] in Hq. rewrite Hsh, andb_false_r. cbn [fst snd].
    apply Hq. apply scalar_round_zero. destruct (isISlice cu); lia.
Qed.

(** C5.  With sign-data hiding disabled, every non-zero level [transformNxN]
    produces has the sign of the DCT coefficient it was quantised from (in
    particular that coefficient is not zero), on the scalar and on the RDOQ
    path and for every block size. *)
Theorem transformNxN_sign_preserved :
  bSignHideEnabled cu = false ->
  forall pos, sign_agrees (rd result.1.2 pos) (rd (m_resiDctCoeff result.1.1) pos).
Proof.
  intros Hsh pos Hnz. destruct transformNxN_spec as (E1 & _ & Hs & _).
  pose proof (transformNxN_support Hsh pos) as Hz. rewrite E1.
  destruct (Hs pos) as [Ha Hb].
  destruct (Z.lt_trichotomy (rd (m_resiDctCoeff q') pos) 0) as [Hd|[Hd|Hd]].
  - rewrite !Z.sgn_neg by lia. reflexivity.
  - by specialize (Hz Hd).
  - rewrite !Z.sgn_pos by lia. reflexivity.
Qed.
End TransformNxN.

Lemma sample_quantCoef_nonneg (sizeIdx listType rem pos : Z) :
  0 <= m_quantCoef sample_scalingList sizeIdx listType rem pos.
Proof.
  cbn [m_quantCoef sample_scalingList]. unfold table.
  destruct (rd_lookup [26214; 23302; 20560; 18396; 16384; 14564] rem) as [->|Hin]; [lia|].
  simpl in Hin. intuition lia.
Defined.

Lemma transformNxN_numSig_witness :
  let r := transformNxN sample_primitives
             (sample_quant true 22 1%float (replicate (32 * 32) 0))
             (sample_cu false true true) [] 4 rdoq_sample_residual 4 (replicate 16 0)
             2 TEXT_LUMA 0 false in
  r.2 = count_nonzero r.1.2 (1 ≪ (2 * 2)).
Proof.
  apply (transformNxN_numSig sample_primitives
           (sample_quant true 22 1%float (replicate (32 * 32) 0))
           (sample_cu false true true) [] 4 rdoq_sample_residual 4 (replicate 16 0)
           2 TEXT_LUMA 0 false).
  - reflexivity.
  - lia.
  - reflexivity.
  - exact sample_codeParams_wf.
  - apply int32_arrayb_sound. vm_compute. reflexivity.
  - exact sample_quantCoef_nonneg.
  - intros _ _. apply rdoq_sbh_costs_in_rangeb_sound. vm_compute. reflexivity.
Defined.

Lemma transformNxN_sign_preserved_witness :
  let r := transformNxN sample_primitives
             (sample_quant false 22 1%float (replicate (32 * 32) 0))
             (sample_cu false true false) [] 4 sample_residual 4 (replicate 16 0)
             2 TEXT_LUMA 0 false in
  sign_agrees (rd r.1.2 15) (rd (m_resiDctCoeff r.1.1) 15) /\
  sign_agrees (rd r.1.2 0) (rd (m_resiDctCoeff r.1.1) 0).
Proof.
  assert (Hrange : 2 <= 2 <= 5) by lia.
  assert (Hint : int32_array
            (m_resiDctCoeff
               (transform_stage sample_primitives
                  (sample_quant false 22 1%float (replicate (32 * 32) 0))
                  (sample_cu false true false) [] 4 sample_residual 4 2 TEXT_LUMA 0 false)))
    by (apply int32_arrayb_sound; vm_compute; reflexivity).
  pose proof (transformNxN_sign_preserved sample_primitives
                (sample_quant false 22 1%float (replicate (32 * 32) 0))
                (sample_cu false true false) [] 4 sample_residual 4 (replicate 16 0)
                2 TEXT_LUMA 0 false eq_refl Hrange eq_refl sample_codeParams_wf Hint
                sample_quantCoef_nonneg eq_refl) as Hsign.
  split; apply Hsign.
Defined.

(** ** [invtransformNxN]: the DC shortcut *)

Lemma dc_onlyb_sound (a : list Z) (n : Z) : dc_onlyb a n = true -> dc_only a n.
Proof.
  unfold dc_onlyb, dc_only. rewrite forallb_Zrange. intros Hall i Hi.
  specialize (Hall i ltac:(lia)). lia.
Qed.

Lemma dequant_contractb_sound (coeff resi : list Z) (n : Z) :
  dequant_contractb coeff resi n = true -> dequant_contract coeff resi n.
Proof.
  unfold dequant_contractb, dequant_contract. rewrite forallb_Zrange. intros Hall i Hi.
  specialize (Hall i Hi). unfold nz in Hall. lia.
Qed.

Lemma sumZ_single (n : nat) (f : Z -> Z) :
  (0 < n)%nat -> (forall i, 0 < i < Z.of_nat n -> f i = 0) -> sumZ n f = f 0.
Proof.
  induction n as [|n IH]; [lia|]. intros _ Hz. rewrite sumZ_S.
  destruct n as [|n]; [reflexivity|].
  rewrite IH by (try lia; intros; apply Hz; lia).
  rewrite (Hz (Z.of_nat (S n))) by lia. lia.
Qed.

Lemma partialButterflyInverse_rd (g_t : Z -> Z -> Z) (N : Z) (src : list Z) (shift j k : Z) :
  0 <= j < N -> 0 <= k < N ->
  rd (partialButterflyInverse g_t N src shift) (j * N + k)
  = Clip3 (-32768) 32767
      ((sumZ (Z.to_nat N) (fun i => g_t i k * rd src (i * N + j)) + 1 ≪ (shift - 1)) ≫ shift).
Proof.
  intros Hj Hk.
  change (partialButterflyInverse g_t N src shift) with
    (fill2 (Z.to_nat N) (Z.to_nat N) (fun j k => j * N + k)
       (fun j k => Clip3 (-32768) 32767
          ((sumZ (Z.to_nat N) (fun i => g_t i k * rd src (i * N + j)) + 1 ≪ (shift - 1))
           ≫ shift))
       (replicate (Z.to_nat (N * N)) 0)).
  apply fill2_agree.
  - intros j' k' Hj' Hk' Heq. assert (j' = j) by nia. assert (k' = k) by nia. by subst.
  - right. rewrite length_replicate. split; [nia|]. exists j, k. lia.
Qed.

Lemma narrow_rd (n : Z) (src : list Z) (i : Z) :
  0 <= i < n ->
  rd (for_up (Z.to_nat n) (fun i c => aset c i (s16 (rd src i))) (replicate (Z.to_nat n) 0)) i
  = s16 (rd src i).
Proof.
  intros Hi.
  assert (H : (fun (b : Z) (c : list Z) =>
             Z.of_nat (length c) = n /\ forall i, 0 <= i < b -> rd c i = s16 (rd src i))
            (Z.of_nat (Z.to_nat n))
            (for_up (Z.to_nat n) (fun i c => aset c i (s16 (rd src i)))
               (replicate (Z.to_nat n) 0))).
  { apply for_up_ind.
    - split; [rewrite length_replicate; lia|intros; lia].
    - intros b c Hb [Hl Hc]. split; [by rewrite length_aset|].
      intros i' Hi'. rewrite aget_aset. destruct (decide _) as [[-> _]|Hn]; [done|].
      apply Hc. lia. }
  apply H. lia.
Qed.

Lemma dc_first_pass (r : Z) :
  -32768 <= r <= 32767 -> -16384 <= (r * 64 + 1 ≪ (7 - 1)) ≫ 7 <= 16384.
Proof.
  intros Hr. rewrite Z.shiftr_div_pow2 by lia. change (1 ≪ (7 - 1)) with 64.
  change (2 ^ 7) with 128.
  pose proof (Z.div_mod (r * 64 + 64) 128 ltac:(lia)).
  pose proof (Z.mod_pos_bound (r * 64 + 64) 128 ltac:(lia)). lia.
Qed.

Lemma dc_second_pass (b s : Z) :
  -16384 <= b <= 16384 -> 6 <= s <= 12 ->
  -32768 <= (b * 64 + 1 ≪ (s - 1)) ≫ s <= 32767.
Proof.
  intros Hb Hs. rewrite Z.shiftr_div_pow2, Z.shiftl_1_l by lia.
  assert (HP : 2 ^ (s - 1) * 2 = 2 ^ s).
  { replace s with (s - 1 + 1) at 2 by lia. rewrite Z.pow_add_r by lia. reflexivity. }
  assert (H64 : 2 ^ 6 <= 2 ^ s) by (apply Z.pow_le_mono_r; lia).
  change (2 ^ 6) with 64 in H64.
  set (P := 2 ^ s) in *. set (h := 2 ^ (s - 1)) in *.
  pose proof (Z.div_mod (b * 64 + h) P ltac:(lia)).
  pose proof (Z.mod_pos_bound (b * 64 + h) P ltac:(lia)).
  set (v := (b * 64 + h) / P) in *. split; nia.
Qed.

Section InverseDCKernel.
Context `{Config}.
Variables (g_t : Z -> Z -> Z) (N : Z) (src : list Z).
Hypothesis N_pos : 0 < N.
Hypothesis depth_range : 8 <= X265_DEPTH <= 14.
Hypothesis g_t_dc : forall k, 0 <= k < N -> g_t 0 k = 64.
Hypothesis src_dc_only : dc_only src (N * N).
Hypothesis src_int16 : -32768 <= rd src 0 <= 32767.

Lemma dc_val_range : -32768 <= dc_val (rd src 0) <= 32767.
Proof.
  unfold dc_val. cbv zeta. apply dc_second_pass; [by apply dc_first_pass|lia].
Qed.

(** On a block whose only non-zero coefficient is the DC coefficient the
    inverse DCT yields the constant block of the shortcut. *)
Lemma idct_c_dc_only (dst : list Z) (stride : Z) :
  idct_c g_t N src dst stride = blockfill_s N dst stride (dc_val (rd src 0)).
Proof.
  unfold idct_c, blockfill_s. cbv zeta.
  set (coef := for_up (Z.to_nat (N * N)) _ _).
  set (block := partialButterflyInverse g_t N coef 7).
  set (coef2 := partialButterflyInverse g_t N block _).
  change (fill2 (Z.to_nat N) (Z.to_nat N) (fun y x => y * stride + x)
            (fun y x => rd coef2 (y * N + x)) dst
          = fill2 (Z.to_nat N) (Z.to_nat N) (fun y x => y * stride + x)
              (fun _ _ => dc_val (rd src 0)) dst).
  apply fill2_ext. intros y x Hy Hx. rewrite Z2Nat.id in Hy, Hx by lia.
  assert (Hcoef : forall i j, 0 <= i < N -> 0 <= j < N ->
            rd coef (i * N + j) = if (i =? 0) && (j =? 0) then rd src 0 else 0).
  { intros i j Hi Hj. subst coef. rewrite narrow_rd by nia.
    destruct (Z.eqb_spec i 0) as [->|Hi0]; [destruct (Z.eqb_spec j 0) as [->|Hj0]|]; simpl.
    - by apply s16_small.
    - rewrite src_dc_only by nia. reflexivity.
    - rewrite src_dc_only by nia. reflexivity. }
  assert (Hblock : forall i j, 0 <= i < N -> 0 <= j < N ->
            rd block (i * N + j)
            = if i =? 0 then (rd src 0 * 64 + 1 ≪ (7 - 1)) ≫ 7 else 0).
  { intros i j Hi Hj. subst block. rewrite partialButterflyInverse_rd by done.
    rewrite sumZ_single; [|lia|].
    - rewrite Hcoef, g_t_dc by lia. simpl ((0 =? 0) && _).
      destruct (Z.eqb_spec i 0) as [->|Hi0].
      + rewrite (Z.mul_comm 64). apply Clip3_spec; [lia|].
        pose proof (dc_first_pass (rd src 0) src_int16). lia.
      + reflexivity.
    - intros i' Hi'. rewrite Z2Nat.id in Hi' by lia. rewrite Hcoef by lia.
      destruct (Z.eqb_spec i' 0); [lia|]. simpl. lia. }
  subst coef2. rewrite partialButterflyInverse_rd by done.
  rewrite sumZ_single; [|lia|].
  - rewrite Hblock, g_t_dc by lia. simpl (0 =? 0). rewrite (Z.mul_comm 64).
    apply Clip3_spec; [lia|]. apply dc_val_range.
  - intros i' Hi'. rewrite Z2Nat.id in Hi' by lia. rewrite Hblock by lia.
    destruct (Z.eqb_spec i' 0); [lia|]. lia.
Qed.
End InverseDCKernel.

Lemma shiftl_1_square (n : Z) : 0 <= n -> 1 ≪ (n * 2) = 1 ≪ n * 1 ≪ n.
Proof.
  intros Hn. rewrite !Z.shiftl_1_l. replace (n * 2) with (n + n) by lia.
  by rewrite Z.pow_add_r.
Qed.

Section InverseDC.
Context `{Config}.
Variables (p : EncoderPrimitives) (q : Quant).
Variables (residual : list Z) (stride : Z) (coeff : list Z).
Variables (log2TrSize : Z) (ttype : TextType) (bIntra : bool) (numSig : Z).
Variable g_t : Z -> Z -> Z.

Local Abbreviation N := (1 ≪ log2TrSize).
Local Abbreviation N2 := (1 ≪ (log2TrSize * 2)).
Local Abbreviation resi := (dequant_stage p q coeff log2TrSize ttype bIntra).
Local Abbreviation useDST := ((log2TrSize - 2 =? 0) && TextType_eqb ttype TEXT_LUMA && bIntra).

Hypothesis log2_range : 2 <= log2TrSize <= 5.
Hypothesis depth_range : 8 <= X265_DEPTH <= 14.
Hypothesis one_sig : numSig = 1.
Hypothesis dc_nonzero : rd coeff 0 <> 0.
Hypothesis levels_dc_only : dc_only coeff N2.
Hypothesis not_dst : useDST = false.
Hypothesis dequant_ok : dequant_contract coeff resi N2.
Hypothesis idct_kernel :
  forall src dst stride,
    prim_idct p (IDCT_4x4 + (log2TrSize - 2)) src dst stride = idct_c g_t N src dst stride.
Hypothesis g_t_dc : forall k, 0 <= k < N -> g_t 0 k = 64.

(** C6.  For a block with [numSig = 1] whose only non-zero level is at
    position 0 and which is not a DST block, [invtransformNxN] - called with
    transquant bypass and transform skip off - takes the DC shortcut: it
    fills every residual sample with
    [dc_val = (((coef[0]*64 + 64) >> 7) * 64 + add) >> shift2], [coef[0]]
    being the dequantised DC coefficient, and this is exactly the output of
    dequantisation followed by the inverse DCT. *)
Theorem invtransformNxN_dc_fast_path :
  let out := invtransformNxN p q false residual stride coeff log2TrSize ttype bIntra false
               numSig in
  let shift2 := 12 - (X265_DEPTH - 8) in
  out.2 = blockfill_s N residual stride (dc_val (rd resi 0)) /\
  dc_val (rd resi 0)
  = (((rd resi 0 * 64 + 64) ≫ 7) * 64 + 1 ≪ (shift2 - 1)) ≫ shift2 /\
  out = invtransformNxN_full p q residual stride coeff log2TrSize ttype bIntra.
Proof.
  pose proof (shiftl_1_pos log2TrSize ltac:(lia)) as HN.
  pose proof (shiftl_1_square log2TrSize ltac:(lia)) as HN2.
  assert (Hr0 : -32768 <= rd resi 0 <= 32767) by (apply dequant_ok; lia).
  assert (Hdc : dc_only resi (N * N)).
  { intros i Hi. apply dequant_ok; [lia|]. apply levels_dc_only. lia. }
  pose proof (dc_val_range resi depth_range Hr0) as Hv.
  unfold invtransformNxN, invtransformNxN_full. cbv zeta.
  rewrite one_sig, not_dst. unfold nz.
  destruct (Z.eqb_spec (rd coeff 0) 0) as [?|_]; [done|].
  cbn [Z.eqb Pos.eqb negb andb snd b2z]. rewrite Z.sub_0_r, s16_small by done.
  split; [done|]. split; [done|].
  f_equal. rewrite idct_kernel. symmetry. by apply idct_c_dc_only.
Qed.
End InverseDC.

Lemma invtransformNxN_dc_fast_path_witness :
  let q := sample_quant false 22 1%float (replicate (32 * 32) 0) in
  let resi := dequant_stage reference_primitives q dc_sample_levels 2 TEXT_CHROMA_U false in
  let out := invtransformNxN reference_primitives q false (replicate 16 0) 4 dc_sample_levels
               2 TEXT_CHROMA_U false false 1 in
  let shift2 := 12 - (X265_DEPTH - 8) in
  out.2 = blockfill_s (1 ≪ 2) (replicate 16 0) 4 (dc_val (rd resi 0)) /\
  dc_val (rd resi 0)
  = (((rd resi 0 * 64 + 64) ≫ 7) * 64 + 1 ≪ (shift2 - 1)) ≫ shift2 /\
  out = invtransformNxN_full reference_primitives q (replicate 16 0) 4 dc_sample_levels
          2 TEXT_CHROMA_U false.
Proof.
  apply (invtransformNxN_dc_fast_path reference_primitives
           (sample_quant false 22 1%float (replicate (32 * 32) 0))
           (replicate 16 0) 4 dc_sample_levels 2 TEXT_CHROMA_U false 1 g_t4).
  - lia.
  - vm_compute. split; discriminate.
  - reflexivity.
  - vm_compute. discriminate.
  - apply dc_onlyb_sound. vm_compute. reflexivity.
  - reflexivity.
  - apply dequant_contractb_sound. vm_compute. reflexivity.
  - reflexivity.
  - intros k Hk. change (1 ≪ 2) with 4 in Hk.
    assert (Hc : k = 0 \/ k = 1 \/ k = 2 \/ k = 3) by lia.
    destruct Hc as [-> | [-> | [-> | ->]]]; reflexivity.
Defined.

(** A block with [numSig = 1] whose only non-zero level is the DC level, not
    a DST block: with transquant bypass [invtransformNxN] returns the levels
    themselves, with transform skip the shifted dequantised coefficients;
    neither is a constant block. *)
Lemma invtransformNxN_dc_block_not_filled :
  let q := sample_quant false 22 1%float (replicate (32 * 32) 0) in
  count_nonzero dc_sample_levels 16 = 1 /\ rd dc_sample_levels 0 <> 0 /\
  (let out := invtransformNxN reference_primitives q true (replicate 16 0) 4 dc_sample_levels
                2 TEXT_CHROMA_U false false 1 in
   out.2 = [5; 0; 0; 0; 0; 0; 0; 0; 0; 0; 0; 0; 0; 0; 0; 0] /\
   forall v, out.2 <> blockfill_s (1 ≪ 2) (replicate 16 0) 4 v) /\
  (let out := invtransformNxN reference_primitives q false (replicate 16 0) 4 dc_sample_levels
                2 TEXT_CHROMA_U false true 1 in
   out.2 = [40; 0; 0; 0; 0; 0; 0; 0; 0; 0; 0; 0; 0; 0; 0; 0] /\
   forall v, out.2 <> blockfill_s (1 ≪ 2) (replicate 16 0) 4 v).
Proof.
  intros q. split; [reflexivity|]. split; [vm_compute; discriminate|].
  split.
  - intros out. assert (E : out.2 = [5; 0; 0; 0; 0; 0; 0; 0; 0; 0; 0; 0; 0; 0; 0; 0])
      by (vm_compute; reflexivity).
    split; [exact E|]. intros v Hv. rewrite E in Hv.
    apply (f_equal (fun l => (rd l 0, rd l 1))) in Hv. vm_compute in Hv. congruence.
  - intros out. assert (E : out.2 = [40; 0; 0; 0; 0; 0; 0; 0; 0; 0; 0; 0; 0; 0; 0; 0])
      by (vm_compute; reflexivity).
    split; [exact E|]. intros v Hv. rewrite E in Hv.
    apply (f_equal (fun l => (rd l 0, rd l 1))) in Hv. vm_compute in Hv. congruence.
Qed.

(** * Further properties *)

(** ** Sign-bit hiding achieves its purpose *)

Lemma sumZ_point (n : nat) (g g' : Z -> Z) (k : Z) :
  0 <= k < Z.of_nat n -> (forall i, 0 <= i < Z.of_nat n -> i <> k -> g' i = g i) ->
  sumZ n g' = sumZ n g + (g' k - g k).
Proof.
  induction n as [|n IH]; [lia|]. intros Hk Hg. rewrite !sumZ_S.
  destruct (Z.eq_dec k (Z.of_nat n)) as [->|Hne].
  - rewrite (sumZ_ext n g' g) by (intros; apply Hg; lia). lia.
  - rewrite IH by (try lia; intros; apply Hg; lia). rewrite (Hg (Z.of_nat n)) by lia. lia.
Qed.

Lemma parity_flip (S0 fc sb : Z) :
  (fc = 1 \/ fc = -1) -> (sb = 0 \/ sb = 1) -> sb <> S0 mod 2 -> (S0 + fc) mod 2 = sb.
Proof.
  intros Hfc Hsb Hne.
  pose proof (Z.div_mod S0 2 ltac:(lia)). pose proof (Z.mod_pos_bound S0 2 ltac:(lia)).
  pose proof (Z.div_mod (S0 + fc) 2 ltac:(lia)).
  pose proof (Z.mod_pos_bound (S0 + fc) 2 ltac:(lia)). lia.
Qed.

Section SignHidingGroup.
Variables (coeff resi : list Z) (scan : Z -> Z) (start : Z).
Hypothesis scan_in :
  forall n, 0 <= n < SCAN_SET_SIZE -> 0 <= scan (n + start) < Z.of_nat (length coeff).
Hypothesis scan_inj :
  forall n m, 0 <= n < SCAN_SET_SIZE -> 0 <= m < SCAN_SET_SIZE ->
    scan (n + start) = scan (m + start) -> n = m.

Lemma sbh_keep_min_vetoed (f signbit MAXV i cost change : Z) (s : sbh_search) :
  0 <= i < SCAN_SET_SIZE ->
  (cost < MAXV ->
     (i < f -> (if rd resi (scan (i + start)) >=? 0 then 0 else 1) = signbit) /\
     (i = f -> ~ (change = -1 /\ Z.abs (rd coeff (scan (i + start))) = 1))) ->
  minCostInc s <= MAXV /\ sbh_vetoed coeff resi scan start f signbit s ->
  minCostInc (sbh_keep_min (scan (i + start)) cost change s) <= MAXV /\
  sbh_vetoed coeff resi scan start f signbit (sbh_keep_min (scan (i + start)) cost change s).
Proof.
  intros Hi Hfacts [Hle Hv]. unfold sbh_keep_min.
  destruct (Z.ltb_spec cost (minCostInc s)) as [Hlt|Hge].
  - split; [simpl; lia|]. intros n Hn Hmp. simpl in Hmp.
    apply scan_inj in Hmp; [|done|done]. subst n. simpl. apply Hfacts. lia.
  - split; [done|]. intros n Hn Hmp. simpl in *. by apply Hv.
Qed.

Lemma hdq_search_vetoed (deltaU : list Z) (f signbit top : Z) :
  is_firstNZ coeff scan start f -> top < SCAN_SET_SIZE ->
  sbh_vetoed coeff resi scan start f signbit
    (for_down (Z.to_nat (top + 1)) (hdq_cost_step coeff deltaU resi scan start f signbit)
       sbh_search_init).
Proof.
  intros (Hf & Hfnz & Hfz) Htop.
  apply (for_down_inv (fun s => minCostInc s <= MAX_INT /\
                                sbh_vetoed coeff resi scan start f signbit s)).
  - split; [simpl; lia|]. intros n Hn Hmp. simpl in Hmp.
    pose proof (scan_in n Hn). lia.
  - intros i s Hi HI. unfold hdq_cost_step.
    match goal with |- context [let '(cost, change) := ?e in _] =>
      remember e as cc eqn:E; destruct cc as [cost change] end.
    apply sbh_keep_min_vetoed; [lia| |done].
    intros Hlt. revert E.
    destruct (nz (rd coeff (scan (i + start)))) eqn:Enz.
    + apply nz_true in Enz.
      assert (Hif : ~ i < f) by (intros Hlt'; apply Enz, Hfz; lia).
      destruct (rd deltaU (scan (i + start)) >? 0).
      * intros [= -> ->]. split; [lia|]. intros _ [? _]. lia.
      * destruct (Z.eqb_spec i f) as [->|Hne]; cbn [andb].
        -- destruct (Z.eqb_spec (Z.abs (rd coeff (scan (f + start)))) 1).
           ++ intros [= -> ->]. lia.
           ++ intros [= -> ->]. split; [lia|]. intros _ [_ ?]. lia.
        -- intros [= -> ->]. split; [lia|]. lia.
    + destruct (Z.ltb_spec i f).
      * destruct (Z.eqb_spec (if rd resi (scan (i + start)) >=? 0 then 0 else 1) signbit);
          cbn [negb]; intros [= -> ->]; [|lia]. split; [done|lia].
      * intros [= -> ->]. split; [lia|]. intros _ [? _]. lia.
Qed.

(** The update after a successful search removes the parity mismatch of the
    group. *)
Lemma sbh_apply_hides (numSig f : Z) (s : sbh_search) :
  sides_ok coeff resi ->
  is_firstNZ coeff scan start f -> sbh_condition coeff scan start ->
  sbh_chosen coeff scan start (SCAN_SET_SIZE - 1) s ->
  sbh_vetoed coeff resi scan start f (cg_signbit coeff scan start f) s ->
  ~ sbh_condition (sbh_apply coeff resi numSig (minPos s) (finalChange s)).1 scan start.
Proof.
  intros Hsides Hf Hcond (n & Hn & Hmp & Hfc & Hz) Hvet.
  assert (Hn16 : 0 <= n < SCAN_SET_SIZE) by lia.
  destruct (Hvet n Hn16 Hmp) as [Hv1 Hv2].
  pose proof Hf as (Hfr & Hfnz & Hfz).
  destruct Hcond as (f0 & l & Hf0 & Hl & Hd & Hp).
  rewrite <- (is_firstNZ_unique _ _ _ _ _ Hf Hf0) in Hd, Hp. clear f0 Hf0.
  set (p := scan (n + start)) in *. rewrite Hmp in *.
  pose proof (scan_in n Hn16) as Hpin. fold p in Hpin.
  destruct (Hsides p) as [Hs1 Hs2].
  (* the change that is applied, after the clamp guard *)
  set (fc := if (rd coeff p =? 32767) || (rd coeff p =? -32768) then -1 else finalChange s).
  assert (Hfc' : (fc = 1 \/ fc = -1) /\ (rd coeff p = 0 -> fc = 1) /\
                 (n = f -> ~ (fc = -1 /\ Z.abs (rd coeff p) = 1))).
  { subst fc. destruct (Z.eqb_spec (rd coeff p) 32767), (Z.eqb_spec (rd coeff p) (-32768));
      cbn [orb]; try (split; [lia|split; [lia|intros _ [_ ?]; lia]]).
    split; [done|]. split; [done|]. fold p in Hv2. done. }
  destruct Hfc' as (Hfc1 & Hfc2 & Hfc3).
  set (v := if rd resi p >=? 0 then rd coeff p + fc else rd coeff p - fc).
  assert (Hout : (sbh_apply coeff resi numSig p (finalChange s)).1 = aset coeff p v).
  { unfold sbh_apply. cbv zeta. fold fc. subst v. by destruct (rd resi p >=? 0). }
  rewrite Hout.
  assert (Habs : Z.abs v = Z.abs (rd coeff p) + fc /\
                 (0 <= rd resi p -> 0 <= v) /\ (rd resi p < 0 -> v <= 0)).
  { subst v. destruct (Z.geb_spec (rd resi p) 0); lia. }
  destruct Habs as (Habs & Hv0 & Hv0').
  assert (Hrd : forall m, 0 <= m < SCAN_SET_SIZE ->
            rd (aset coeff p v) (scan (m + start))
            = if Z.eq_dec m n then v else rd coeff (scan (m + start))).
  { intros m Hm. destruct (Z.eq_dec m n) as [->|Hne].
    - fold p. by apply aget_aset_eq.
    - apply aget_aset_ne. intros Heq. apply Hne. symmetry. by apply scan_inj. }
  (* parity of the new sum *)
  assert (Hsum : cg_abs_levels (aset coeff p v) scan start
                 = cg_abs_levels coeff scan start + fc).
  { unfold cg_abs_levels.
    rewrite (sumZ_point _ (fun m => Z.abs (rd coeff (scan (m + start)))) _ n).
    - rewrite Hrd by done. destruct (Z.eq_dec n n); [|done]. fold p. lia.
    - unfold SCAN_SET_SIZE in *. lia.
    - intros i Hi Hne. rewrite Hrd by (unfold SCAN_SET_SIZE in *; lia).
      destruct (Z.eq_dec i n); [done|reflexivity]. }
  set (S0 := cg_abs_levels coeff scan start) in *.
  set (sb := if rd coeff (scan (f + start)) <? 0 then 1 else 0) in *.
  assert (Hpar : (S0 + fc) mod 2 = sb).
  { apply parity_flip; [done| |done]. subst sb. destruct (_ <? 0); lia. }
  assert (Hsgn : cg_signbit coeff scan start f = sb).
  { unfold cg_signbit. subst sb. replace (start + f) with (f + start) by lia.
    destruct (Z.gtb_spec (rd coeff (scan (f + start))) 0),
             (Z.ltb_spec (rd coeff (scan (f + start))) 0); lia. }
  (* the first non-zero level of the output and its sign bit *)
  set (f' := Z.min n f).
  assert (Hf' : is_firstNZ (aset coeff p v) scan start f' /\
                (if rd (aset coeff p v) (scan (f' + start)) <? 0 then 1 else 0) = sb).
  { subst f'. destruct (Z.lt_trichotomy n f) as [Hlt|[Heq|Hgt]].
    - rewrite Z.min_l by lia.
      assert (Hc0 : rd coeff p = 0) by (apply Hfz; lia).
      specialize (Hv1 Hlt). rewrite Hsgn in Hv1. fold p in Hv1.
      assert (Hfc1' : fc = 1) by auto.
      split.
      + split; [done|]. split.
        * rewrite Hrd by done. destruct (Z.eq_dec n n); [|done]. lia.
        * intros i Hi. rewrite Hrd by lia. destruct (Z.eq_dec i n); [lia|]. apply Hfz. lia.
      + rewrite Hrd by done. destruct (Z.eq_dec n n); [|done].
        subst v. rewrite Hc0, Hfc1'. revert Hv1.
        destruct (Z.geb_spec (rd resi p) 0); simpl; lia.
    - subst n. rewrite Z.min_id. fold p in Hfnz.
      assert (Hvnz : v <> 0 /\ (v < 0 <-> rd coeff p < 0)).
      { specialize (Hfc3 eq_refl). subst v. destruct (Z.geb_spec (rd resi p) 0); lia. }
      split.
      + split; [done|]. split.
        * rewrite Hrd by done. destruct (Z.eq_dec f f); [|done]. lia.
        * intros i Hi. rewrite Hrd by lia. destruct (Z.eq_dec i f); [lia|]. apply Hfz. lia.
      + rewrite Hrd by done. destruct (Z.eq_dec f f); [|done]. subst sb. fold p.
        destruct (Z.ltb_spec v 0), (Z.ltb_spec (rd coeff p) 0); lia.
    - rewrite Z.min_r by lia. split.
      + split; [done|]. split.
        * rewrite Hrd by done. destruct (Z.eq_dec f n); [lia|done].
        * intros i Hi. rewrite Hrd by lia. destruct (Z.eq_dec i n); [lia|]. apply Hfz. lia.
      + rewrite Hrd by done. destruct (Z.eq_dec f n); [lia|done]. }
  destruct Hf' as [Hf' Hsb'].
  intros (f1 & l1 & Hf1 & Hl1 & Hd1 & Hp1).
  rewrite <- (is_firstNZ_unique _ _ _ _ _ Hf' Hf1) in Hp1.
  rewrite Hsb', Hsum in Hp1. lia.
Qed.
End SignHidingGroup.

Lemma hdq_cg_step_hides (deltaU resi : list Z) (scan : Z -> Z) (cg : Z)
    (c : list Z) (ns : Z) (lc : bool) :
  let start := cg ≪ LOG2_SCAN_SET_SIZE in
  (forall n, 0 <= n < SCAN_SET_SIZE -> 0 <= scan (n + start) < Z.of_nat (length c)) ->
  (forall n m, 0 <= n < SCAN_SET_SIZE -> 0 <= m < SCAN_SET_SIZE ->
     scan (n + start) = scan (m + start) -> n = m) ->
  sides_ok c resi ->
  ~ sbh_condition (hdq_cg_step deltaU resi scan cg (c, ns, lc)).1.1 scan start.
Proof.
  intros start Hin Hinj Hsides. unfold hdq_cg_step. fold start.
  destruct (cg_first_last c scan start) as [[Hl Hz]|(Hl & Hf & Hfl)].
  - rewrite Hl. cbn [Z.ltb Z.compare fst].
    intros (f & l & (Hf & Hfnz & _) & _). apply Hfnz. apply Hz. lia.
  - set (l := lastNZ_from (Z.to_nat SCAN_SET_SIZE) c scan start) in *.
    set (f := firstNZ_from (Z.to_nat SCAN_SET_SIZE) 0 c scan start) in *.
    pose proof (sbh_condition_iff c scan start f l Hf Hl) as Hiff.
    pose proof Hl as (Hlr & Hlnz & Hlz). pose proof Hf as (Hfr & Hfnz & Hfz).
    destruct (Z.ltb_spec l 0); [lia|]. rewrite let_pair_fst.
    destruct (Z.geb_spec (l - f) SBH_THRESHOLD) as [Hd|Hd].
    + assert (Hsb : cg_signbit c scan start f = if rd c (scan (f + start)) <? 0 then 1 else 0).
      { unfold cg_signbit. replace (start + f) with (f + start) by lia.
        destruct (Z.gtb_spec (rd c (scan (f + start))) 0), (Z.ltb_spec (rd c (scan (f + start))) 0); lia. }
      rewrite (cg_absSum_parity c scan start f l) by (done || lia).
      destruct (Z.eqb_spec (cg_signbit c scan start f)
                  (cg_abs_levels c scan start mod 2)) as [He|He]; cbn [negb].
      * cbn [fst]. rewrite Hiff, <- Hsb. intros [_ Hp]. done.
      * apply (sbh_apply_hides c resi scan start Hin Hinj ns f); try done.
        -- apply Hiff. rewrite <- Hsb. split; [lia|done].
        -- eapply sbh_chosen_weaken; [|apply hdq_search_inv with (l := l); try done; try lia].
           ++ destruct lc; unfold SCAN_SET_SIZE in *; lia.
           ++ destruct lc; unfold SCAN_SET_SIZE in *; lia.
        -- apply hdq_search_vetoed; try done.
           destruct lc; unfold SCAN_SET_SIZE in *; lia.
    + cbn [fst]. rewrite Hiff. intros [Hd' _]. lia.
Qed.

Section HDQHides.
Variables (resi deltaU : list Z) (cp : TUEntropyCodingParameters) (log2TrSize : Z).
Hypothesis wf : codeParams_wf cp log2TrSize.
Hypothesis log2_ge : 2 <= log2TrSize.

Local Abbreviation G := (1 ≪ (log2TrSizeCG cp * 2)).
Local Abbreviation N2 := (1 ≪ (log2TrSize * 2)).

Lemma hdq_hides (coeff : list Z) (numSig : Z) :
  N2 <= Z.of_nat (length coeff) -> sides_ok coeff resi ->
  sign_hidden (signBitHidingHDQ resi coeff deltaU numSig cp).1 cp.
Proof.
  intros Hlen Hs. unfold signBitHidingHDQ, sign_hidden.
  pose proof (hdq_G_pos cp log2TrSize wf log2_ge) as [HG HGN].
  set (P := fun (i : Z) (st : list Z * Z * bool) =>
    length st.1.1 = length coeff /\ sides_ok st.1.1 resi /\
    forall cg, i <= cg < G -> ~ sbh_condition st.1.1 (scan cp) (cg ≪ LOG2_SCAN_SET_SIZE)).
  assert (H : P 0 (for_down (Z.to_nat G) (hdq_cg_step deltaU resi (scan cp))
                     (coeff, numSig, true))).
  { apply for_down_ind.
    - subst P. simpl. split; [done|]. split; [done|]. intros; lia.
    - intros i [[c ns] lc] Hi (Hl & Hsd & Hhid). simpl in Hl, Hsd, Hhid.
      rewrite Z2Nat.id in Hi by lia. subst P. cbv beta.
      assert (Hin : forall n, 0 <= n < SCAN_SET_SIZE ->
                0 <= scan cp (n + i ≪ LOG2_SCAN_SET_SIZE) < Z.of_nat (length c)).
      { intros n Hn. pose proof (hdq_scan_range cp log2TrSize wf log2_ge i n Hi Hn). lia. }
      assert (Hinj : forall n m, 0 <= n < SCAN_SET_SIZE -> 0 <= m < SCAN_SET_SIZE ->
                scan cp (n + i ≪ LOG2_SCAN_SET_SIZE) = scan cp (m + i ≪ LOG2_SCAN_SET_SIZE) ->
                n = m).
      { intros n m Hn Hm Heq.
        by destruct (hdq_scan_inj cp log2TrSize wf log2_ge i n i m Hi Hn Hi Hm Heq). }
      pose proof (hdq_cg_step_hides deltaU resi (scan cp) i c ns lc Hin Hinj Hsd) as Hnew.
      destruct (hdq_cg_step_cases deltaU resi (scan cp) i c ns lc)
        as [[_ Hr]|[_ (s & Hch & Hr)]]; cbv zeta in Hr.
      + rewrite Hr in *. cbn [fst] in *. split; [done|]. split; [done|].
        intros cg Hcg. destruct (Z.eq_dec cg i) as [->|?]; [done|]. apply Hhid. lia.
      + rewrite Hr in *. cbn [fst] in *. destruct Hch as (n & Hn & Hmp & Hfc & Hz).
        split; [by rewrite sbh_apply_length|]. split; [by apply sbh_apply_sides|].
        intros cg Hcg. destruct (Z.eq_dec cg i) as [->|Hne]; [done|].
        intros Hc. apply (Hhid cg ltac:(lia)). revert Hc. apply sbh_condition_ext.
        intros m Hm. destruct (sbh_apply_fst c resi ns (minPos s) (finalChange s) Hfc)
          as (v & -> & _).
        apply aget_aset_ne. rewrite Hmp. intros Heq.
        apply (hdq_scan_inj cp log2TrSize wf log2_ge) in Heq;
          unfold SCAN_SET_SIZE in *; lia. }
  destruct (for_down _ _ _) as [[c ns] lc]. destruct H as (_ & _ & H). simpl in *.
  intros cg Hcg. apply H. lia.
Qed.
(** After [signBitHidingHDQ] every coefficient group obeys the sign-hiding
    rule: if its first and last non-zero levels are at least [SBH_THRESHOLD]
    apart, the sign bit of the first one is the parity of the sum of the
    absolute levels, so a decoder can infer that sign.  The levels that come
    in lie on the side of their DCT coefficients, as the quantiser leaves
    them. *)
Theorem signBitHidingHDQ_hides (coeff : list Z) (numSig : Z) :
  N2 <= Z.of_nat (length coeff) -> sides_ok coeff resi ->
  sign_hidden (signBitHidingHDQ resi coeff deltaU numSig cp).1 cp.
Proof. apply hdq_hides. Qed.
End HDQHides.

Lemma signBitHidingHDQ_hides_witness :
  sign_hidden
    (signBitHidingHDQ hdq_sample_resi hdq_sample_levels hdq_sample_deltaU 3 sample_codeParams).1
    sample_codeParams.
Proof.
  apply (signBitHidingHDQ_hides hdq_sample_resi hdq_sample_deltaU sample_codeParams 2).
  - exact sample_codeParams_wf.
  - lia.
  - vm_compute. discriminate.
  - apply sides_okb_sound. vm_compute. reflexivity.
Defined.

(** ** The rate-distortion sign hiding achieves its purpose *)

Lemma sumZ_nonneg (n : nat) (g : Z -> Z) : (forall k, 0 <= g k) -> 0 <= sumZ n g.
Proof.
  intros Hg. induction n as [|n IH]; [done|]. rewrite sumZ_S.
  pose proof (Hg (Z.of_nat n)). lia.
Qed.

Lemma sumZ_ge_one (n : nat) (g : Z -> Z) (i : Z) :
  (forall k, 0 <= g k) -> 0 <= i < Z.of_nat n -> g i <= sumZ n g.
Proof.
  intros Hg. induction n as [|n IH]; [lia|]. intros Hi. rewrite sumZ_S.
  destruct (Z.eq_dec i (Z.of_nat n)) as [->|?].
  - pose proof (sumZ_nonneg n g Hg). lia.
  - specialize (IH ltac:(lia)). pose proof (Hg (Z.of_nat n)). lia.
Qed.

Lemma sumZ_ge_two (n : nat) (g : Z -> Z) (i j : Z) :
  (forall k, 0 <= g k) -> 0 <= i < j -> j < Z.of_nat n -> g i + g j <= sumZ n g.
Proof.
  intros Hg. induction n as [|n IH]; [lia|]. intros Hi Hj. rewrite sumZ_S.
  destruct (Z.eq_dec j (Z.of_nat n)) as [->|?].
  - pose proof (sumZ_ge_one n g i Hg ltac:(lia)). lia.
  - specialize (IH Hi ltac:(lia)). pose proof (Hg (Z.of_nat n)). lia.
Qed.

(** A group in which sign hiding applies holds two non-zero levels. *)
Lemma sbh_condition_two (c : list Z) (cp : TUEntropyCodingParameters) (log2TrSize cg : Z) :
  codeParams_wf cp log2TrSize -> 2 <= log2TrSize ->
  0 <= cg < 1 ≪ (log2TrSizeCG cp * 2) ->
  sbh_condition c (scan cp) (cg ≪ LOG2_SCAN_SET_SIZE) ->
  2 <= count_nonzero c (1 ≪ (log2TrSize * 2)).
Proof.
  intros wf Hlog Hcg (f & l & (Hfr & Hfnz & _) & (Hlr & Hlnz & _) & Hd & _).
  pose proof (hdq_G_pos cp log2TrSize wf Hlog) as [HG HGN].
  pose proof (shiftl_1_pos (log2TrSize * 2) ltac:(lia)) as HN.
  rewrite shiftl_4 in *. unfold SCAN_SET_SIZE, SBH_THRESHOLD in *.
  pose proof (count_nonzero_scan c (scan cp) (Z.to_nat (1 ≪ (log2TrSize * 2)))) as Hc.
  rewrite !Z2Nat.id in Hc by lia. rewrite Hc by apply wf.
  pose proof (sumZ_ge_two (Z.to_nat (1 ≪ (log2TrSize * 2)))
                (fun pos => b2z (nz (rd c (scan cp pos)))) (f + 16 * cg) (l + 16 * cg)) as H2.
  cbv beta in H2. rewrite (proj2 (nz_true _) Hfnz), (proj2 (nz_true _) Hlnz) in H2.
  apply H2; [|lia|lia]. intros k. unfold b2z. destruct (nz _); lia.
Qed.

Section RDHides.
Context `{Config}.
Variables (q : Quant) (cu : TComDataCU).
Variables (log2TrSize : Z) (ttype : TextType) (absPartIdx : Z).

Local Abbreviation cp := (rq_codeParams cu log2TrSize ttype absPartIdx).
Local Abbreviation sc := (scan (rq_codeParams cu log2TrSize ttype absPartIdx)).
Local Abbreviation N2 := (1 ≪ (log2TrSize * 2)).
Local Abbreviation G := (1 ≪ (log2TrSizeCG cp * 2)).
Local Abbreviation resi := (m_resiDctCoeff q).

Lemma rdsbh_search_vetoed (dst : list Z) (t : rdoq_tabs) (rdFactor : Z) (lastCG : bool)
    (start f l signbit top : Z) :
  (forall n, 0 <= n < SCAN_SET_SIZE -> 0 <= sc (n + start) < Z.of_nat (length dst)) ->
  (forall n m, 0 <= n < SCAN_SET_SIZE -> 0 <= m < SCAN_SET_SIZE ->
     sc (n + start) = sc (m + start) -> n = m) ->
  is_firstNZ dst sc start f -> top < SCAN_SET_SIZE ->
  sbh_vetoed dst resi sc start f signbit
    (for_down (Z.to_nat (top + 1))
       (rdsbh_cost_step q cu log2TrSize ttype absPartIdx dst t rdFactor lastCG start f l signbit)
       rdsbh_search_init).
Proof.
  intros Hin Hinj (Hf & Hfnz & Hfz) Htop.
  apply (for_down_inv (fun s => minCostInc s <= MAX_INT64 /\
                                sbh_vetoed dst resi sc start f signbit s)).
  - split; [simpl; lia|]. intros n Hn Hmp. simpl in Hmp. pose proof (Hin n Hn). lia.
  - intros i s Hi HI. unfold rdsbh_cost_step.
    match goal with |- context [let '(cost, change) := ?e in _] =>
      remember e as cc eqn:E; destruct cc as [cost change] end.
    apply (sbh_keep_min_vetoed dst resi sc start Hinj); [lia| |done].
    intros Hlt. revert E.
    destruct (nz (rd dst (sc (i + start)))) eqn:Enz.
    + apply nz_true in Enz.
      assert (Hif : ~ i < f) by (intros Hlt'; apply Enz, Hfz; lia).
      match goal with |- context [if ?a <? ?b then _ else _] => destruct (a <? b) end.
      * intros [= -> ->]. split; [lia|]. intros _ [? _]. lia.
      * destruct (Z.eqb_spec i f) as [->|Hne]; cbn [andb].
        -- destruct (Z.eqb_spec (Z.abs (rd dst (sc (f + start)))) 1).
           ++ intros [= -> ->]. lia.
           ++ intros [= -> ->]. split; [lia|]. intros _ [_ ?]. lia.
        -- intros [= -> ->]. split; [lia|]. lia.
    + destruct (Z.ltb_spec i f).
      * destruct (Z.eqb_spec (if rd resi (sc (i + start)) >=? 0 then 0 else 1) signbit);
          cbn [negb]; intros [= -> ->]; [|lia]. split; [done|lia].
      * intros [= -> ->]. split; [lia|]. intros _ [? _]. lia.
Qed.

Lemma rdsbh_cg_step_hides (t : rdoq_tabs) (rdFactor subSet : Z) (c : list Z) (ns : Z)
    (lc : bool) :
  let start := subSet ≪ LOG2_SCAN_SET_SIZE in
  (forall n, 0 <= n < SCAN_SET_SIZE -> 0 <= sc (n + start) < Z.of_nat (length c)) ->
  (forall n m, 0 <= n < SCAN_SET_SIZE -> 0 <= m < SCAN_SET_SIZE ->
     sc (n + start) = sc (m + start) -> n = m) ->
  sides_ok c resi ->
  (forall p, rdsbh_cost_bounded t rdFactor p) ->
  ~ sbh_condition
      (rdsbh_cg_step q cu log2TrSize ttype absPartIdx t rdFactor subSet (c, ns, lc)).1.1
      sc start.
Proof.
  intros start Hin Hinj Hsides Hb. unfold rdsbh_cg_step. fold start.
  destruct (cg_first_last c sc start) as [[Hl Hz]|(Hl & Hf & Hfl)].
  - rewrite Hl. cbn [Z.ltb Z.compare fst].
    intros (f & l & (Hf & Hfnz & _) & _). apply Hfnz. apply Hz. lia.
  - set (l := lastNZ_from (Z.to_nat SCAN_SET_SIZE) c sc start) in *.
    set (f := firstNZ_from (Z.to_nat SCAN_SET_SIZE) 0 c sc start) in *.
    pose proof (sbh_condition_iff c sc start f l Hf Hl) as Hiff.
    pose proof Hl as (Hlr & Hlnz & Hlz). pose proof Hf as (Hfr & Hfnz & Hfz).
    destruct (Z.ltb_spec l 0); [lia|]. rewrite let_pair_fst.
    destruct (Z.geb_spec (l - f) SBH_THRESHOLD) as [Hd|Hd].
    + assert (Hsb : cg_signbit c sc start f = if rd c (sc (f + start)) <? 0 then 1 else 0).
      { unfold cg_signbit. replace (start + f) with (f + start) by lia.
        destruct (Z.gtb_spec (rd c (sc (f + start))) 0), (Z.ltb_spec (rd c (sc (f + start))) 0); lia. }
      rewrite (rdsbh_absSum_parity q cu log2TrSize ttype absPartIdx c start f l)
        by (done || lia).
      destruct (Z.eqb_spec (cg_signbit c sc start f)
                  (cg_abs_levels c sc start mod 2)) as [He|He]; cbn [negb].
      * cbn [fst]. rewrite Hiff, <- Hsb. intros [_ Hp]. done.
      * assert (Htop : l <= (if lc then l else SCAN_SET_SIZE - 1))
          by (destruct lc; unfold SCAN_SET_SIZE in *; lia).
        apply (sbh_apply_hides c resi sc start Hin Hinj ns f); try done.
        -- apply Hiff. rewrite <- Hsb. split; [lia|done].
        -- pose proof (rdsbh_search_inv q cu log2TrSize ttype absPartIdx c t rdFactor lc start
                         f l (cg_signbit c sc start f) (if lc then l else SCAN_SET_SIZE - 1)
                         True Hf Hl ltac:(lia) Htop ltac:(intros; apply Hb)) as (_ & Hinv).
           destruct Hinv as [Hc|(_ & _ & _ & Hfo)]; [|specialize (Hfo I); lia].
           eapply sbh_chosen_weaken; [|exact Hc].
           destruct lc; unfold SCAN_SET_SIZE in *; lia.
        -- apply rdsbh_search_vetoed; try done.
           destruct lc; unfold SCAN_SET_SIZE in *; lia.
    + cbn [fst]. rewrite Hiff. intros [Hd' _]. lia.
Qed.

Hypothesis wf : codeParams_wf cp log2TrSize.
Hypothesis log2_range : 2 <= log2TrSize <= 5.

(** After the rate-distortion sign hiding every group up to the last coded
    one obeys the sign-hiding rule. *)
Lemma rq_signhide_hides (t : rdoq_tabs) (cgLast : Z) (dst : list Z) (numSig : Z) :
  cgLast < G -> Z.of_nat (length dst) = N2 -> sides_ok dst resi ->
  (forall p, rdsbh_cost_bounded t (rq_rdFactor q ttype) p) ->
  forall cg, 0 <= cg <= cgLast ->
    ~ sbh_condition (rq_signhide q cu log2TrSize ttype absPartIdx t cgLast dst numSig).1 sc
        (cg ≪ LOG2_SCAN_SET_SIZE).
Proof.
  intros HcgL Hlen Hs Hb. unfold rq_signhide.
  pose proof (rq_G cu log2TrSize ttype absPartIdx wf log2_range) as (HG & HGN & HN).
  set (P := fun (i : Z) (st : list Z * Z * bool) =>
    length st.1.1 = length dst /\ sides_ok st.1.1 resi /\
    forall cg, i <= cg <= cgLast -> ~ sbh_condition st.1.1 sc (cg ≪ LOG2_SCAN_SET_SIZE)).
  match goal with |- context [for_down ?n ?f ?s0] => assert (HP : P 0 (for_down n f s0)) end.
  { apply for_down_ind.
    { subst P. cbn. split; [done|]. split; [done|]. intros; lia. }
    intros i [[c ns] lc] Hi (Hl & Hsd & Hhid). simpl in Hl, Hsd, Hhid.
    assert (Hig : 0 <= i < G) by lia. subst P. cbv beta.
    assert (Hin : forall n, 0 <= n < SCAN_SET_SIZE ->
              0 <= sc (n + i ≪ LOG2_SCAN_SET_SIZE) < Z.of_nat (length c)).
    { intros n Hn. pose proof (hdq_scan_range cp log2TrSize wf ltac:(lia) i n Hig Hn). lia. }
    assert (Hinj : forall n m, 0 <= n < SCAN_SET_SIZE -> 0 <= m < SCAN_SET_SIZE ->
              sc (n + i ≪ LOG2_SCAN_SET_SIZE) = sc (m + i ≪ LOG2_SCAN_SET_SIZE) -> n = m).
    { intros n m Hn Hm Heq.
      by destruct (hdq_scan_inj cp log2TrSize wf ltac:(lia) i n i m Hig Hn Hig Hm Heq). }
    pose proof (rdsbh_cg_step_hides t (rq_rdFactor q ttype) i c ns lc Hin Hinj Hsd Hb) as Hnew.
    pose proof (rdsbh_cg_step_cases q cu log2TrSize ttype absPartIdx t (rq_rdFactor q ttype)
                True i c ns lc (fun _ => Hb)) as Hcases.
    cbv zeta in Hcases, Hnew.
    destruct Hcases as [[_ Hr]|(l & Hlast & Hfl & Hcase)].
    { rewrite Hr in *. cbn [fst] in *. split; [done|]. split; [done|].
      intros cg Hcg. destruct (Z.eq_dec cg i) as [->|?]; [done|]. apply Hhid. lia. }
    destruct Hcase as [Hr|(s & Hch & Hr)]; rewrite Hr in *; cbn [fst] in *.
    { split; [done|]. split; [done|].
      intros cg Hcg. destruct (Z.eq_dec cg i) as [->|?]; [done|]. apply Hhid. lia. }
    destruct Hch as [(n & Hn & Hmp & Hfc & Hz0)|(Hnf & _)]; [|by destruct Hnf].
    assert (Hn15 : 0 <= n < SCAN_SET_SIZE).
    { destruct Hlast as (Hlr & _). destruct lc; unfold SCAN_SET_SIZE in *; lia. }
    split; [by rewrite sbh_apply_length|]. split; [by apply sbh_apply_sides|].
    intros cg Hcg. destruct (Z.eq_dec cg i) as [->|Hne]; [done|].
    intros Hc. apply (Hhid cg ltac:(lia)). revert Hc. apply sbh_condition_ext.
    intros m Hm. destruct (sbh_apply_fst c resi ns (minPos s) (finalChange s) Hfc)
      as (v & -> & _).
    apply aget_aset_ne. rewrite Hmp. intros Heq.
    apply (hdq_scan_inj cp log2TrSize wf ltac:(lia)) in Heq; lia. }
  destruct (for_down _ _ _) as [[c ns] lc]. destruct HP as (_ & _ & HP).
  simpl in *. intros cg Hcg. apply HP. lia.
Qed.
End RDHides.

Lemma few_levels_hidden (c : list Z) (cp : TUEntropyCodingParameters) (log2TrSize : Z) :
  codeParams_wf cp log2TrSize -> 2 <= log2TrSize ->
  count_nonzero c (1 ≪ (log2TrSize * 2)) < 2 -> sign_hidden c cp.
Proof.
  intros wf Hlog Hc cg Hcg Hcond.
  pose proof (sbh_condition_two c cp log2TrSize cg wf Hlog Hcg Hcond). lia.
Qed.

Section RdoQuantHides.
Context `{Config}.
Variables (q : Quant) (cu : TComDataCU).
Variables (log2TrSize : Z) (ttype : TextType) (absPartIdx : Z) (usePsy : bool).

Local Abbreviation cp := (rq_codeParams cu log2TrSize ttype absPartIdx).
Local Abbreviation sc := (scan (rq_codeParams cu log2TrSize ttype absPartIdx)).
Local Abbreviation N2 := (1 ≪ (log2TrSize * 2)).
Local Abbreviation G := (1 ≪ (log2TrSizeCG cp * 2)).
Local Abbreviation resi := (m_resiDctCoeff q).

Hypothesis wf : codeParams_wf cp log2TrSize.
Hypothesis log2_range : 2 <= log2TrSize <= 5.
Hypothesis resi_int32 : int32_array resi.
Hypothesis sign_hide : bSignHideEnabled cu = true.

Lemma rq_finish_hides (dst0 : list Z) (s : rdoq) :
  Z.of_nat (length dst0) = N2 ->
  rq_inv sc N2 dst0 0 s -> 0 <= lastScanPos s ->
  (forall p, rdsbh_cost_bounded (tabs s) (rq_rdFactor q ttype) p) ->
  sign_hidden
    (rq_finish q cu log2TrSize ttype absPartIdx s
       (bestLastIdx (rq_last q cu log2TrSize ttype absPartIdx s))).1 cp.
Proof.
  intros Hlen (Hl & _ & _ & Hpos) Hls Hb.
  set (B := bestLastIdx (rq_last q cu log2TrSize ttype absPartIdx s)).
  pose proof (rq_G cu log2TrSize ttype absPartIdx wf log2_range) as (HG & HGN & HN).
  destruct (Hpos Hls) as (Hr & Hcgl & Hz & Hnn).
  assert (HcgL : cgLastScanPos s < G).
  { rewrite Hcgl, Z.shiftr_div_pow2 by lia. change (2 ^ 4) with 16.
    apply Z.div_lt_upper_bound; lia. }
  assert (HB : 0 <= B <= lastScanPos s + 1).
  { destruct (rq_last_spec q cu log2TrSize ttype absPartIdx wf log2_range s HcgL) as [H0|[H1 H2]];
      fold B in H0 || fold B in H1, H2; lia. }
  unfold rq_finish.
  destruct (rq_recount_spec q cu log2TrSize ttype absPartIdx wf log2_range resi_int32
              B (dstCoeff s) ltac:(lia) ltac:(lia)
              ltac:(intros; apply Hnn; lia)) as (R1 & R2 & R3 & R4).
  destruct (rq_recount q cu log2TrSize ttype absPartIdx B (dstCoeff s)) as [d1 ns1].
  cbn [fst snd] in R1, R2, R3, R4.
  destruct (rq_clean_spec cu log2TrSize ttype absPartIdx wf
              B (lastScanPos s) d1 ltac:(lia) ltac:(lia) ltac:(lia))
    as (C1 & C2 & C3).
  set (d2 := rq_clean cu log2TrSize ttype absPartIdx B (lastScanPos s) d1) in *.
  assert (Hzero : forall pos, B <= pos < N2 -> rd d2 (sc pos) = 0).
  { intros pos Hp. destruct (Z_le_dec pos (lastScanPos s)); [apply C2; lia|].
    rewrite C3, R2 by lia. apply Hz. lia. }
  assert (Hside : sides_ok d2 resi).
  { intros p. destruct (decide (0 <= p < N2)) as [Hin|Hout].
    - assert (Hex : exists pos, 0 <= pos < N2 /\ sc pos = p).
      { pose proof (scan_surj sc (Z.to_nat N2)) as Hsj. rewrite Z2Nat.id in Hsj by lia.
        apply Hsj; [apply wf|apply wf|done]. }
      destruct Hex as (pos & Hp & <-).
      destruct (Z_lt_dec pos B).
      + rewrite C3 by lia. apply R3. lia.
      + rewrite Hzero by lia. unfold side_ok. lia.
    - rewrite rd_out_of_range by lia. unfold side_ok. lia. }
  assert (Hcount : ns1 = count_nonzero d2 N2).
  { pose proof (count_nonzero_scan d2 sc (Z.to_nat N2)) as Hc.
    rewrite !Z2Nat.id in Hc by lia.
    rewrite Hc by (apply wf). rewrite R4.
    rewrite (sumZ_window (Z.to_nat N2) _ 0 B); [|lia|lia|lia|].
    - apply sumZ_ext. intros i Hi. rewrite Z2Nat.id in Hi by lia.
      replace (0 + i) with i by lia. rewrite C3 by lia. f_equal. symmetry. apply R3. lia.
    - intros i Hi [?|?]; [lia|]. rewrite Hzero by lia. done. }
  rewrite sign_hide. cbn [andb].
  destruct (Z.geb_spec ns1 2).
  - destruct (rq_signhide_spec q cu log2TrSize ttype absPartIdx wf log2_range
                (tabs s) (cgLastScanPos s) B d2 ns1 HcgL ltac:(lia) Hside Hzero
                Hcount) as (S1 & S2 & S3 & S4).
    intros cg Hcg.
    destruct (Z_le_dec cg (cgLastScanPos s)) as [Hle|Hgt].
    + apply (rq_signhide_hides q cu log2TrSize ttype absPartIdx wf log2_range); try done; lia.
    + intros (f & l & (Hfr & Hfnz & _) & _). apply Hfnz. apply S3.
      rewrite shiftl_4. unfold SCAN_SET_SIZE in *.
      rewrite Hcgl in Hgt. rewrite Z.shiftr_div_pow2 in Hgt by lia. change (2 ^ 4) with 16 in Hgt.
      pose proof (Z.div_mod (lastScanPos s) 16 ltac:(lia)).
      pose proof (Z.mod_pos_bound (lastScanPos s) 16 ltac:(lia)). lia.
  - cbn [fst]. apply (few_levels_hidden d2 cp log2TrSize wf); lia.
Qed.

Lemma rq_hides (coeff : list Z) :
  Z.of_nat (length coeff) = N2 ->
  rdoq_sbh_costs_in_range q cu log2TrSize ttype absPartIdx usePsy coeff ->
  sign_hidden (rdoQuant q cu log2TrSize ttype absPartIdx usePsy coeff).1 cp.
Proof.
  intros Hlen Hb.
  destruct (rdoQuant_spec q cu log2TrSize ttype absPartIdx usePsy wf log2_range resi_int32
              coeff Hlen) as (_ & _ & Hcnt & _).
  cbv zeta in Hcnt. specialize (Hcnt (fun _ => Hb)).
  revert Hcnt Hb. unfold rdoQuant, rdoq_sbh_costs_in_range.
  pose proof (nquant_c_spec resi (rq_qCoef q cu log2TrSize ttype absPartIdx)
                (replicate (32 * 32) 0) coeff (rq_qbits q log2TrSize ttype)
                (rq_add q log2TrSize ttype) (rq_numCoeff log2TrSize)) as Hnq.
  pose proof (shiftl_1_pos (log2TrSize * 2) ltac:(lia)) as HN0.
  unfold rq_numCoeff in *. specialize (Hnq ltac:(lia)). cbv zeta in Hnq.
  destruct (nquant_c _ _ _ _ _ _ _) as [[scaled dst] ns0]. cbn [fst snd] in Hnq.
  destruct Hnq as [Hl0 Hns0].
  destruct (Z.eqb_spec ns0 0) as [Hz|Hnz].
  { cbn [fst snd]. intros Hcnt _. apply (few_levels_hidden dst cp log2TrSize wf); lia. }
  pose proof (rq_main_inv q cu log2TrSize ttype absPartIdx usePsy wf log2_range dst scaled
                ltac:(lia)) as Hinv.
  set (s := rq_main q cu log2TrSize ttype absPartIdx usePsy scaled dst) in *.
  destruct (Z.ltb_spec (lastScanPos s) 0) as [Hlt|Hge].
  { cbn [fst snd]. intros Hcnt _. apply (few_levels_hidden _ cp log2TrSize wf); lia. }
  intros _ Hb. apply (rq_finish_hides dst); try done. lia.
Qed.

(** With sign-data hiding enabled, the levels [rdoQuant] returns obey the
    sign-hiding rule in every coefficient group: where the first and the
    last non-zero level are at least [SBH_THRESHOLD] apart, the sign bit of
    the first is the parity of the sum of the absolute levels. *)
Theorem rdoQuant_sign_hidden (coeff : list Z) :
  Z.of_nat (length coeff) = N2 ->
  rdoq_sbh_costs_in_range q cu log2TrSize ttype absPartIdx usePsy coeff ->
  sign_hidden (rdoQuant q cu log2TrSize ttype absPartIdx usePsy coeff).1 cp.
Proof. apply rq_hides. Qed.
End RdoQuantHides.

Lemma rdoQuant_sign_hidden_witness :
  let q := sample_quant true 22 1%float rdoq_sample_resi in
  let cu := sample_cu false true true in
  sign_hidden (rdoQuant q cu 2 TEXT_LUMA 0 false (replicate 16 0)).1
    (rq_codeParams cu 2 TEXT_LUMA 0).
Proof.
  intros q cu.
  apply (rdoQuant_sign_hidden q cu 2 TEXT_LUMA 0 false).
  - exact sample_codeParams_wf.
  - lia.
  - apply int32_arrayb_sound. vm_compute. reflexivity.
  - reflexivity.
  - reflexivity.
  - apply rdoq_sbh_costs_in_rangeb_sound. vm_compute. reflexivity.
Defined.

Section TransformNxNHides.
Context `{Config}.
Variables (p : EncoderPrimitives) (q : Quant) (cu : TComDataCU).
Variables (fenc : list Z) (fencStride : Z) (residual : list Z) (stride : Z) (coeff : list Z).
Variables (log2TrSize : Z) (ttype : TextType) (absPartIdx : Z) (useTransformSkip : bool).

Local Abbreviation N2 := (1 ≪ (log2TrSize * 2)).
Local Abbreviation isLuma := (TextType_eqb ttype TEXT_LUMA).
Local Abbreviation usePsy := (nz (m_psyRdoqScale q) && isLuma && negb useTransformSkip).
Local Abbreviation q' :=
  (transform_stage p q cu fenc fencStride residual stride log2TrSize ttype absPartIdx
     useTransformSkip).
Local Abbreviation result :=
  (transformNxN p q cu fenc fencStride residual stride coeff log2TrSize ttype absPartIdx
     useTransformSkip).

Hypothesis no_bypass : getCUTransquantBypass cu absPartIdx = false.
Hypothesis log2_range : 2 <= log2TrSize <= 5.
Hypothesis coeff_len : Z.of_nat (length coeff) = N2.
Hypothesis wf :
  codeParams_wf (getTUEntropyCodingParameters cu absPartIdx log2TrSize isLuma) log2TrSize.
Hypothesis resi_int32 : int32_array (m_resiDctCoeff q').
Hypothesis quantCoef_nonneg :
  forall sizeIdx listType rem pos, 0 <= m_quantCoef (m_scalingList q) sizeIdx listType rem pos.
Hypothesis sign_hide : bSignHideEnabled cu = true.

(** With sign-data hiding enabled, the levels [transformNxN] produces obey
    the sign-hiding rule in every coefficient group, on the scalar path
    (through [signBitHidingHDQ]) and on the RDOQ path (through its
    rate-distortion sign hiding), so that the sign the entropy coder omits
    can be inferred from the parity. *)
Theorem transformNxN_sign_hidden :
  (m_useRDOQ q = true ->
   rdoq_sbh_costs_in_range q' cu log2TrSize ttype absPartIdx usePsy coeff) ->
  sign_hidden result.1.2 (getTUEntropyCodingParameters cu absPartIdx log2TrSize isLuma).
Proof.
  intros Hb. unfold transformNxN. rewrite no_bypass. cbv zeta.
  destruct (transform_stage_keeps p q cu fenc fencStride residual stride log2TrSize ttype
              absPartIdx useTransformSkip) as (K1 & K2 & K3 & K4).
  cbv zeta in K1, K2, K3, K4.
  pose proof (shiftl_1_pos (log2TrSize * 2) ltac:(lia)) as HN0.
  assert (HN : N2 <= 1024).
  { rewrite Z.shiftl_1_l. change 1024 with (2 ^ 10). apply Z.pow_le_mono_r; lia. }
  rewrite K1. destruct (m_useRDOQ q) eqn:Erdoq.
  - pose proof (rq_hides q' cu log2TrSize ttype absPartIdx usePsy wf log2_range resi_int32
                  sign_hide coeff coeff_len (Hb eq_refl)) as R.
    destruct (rdoQuant _ _ _ _ _ _ _) as [c n]. exact R.
  - rewrite K2, K3.
    match goal with |- context [quant_c ?a ?b ?c ?d ?e ?f ?g] =>
      pose proof (quant_c_spec a b c d e f g coeff_len ltac:(intros; apply quantCoef_nonneg)
                    ltac:(apply Z.shiftl_nonneg; destruct (isISlice cu); lia)) as Hq;
      destruct (quant_c a b c d e f g) as [[dU c1'] n1] end.
    cbv zeta in Hq. cbn [fst snd] in Hq. destruct Hq as (Q1 & Q2 & Q3).
    rewrite sign_hide, andb_true_r. destruct (Z.geb_spec n1 2).
    + pose proof (hdq_hides (m_resiDctCoeff q') dU
                    (getTUEntropyCodingParameters cu absPartIdx log2TrSize isLuma) log2TrSize
                    wf ltac:(lia) c1' n1 ltac:(lia) Q3) as S1.
      destruct (signBitHidingHDQ _ _ _ _ _) as [c2' n2]. exact S1.
    + cbn [fst snd].
      apply (few_levels_hidden c1' _ log2TrSize wf); lia.
Qed.
End TransformNxNHides.

Lemma transformNxN_sign_hidden_witness :
  let cu := sample_cu false true true in
  let r := transformNxN sample_primitives
             (sample_quant true 22 1%float (replicate (32 * 32) 0))
             cu [] 4 rdoq_sample_residual 4 (replicate 16 0) 2 TEXT_LUMA 0 false in
  sign_hidden r.1.2
    (getTUEntropyCodingParameters cu 0 2 (TextType_eqb TEXT_LUMA TEXT_LUMA)).
Proof.
  apply (transformNxN_sign_hidden sample_primitives
           (sample_quant true 22 1%float (replicate (32 * 32) 0))
           (sample_cu false true true) [] 4 rdoq_sample_residual 4 (replicate 16 0)
           2 TEXT_LUMA 0 false).
  - reflexivity.
  - lia.
  - reflexivity.
  - exact sample_codeParams_wf.
  - apply int32_arrayb_sound. vm_compute. reflexivity.
  - exact sample_quantCoef_nonneg.
  - reflexivity.
  - intros _. apply rdoq_sbh_costs_in_rangeb_sound. vm_compute. reflexivity.
Defined.

(** ** The branch-free helpers *)

Lemma shiftr_31_sign (x : Z) :
  - 2 ^ 31 <= x < 2 ^ 31 -> x ≫ 31 = if x <? 0 then -1 else 0.
Proof.
  intros Hx. rewrite Z.shiftr_div_pow2 by lia. destruct (Z.ltb_spec x 0).
  - symmetry. apply (Z.div_unique _ _ _ (x + 2 ^ 31)); lia.
  - apply Z.div_small. lia.
Qed.

Lemma fastMin_min (x y : Z) :
  - 2 ^ 31 <= x - y < 2 ^ 31 -> fastMin x y = Z.min x y.
Proof.
  intros Hd. unfold fastMin. rewrite s32_small by done. rewrite shiftr_31_sign by done.
  destruct (Z.ltb_spec (x - y) 0).
  - rewrite Z.land_m1_r. lia.
  - rewrite Z.land_0_r. lia.
Qed.

(** [fastMin] is the minimum whenever the difference of its arguments fits an
    [int]. *)
Theorem fastMin_is_min (x y : Z) :
  - 2 ^ 31 <= x - y < 2 ^ 31 -> fastMin x y = Z.min x y.
Proof. apply fastMin_min. Qed.

Lemma fastMin_is_min_witness : fastMin 11 8 = Z.min 11 8 /\ fastMin (-3) 8 = Z.min (-3) 8.
Proof. split; apply fastMin_is_min; simpl; lia. Defined.

(** [SIGN(x, y)] on two [int]s is [x] with the sign of [y] applied: [x]
    when [y] is not negative and [-x] when it is, for every [x] above
    [INT_MIN] (whose negation is no [int]). *)
Theorem SIGN_applies_sign (x y : Z) :
  - 2 ^ 31 < x < 2 ^ 31 -> - 2 ^ 31 <= y < 2 ^ 31 ->
  SIGN x y = if y <? 0 then - x else x.
Proof.
  intros Hx Hy. unfold SIGN. rewrite shiftr_31_sign by done. destruct (y <? 0).
  - rewrite Z.lxor_m1_r. unfold Z.lnot. rewrite s32_small by lia. lia.
  - rewrite Z.lxor_0_r. rewrite s32_small by lia. lia.
Qed.

Lemma SIGN_applies_sign_witness : SIGN 7 (-5) = (if -5 <? 0 then - 7 else 7).
Proof. apply (SIGN_applies_sign 7 (-5)); lia. Defined.

Lemma denoise_level (c o : Z) :
  - 2 ^ 31 < c < 2 ^ 31 -> 0 <= o < 2 ^ 16 ->
  let sign := c ≫ 31 in
  let level := Z.lxor (s32 (c + sign)) sign in
  level = Z.abs c /\
  (if s32 (level - o) <? 0 then 0 else s32 (Z.lxor (s32 (level - o)) sign - sign))
  = Z.sgn c * Z.max (Z.abs c - o) 0.
Proof.
  intros Hc Ho. cbv zeta. rewrite shiftr_31_sign by lia. destruct (Z.ltb_spec c 0).
  - assert (Ha : Z.lxor (s32 (c + -1)) (-1) = Z.abs c).
    { rewrite s32_small by lia. rewrite Z.lxor_m1_r. unfold Z.lnot, Z.pred. lia. }
    rewrite Ha. split; [done|]. rewrite (s32_small (Z.abs c - o)) by lia.
    rewrite Z.lxor_m1_r. unfold Z.lnot, Z.pred.
    rewrite Z.sgn_neg by lia. destruct (Z.ltb_spec (Z.abs c - o) 0); [lia|].
    rewrite s32_small by lia. lia.
  - rewrite !Z.lxor_0_r. replace (c + 0) with c by lia.
    rewrite (s32_small c) by lia. split; [lia|].
    rewrite (s32_small (c - o)) by lia. rewrite Z.sub_0_r.
    destruct (Z.eq_dec c 0) as [->|?].
    + change (Z.sgn 0) with 0. rewrite Z.mul_0_l.
      destruct (Z.ltb_spec (0 - o) 0); [lia|]. rewrite s32_small by lia. lia.
    + rewrite Z.sgn_pos by lia. destruct (Z.ltb_spec (c - o) 0); [lia|].
      rewrite s32_small by lia. lia.
Qed.

(** [denoiseDct] shrinks the magnitude of each of the first [numCoeff]
    coefficients by its offset, never below zero and never changing the
    sign; it adds the old magnitude to the matching entry of [resSum]
    (modulo 2^32), and leaves everything from [numCoeff] on alone.  The
    coefficients are [int]s above [INT_MIN] (whose magnitude is no [int])
    and the offsets are [uint16_t]. *)
Theorem denoiseDct_spec (dctCoef resSum : list Z) (offset : Z -> Z) (numCoeff : Z) :
  numCoeff <= Z.of_nat (length dctCoef) -> numCoeff <= Z.of_nat (length resSum) ->
  (forall i, 0 <= i < numCoeff -> - 2 ^ 31 < rd dctCoef i < 2 ^ 31) ->
  (forall i, 0 <= i < numCoeff -> 0 <= offset i < 2 ^ 16) ->
  let r := denoiseDct dctCoef resSum offset numCoeff in
  length r.1 = length dctCoef /\ length r.2 = length resSum /\
  (forall i, 0 <= i < numCoeff ->
     rd r.1 i = Z.sgn (rd dctCoef i) * Z.max (Z.abs (rd dctCoef i) - offset i) 0 /\
     rd r.2 i = u32 (rd resSum i + Z.abs (rd dctCoef i))) /\
  (forall i, numCoeff <= i -> rd r.1 i = rd dctCoef i /\ rd r.2 i = rd resSum i).
Proof.
  intros Hl1 Hl2 Hint Hoff r. subst r. unfold denoiseDct.
  set (P := fun (b : Z) (st : list Z * list Z) =>
    length st.1 = length dctCoef /\ length st.2 = length resSum /\
    (forall i, 0 <= i < b ->
       rd st.1 i = Z.sgn (rd dctCoef i) * Z.max (Z.abs (rd dctCoef i) - offset i) 0 /\
       rd st.2 i = u32 (rd resSum i + Z.abs (rd dctCoef i))) /\
    (forall i, b <= i -> rd st.1 i = rd dctCoef i /\ rd st.2 i = rd resSum i)).
  match goal with |- context [for_up ?n ?f ?s0] => assert (HP : P (Z.of_nat n) (for_up n f s0)) end.
  { apply for_up_ind.
    - subst P. cbn. split; [done|]. split; [done|]. split; [intros; lia|done].
    - intros b [d rs] Hb (H1 & H2 & H3 & H4). simpl in H1, H2, H3, H4.
      subst P. cbn [fst snd].
      destruct (H4 b ltac:(lia)) as [Hd Hr].
      destruct (denoise_level (rd dctCoef b) (offset b)
                  (Hint b ltac:(lia)) (Hoff b ltac:(lia))) as [Habs Hout].
      cbv zeta in Habs, Hout. cbv zeta. rewrite Hd, Hr, Hout, Habs.
      split; [by rewrite length_aset|]. split; [by rewrite length_aset|]. split.
      + intros i Hi. destruct (Z.eq_dec i b) as [->|Hne].
        * rewrite !aget_aset_eq by lia. done.
        * rewrite !aget_aset_ne by lia. apply H3. lia.
      + intros i Hi. rewrite !aget_aset_ne by lia. apply H4. lia. }
  destruct (Z_le_dec 0 numCoeff) as [Hn|Hn].
  - rewrite Z2Nat.id in HP by lia. exact HP.
  - replace (Z.to_nat numCoeff) with 0%nat in * by lia. simpl in *.
    split; [done|]. split; [done|]. split; [intros; lia|done].
Qed.

Lemma denoiseDct_spec_witness :
  let r := denoiseDct [100; -7; 3; -40] [1; 2; 3; 4] (fun _ => 5) 3 in
  length r.1 = 4%nat /\ length r.2 = 4%nat /\
  (forall i, 0 <= i < 3 ->
     rd r.1 i = Z.sgn (rd [100; -7; 3; -40] i)
                * Z.max (Z.abs (rd [100; -7; 3; -40] i) - 5) 0 /\
     rd r.2 i = u32 (rd [1; 2; 3; 4] i + Z.abs (rd [100; -7; 3; -40] i))) /\
  (forall i, 3 <= i -> rd r.1 i = rd [100; -7; 3; -40] i /\ rd r.2 i = rd [1; 2; 3; 4] i).
Proof.
  apply (denoiseDct_spec [100; -7; 3; -40] [1; 2; 3; 4] (fun _ => 5) 3).
  - simpl. lia.
  - simpl. lia.
  - intros i Hi.
    assert (Hc : i = 0 \/ i = 1 \/ i = 2) by lia.
    destruct Hc as [-> | [-> | ->]]; vm_compute; split; congruence.
  - intros i Hi. lia.
Defined.

(** ** Context derivation *)

Lemma land_1_bit (x : Z) : Z.land x 1 = b2z (Z.testbit x 0).
Proof.
  rewrite land_1_mod, <- Z.bit0_mod. by destruct (Z.testbit x 0).
Qed.

Lemma land_2_bit (x : Z) : Z.land x 2 = 2 * b2z (Z.testbit x 1).
Proof.
  assert (H2 : forall n, 0 <= n -> Z.testbit 2 n = (1 =? n)).
  { intros n Hn. change 2 with (2 ^ 1). by apply Z.pow2_bits_eqb. }
  apply Z.bits_inj'. intros n Hn. rewrite Z.land_spec, H2 by done.
  destruct (Z.eqb_spec 1 n) as [<-|Hne].
  - destruct (Z.testbit x 1); reflexivity.
  - rewrite andb_false_r. destruct (Z.testbit x 1); simpl b2z.
    + change (2 * 1) with 2. rewrite H2 by done. symmetry. by apply Z.eqb_neq.
    + symmetry. apply Z.bits_0.
Qed.

Lemma testbit_u32 (x k : Z) : 0 <= k < 32 -> Z.testbit (u32 x) k = Z.testbit x k.
Proof. intros Hk. unfold u32. apply Z.mod_pow2_bits_low. lia. Qed.

Lemma land_lor_1 (a b : Z) :
  Z.land (Z.lor a b) 1 = b2z (Z.testbit a 0 || Z.testbit b 0).
Proof. rewrite land_1_bit, Z.lor_spec. reflexivity. Qed.

(** The mask [(int32_t)(pos - (trSizeCG - 1)) >> 31] read as unsigned: all
    ones when the group has a neighbour on that side, zero at the border. *)
Lemma neighbour_mask (pos T : Z) (a : Z) :
  - 2 ^ 31 <= pos - (T - 1) < 2 ^ 31 ->
  Z.land (u32 (s32 (pos - (T - 1)) ≫ 31)) a = if pos <? T - 1 then u32 a else 0.
Proof.
  intros Hr. rewrite s32_small by done. rewrite shiftr_31_sign by done.
  destruct (Z.ltb_spec (pos - (T - 1)) 0), (Z.ltb_spec pos (T - 1)); try lia.
  - change (u32 (-1)) with (Z.ones 32). rewrite Z.land_comm, Z.land_ones by lia. reflexivity.
  - change (u32 0) with 0. apply Z.land_0_l.
Qed.

Section SigContext.
Variables (flag cgPosX cgPosY log2TrSizeCG : Z).
Hypothesis lg_range : 0 <= log2TrSizeCG <= 3.
Hypothesis x_range : 0 <= cgPosX < 1 ≪ log2TrSizeCG.
Hypothesis y_range : 0 <= cgPosY < 1 ≪ log2TrSizeCG.

Local Abbreviation T := (1 ≪ log2TrSizeCG).
Local Abbreviation idx := (cgPosY * (1 ≪ log2TrSizeCG) + cgPosX).
Local Abbreviation right := ((cgPosX <? T - 1) && Z.testbit flag (idx + 1)).
Local Abbreviation lower := ((cgPosY <? T - 1) && Z.testbit flag (idx + T)).

Lemma cg_T_range : 1 <= T <= 8.
Proof.
  rewrite Z.shiftl_1_l. split.
  - pose proof (pow2_pos log2TrSizeCG ltac:(lia)). lia.
  - change 8 with (2 ^ 3). apply Z.pow_le_mono_r; lia.
Qed.

Lemma cg_sigPos_bit (k : Z) :
  0 <= k < 32 ->
  Z.testbit (u32 (flag ≫ (1 + (cgPosY ≪ log2TrSizeCG) + cgPosX))) k
  = Z.testbit flag (idx + 1 + k).
Proof.
  intros Hk. rewrite testbit_u32 by done. rewrite Z.shiftr_spec by lia.
  rewrite Z.shiftl_mul_pow2, <- Z.shiftl_1_l by lia. f_equal. lia.
Qed.

(** [getSigCoeffGroupCtxInc] is 1 exactly when the coefficient group to the
    right or the one below, if inside the transform unit, is flagged in the
    mask. *)
Theorem getSigCoeffGroupCtxInc_neighbours :
  getSigCoeffGroupCtxInc flag cgPosX cgPosY log2TrSizeCG = b2z (right || lower).
Proof.
  pose proof cg_T_range as HT. unfold getSigCoeffGroupCtxInc. cbv zeta.
  set (sigPos := u32 (flag ≫ (1 + cgPosY ≪ log2TrSizeCG + cgPosX))).
  assert (Hr : Z.testbit (u32 sigPos) 0 = Z.testbit flag (idx + 1)).
  { rewrite testbit_u32 by lia. subst sigPos. rewrite cg_sigPos_bit by lia. f_equal. lia. }
  assert (Hl : Z.testbit (u32 (sigPos ≫ (T - 1))) 0 = Z.testbit flag (idx + T)).
  { rewrite testbit_u32 by lia. rewrite Z.shiftr_spec by lia. subst sigPos.
    rewrite cg_sigPos_bit by lia. f_equal. lia. }
  rewrite !neighbour_mask by lia. rewrite land_lor_1.
  destruct (cgPosX <? T - 1), (cgPosY <? T - 1); cbn [andb];
    rewrite ?Hr, ?Hl, ?Z.bits_0, ?orb_false_r; reflexivity.
Qed.

(** [calcPatternSigCtx] is bit 0 for a flagged right neighbour plus bit 1 for
    a flagged lower neighbour (neighbours outside the transform unit count
    as not flagged); a transform unit of one group has pattern 0. *)
Theorem calcPatternSigCtx_neighbours :
  calcPatternSigCtx flag cgPosX cgPosY log2TrSizeCG
  = if log2TrSizeCG =? 0 then 0 else b2z right + 2 * b2z lower.
Proof.
  pose proof cg_T_range as HT. unfold calcPatternSigCtx. cbv zeta.
  destruct (Z.eqb_spec log2TrSizeCG 0) as [?|Hne]; [done|].
  assert (HT2 : 2 <= T).
  { rewrite Z.shiftl_1_l. change 2 with (2 ^ 1) at 1. apply Z.pow_le_mono_r; lia. }
  set (sigPos := u32 (flag ≫ (1 + cgPosY ≪ log2TrSizeCG + cgPosX))).
  assert (Hr : Z.testbit sigPos 0 = Z.testbit flag (idx + 1)).
  { subst sigPos. rewrite cg_sigPos_bit by lia. f_equal. lia. }
  assert (Hl : Z.testbit (sigPos ≫ (T - 2)) 1 = Z.testbit flag (idx + T)).
  { rewrite Z.shiftr_spec by lia. subst sigPos. rewrite cg_sigPos_bit by lia. f_equal. lia. }
  rewrite <- Z.land_assoc. rewrite !neighbour_mask by lia.
  rewrite land_1_bit, land_2_bit, Hr, Hl.
  destruct (cgPosX <? T - 1), (cgPosY <? T - 1); cbn [andb];
    destruct (Z.testbit flag (idx + 1)), (Z.testbit flag (idx + T)); reflexivity.
Qed.
End SigContext.

Lemma getSigCoeffGroupCtxInc_neighbours_witness :
  getSigCoeffGroupCtxInc 576 1 1 2
  = b2z (((1 <? 1 ≪ 2 - 1) && Z.testbit 576 (1 * 1 ≪ 2 + 1 + 1))
         || ((1 <? 1 ≪ 2 - 1) && Z.testbit 576 (1 * 1 ≪ 2 + 1 + 1 ≪ 2))).
Proof. apply getSigCoeffGroupCtxInc_neighbours; change (1 ≪ 2) with 4; lia. Defined.

Lemma calcPatternSigCtx_neighbours_witness :
  calcPatternSigCtx 576 1 1 2
  = (if 2 =? 0 then 0
     else b2z ((1 <? 1 ≪ 2 - 1) && Z.testbit 576 (1 * 1 ≪ 2 + 1 + 1))
          + 2 * b2z ((1 <? 1 ≪ 2 - 1) && Z.testbit 576 (1 * 1 ≪ 2 + 1 + 1 ≪ 2))).
Proof. apply calcPatternSigCtx_neighbours; change (1 ≪ 2) with 4; lia. Defined.

Lemma land_3_range (x : Z) : 0 <= Z.land x 3 <= 3.
Proof.
  replace (Z.land x 3) with (x mod 2 ^ 2) by (symmetry; apply (Z.land_ones x 2); lia).
  pose proof (Z.mod_pos_bound x (2 ^ 2) ltac:(lia)). lia.
Qed.

Lemma table_cnt_range (a b c : Z) :
  0 <= a <= 3 -> 0 <= b <= 3 -> 0 <= c <= 3 ->
  0 <= rd (aget [] (aget [] table_cnt a) b) c <= 2.
Proof.
  intros Ha Hb Hc.
  assert (Ea : a = 0 \/ a = 1 \/ a = 2 \/ a = 3) by lia.
  assert (Eb : b = 0 \/ b = 1 \/ b = 2 \/ b = 3) by lia.
  assert (Ec : c = 0 \/ c = 1 \/ c = 2 \/ c = 3) by lia.
  destruct Ea as [-> | [-> | [-> | ->]]]; destruct Eb as [-> | [-> | [-> | ->]]];
    destruct Ec as [-> | [-> | [-> | ->]]]; vm_compute; split; discriminate.
Qed.

(** The context increment [getSigCtxInc] returns: 0 for the DC coefficient;
    an entry of [ctxIndMap], at most 8, in a 4x4 unit; otherwise
    [firstSignificanceMapContext] plus a count of at most 2, plus 3 for luma
    outside the first coefficient group. *)
Theorem getSigCtxInc_range (patternSigCtx log2TrSize trSize blkPos : Z) (bIsLuma : bool)
    (firstSignificanceMapContext : Z) :
  0 <= patternSigCtx <= 3 -> 0 <= blkPos -> (log2TrSize = 2 -> blkPos < 16) ->
  let r := getSigCtxInc patternSigCtx log2TrSize trSize blkPos bIsLuma
             firstSignificanceMapContext in
  (blkPos = 0 -> r = 0) /\
  (log2TrSize = 2 -> 0 <= r <= 8) /\
  (blkPos <> 0 -> log2TrSize <> 2 ->
     firstSignificanceMapContext <= r <= firstSignificanceMapContext + 5 /\
     (bIsLuma = false -> r <= firstSignificanceMapContext + 2)).
Proof.
  intros Hp Hb H4 r. subst r. unfold getSigCtxInc. cbv zeta. split; [|split].
  - intros ->. reflexivity.
  - intros ->. destruct (Z.eqb_spec blkPos 0); [lia|]. cbn [Z.eqb Pos.eqb].
    specialize (H4 eq_refl).
    assert (Hall : forallb (fun i => (0 <=? rd ctxIndMap i) && (rd ctxIndMap i <=? 8))
                     (Zrange 16) = true) by (vm_compute; reflexivity).
    rewrite forallb_Zrange in Hall. specialize (Hall blkPos ltac:(lia)). lia.
  - intros Hnz Hn2. destruct (Z.eqb_spec blkPos 0); [lia|].
    destruct (Z.eqb_spec log2TrSize 2); [lia|].
    pose proof (table_cnt_range patternSigCtx (Z.land blkPos 3)
                  (Z.land (blkPos ≫ log2TrSize) 3) Hp (land_3_range _) (land_3_range _)).
    destruct bIsLuma; cbn [andb]; [destruct (_ >=? 4)|]; split; try lia; intros [=].
Qed.

Lemma getSigCtxInc_range_witness :
  let r := getSigCtxInc 1 3 8 9 true 21 in
  (9 = 0 -> r = 0) /\
  (3 = 2 -> 0 <= r <= 8) /\
  (9 <> 0 -> 3 <> 2 -> 21 <= r <= 21 + 5 /\ (true = false -> r <= 21 + 2)).
Proof. apply (getSigCtxInc_range 1 3 8 9 true 21); lia. Defined.

Lemma u32_add_l (a b : Z) : u32 (u32 a + b) = u32 (a + b).
Proof. unfold u32. apply Z.add_mod_idemp_l. lia. Qed.

Lemma u32_add_r (a b : Z) : u32 (a + u32 b) = u32 (a + b).
Proof. unfold u32. apply Z.add_mod_idemp_r. lia. Qed.

(** [getRateLast] charges the prefix bits of both coordinates, and suffix
    bits [IEP_RATE * ((ctx - 2) >> 1)] only for a coordinate greater than 2;
    all in unsigned 32-bit arithmetic. *)
Theorem getRateLast_spec `{Config} (est : EstBitsSbac) (posx posy : Z) :
  0 <= posx < 2 ^ 31 -> 0 <= posy < 2 ^ 31 ->
  getRateLast est posx posy
  = u32 (lastXBits est (getGroupIdx posx) + lastYBits est (getGroupIdx posy)
         + (if 2 <? posx then IEP_RATE * (u32 (getGroupIdx posx - 2) ≫ 1) else 0)
         + (if 2 <? posy then IEP_RATE * (u32 (getGroupIdx posy - 2) ≫ 1) else 0)).
Proof.
  intros Hx Hy. unfold getRateLast. cbv zeta.
  assert (Hm : forall pos v, 0 <= pos < 2 ^ 31 ->
            Z.land (u32 (s32 (2 - pos) ≫ 31)) (u32 v) = u32 (if 2 <? pos then v else 0)).
  { intros pos v Hpos. rewrite s32_small by lia. rewrite shiftr_31_sign by lia.
    destruct (Z.ltb_spec (2 - pos) 0), (Z.ltb_spec 2 pos); try lia.
    - change (u32 (-1)) with (Z.ones 32). rewrite Z.land_comm, Z.land_ones by lia.
      unfold u32. apply Z.mod_mod. lia.
    - change (u32 0) with 0. apply Z.land_0_l. }
  rewrite !Hm by done. rewrite !u32_add_r, !u32_add_l.
  set (a := lastXBits est _ + lastYBits est _).
  set (c := if 2 <? posx then _ else _). set (d := if 2 <? posy then _ else _).
  replace (u32 a + c + d) with (u32 a + (c + d)) by lia.
  rewrite u32_add_l. f_equal. lia.
Qed.

Lemma getRateLast_spec_witness :
  getRateLast sample_estBits 1 5
  = u32 (lastXBits sample_estBits (getGroupIdx 1) + lastYBits sample_estBits (getGroupIdx 5)
         + (if 2 <? 1 then IEP_RATE * (u32 (getGroupIdx 1 - 2) ≫ 1) else 0)
         + (if 2 <? 5 then IEP_RATE * (u32 (getGroupIdx 5 - 2) ≫ 1) else 0)).
Proof. apply getRateLast_spec; simpl; lia. Defined.

(** ** The two rate estimators of a coefficient level *)

Lemma u32_small (x : Z) : 0 <= x < 2 ^ 32 -> u32 x = x.
Proof. intros Hx. unfold u32. apply Z.mod_small. done. Qed.

(** [getICRate] and [getICRateCost] return the same rate for a non-zero level
    that is coded without an escape: either with no remainder
    ([diffLevel < 0]) or with a remainder whose prefix is shorter than
    [COEF_REMAIN_BIN_REDUCTION] and that does not exceed [g_goRiceRange]. *)
Theorem getICRate_agrees_getICRateCost `{Config} (absLevel diffLevel : Z)
    (greaterOneBits levelAbsBits : Z -> Z) (absGoRice c1c2Idx : Z) :
  absLevel <> 0 -> 0 <= absGoRice ->
  (forall i, 0 <= greaterOneBits i < 2 ^ 30) ->
  (forall i, 0 <= levelAbsBits i < 2 ^ 30) ->
  diffLevel < 0 \/
    (0 <= diffLevel <= g_goRiceRange absGoRice /\ diffLevel < 2 ^ 31 /\
     diffLevel ≫ absGoRice < COEF_REMAIN_BIN_REDUCTION /\
     COEF_REMAIN_BIN_REDUCTION + absGoRice <= 8) ->
  getICRate absLevel diffLevel greaterOneBits levelAbsBits absGoRice c1c2Idx
  = getICRateCost absLevel diffLevel greaterOneBits levelAbsBits absGoRice c1c2Idx.
Proof.
  intros Hnz Hg Hgo Hla Hcase. unfold getICRate, getICRateCost.
  destruct (Z.eqb_spec absLevel 0); [done|].
  destruct (Z.ltb_spec diffLevel 0) as [Hneg|Hpos].
  - pose proof (Hgo (b2z (absLevel =? 2))). pose proof (Hla 0).
    cbv zeta. rewrite (u32_small (greaterOneBits _)) by lia.
    destruct (absLevel =? 2); [rewrite u32_small by lia|]; reflexivity.
  - destruct Hcase as [?|(Hd & Hd31 & Hpre & Hred)]; [lia|]. cbv zeta.
    rewrite (u32_small diffLevel) by lia.
    destruct (Z.gtb_spec diffLevel (g_goRiceRange absGoRice)); [lia|].
    destruct (Z.ltb_spec (diffLevel ≫ absGoRice) COEF_REMAIN_BIN_REDUCTION); [|lia].
    assert (Hl : 0 <= diffLevel ≫ absGoRice) by (apply Z.shiftr_nonneg; lia).
    set (l := diffLevel ≫ absGoRice) in *.
    rewrite (u32_small (l + 1)) by lia. rewrite (u32_small (l + 1 + absGoRice)) by lia.
    rewrite fastMin_min by lia. rewrite Z.min_l by lia.
    rewrite (u32_small (l + 1 + absGoRice)) by lia.
    assert (Hr : 0 <= (l + 1 + absGoRice) ≪ 15 <= 8 * 2 ^ 15).
    { rewrite Z.shiftl_mul_pow2 by lia. lia. }
    rewrite (u32_small ((l + 1 + absGoRice) ≪ 15)) by lia.
    pose proof (Hgo 1). pose proof (Hla 1). cbn [Z.add].
    set (r := (l + 1 + absGoRice) ≪ 15) in *.
    destruct (nz (Z.land c1c2Idx 1));
      [rewrite (u32_small (r + greaterOneBits 1)) by lia|];
      (destruct (c1c2Idx =? 3); [rewrite u32_small by lia|]); reflexivity.
Qed.

Lemma getICRate_agrees_getICRateCost_witness :
  getICRate 5 2 (fun i => if i =? 0 then 21000 else 43000)
    (fun i => if i =? 0 then 30000 else 35000) 1 3
  = getICRateCost 5 2 (fun i => if i =? 0 then 21000 else 43000)
      (fun i => if i =? 0 then 30000 else 35000) 1 3.
Proof.
  apply getICRate_agrees_getICRateCost; try lia.
  - intros i. destruct (i =? 0); lia.
  - intros i. destruct (i =? 0); lia.
  - right. vm_compute. repeat split; discriminate.
Defined.

(** ** Intra planar prediction *)

Lemma stride_index_inj (stride N y x y' x' : Z) :
  N <= stride -> 0 <= y -> 0 <= y' -> 0 <= x < N -> 0 <= x' < N ->
  y * stride + x = y' * stride + x' -> y = y' /\ x = x'.
Proof. intros. assert (y = y') by nia. subst. lia. Qed.

Section IntraPlanar.
Context `{Config}.
Variables (log2Size : Z) (dst : list Z) (dstStride : Z) (srcPix : list Z).
Hypothesis log2_nonneg : 0 <= log2Size.
Hypothesis stride_block : 1 ≪ log2Size <= dstStride.
Hypothesis bits_nonneg : 0 <= pixel_bits.

Local Abbreviation N := (1 ≪ log2Size).

Lemma planar_N_pos : 0 < N.
Proof. rewrite Z.shiftl_1_l. apply pow2_pos. done. Qed.

(** The weighted sum the code forms for the sample in row [y], column [x]. *)
Local Abbreviation planar_sum := (fun src y x =>
  (N - 1 - x) * rd src (2 * N + 1 + y) + (N - 1 - y) * rd src (1 + x)
  + (x + 1) * rd src (1 + N) + (y + 1) * rd src (2 * N + 1 + N) + N).

Lemma planar_at (src : list Z) (y x : Z) :
  0 <= y < N -> 0 <= x < N -> y * dstStride + x < Z.of_nat (length dst) ->
  rd (planar_pred_c_new log2Size dst dstStride src) (y * dstStride + x)
  = to_pixel (planar_sum src y x ≫ (log2Size + 1)).
Proof.
  intros Hy Hx Hlen. unfold planar_pred_c_new. cbv zeta.
  change (for_up (Z.to_nat N) _ dst) with
    (fill2 (Z.to_nat N) (Z.to_nat N) (fun y x => y * dstStride + x)
       (fun y x => to_pixel (planar_sum src y x ≫ (log2Size + 1))) dst).
  pose proof planar_N_pos as HN.
  apply fill2_agree.
  - intros k l Hk Hl Hidx. rewrite Z2Nat.id in Hk, Hl by lia.
    destruct (stride_index_inj dstStride N k l y x) as [-> ->]; lia || reflexivity.
  - right. split; [nia|]. exists y, x. rewrite !Z2Nat.id by lia. lia.
Qed.

Lemma planar_between (lo hi y x : Z) :
  0 <= y < N -> 0 <= x < N ->
  lo <= rd srcPix (2 * N + 1 + y) <= hi -> lo <= rd srcPix (1 + x) <= hi ->
  lo <= rd srcPix (1 + N) <= hi -> lo <= rd srcPix (2 * N + 1 + N) <= hi ->
  lo <= planar_sum srcPix y x ≫ (log2Size + 1) <= hi.
Proof.
  intros Hy Hx Hl Ha Ht Hb. pose proof planar_N_pos as HN.
  rewrite Z.shiftr_div_pow2 by lia.
  replace (2 ^ (log2Size + 1)) with (2 * N)
    by (rewrite Z.shiftl_1_l, Z.pow_add_r by lia; lia).
  set (l := rd srcPix (2 * N + 1 + y)) in *. set (a := rd srcPix (1 + x)) in *.
  set (t := rd srcPix (1 + N)) in *. set (b := rd srcPix (2 * N + 1 + N)) in *.
  split.
  - apply Z.div_le_lower_bound; [lia|]. nia.
  - apply Z.lt_succ_r. apply Z.div_lt_upper_bound; [lia|]. nia.
Qed.

(** Planar prediction interpolates: the sample written in row [y], column
    [x] lies between any bounds that hold for the four reference samples it
    is formed from (the left sample of the row, the top sample of the
    column, the top-right and the bottom-left sample).  In particular a flat
    reference gives a flat block. *)
Theorem planar_pred_within_references (lo hi y x : Z) :
  0 <= y < N -> 0 <= x < N -> y * dstStride + x < Z.of_nat (length dst) ->
  0 <= lo -> hi < 2 ^ pixel_bits ->
  lo <= rd srcPix (2 * N + 1 + y) <= hi -> lo <= rd srcPix (1 + x) <= hi ->
  lo <= rd srcPix (1 + N) <= hi -> lo <= rd srcPix (2 * N + 1 + N) <= hi ->
  lo <= rd (planar_pred_c_new log2Size dst dstStride srcPix) (y * dstStride + x) <= hi.
Proof.
  intros Hy Hx Hlen Hlo Hhi Hl Ha Ht Hb. rewrite planar_at by done.
  pose proof (planar_between lo hi y x Hy Hx Hl Ha Ht Hb).
  unfold to_pixel. cbv beta in *. rewrite Z.mod_small; lia.
Qed.

(** Planar prediction commutes with transposition: exchanging the top and
    the left reference samples (including the top-right and bottom-left
    ones) transposes the predicted block. *)
Theorem planar_pred_transpose (srcPix' : list Z) (y x : Z) :
  0 <= y < N -> 0 <= x < N ->
  y * dstStride + x < Z.of_nat (length dst) ->
  x * dstStride + y < Z.of_nat (length dst) ->
  (forall i, 0 <= i <= N -> rd srcPix' (1 + i) = rd srcPix (2 * N + 1 + i)) ->
  (forall i, 0 <= i <= N -> rd srcPix' (2 * N + 1 + i) = rd srcPix (1 + i)) ->
  rd (planar_pred_c_new log2Size dst dstStride srcPix') (y * dstStride + x)
  = rd (planar_pred_c_new log2Size dst dstStride srcPix) (x * dstStride + y).
Proof.
  intros Hy Hx Hlen Hlen' Ha Hl. rewrite !planar_at by done.
  rewrite (Ha x), (Ha N), (Hl y), (Hl N) by lia. do 2 f_equal. lia.
Qed.
End IntraPlanar.

Lemma planar_pred_within_references_witness :
  82 <= rd (planar_pred_c_new 2 (replicate 16 0) 4 planar_sample_ref) (1 * 4 + 2) <= 116.
Proof.
  apply (planar_pred_within_references 2 (replicate 16 0) 4 planar_sample_ref);
    vm_compute; repeat split; discriminate.
Defined.

Lemma planar_pred_transpose_witness :
  rd (planar_pred_c_new 2 (replicate 16 0) 4 planar_sample_ref_T) (1 * 4 + 2)
  = rd (planar_pred_c_new 2 (replicate 16 0) 4 planar_sample_ref) (2 * 4 + 1).
Proof.
  apply (planar_pred_transpose 2 (replicate 16 0) 4 planar_sample_ref);
    try (vm_compute; repeat split; discriminate);
    intros i Hi; change (1 ≪ 2) with 4 in *;
    assert (Ei : i = 0 \/ i = 1 \/ i = 2 \/ i = 3 \/ i = 4) by lia;
    destruct Ei as [-> | [-> | [-> | [-> | ->]]]]; reflexivity.
Defined.

(** ** The edge filter of intra DC prediction *)

(** A loop that rewrites one sample per iteration, each from its own old
    value. *)
Lemma update_loop_spec (lo : Z) (n : nat) (idx : Z -> Z) (g : Z -> Z -> Z) (a : list Z) :
  (forall i j, lo <= i < lo + Z.of_nat n -> lo <= j < lo + Z.of_nat n ->
     idx i = idx j -> i = j) ->
  (forall i, lo <= i < lo + Z.of_nat n -> 0 <= idx i < Z.of_nat (length a)) ->
  let r := for_range lo n (fun i a => aset a (idx i) (g i (rd a (idx i)))) a in
  length r = length a /\
  (forall i, lo <= i < lo + Z.of_nat n -> rd r (idx i) = g i (rd a (idx i))) /\
  (forall pos, (forall i, lo <= i < lo + Z.of_nat n -> idx i <> pos) -> rd r pos = rd a pos).
Proof.
  intros Hinj Hin r. subst r. unfold for_range.
  apply (for_up_ind (fun k s =>
    length s = length a /\
    (forall i, lo <= i < lo + k -> rd s (idx i) = g i (rd a (idx i))) /\
    (forall pos, (forall i, lo <= i < lo + k -> idx i <> pos) -> rd s pos = rd a pos))).
  - split; [done|]. split; [intros; lia|done].
  - intros k s Hk (Hlen & Hhit & Hmiss). split; [|split].
    + by rewrite length_aset.
    + intros i Hi. destruct (Z.eq_dec i (lo + k)) as [->|Hne].
      * rewrite aget_aset_eq by (rewrite Hlen; apply Hin; lia).
        rewrite Hmiss; [done|]. intros j Hj Heq. apply Hinj in Heq; lia.
      * rewrite aget_aset_ne by (intros Heq; apply Hinj in Heq; lia).
        apply Hhit. lia.
    + intros pos Hpos. rewrite aget_aset_ne by (apply Hpos; lia).
      apply Hmiss. intros i Hi. apply Hpos. lia.
Qed.

Section IntraDCFilter.
Context `{Config}.
Variables (width : Z) (dst : list Z) (dstStride : Z) (srcPix : list Z).
Hypothesis width_pos : 0 < width.
Hypothesis stride_block : width <= dstStride.
Hypothesis block_in_dst : (width - 1) * dstStride + width <= Z.of_nat (length dst).
Hypothesis bits_nonneg : 0 <= pixel_bits.
Hypothesis src_pixels : forall i, 0 <= rd srcPix i < 2 ^ pixel_bits.

Local Abbreviation dc := ((dc_neighbours width srcPix + width) ÷ (2 * width)).

Lemma dc_is_pixel : 0 <= dc < 2 ^ pixel_bits.
Proof.
  rewrite <- (dc_value_is_pixel width srcPix) by done.
  unfold to_pixel. apply Z.mod_pos_bound. by apply pow2_pos.
Qed.

Lemma filtered_is_pixel (a b c : Z) :
  0 <= a < 2 ^ pixel_bits -> 0 <= b < 2 ^ pixel_bits -> 0 <= c < 2 ^ pixel_bits ->
  to_pixel ((a + b + 2 * c + 2) ≫ 2) = (a + b + 2 * c + 2) ≫ 2.
Proof.
  intros Ha Hb Hc. unfold to_pixel. apply Z.mod_small.
  rewrite Z.shiftr_div_pow2 by lia. change (2 ^ 2) with 4. split.
  - apply Z.div_pos; lia.
  - apply Z.div_lt_upper_bound; lia.
Qed.

Lemma block_index_in (y x : Z) :
  0 <= y < width -> 0 <= x < width -> 0 <= y * dstStride + x < Z.of_nat (length dst).
Proof. intros Hy Hx. nia. Qed.

(** With the edge filter on, the DC block keeps the DC value [dc] in its
    interior; the corner becomes [(above[0] + left[0] + 2*dc + 2) >> 2], the
    rest of the first row [(above[x] + 3*dc + 2) >> 2] and the rest of the
    first column [(left[y] + 3*dc + 2) >> 2]. *)
Theorem intra_pred_dc_edge_filter (y x : Z) :
  0 <= y < width -> 0 <= x < width ->
  rd (intra_pred_dc_c_new width dst dstStride srcPix true) (y * dstStride + x)
  = if (y =? 0) && (x =? 0) then (rd srcPix 1 + rd srcPix (2 * width + 1) + 2 * dc + 2) ≫ 2
    else if y =? 0 then (rd srcPix (1 + x) + 3 * dc + 2) ≫ 2
    else if x =? 0 then (rd srcPix (2 * width + 1 + y) + 3 * dc + 2) ≫ 2
    else dc.
Proof.
  intros Hy Hx. unfold intra_pred_dc_c_new, dcPredFilter. cbv zeta.
  change (for_up (Z.to_nat width) _ dst) with
    (fill2 (Z.to_nat width) (Z.to_nat width) (fun k l => k * dstStride + l)
       (fun _ _ => to_pixel (dc_sum width srcPix ÷ (width + width))) dst).
  set (d0 := fill2 _ _ _ _ dst).
  assert (Hd0 : forall k l, 0 <= k < width -> 0 <= l < width ->
            rd d0 (k * dstStride + l) = dc).
  { intros k l Hk Hl. subst d0. rewrite <- (dc_value_is_pixel width srcPix) by done.
    apply fill2_agree; [reflexivity|]. right. split; [by apply block_index_in|].
    exists k, l. lia. }
  assert (L0 : length d0 = length dst) by apply fill2_length.
  pose proof dc_is_pixel as Hdc.
  set (d1 := aset d0 0 _).
  assert (L1 : length d1 = length dst) by (subst d1; by rewrite length_aset).
  pose proof (block_index_in 0 0 ltac:(lia) ltac:(lia)) as H00.
  assert (Hd1 : rd d1 0 = (rd srcPix 1 + rd srcPix (2 * width + 1) + 2 * dc + 2) ≫ 2).
  { subst d1. rewrite aget_aset_eq by lia.
    specialize (Hd0 0 0 ltac:(lia) ltac:(lia)). replace (0 * dstStride + 0) with 0 in Hd0 by lia.
    rewrite Hd0. replace (2 * width + 1 + 0) with (2 * width + 1) by lia.
    replace (1 + 0) with 1 by lia.
    apply filtered_is_pixel; done || apply src_pixels. }
  assert (Hd1' : forall pos, pos <> 0 -> rd d1 pos = rd d0 pos).
  { intros pos Hpos. subst d1. apply aget_aset_ne. lia. }
  destruct (update_loop_spec 1 (Z.to_nat (width - 1)) (fun x => x)
              (fun x v => to_pixel ((rd srcPix (1 + x) + 3 * v + 2) ≫ 2)) d1)
    as (L2 & Hit2 & Miss2).
  { intros; done. }
  { intros i Hi. pose proof (block_index_in 0 i ltac:(lia) ltac:(lia)). lia. }
  cbv beta in L2, Hit2, Miss2. set (d2 := for_range 1 _ _ d1) in *.
  destruct (update_loop_spec 1 (Z.to_nat (width - 1)) (fun y => y * dstStride)
              (fun y v => to_pixel ((rd srcPix (2 * width + 1 + y) + 3 * v + 2) ≫ 2)) d2)
    as (L3 & Hit3 & Miss3).
  { intros i j Hi Hj Heq. nia. }
  { intros i Hi. pose proof (block_index_in i 0 ltac:(lia) ltac:(lia)). lia. }
  cbv beta in L3, Hit3, Miss3. set (d3 := for_range 1 _ _ d2) in *.
  assert (Hedge : forall a, 0 <= a < 2 ^ pixel_bits ->
            to_pixel ((a + 3 * dc + 2) ≫ 2) = (a + 3 * dc + 2) ≫ 2).
  { intros a Ha. replace (a + 3 * dc + 2) with (a + dc + 2 * dc + 2) by lia.
    by apply filtered_is_pixel. }
  destruct (Z.eqb_spec y 0) as [->|Hy0]; destruct (Z.eqb_spec x 0) as [->|Hx0]; cbn [andb].
  - replace (0 * dstStride + 0) with 0 by lia.
    rewrite Miss3 by (intros i Hi; nia). rewrite Miss2 by (intros i Hi; lia). exact Hd1.
  - replace (0 * dstStride + x) with x by lia.
    rewrite Miss3 by (intros i Hi; nia). rewrite Hit2 by lia.
    rewrite Hd1' by lia. specialize (Hd0 0 x ltac:(lia) ltac:(lia)).
    replace (0 * dstStride + x) with x in Hd0 by lia. rewrite Hd0.
    apply Hedge, src_pixels.
  - replace (y * dstStride + 0) with (y * dstStride) by lia.
    rewrite Hit3 by lia. rewrite Miss2 by (intros i Hi; nia).
    rewrite Hd1' by nia. specialize (Hd0 y 0 ltac:(lia) ltac:(lia)).
    replace (y * dstStride + 0) with (y * dstStride) in Hd0 by lia. rewrite Hd0.
    apply Hedge, src_pixels.
  - rewrite Miss3
      by (intros i Hi Heq; destruct (stride_index_inj dstStride width i 0 y x); lia).
    rewrite Miss2 by (intros i Hi; nia).
    rewrite Hd1' by nia. by apply Hd0.
Qed.

End IntraDCFilter.

Lemma sample_pixels (l : list Z) :
  forallb (fun x => (0 <=? x) && (x <? 2 ^ 8)) l = true ->
  forall i, 0 <= rd l i < 2 ^ 8.
Proof.
  intros Hall i. unfold aget. destruct (i <? 0); [simpl; lia|].
  destruct (l !! Z.to_nat i) as [x|] eqn:Hx; [|simpl; lia].
  rewrite forallb_forall in Hall. specialize (Hall x).
  rewrite <- list_elem_of_In in Hall. specialize (Hall (list_elem_of_lookup_2 _ _ _ Hx)).
  simpl. lia.
Qed.

Lemma intra_pred_dc_edge_filter_witness :
  rd (intra_pred_dc_c_new 4 (replicate 16 0) 4 planar_sample_ref true) (0 * 4 + 2)
  = (if (0 =? 0) && (2 =? 0)
     then (rd planar_sample_ref 1 + rd planar_sample_ref (2 * 4 + 1)
           + 2 * ((dc_neighbours 4 planar_sample_ref + 4) ÷ (2 * 4)) + 2) ≫ 2
     else if 0 =? 0
     then (rd planar_sample_ref (1 + 2)
           + 3 * ((dc_neighbours 4 planar_sample_ref + 4) ÷ (2 * 4)) + 2) ≫ 2
     else if 2 =? 0
     then (rd planar_sample_ref (2 * 4 + 1 + 0)
           + 3 * ((dc_neighbours 4 planar_sample_ref + 4) ÷ (2 * 4)) + 2) ≫ 2
     else (dc_neighbours 4 planar_sample_ref + 4) ÷ (2 * 4)).
Proof.
  apply (intra_pred_dc_edge_filter 4 (replicate 16 0) 4 planar_sample_ref);
    try (simpl; lia).
  apply sample_pixels. reflexivity.
Defined.

(** ** Intra angular prediction *)


Lemma shiftl_1_double (w : Z) : w ≪ 1 = 2 * w.
Proof. rewrite Z.shiftl_mul_pow2 by lia. lia. Qed.

Lemma flip_neighbours_spec (nb : list Z) (width : Z) (src : list Z) :
  0 <= width -> 4 * width + 1 <= Z.of_nat (length nb) ->
  let r := flip_neighbours nb width src in
  rd r 0 = rd src 0 /\
  forall i, 0 <= i < 2 * width ->
    rd r (1 + i) = rd src (2 * width + 1 + i) /\ rd r (2 * width + 1 + i) = rd src (1 + i).
Proof.
  intros Hw Hlen r. subst r. unfold flip_neighbours. cbv zeta.
  rewrite shiftl_1_double.
  set (nb0 := aset nb 0 (rd src 0)).
  assert (L0 : length nb0 = length nb) by apply length_aset.
  assert (H0 : rd nb0 0 = rd src 0) by (apply aget_aset_eq; lia).
  assert (Hinv : let s := for_up (Z.to_nat (2 * width)) (fun i nb1 =>
              aset (aset nb1 (1 + i) (rd src (2 * width + 1 + i)))
                (2 * width + 1 + i) (rd src (1 + i))) nb0 in
            length s = length nb /\ rd s 0 = rd src 0 /\
            forall i, 0 <= i < Z.of_nat (Z.to_nat (2 * width)) ->
              rd s (1 + i) = rd src (2 * width + 1 + i) /\
              rd s (2 * width + 1 + i) = rd src (1 + i)).
  { apply (for_up_ind (fun k s =>
      length s = length nb /\ rd s 0 = rd src 0 /\
      forall i, 0 <= i < k ->
        rd s (1 + i) = rd src (2 * width + 1 + i) /\
        rd s (2 * width + 1 + i) = rd src (1 + i))).
    - split; [done|]. split; [done|]. intros; lia.
    - intros k s Hk (Hl & Hz & Hi). rewrite Z2Nat.id in Hk by lia. split; [|split].
      + by rewrite !length_aset.
      + rewrite !aget_aset_ne by lia. done.
      + intros i Hik. destruct (Z.eq_dec i k) as [->|Hne].
        * split.
          -- rewrite aget_aset_ne by lia. apply aget_aset_eq. lia.
          -- apply aget_aset_eq. rewrite length_aset. lia.
        * rewrite !aget_aset_ne by lia. apply Hi. lia. }
  cbv zeta in Hinv. destruct Hinv as (_ & Hz & Hi). split; [done|].
  intros i Hi'. apply Hi. lia.
Qed.

(** A row written sample by sample. *)
Lemma row_fill_spec (n : nat) (base : Z) (val : Z -> Z) (a : list Z) :
  0 <= base -> base + Z.of_nat n <= Z.of_nat (length a) ->
  let r := for_up n (fun x a => aset a (base + x) (val x)) a in
  length r = length a /\
  (forall x, 0 <= x < Z.of_nat n -> rd r (base + x) = val x) /\
  (forall pos, ~ (base <= pos < base + Z.of_nat n) -> rd r pos = rd a pos).
Proof.
  intros Hb Hlen r. subst r.
  apply (for_up_ind (fun k s =>
    length s = length a /\
    (forall x, 0 <= x < k -> rd s (base + x) = val x) /\
    (forall pos, ~ (base <= pos < base + k) -> rd s pos = rd a pos))).
  - split; [done|]. split; [intros; lia|done].
  - intros k s Hk (Hl & Hin & Hout). split; [|split].
    + by rewrite length_aset.
    + intros x Hx. destruct (Z.eq_dec x k) as [->|Hne].
      * apply aget_aset_eq. lia.
      * rewrite aget_aset_ne by lia. apply Hin. lia.
    + intros pos Hpos. rewrite aget_aset_ne by lia. apply Hout. lia.
Qed.

Section Block.
Variables (off dstStride width : Z).
Hypothesis width_pos : 0 < width.
Hypothesis stride_block : width <= dstStride.
Hypothesis off_nonneg : 0 <= off.

Local Abbreviation in_block := (in_block off dstStride width).


Lemma block_idx_inj (y x y' x' : Z) :
  0 <= y -> 0 <= y' -> 0 <= x < width -> 0 <= x' < width ->
  off + (y * dstStride + x) = off + (y' * dstStride + x') -> y = y' /\ x = x'.
Proof. intros. apply (stride_index_inj dstStride width); lia. Qed.

Lemma block_idx_in (dst : list Z) (y x : Z) :
  off + ((width - 1) * dstStride + width) <= Z.of_nat (length dst) ->
  0 <= y < width -> 0 <= x < width ->
  0 <= off + (y * dstStride + x) < Z.of_nat (length dst).
Proof. intros. nia. Qed.

Lemma flip_block_spec (dst : list Z) :
  off + ((width - 1) * dstStride + width) <= Z.of_nat (length dst) ->
  let r := flip_block dst off dstStride width in
  length r = length dst /\
  (forall y x, 0 <= y < width -> 0 <= x < width ->
     rd r (off + (y * dstStride + x)) = rd dst (off + (x * dstStride + y))) /\
  (forall pos, ~ in_block pos -> rd r pos = rd dst pos).
Proof.
  intros Hlen r. subst r. unfold flip_block.
  pose (SW := fun (k j a b : Z) =>
    a <> b /\ (Z.min a b < k \/ (Z.min a b = k /\ Z.max a b < k + 1 + j))).
  pose (I := fun (k j : Z) (s : list Z) =>
    length s = length dst /\
    (forall a b, 0 <= a < width -> 0 <= b < width ->
       (SW k j a b -> rd s (off + (a * dstStride + b)) = rd dst (off + (b * dstStride + a))) /\
       (~ SW k j a b -> rd s (off + (a * dstStride + b)) = rd dst (off + (a * dstStride + b)))) /\
    (forall pos, ~ in_block pos -> rd s pos = rd dst pos)).
  assert (Hfinal : I (Z.of_nat (Z.to_nat (width - 1))) 0
            (for_up (Z.to_nat (width - 1)) (fun y dst0 =>
               for_range (y + 1) (Z.to_nat (width - (y + 1))) (fun x dst1 =>
                 let tmp := rd dst1 (off + (y * dstStride + x)) in
                 let dst2 := aset dst1 (off + (y * dstStride + x))
                               (rd dst1 (off + (x * dstStride + y))) in
                 aset dst2 (off + (x * dstStride + y)) tmp) dst0) dst)).
  { apply (for_up_ind (fun k s => I k 0 s)).
    - split; [done|]. split; [|done]. intros a b Ha Hb. split; [|done].
      unfold SW. lia.
    - intros k s Hk HI. rewrite Z2Nat.id in Hk by lia.
      assert (Hrow : I k (Z.of_nat (Z.to_nat (width - (k + 1))))
                (for_range (k + 1) (Z.to_nat (width - (k + 1))) (fun x dst1 =>
                   let tmp := rd dst1 (off + (k * dstStride + x)) in
                   let dst2 := aset dst1 (off + (k * dstStride + x))
                                 (rd dst1 (off + (x * dstStride + k))) in
                   aset dst2 (off + (x * dstStride + k)) tmp) s)).
      { unfold for_range. apply (for_up_ind (fun j s => I k j s)); [exact HI|].
        intros j s' Hj (Hl & Hblk & Hout). rewrite Z2Nat.id in Hj by lia.
        cbv zeta. set (x := k + 1 + j).
        pose proof (block_idx_in dst k x Hlen ltac:(lia) ltac:(lia)) as Hkx.
        pose proof (block_idx_in dst x k Hlen ltac:(lia) ltac:(lia)) as Hxk.
        assert (Hne : off + (k * dstStride + x) <> off + (x * dstStride + k)).
        { intros Heq. apply block_idx_inj in Heq; lia. }
        split; [|split].
        - by rewrite !length_aset.
        - intros a b Ha Hb.
          destruct (Z.eq_dec a k) as [Eak|Nak]; [destruct (Z.eq_dec b x) as [Ebx|Nbx]|].
          + subst a b. split; [intros _|intros Hn; exfalso; apply Hn; unfold SW; lia].
            rewrite aget_aset_ne by lia.
            rewrite aget_aset_eq by (rewrite Hl; lia).
            apply (Hblk x k); [lia|lia|]. unfold SW. lia.
          + assert (Hd1 : off + (k * dstStride + x) <> off + (a * dstStride + b)).
            { intros Heq. apply block_idx_inj in Heq; lia. }
            assert (Hd2 : off + (x * dstStride + k) <> off + (a * dstStride + b)).
            { intros Heq. apply block_idx_inj in Heq; lia. }
            rewrite !aget_aset_ne by done.
            destruct (Hblk a b Ha Hb) as [Hs Hn]. subst a.
            split; intros HS; [apply Hs|apply Hn]; unfold SW in *; lia.
          + destruct (Z.eq_dec a x) as [Eax|Nax]; [destruct (Z.eq_dec b k) as [Ebk|Nbk]|].
            * subst a b. split; [intros _|intros Hn; exfalso; apply Hn; unfold SW; lia].
              rewrite aget_aset_eq by (rewrite length_aset, Hl; lia).
              apply (Hblk k x); [lia|lia|]. unfold SW. lia.
            * assert (Hd1 : off + (k * dstStride + x) <> off + (a * dstStride + b)).
              { intros Heq. apply block_idx_inj in Heq; lia. }
              assert (Hd2 : off + (x * dstStride + k) <> off + (a * dstStride + b)).
              { intros Heq. apply block_idx_inj in Heq; lia. }
              rewrite !aget_aset_ne by done.
              destruct (Hblk a b Ha Hb) as [Hs Hn].
              split; intros HS; [apply Hs|apply Hn]; unfold SW in *; lia.
            * assert (Hd1 : off + (k * dstStride + x) <> off + (a * dstStride + b)).
              { intros Heq. apply block_idx_inj in Heq; lia. }
              assert (Hd2 : off + (x * dstStride + k) <> off + (a * dstStride + b)).
              { intros Heq. apply block_idx_inj in Heq; lia. }
              rewrite !aget_aset_ne by done.
              destruct (Hblk a b Ha Hb) as [Hs Hn].
              split; intros HS; [apply Hs|apply Hn]; unfold SW in *; lia.
        - intros pos Hpos.
          rewrite !aget_aset_ne; [by apply Hout| |].
          + intros <-. apply Hpos. exists k, x. lia.
          + intros <-. apply Hpos. exists x, k. lia. }
      destruct Hrow as (Hl & Hblk & Hout). rewrite Z2Nat.id in Hblk by lia.
      split; [done|]. split; [|done].
      intros a b Ha Hb. destruct (Hblk a b Ha Hb) as [Hs Hn].
      split; intros HS; [apply Hs|apply Hn]; unfold SW in *; lia. }
  destruct Hfinal as (Hl & Hblk & Hout). rewrite Z2Nat.id in Hblk by lia.
  split; [done|]. split; [|done].
  intros y x Hy Hx. destruct (Z.eq_dec y x) as [->|Hne].
  - apply (Hblk x x); [lia|lia|]. unfold SW. lia.
  - apply (Hblk y x); [lia|lia|]. unfold SW. lia.
Qed.
End Block.



Lemma fill_loop_spec (n : nat) (idx val : Z -> Z) (a : list Z) :
  (forall i j, 0 <= i < Z.of_nat n -> 0 <= j < Z.of_nat n -> idx i = idx j -> i = j) ->
  (forall i, 0 <= i < Z.of_nat n -> 0 <= idx i < Z.of_nat (length a)) ->
  let r := for_up n (fun x a => aset a (idx x) (val x)) a in
  length r = length a /\
  (forall x, 0 <= x < Z.of_nat n -> rd r (idx x) = val x) /\
  (forall pos, (forall x, 0 <= x < Z.of_nat n -> idx x <> pos) -> rd r pos = rd a pos).
Proof.
  intros Hinj Hin r. subst r.
  apply (for_up_ind (fun k s =>
    length s = length a /\
    (forall x, 0 <= x < k -> rd s (idx x) = val x) /\
    (forall pos, (forall x, 0 <= x < k -> idx x <> pos) -> rd s pos = rd a pos))).
  - split; [done|]. split; [intros; lia|done].
  - intros k s Hk (Hl & Hhit & Hmiss). split; [|split].
    + by rewrite length_aset.
    + intros x Hx. destruct (Z.eq_dec x k) as [->|Hne].
      * apply aget_aset_eq. rewrite Hl. apply Hin. lia.
      * rewrite aget_aset_ne by (intros Heq; apply Hinj in Heq; lia). apply Hhit. lia.
    + intros pos Hpos. rewrite aget_aset_ne by (apply Hpos; lia).
      apply Hmiss. intros x Hx. apply Hpos. lia.
Qed.

Section Angular.
Context `{Config}.
Variables (x265_clip : Z -> Z) (neighbourBuf refBuf : list Z).
Variables (width : Z) (dst : list Z) (off dstStride : Z).
Hypothesis width_pos : 0 < width.
Hypothesis stride_block : width <= dstStride.
Hypothesis off_nonneg : 0 <= off.
Hypothesis block_in_dst : off + ((width - 1) * dstStride + width) <= Z.of_nat (length dst).

Local Abbreviation in_block := (in_block off dstStride width).

Lemma ang_rows_spec (refArr : list Z) (ref angle : Z) :
  let r := (for_up (Z.to_nat width) (fun y '(dst, angleSum) =>
         let angleSum := angleSum + angle in
         let offset := angleSum ≫ 5 in
         let fraction := Z.land angleSum 31 in
         let dst :=
           if nz fraction then
             for_up (Z.to_nat width) (fun x dst =>
               aset dst (off + (y * dstStride + x))
                 (to_pixel (((32 - fraction) * rd refArr (ref + (offset + x))
                             + fraction * rd refArr (ref + (offset + x + 1)) + 16) ≫ 5))) dst
           else
             for_up (Z.to_nat width) (fun x dst =>
               aset dst (off + (y * dstStride + x)) (rd refArr (ref + (offset + x)))) dst in
         (dst, angleSum)) (dst, 0)).1 in
  length r = length dst /\
  (forall y x, 0 <= y < width -> 0 <= x < width ->
     rd r (off + (y * dstStride + x)) = ang_sample refArr ref angle y x) /\
  (forall pos, ~ in_block pos -> rd r pos = rd dst pos).
Proof.
  cbv zeta.
  match goal with |- context [for_up ?n ?f (dst, 0)] => set (body := f) end.
  assert (Hinv : let st := for_up (Z.to_nat width) body (dst, 0) in
    st.2 = Z.of_nat (Z.to_nat width) * angle /\ length st.1 = length dst /\
    (forall y x, 0 <= y < Z.of_nat (Z.to_nat width) -> 0 <= x < width ->
       rd st.1 (off + (y * dstStride + x)) = ang_sample refArr ref angle y x) /\
    (forall pos, ~ in_block pos -> rd st.1 pos = rd dst pos)).
  { apply (for_up_ind (fun k st =>
      st.2 = k * angle /\ length st.1 = length dst /\
      (forall y x, 0 <= y < k -> 0 <= x < width ->
         rd st.1 (off + (y * dstStride + x)) = ang_sample refArr ref angle y x) /\
      (forall pos, ~ in_block pos -> rd st.1 pos = rd dst pos))).
    - simpl. split; [lia|]. split; [done|]. split; [intros; lia|done].
    - intros k [d sum] Hk (Hsum & Hl & Hrows & Hout). simpl in Hsum, Hl, Hrows, Hout.
      rewrite Z2Nat.id in Hk by lia. subst sum. unfold body. cbv zeta.
      replace (k * angle + angle) with ((k + 1) * angle) by lia.
      set (row := if nz _ then _ else _).
      assert (Hrow : length row = length d /\
                (forall x, 0 <= x < width ->
                   rd row (off + (k * dstStride + x)) = ang_sample refArr ref angle k x) /\
                (forall pos, (forall x, 0 <= x < width -> off + (k * dstStride + x) <> pos) ->
                   rd row pos = rd d pos)).
      { assert (Hi : forall i j, 0 <= i < Z.of_nat (Z.to_nat width) ->
                  0 <= j < Z.of_nat (Z.to_nat width) ->
                  off + (k * dstStride + i) = off + (k * dstStride + j) -> i = j)
          by (intros; lia).
        assert (Hb : forall i, 0 <= i < Z.of_nat (Z.to_nat width) ->
                  0 <= off + (k * dstStride + i) < Z.of_nat (length d)).
        { intros i Hi'. rewrite Hl. apply (block_idx_in off dstStride width); lia. }
        subst row. unfold ang_sample. cbv zeta.
        destruct (nz (Z.land ((k + 1) * angle) 31)).
        - pose proof (fill_loop_spec (Z.to_nat width) (fun x => off + (k * dstStride + x))
            (fun x => to_pixel (((32 - Z.land ((k + 1) * angle) 31)
                        * rd refArr (ref + (((k + 1) * angle) ≫ 5 + x))
                      + Z.land ((k + 1) * angle) 31
                        * rd refArr (ref + (((k + 1) * angle) ≫ 5 + x + 1)) + 16) ≫ 5))
            d Hi Hb) as Hf.
          cbv zeta beta in Hf. rewrite Z2Nat.id in Hf by lia. exact Hf.
        - pose proof (fill_loop_spec (Z.to_nat width) (fun x => off + (k * dstStride + x))
            (fun x => rd refArr (ref + (((k + 1) * angle) ≫ 5 + x))) d Hi Hb) as Hf.
          cbv zeta beta in Hf. rewrite Z2Nat.id in Hf by lia. exact Hf. }
      destruct Hrow as (Lr & Hhit & Hmiss). simpl.
      split; [done|]. split; [congruence|]. split.
      + intros y x Hy Hx. destruct (Z.eq_dec y k) as [->|Hne]; [by apply Hhit|].
        rewrite Hmiss; [apply Hrows; lia|].
        intros x' Hx' Heq. apply (block_idx_inj off dstStride width) in Heq; lia.
      + intros pos Hpos. rewrite Hmiss; [by apply Hout|].
        intros x Hx <-. apply Hpos. exists k, x. lia. }
  cbv zeta in Hinv. destruct Hinv as (_ & Hl & Hrows & Hout).
  rewrite Z2Nat.id in Hrows by lia. done.
Qed.

Lemma ang_core_spec (src : list Z) (angleOffset : Z) (bFilter : bool) :
  let angle := rd angleTable (8 + angleOffset) in
  let r :=
    if angle =? 0 then
      let dst :=
        for_up (Z.to_nat width) (fun y dst =>
          for_up (Z.to_nat width) (fun x dst =>
            aset dst (off + (y * dstStride + x)) (rd src (1 + x))) dst) dst in
      if bFilter then
        let topLeft := rd src 0 in
        let top := rd src 1 in
        for_up (Z.to_nat width) (fun y dst =>
          aset dst (off + y * dstStride)
            (x265_clip (s16 (top + ((rd src (width ≪ 1 + 1 + y) - topLeft) ≫ 1))))) dst
      else dst
    else
      let '(refArr, ref) := ang_reference refBuf width src angleOffset angle in
      (for_up (Z.to_nat width) (fun y '(dst, angleSum) =>
         let angleSum := angleSum + angle in
         let offset := angleSum ≫ 5 in
         let fraction := Z.land angleSum 31 in
         let dst :=
           if nz fraction then
             for_up (Z.to_nat width) (fun x dst =>
               aset dst (off + (y * dstStride + x))
                 (to_pixel (((32 - fraction) * rd refArr (ref + (offset + x))
                             + fraction * rd refArr (ref + (offset + x + 1)) + 16) ≫ 5))) dst
           else
             for_up (Z.to_nat width) (fun x dst =>
               aset dst (off + (y * dstStride + x)) (rd refArr (ref + (offset + x)))) dst in
         (dst, angleSum)) (dst, 0)).1 in
  length r = length dst /\
  (forall y x, 0 <= y < width -> 0 <= x < width ->
     rd r (off + (y * dstStride + x))
     = ang_value x265_clip refBuf width src angleOffset bFilter y x) /\
  (forall pos, ~ in_block pos -> rd r pos = rd dst pos).
Proof.
  intros angle r. subst r. unfold ang_value. fold angle.
  destruct (angle =? 0).
  - cbv zeta.
    change (for_up (Z.to_nat width) _ dst) with
      (fill2 (Z.to_nat width) (Z.to_nat width) (fun y x => off + (y * dstStride + x))
         (fun _ x => rd src (1 + x)) dst).
    set (d0 := fill2 _ _ _ _ dst).
    assert (L0 : length d0 = length dst) by apply fill2_length.
    assert (Hd0 : forall y x, 0 <= y < width -> 0 <= x < width ->
              rd d0 (off + (y * dstStride + x)) = rd src (1 + x)).
    { intros y x Hy Hx. apply fill2_agree.
      - intros k l Hk Hl Heq. rewrite Z2Nat.id in Hk, Hl by lia.
        apply (block_idx_inj off dstStride width) in Heq; [|lia..].
        destruct Heq as [_ ->]. reflexivity.
      - right. split; [apply (block_idx_in off dstStride width); lia|].
        exists y, x. rewrite !Z2Nat.id by lia. lia. }
    assert (Hout0 : forall pos, ~ in_block pos -> rd d0 pos = rd dst pos).
    { intros pos Hpos. apply fill2_other. intros k l Hk Hl <-.
      rewrite Z2Nat.id in Hk, Hl by lia. apply Hpos. exists k, l. lia. }
    destruct bFilter; cbn [andb]; [|split; [done|]; split; [|done]; intros; by apply Hd0].
    destruct (fill_loop_spec (Z.to_nat width) (fun y => off + y * dstStride)
       (fun y => x265_clip (s16 (rd src 1 + ((rd src (width ≪ 1 + 1 + y) - rd src 0) ≫ 1)))) d0)
      as (L1 & Hhit & Hmiss).
    { intros i j Hi Hj Heq. nia. }
    { intros i Hi. rewrite L0. rewrite Z2Nat.id in Hi by lia.
      pose proof (block_idx_in off dstStride width width_pos stride_block off_nonneg dst i 0
                    block_in_dst ltac:(lia) ltac:(lia)). lia. }
    cbv beta in L1, Hhit, Hmiss. rewrite Z2Nat.id in Hhit, Hmiss by lia.
    split; [congruence|]. split.
    + intros y x Hy Hx. destruct (Z.eqb_spec x 0) as [->|Hx0].
      * replace (off + (y * dstStride + 0)) with (off + y * dstStride) by lia.
        by apply Hhit.
      * rewrite Hmiss; [by apply Hd0|]. intros y' Hy' Heq.
        assert (Heq' : off + (y' * dstStride + 0) = off + (y * dstStride + x)) by lia.
        apply (block_idx_inj off dstStride width) in Heq'; lia.
    + intros pos Hpos. rewrite Hmiss; [by apply Hout0|].
      intros y Hy <-. apply Hpos. exists y, 0. lia.
  - destruct (ang_reference refBuf width src angleOffset angle) as [refArr ref].
    apply ang_rows_spec.
Qed.

Lemma ang_spec (src : list Z) (dirMode : Z) (bFilter : bool) :
  let r := intra_pred_ang_c_new x265_clip neighbourBuf refBuf width dst off dstStride
             src dirMode bFilter in
  length r = length dst /\
  (forall y x, 0 <= y < width -> 0 <= x < width ->
     rd r (off + (y * dstStride + x))
     = if dirMode <? 18
       then ang_value x265_clip refBuf width (flip_neighbours neighbourBuf width src)
              (10 - dirMode) bFilter x y
       else ang_value x265_clip refBuf width src (dirMode - 26) bFilter y x) /\
  (forall pos, ~ in_block pos -> rd r pos = rd dst pos).
Proof.
  intros r. subst r. unfold intra_pred_ang_c_new. cbv zeta.
  destruct (dirMode <? 18).
  - pose proof (ang_core_spec (flip_neighbours neighbourBuf width src) (10 - dirMode) bFilter)
      as Hcore. cbv zeta in Hcore.
    match type of Hcore with length ?c = _ /\ _ => set (core := c) in * end.
    destruct Hcore as (Lc & Hblk & Hout).
    destruct (flip_block_spec off dstStride width width_pos stride_block off_nonneg core)
      as (Lf & Hfb & Hfo); [by rewrite Lc|].
    split; [congruence|]. split.
    + intros y x Hy Hx. rewrite Hfb by done. by apply Hblk.
    + intros pos Hpos. rewrite Hfo by done. by apply Hout.
  - apply (ang_core_spec src (dirMode - 26) bFilter).
Qed.
End Angular.


Lemma interp_between (f a b : Z) :
  0 <= f < 32 ->
  Z.min a b <= ((32 - f) * a + f * b + 16) ≫ 5 <= Z.max a b.
Proof.
  intros Hf. rewrite Z.shiftr_div_pow2 by lia. change (2 ^ 5) with 32. split.
  - apply Z.div_le_lower_bound; [lia|]. nia.
  - apply Z.lt_succ_r. apply Z.div_lt_upper_bound; [lia|]. nia.
Qed.

Lemma land_31_range (s : Z) : 0 <= Z.land s 31 < 32.
Proof.
  replace (Z.land s 31) with (s mod 2 ^ 5) by (symmetry; apply (Z.land_ones s 5); lia).
  apply Z.mod_pos_bound. lia.
Qed.

Section AngularModes.
Context `{Config}.
Variables (x265_clip : Z -> Z) (neighbourBuf refBuf : list Z).
Variables (width : Z) (dst : list Z) (off dstStride : Z) (srcPix : list Z).
Hypothesis width_pos : 0 < width.
Hypothesis stride_block : width <= dstStride.
Hypothesis off_nonneg : 0 <= off.
Hypothesis block_in_dst : off + ((width - 1) * dstStride + width) <= Z.of_nat (length dst).

Local Abbreviation ang :=
  (intra_pred_ang_c_new x265_clip neighbourBuf refBuf width dst off dstStride).

(** Mode 26 (pure vertical): every row is a copy of the top reference row;
    with the filter on, the first column is the top sample corrected by half
    the gradient of the left column, clipped. *)
Theorem intra_pred_ang_vertical (bFilter : bool) (y x : Z) :
  0 <= y < width -> 0 <= x < width ->
  rd (ang srcPix 26 bFilter) (off + (y * dstStride + x))
  = if bFilter && (x =? 0)
    then x265_clip (s16 (rd srcPix 1
                         + ((rd srcPix (2 * width + 1 + y) - rd srcPix 0) ≫ 1)))
    else rd srcPix (1 + x).
Proof.
  intros Hy Hx.
  destruct (ang_spec x265_clip neighbourBuf refBuf width dst off dstStride
              width_pos stride_block off_nonneg block_in_dst srcPix 26 bFilter)
    as (_ & Hv & _).
  rewrite Hv by done. cbn [Z.ltb Z.compare Pos.compare Pos.compare_cont].
  unfold ang_value. rewrite shiftl_1_double. reflexivity.
Qed.

(** Mode 10 (pure horizontal): every column is a copy of the left reference
    column; with the filter on, the first row is the left sample corrected
    by half the gradient of the top row, clipped. *)
Theorem intra_pred_ang_horizontal (bFilter : bool) (y x : Z) :
  4 * width + 1 <= Z.of_nat (length neighbourBuf) ->
  0 <= y < width -> 0 <= x < width ->
  rd (ang srcPix 10 bFilter) (off + (y * dstStride + x))
  = if bFilter && (y =? 0)
    then x265_clip (s16 (rd srcPix (2 * width + 1)
                         + ((rd srcPix (1 + x) - rd srcPix 0) ≫ 1)))
    else rd srcPix (2 * width + 1 + y).
Proof.
  intros Hnb Hy Hx.
  destruct (ang_spec x265_clip neighbourBuf refBuf width dst off dstStride
              width_pos stride_block off_nonneg block_in_dst srcPix 10 bFilter)
    as (_ & Hv & _).
  rewrite Hv by done. cbn [Z.ltb Z.compare Pos.compare Pos.compare_cont].
  destruct (flip_neighbours_spec neighbourBuf width srcPix ltac:(lia) Hnb) as (H0 & Hsw).
  unfold ang_value. rewrite shiftl_1_double. cbn [Z.sub Z.add Z.opp Z.pos_sub Z.eqb].
  change (rd angleTable (8 + 0) =? 0) with true. cbv iota.
  rewrite H0.
  destruct (Hsw 0 ltac:(lia)) as [Ht _]. rewrite !Z.add_0_r in Ht. rewrite Ht.
  destruct (Hsw x ltac:(lia)) as [_ Hl]. rewrite Hl.
  destruct (Hsw y ltac:(lia)) as [Ha _]. rewrite Ha.
  reflexivity.
Qed.

(** A horizontal mode is the transpose of the vertical mode [36 - dirMode]
    run on the neighbours with top and left exchanged, which is what
    [flip_neighbours] holds. *)
Theorem intra_pred_ang_transpose (dirMode : Z) (bFilter : bool) (y x : Z) :
  dirMode < 18 ->
  4 * width + 1 <= Z.of_nat (length neighbourBuf) ->
  0 <= y < width -> 0 <= x < width ->
  let flipped := flip_neighbours neighbourBuf width srcPix in
  (rd flipped 0 = rd srcPix 0 /\
   forall i, 0 <= i < 2 * width ->
     rd flipped (1 + i) = rd srcPix (2 * width + 1 + i) /\
     rd flipped (2 * width + 1 + i) = rd srcPix (1 + i)) /\
  rd (ang srcPix dirMode bFilter) (off + (y * dstStride + x))
  = rd (ang flipped (36 - dirMode) bFilter) (off + (x * dstStride + y)).
Proof.
  intros Hm Hnb Hy Hx flipped. split.
  { apply flip_neighbours_spec; lia. }
  destruct (ang_spec x265_clip neighbourBuf refBuf width dst off dstStride
              width_pos stride_block off_nonneg block_in_dst srcPix dirMode bFilter)
    as (_ & Hv & _).
  destruct (ang_spec x265_clip neighbourBuf refBuf width dst off dstStride
              width_pos stride_block off_nonneg block_in_dst flipped (36 - dirMode) bFilter)
    as (_ & Hv' & _).
  rewrite Hv, Hv' by done.
  destruct (Z.ltb_spec dirMode 18); [|lia]. destruct (Z.ltb_spec (36 - dirMode) 18); [lia|].
  replace (36 - dirMode - 26) with (10 - dirMode) by lia. reflexivity.
Qed.

(** Modes 27 to 34 (positive angle) interpolate in the top reference row:
    with [s = (y + 1) * angle], the sample in row [y], column [x] is the
    mean of [srcPix[1 + (s >> 5) + x]] and its right neighbour weighted by
    [32 - (s & 31)] and [s & 31], so it lies between the two. *)
Theorem intra_pred_ang_positive (dirMode : Z) (bFilter : bool) (y x : Z) :
  26 < dirMode <= 34 -> 0 <= pixel_bits ->
  0 <= y < width -> 0 <= x < width ->
  let s := (y + 1) * rd angleTable (dirMode - 18) in
  let a := rd srcPix (1 + (s ≫ 5 + x)) in
  let b := rd srcPix (1 + (s ≫ 5 + x + 1)) in
  0 <= a < 2 ^ pixel_bits -> 0 <= b < 2 ^ pixel_bits ->
  let v := rd (ang srcPix dirMode bFilter) (off + (y * dstStride + x)) in
  v = ((32 - Z.land s 31) * a + Z.land s 31 * b + 16) ≫ 5 /\
  Z.min a b <= v <= Z.max a b.
Proof.
  intros Hm Hbits Hy Hx s a b Ha Hb v.
  pose proof (land_31_range s) as Hf.
  pose proof (interp_between (Z.land s 31) a b Hf) as Hbt.
  assert (Hv : v = ((32 - Z.land s 31) * a + Z.land s 31 * b + 16) ≫ 5).
  { subst v.
    destruct (ang_spec x265_clip neighbourBuf refBuf width dst off dstStride
                width_pos stride_block off_nonneg block_in_dst srcPix dirMode bFilter)
      as (_ & Hv & _).
    rewrite Hv by done. destruct (Z.ltb_spec dirMode 18); [lia|].
    unfold ang_value. replace (8 + (dirMode - 26)) with (dirMode - 18) by lia.
    assert (Hang : 0 < rd angleTable (dirMode - 18)).
    { assert (Em : dirMode = 27 \/ dirMode = 28 \/ dirMode = 29 \/ dirMode = 30 \/
                  dirMode = 31 \/ dirMode = 32 \/ dirMode = 33 \/ dirMode = 34) by lia.
      destruct Em as [-> | [-> | [-> | [-> | [-> | [-> | [-> | ->]]]]]]]; reflexivity. }
    destruct (Z.eqb_spec (rd angleTable (dirMode - 18)) 0); [lia|].
    unfold ang_reference. destruct (Z.ltb_spec (rd angleTable (dirMode - 18)) 0); [lia|].
    unfold ang_sample. cbv zeta. fold s. fold a. fold b.
    unfold nz. destruct (Z.eqb_spec (Z.land s 31) 0) as [E|E]; cbn [negb].
    - rewrite E. rewrite Z.shiftr_div_pow2 by lia. change (2 ^ 5) with 32.
      apply (Z.div_unique _ _ _ 16); lia.
    - unfold to_pixel. apply Z.mod_small. lia. }
  split; [exact Hv|]. rewrite Hv. exact Hbt.
Qed.
End AngularModes.


Section AllAngs.
Context `{Config}.
Variables (g_intraFilterFlags : Z -> Z) (x265_clip : Z -> Z) (neighbourBuf refBuf : list Z).
Variables (log2Size : Z) (dest refPix filtPix : list Z) (bLuma : bool).
Hypothesis log2_nonneg : 0 <= log2Size.
Hypothesis dest_len : 33 * (1 ≪ log2Size * 1 ≪ log2Size) <= Z.of_nat (length dest).

Local Abbreviation N := (1 ≪ log2Size).
Local Abbreviation src_of := (fun mode =>
  if nz (Z.land (g_intraFilterFlags mode) N) then filtPix else refPix).
Local Abbreviation out_of := (fun mode => (mode - 2) ≪ (log2Size * 2)).

Lemma all_angs_N_pos : 0 < N.
Proof. rewrite Z.shiftl_1_l. apply pow2_pos. done. Qed.

Lemma all_angs_out (mode : Z) : out_of mode = (mode - 2) * (N * N).
Proof.
  cbv beta. rewrite Z.shiftl_mul_pow2 by lia. rewrite Z.shiftl_1_l.
  replace (log2Size * 2) with (log2Size + log2Size) by lia.
  rewrite Z.pow_add_r by lia. reflexivity.
Qed.

(** [all_angs_pred_c_new] stores the prediction of mode [m] in the block
    at [(m - 2) << (2 * log2Size)]; the block of a horizontal mode is
    transposed back, so it holds the prediction before the final flip. *)
Theorem all_angs_pred_blocks (mode y x : Z) :
  2 <= mode <= 34 -> 0 <= y < N -> 0 <= x < N ->
  rd (all_angs_pred_c_new g_intraFilterFlags x265_clip neighbourBuf refBuf log2Size
        dest refPix filtPix bLuma) (out_of mode + (y * N + x))
  = rd (intra_pred_ang_c_new x265_clip neighbourBuf refBuf N dest (out_of mode) N
          (src_of mode) mode bLuma)
       (out_of mode + (if mode <? 18 then x * N + y else y * N + x)).
Proof.
  intros Hm Hy Hx. pose proof all_angs_N_pos as HN.
  pose (W := fun (m a b : Z) =>
    if m <? 18
    then ang_value x265_clip refBuf N (flip_neighbours neighbourBuf N (src_of m))
           (10 - m) bLuma a b
    else ang_value x265_clip refBuf N (src_of m) (m - 26) bLuma a b).
  assert (Hblk : forall m (d : list Z), 2 <= m <= 34 -> length d = length dest ->
    out_of m + ((N - 1) * N + N) <= Z.of_nat (length d)).
  { intros m d Hm' Hl. rewrite Hl, all_angs_out. nia. }
  assert (Hout0 : forall m, 2 <= m -> 0 <= out_of m).
  { intros m Hm'. rewrite all_angs_out. nia. }
  assert (Hstep : forall m (d : list Z), 2 <= m <= 34 -> length d = length dest ->
    let d1 := intra_pred_ang_c_new x265_clip neighbourBuf refBuf N d (out_of m) N
                (src_of m) m bLuma in
    let d2 := if m <? 18 then flip_block d1 (out_of m) N N else d1 in
    length d2 = length dest /\
    (forall a b, 0 <= a < N -> 0 <= b < N -> rd d2 (out_of m + (a * N + b)) = W m a b) /\
    (forall pos, ~ in_block (out_of m) N N pos -> rd d2 pos = rd d pos)).
  { intros m d Hm' Hl d1 d2.
    destruct (ang_spec x265_clip neighbourBuf refBuf N d (out_of m) N HN ltac:(lia)
                (Hout0 m ltac:(lia)) (Hblk m d Hm' Hl) (src_of m) m bLuma)
      as (L1 & Hv1 & Ho1). fold d1 in L1, Hv1, Ho1.
    subst d2. unfold W. destruct (m <? 18).
    - destruct (flip_block_spec (out_of m) N N HN ltac:(lia) (Hout0 m ltac:(lia)) d1)
        as (L2 & Hv2 & Ho2); [rewrite L1; by apply Hblk|].
      split; [congruence|]. split.
      + intros a b Ha Hb. rewrite Hv2, Hv1 by done. reflexivity.
      + intros pos Hpos. rewrite Ho2, Ho1 by done. reflexivity.
    - split; [congruence|]. split; [|done]. intros a b Ha Hb. by apply Hv1. }
  assert (Hloop : let r := all_angs_pred_c_new g_intraFilterFlags x265_clip neighbourBuf
                    refBuf log2Size dest refPix filtPix bLuma in
    length r = length dest /\
    forall m a b, 2 <= m < 2 + Z.of_nat 33 -> 0 <= a < N -> 0 <= b < N ->
      rd r (out_of m + (a * N + b)) = W m a b).
  { unfold all_angs_pred_c_new, for_range. cbv zeta.
    apply (for_up_ind (fun k s =>
      length s = length dest /\
      forall m a b, 2 <= m < 2 + k -> 0 <= a < N -> 0 <= b < N ->
        rd s (out_of m + (a * N + b)) = W m a b)).
    - split; [done|]. intros; lia.
    - intros k s Hk (Hl & Hdone).
      destruct (Hstep (2 + k) s ltac:(lia) Hl) as (L2 & Hv2 & Ho2).
      split; [exact L2|]. intros m a b Hm' Ha Hb.
      destruct (Z.eq_dec m (2 + k)) as [->|Hne]; [by apply Hv2|].
      etrans; [apply Ho2|apply Hdone; lia].
      intros (a' & b' & Ha' & Hb' & Heq). rewrite !all_angs_out in Heq. nia. }
  cbv zeta in Hloop. destruct Hloop as (_ & Hall).
  rewrite Hall by lia.
  destruct (ang_spec x265_clip neighbourBuf refBuf N dest (out_of mode) N HN ltac:(lia)
              (Hout0 mode ltac:(lia)) (Hblk mode dest Hm eq_refl) (src_of mode) mode bLuma)
    as (_ & Hv & _).
  unfold W. destruct (mode <? 18); rewrite Hv by done; reflexivity.
Qed.
End AllAngs.

Lemma intra_pred_ang_vertical_witness :
  rd (intra_pred_ang_c_new (Clip3 0 255) (replicate 129 0) (replicate 64 0) 4
        (replicate 16 0) 0 4 planar_sample_ref 26 true) (0 + (1 * 4 + 0))
  = (if true && (0 =? 0)
     then Clip3 0 255 (s16 (rd planar_sample_ref 1
            + ((rd planar_sample_ref (2 * 4 + 1 + 1) - rd planar_sample_ref 0) ≫ 1)))
     else rd planar_sample_ref (1 + 0)).
Proof. apply intra_pred_ang_vertical; simpl; lia. Defined.

Lemma intra_pred_ang_horizontal_witness :
  rd (intra_pred_ang_c_new (Clip3 0 255) (replicate 129 0) (replicate 64 0) 4
        (replicate 16 0) 0 4 planar_sample_ref 10 false) (0 + (1 * 4 + 2))
  = (if false && (1 =? 0)
     then Clip3 0 255 (s16 (rd planar_sample_ref (2 * 4 + 1)
            + ((rd planar_sample_ref (1 + 2) - rd planar_sample_ref 0) ≫ 1)))
     else rd planar_sample_ref (2 * 4 + 1 + 1)).
Proof. apply intra_pred_ang_horizontal; simpl; lia. Defined.

Lemma intra_pred_ang_transpose_witness :
  let flipped := flip_neighbours (replicate 129 0) 4 planar_sample_ref in
  (rd flipped 0 = rd planar_sample_ref 0 /\
   forall i, 0 <= i < 2 * 4 ->
     rd flipped (1 + i) = rd planar_sample_ref (2 * 4 + 1 + i) /\
     rd flipped (2 * 4 + 1 + i) = rd planar_sample_ref (1 + i)) /\
  rd (intra_pred_ang_c_new (Clip3 0 255) (replicate 129 0) (replicate 64 0) 4
        (replicate 16 0) 0 4 planar_sample_ref 5 false) (0 + (1 * 4 + 2))
  = rd (intra_pred_ang_c_new (Clip3 0 255) (replicate 129 0) (replicate 64 0) 4
          (replicate 16 0) 0 4 flipped (36 - 5) false) (0 + (2 * 4 + 1)).
Proof. apply intra_pred_ang_transpose; simpl; lia. Defined.

Lemma intra_pred_ang_positive_witness :
  let s := (1 + 1) * rd angleTable (30 - 18) in
  let a := rd planar_sample_ref (1 + (s ≫ 5 + 2)) in
  let b := rd planar_sample_ref (1 + (s ≫ 5 + 2 + 1)) in
  let v := rd (intra_pred_ang_c_new (Clip3 0 255) (replicate 129 0) (replicate 64 0) 4
                 (replicate 16 0) 0 4 planar_sample_ref 30 false) (0 + (1 * 4 + 2)) in
  v = ((32 - Z.land s 31) * a + Z.land s 31 * b + 16) ≫ 5 /\
  Z.min a b <= v <= Z.max a b.
Proof.
  apply (intra_pred_ang_positive (Clip3 0 255) (replicate 129 0) (replicate 64 0) 4
           (replicate 16 0) 0 4 planar_sample_ref); try (simpl; lia);
    vm_compute; repeat split; discriminate.
Defined.

Lemma all_angs_pred_blocks_witness :
  rd (all_angs_pred_c_new (fun _ => 0) (Clip3 0 255) (replicate 129 0) (replicate 64 0) 2
        (replicate 528 0) planar_sample_ref planar_sample_ref_T true)
     ((5 - 2) ≪ (2 * 2) + (1 * 1 ≪ 2 + 2))
  = rd (intra_pred_ang_c_new (Clip3 0 255) (replicate 129 0) (replicate 64 0) (1 ≪ 2)
          (replicate 528 0) ((5 - 2) ≪ (2 * 2)) (1 ≪ 2)
          (if nz (Z.land 0 (1 ≪ 2)) then planar_sample_ref_T else planar_sample_ref) 5 true)
       ((5 - 2) ≪ (2 * 2) + (if 5 <? 18 then 2 * 1 ≪ 2 + 1 else 1 * 1 ≪ 2 + 2)).
Proof.
  apply (all_angs_pred_blocks (fun _ => 0) (Clip3 0 255) (replicate 129 0) (replicate 64 0) 2
           (replicate 528 0) planar_sample_ref planar_sample_ref_T true);
    vm_compute; repeat split; discriminate.
Defined.

(** ** The levels [rdoQuant] chooses *)



Lemma s32_range (x : Z) : - 2 ^ 31 <= s32 x < 2 ^ 31.
Proof. unfold s32. pose proof (Z.mod_pos_bound (x + 2 ^ 31) (2 ^ 32) ltac:(lia)). lia. Qed.

Section RdoQuantCandidates.
Context `{Config}.
Variables (q : Quant) (cu : TComDataCU).
Variables (log2TrSize : Z) (ttype : TextType) (absPartIdx : Z) (usePsy : bool).

Local Abbreviation cp := (rq_codeParams cu log2TrSize ttype absPartIdx).
Local Abbreviation sc := (scan (rq_codeParams cu log2TrSize ttype absPartIdx)).
Local Abbreviation N2 := (1 ≪ (log2TrSize * 2)).
Local Abbreviation G := (1 ≪ (log2TrSizeCG cp * 2)).

Lemma rq_choose_level_cand scanPos blkPos maxAbsLevel signCoef predictedCoef gob lab
    goRice c1c2Idx baseLevel sigCoefBits cc cs :
  0 <= maxAbsLevel ->
  rdoq_candidate
    (rq_choose_level q cu log2TrSize ttype absPartIdx usePsy scanPos blkPos maxAbsLevel
       signCoef predictedCoef gob lab goRice c1c2Idx baseLevel sigCoefBits cc cs).1.1
    maxAbsLevel.
Proof.
  intros Hm. unfold rq_choose_level. destruct (nz maxAbsLevel) eqn:Enz; [|by left].
  assert (Hm1 : 1 <= maxAbsLevel).
  { unfold nz in Enz. destruct (Z.eqb_spec maxAbsLevel 0); [done|lia]. }
  apply (for_down_inv (fun st : Z * float * float => rdoq_candidate st.1.1 maxAbsLevel));
    [by left|].
  intros i [[level c] s] Hi Hl. simpl in Hl. unfold rq_level_step.
  match goal with |- context [if ?b then _ else _] => destruct b end; simpl; [|done].
  unfold rdoq_candidate. rewrite Z.abs_eq by lia.
  unfold X265_MAX in *. destruct (Z.gtb_spec (maxAbsLevel - 1) 1); lia.
Qed.

Lemma rq_coded_cand cgScanPos patternSigCtx scanPos blkPos maxAbsLevel signCoef predictedCoef
    scaledCoeff (s : rdoq) :
  0 <= maxAbsLevel ->
  let s' := rq_coded q cu log2TrSize ttype absPartIdx usePsy cgScanPos patternSigCtx scanPos
              blkPos maxAbsLevel signCoef predictedCoef scaledCoeff s in
  exists level, rdoq_candidate level maxAbsLevel /\
    dstCoeff s' = aset (dstCoeff s) blkPos level.
Proof.
  intros Hm s'. subst s'. unfold rq_coded. cbv zeta.
  match goal with |- context [match ?e with pair _ _ => _ end] => destruct e as [[[cc cs] srd] sb] end.
  match goal with |- context [rq_choose_level ?a1 ?a2 ?a3 ?a4 ?a5 ?a6 ?a7 ?a8 ?a9 ?a10 ?a11 ?a12
                                ?a13 ?a14 ?a15 ?a16 ?a17 ?a18 ?a19] =>
    pose proof (rq_choose_level_cand a7 a8 a9 a10 a11 a12 a13 a14 a15 a16 a17 a18 a19 Hm) as Hlev;
    destruct (rq_choose_level a1 a2 a3 a4 a5 a6 a7 a8 a9 a10 a11 a12 a13 a14 a15 a16 a17 a18 a19)
      as [[level cc'] cs'] end.
  simpl in Hlev. destruct_pairs. exists level. cbn. done.
Qed.

Lemma rq_coeff_step_cand scaledCoeff cgScanPos patternSigCtx cgBlkPosMask scanPosinCG (s : rdoq) :
  let scanPos := u32 ((cgScanPos ≪ MLS_CG_SIZE) + scanPosinCG) in
  let blkPos := sc scanPos in
  let s' := rq_coeff_step q cu log2TrSize ttype absPartIdx usePsy scaledCoeff cgScanPos
              patternSigCtx cgBlkPosMask scanPosinCG s in
  (lastScanPos s' < 0 /\ dstCoeff s' = dstCoeff s /\
   (lastScanPos s < 0 -> rd (dstCoeff s) blkPos = 0)) \/
  (exists level, rdoq_candidate level (rd (dstCoeff s) blkPos) /\
     dstCoeff s' = aset (dstCoeff s) blkPos level).
Proof.
  intros scanPos blkPos s'. subst s'. unfold rq_coeff_step. cbv zeta.
  fold scanPos. fold blkPos. cbn [lastScanPos cgLastScanPos dstCoeff].
  set (first := nz (Z.abs (rd (dstCoeff s) blkPos)) && (lastScanPos s <? 0)).
  destruct (Z.ltb_spec (if first then scanPos else lastScanPos s) 0) as [E|E].
  - left. cbn. split; [exact E|]. split; [done|]. intros Hls.
    subst first. destruct (Z.ltb_spec (lastScanPos s) 0); [|lia].
    rewrite andb_true_r in E. unfold nz in E.
    destruct (Z.eqb_spec (Z.abs (rd (dstCoeff s) blkPos)) 0); [lia|].
    cbn [negb] in E. unfold scanPos, u32 in E.
    pose proof (Z.mod_pos_bound (cgScanPos ≪ MLS_CG_SIZE + scanPosinCG) (2 ^ 32) ltac:(lia)).
    lia.
  - right.
    match goal with |- context [rq_coded ?a1 ?a2 ?a3 ?a4 ?a5 ?a6 ?a7 ?a8 ?a9 ?a10 ?a11 ?a12 ?a13
                                  ?a14 ?a15] =>
      destruct (rq_coded_cand a7 a8 a9 a10 a11 a12 a13 a14 a15 ltac:(lia))
        as (level & Hl & Hd)
    end.
    cbn [dstCoeff] in *. exists level. split; [|exact Hd].
    unfold rdoq_candidate in *. rewrite Z.abs_idemp in Hl. exact Hl.
Qed.

Hypothesis wf : codeParams_wf cp log2TrSize.
Hypothesis log2_range : 2 <= log2TrSize <= 5.

Local Abbreviation rq_cands := (rq_cands sc N2).


Lemma rq_coeff_step_cands (dst0 scaledCoeff : list Z) cg patternSigCtx cgBlkPosMask n (s : rdoq) :
  Z.of_nat (length dst0) = N2 -> 0 <= cg < G -> 0 <= n < 16 ->
  rq_inv sc N2 dst0 (16 * cg + n + 1) s -> rq_cands dst0 (16 * cg + n + 1) s ->
  rq_cands dst0 (16 * cg + n)
    (rq_coeff_step q cu log2TrSize ttype absPartIdx usePsy scaledCoeff cg patternSigCtx
       cgBlkPosMask n s).
Proof.
  intros Hlen Hcg Hn (Hl & Hlow & Hneg & Hpos) Hc.
  destruct (rq_scanPos_eq cu log2TrSize ttype absPartIdx wf log2_range cg n Hcg Hn)
    as (Hsp & _ & Hspr & Hshr).
  pose proof (rq_coeff_step_cand scaledCoeff cg patternSigCtx cgBlkPosMask n s) as Hp.
  cbv zeta in Hp. rewrite Hsp in Hp.
  set (s' := rq_coeff_step _ _ _ _ _ _ _ _ _ _ _ _) in *.
  set (p := 16 * cg + n) in *.
  pose proof (sc_range cu log2TrSize ttype absPartIdx wf p Hspr) as Hbr.
  assert (Hp0 : rd (dstCoeff s) (sc p) = rd dst0 (sc p)) by (apply Hlow; lia).
  intros pos Hpr.
  destruct Hp as [(Hls & Hd & Hz)|(level & Hlev & Hd)].
  - rewrite Hd. destruct (Z.eq_dec pos p) as [->|Hne]; [|apply Hc; lia].
    destruct (Z.ltb_spec (lastScanPos s) 0) as [Hlt|Hge].
    + left. by apply Hz.
    + exfalso. pose proof (rq_coeff_step_proj q cu log2TrSize ttype absPartIdx usePsy
                  scaledCoeff cg patternSigCtx cgBlkPosMask n s) as Hq.
      cbv zeta in Hq. destruct Hq as (Hq & _). fold s' in Hq.
      destruct (Z.ltb_spec (lastScanPos s) 0); [lia|].
      rewrite andb_false_r in Hq. lia.
  - rewrite Hd. destruct (Z.eq_dec pos p) as [->|Hne].
    + rewrite aget_aset_eq by lia. by rewrite <- Hp0.
    + rewrite aget_aset_ne; [apply Hc; lia|].
      intros Heq. apply (sc_inj cu log2TrSize ttype absPartIdx wf) in Heq; lia.
Qed.

Lemma rq_cg_step_cands (dst0 scaledCoeff : list Z) (cg : Z) (s : rdoq) :
  Z.of_nat (length dst0) = N2 -> 0 <= cg < G ->
  rq_inv sc N2 dst0 (16 * (cg + 1)) s -> rq_cands dst0 (16 * (cg + 1)) s ->
  rq_cands dst0 (16 * cg)
    (rq_cg_step q cu log2TrSize ttype absPartIdx usePsy scaledCoeff cg s).
Proof.
  intros Hlen Hcg Hinv Hc. unfold rq_cg_step. cbv zeta.
  match goal with |- context [for_down ?n ?f ?s0] =>
    assert (Hloop : rq_inv sc N2 dst0 (16 * cg + 0) (for_down n f s0) /\
                    rq_cands dst0 (16 * cg + 0) (for_down n f s0)) end.
  { apply (for_down_ind (fun n s => rq_inv sc N2 dst0 (16 * cg + n) s /\
                                    rq_cands dst0 (16 * cg + n) s)).
    - change (Z.of_nat (Z.to_nat rq_cgSize)) with 16.
      replace (16 * cg + 16) with (16 * (cg + 1)) by lia. split.
      + eapply (rq_inv_ext cu log2TrSize ttype absPartIdx); [| | |exact Hinv]; reflexivity.
      + exact Hc.
    - intros n s1 Hn [Hs1 Hc1]. change (Z.of_nat (Z.to_nat rq_cgSize)) with 16 in Hn.
      replace (16 * cg + (n + 1)) with (16 * cg + n + 1) in Hs1, Hc1 by lia. split.
      + by apply rq_coeff_step_inv.
      + by apply rq_coeff_step_cands. }
  rewrite Z.add_0_r in Hloop. destruct Hloop as [Hloop Hcl].
  match goal with |- context [rq_cg_summary _ _ _ _ _ ?a ?b ?c ?d ?s1] =>
    set (s2 := s1) in *;
    destruct (rq_cg_summary_proj q cu log2TrSize ttype absPartIdx a b c d s2)
      as (Hls & Hcl' & [Hd|(Hge & Hlt & Hd)]) end.
  - intros pos Hpr. rewrite Hd. by apply Hcl.
  - destruct Hloop as (Hl & _).
    assert (Hlen2 : Z.of_nat (length (dstCoeff s2)) = N2) by lia.
    destruct (rq_uncode_cg_dst cu log2TrSize ttype absPartIdx wf log2_range
                (costUncoded (tabs s2)) cg (dstCoeff s2) (costCoeff (tabs s2))
                (costSig (tabs s2)) Hcg Hlen2) as (Hul & Huz & Huo).
    cbv zeta in Hul, Huz, Huo. rewrite <- Hd in Hul, Huz, Huo.
    intros pos Hpr. destruct (Z_lt_dec pos (16 * cg + 16)) as [Hin|Hout].
    + left. replace pos with (16 * cg + (pos - 16 * cg)) by lia. apply Huz. lia.
    + rewrite Huo by lia. apply Hcl. lia.
Qed.

Lemma rq_main_cands (dst0 scaledCoeff : list Z) :
  Z.of_nat (length dst0) = N2 ->
  rq_cands dst0 0 (rq_main q cu log2TrSize ttype absPartIdx usePsy scaledCoeff dst0).
Proof.
  intros Hlen. unfold rq_main. rewrite (rq_cgNum_eq cu log2TrSize ttype absPartIdx wf log2_range).
  pose proof (rq_G cu log2TrSize ttype absPartIdx wf log2_range) as (HG & HGN & _).
  assert (Hboth : rq_inv sc N2 dst0 (16 * 0)
                    (for_down (Z.to_nat G)
                       (rq_cg_step q cu log2TrSize ttype absPartIdx usePsy scaledCoeff)
                       (rq_init dst0)) /\
                  rq_cands dst0 (16 * 0)
                    (for_down (Z.to_nat G)
                       (rq_cg_step q cu log2TrSize ttype absPartIdx usePsy scaledCoeff)
                       (rq_init dst0))).
  { apply (for_down_ind (fun cg s => rq_inv sc N2 dst0 (16 * cg) s /\
                                     rq_cands dst0 (16 * cg) s)).
    - rewrite Z2Nat.id by lia. split.
      + unfold rq_inv, rq_init. cbn [dstCoeff lastScanPos cgLastScanPos].
        split; [done|]. split; [done|]. split; [|lia]. intros _. repeat split; try done.
        intros; lia.
      + intros pos Hpr. lia.
    - intros cg s Hcg [Hs Hc]. rewrite Z2Nat.id in Hcg by lia. split.
      + by apply rq_cg_step_inv.
      + by apply rq_cg_step_cands. }
  destruct Hboth as [_ Hc]. exact Hc.
Qed.

Lemma rq_recount_abs (B : Z) (dst : list Z) (p : Z) :
  Z.abs (rd (rq_recount q cu log2TrSize ttype absPartIdx B dst).1 p) = Z.abs (rd dst p).
Proof.
  unfold rq_recount.
  apply (for_up_inv (fun st : list Z * Z => Z.abs (rd st.1 p) = Z.abs (rd dst p))); [done|].
  intros i [d ns] _ Hs. simpl in Hs. cbn [fst]. rewrite aget_aset.
  case_decide as Hd; [|done]. destruct Hd as [-> _]. rewrite <- Hs.
  rewrite (shiftr_31_sign (s32 _)) by apply s32_range.
  destruct (_ <? 0).
  - rewrite Z.lxor_m1_r. unfold Z.lnot. lia.
  - rewrite Z.lxor_0_r. lia.
Qed.

Lemma rq_clean_cases (B L : Z) (dst : list Z) (p : Z) :
  let d := rq_clean cu log2TrSize ttype absPartIdx B L dst in
  rd d p = 0 \/ rd d p = rd dst p.
Proof.
  cbv zeta. unfold rq_clean, for_range.
  apply (for_up_inv (fun d => rd d p = 0 \/ rd d p = rd dst p)); [by right|].
  intros i d _ Hs. rewrite aget_aset. case_decide; [by left|done].
Qed.

Lemma rq_signhide_by_one (t : rdoq_tabs) (cgLast : Z) (dst : list Z) (numSig : Z) (pos : Z) :
  cgLast < G -> 0 <= pos < N2 ->
  Z.abs (rd (rq_signhide q cu log2TrSize ttype absPartIdx t cgLast dst numSig).1 (sc pos)
         - rd dst (sc pos)) <= 1.
Proof.
  intros HcgL Hpos. unfold rq_signhide.
  pose proof (rq_G cu log2TrSize ttype absPartIdx wf log2_range) as (HG & HGN & HN).
  set (P := fun (i : Z) (st : list Z * Z * bool) =>
    (forall p, 0 <= p < 16 * i -> rd st.1.1 (sc p) = rd dst (sc p)) /\
    (forall p, 0 <= p < N2 -> Z.abs (rd st.1.1 (sc p) - rd dst (sc p)) <= 1)).
  match goal with |- context [for_down ?n ?f ?s0] => assert (HP : P 0 (for_down n f s0)) end.
  { apply for_down_ind.
    { subst P. cbn. split; [done|]. intros p Hp. rewrite Z.sub_diag. simpl. lia. }
    intros i [[c ns] lc] Hi (Hlow & Hone). simpl in Hlow, Hone.
    assert (Hig : 0 <= i < G) by lia.
    pose proof (rdsbh_cg_step_cases q cu log2TrSize ttype absPartIdx t (rq_rdFactor q ttype)
                False i c ns lc ltac:(done)) as Hcases.
    cbv zeta in Hcases.
    destruct Hcases as [[_ ->]|(l & Hlast & Hfl & Hcase)].
    { subst P. cbn [fst snd]. split; [|done]. intros p Hp. apply Hlow. lia. }
    rewrite shiftl_4 in Hlast, Hcase. destruct Hlast as (Hlr & _ & _).
    unfold SCAN_SET_SIZE in *.
    subst P. cbv beta.
    destruct Hcase as [Hr|(s & Hch & Hr)]; rewrite Hr; cbn [fst snd].
    { split; [|done]. intros p Hp. apply Hlow. lia. }
    destruct Hch as [(n & Hn & Hmp & Hfc & Hz0)|(_ & Hm)].
    - assert (Hn15 : n <= 15) by (destruct lc; lia).
      destruct (sbh_apply_fst c (m_resiDctCoeff q) ns (minPos s) (finalChange s) Hfc)
        as (v & -> & Hv).
      assert (Hne : forall p, 0 <= p < N2 -> p <> n + 16 * i -> minPos s <> sc p).
      { intros p Hp Hne. rewrite Hmp. intros Heq.
        apply (sc_inj cu log2TrSize ttype absPartIdx wf) in Heq; lia. }
      split.
      + intros p Hp. rewrite aget_aset_ne by (apply Hne; lia). apply Hlow. lia.
      + intros p Hp. destruct (Z.eq_dec p (n + 16 * i)) as [->|Hd].
        * rewrite <- Hmp. rewrite aget_aset.
          assert (Hu : rd c (minPos s) = rd dst (minPos s)) by (rewrite Hmp; apply Hlow; lia).
          case_decide; [lia|]. rewrite Hu, Z.sub_diag. simpl. lia.
        * rewrite aget_aset_ne by (by apply Hne). by apply Hone.
    - rewrite sbh_apply_untouched by lia. split; [|done]. intros p Hp. apply Hlow. lia. }
  destruct (for_down _ _ _) as [[c ns] lc]. destruct HP as (_ & H1). simpl in *. by apply H1.
Qed.

(** Every level [rdoQuant] returns is, up to the one step that sign hiding
    may add, one of the candidates of its coefficient: zero, the magnitude
    [n] that [nquant] produced, or [n - 1] when [n >= 2]. *)
Theorem rdoQuant_candidate_levels (coeff : list Z) (pos : Z) :
  Z.of_nat (length coeff) = N2 -> 0 <= pos < N2 ->
  exists c,
    rdoq_candidate c
      (rd (nquant_c (m_resiDctCoeff q) (rq_qCoef q cu log2TrSize ttype absPartIdx)
             (replicate (32 * 32) 0) coeff (rq_qbits q log2TrSize ttype)
             (rq_add q log2TrSize ttype) (rq_numCoeff log2TrSize)).1.2 (sc pos)) /\
    Z.abs (Z.abs (rd (rdoQuant q cu log2TrSize ttype absPartIdx usePsy coeff).1 (sc pos)) - c)
    <= if bSignHideEnabled cu then 1 else 0.
Proof.
  intros Hlen Hpos. unfold rdoQuant.
  assert (Hexact : forall v n, Z.abs v = Z.abs n ->
            exists c, rdoq_candidate c n /\
              Z.abs (Z.abs v - c) <= if bSignHideEnabled cu then 1 else 0).
  { intros v n Hv. exists (Z.abs n). split; [right; by left|].
    rewrite Hv, Z.sub_diag. destruct (bSignHideEnabled cu); simpl; lia. }
  pose proof (nquant_c_spec (m_resiDctCoeff q) (rq_qCoef q cu log2TrSize ttype absPartIdx)
                (replicate (32 * 32) 0) coeff (rq_qbits q log2TrSize ttype)
                (rq_add q log2TrSize ttype) (rq_numCoeff log2TrSize)) as Hnq.
  unfold rq_numCoeff in *.
  pose proof (rq_G cu log2TrSize ttype absPartIdx wf log2_range) as (HG & HGN & HN).
  specialize (Hnq ltac:(lia)). cbv zeta in Hnq.
  destruct (nquant_c _ _ _ _ _ _ _) as [[scaled dst] ns0]. cbn [fst snd] in *.
  destruct Hnq as [Hl0 _].
  destruct (ns0 =? 0); [by apply Hexact|].
  pose proof (rq_main_inv q cu log2TrSize ttype absPartIdx usePsy wf log2_range dst scaled
                ltac:(lia)) as Hinv.
  pose proof (rq_main_cands dst scaled ltac:(lia)) as Hc.
  set (s := rq_main q cu log2TrSize ttype absPartIdx usePsy scaled dst) in *.
  destruct (Z.ltb_spec (lastScanPos s) 0) as [Hlt|Hge]; cbn [fst].
  { destruct Hinv as (_ & _ & Hneg & _). destruct (Hneg Hlt) as (_ & _ & -> & _).
    by apply Hexact. }
  assert (HcgL : cgLastScanPos s < G).
  { destruct Hinv as (_ & _ & _ & Hp). destruct (Hp Hge) as (Hr & Hcgl & _).
    rewrite Hcgl, Z.shiftr_div_pow2 by lia. change (2 ^ 4) with 16.
    apply Z.div_lt_upper_bound; lia. }
  unfold rq_finish.
  destruct (rq_recount _ _ _ _ _ _ _) as [d1 ns1] eqn:Erc.
  pose proof (rq_recount_abs
                (bestLastIdx (rq_last q cu log2TrSize ttype absPartIdx s)) (dstCoeff s) (sc pos))
    as Habs. rewrite Erc in Habs. cbn [fst] in Habs.
  specialize (Hc pos ltac:(lia)).
  assert (Hc1 : rdoq_candidate (Z.abs (rd d1 (sc pos))) (rd dst (sc pos))).
  { rewrite Habs. unfold rdoq_candidate in *. lia. }
  set (d2 := rq_clean cu log2TrSize ttype absPartIdx
               (bestLastIdx (rq_last q cu log2TrSize ttype absPartIdx s)) (lastScanPos s) d1).
  assert (Hc2 : rdoq_candidate (Z.abs (rd d2 (sc pos))) (rd dst (sc pos))).
  { destruct (rq_clean_cases (bestLastIdx (rq_last q cu log2TrSize ttype absPartIdx s))
                (lastScanPos s) d1 (sc pos)) as [Hz|Hs]; fold d2 in Hz || fold d2 in Hs.
    - rewrite Hz. by left.
    - by rewrite Hs. }
  exists (Z.abs (rd d2 (sc pos))). split; [exact Hc2|].
  destruct (bSignHideEnabled cu); cbn [andb].
  - destruct (ns1 >=? 2); cbn [fst]; [|rewrite Z.sub_diag; simpl; lia].
    pose proof (rq_signhide_by_one (tabs s) (cgLastScanPos s) d2 ns1 pos HcgL Hpos). lia.
  - cbn [fst]. rewrite Z.sub_diag. simpl. lia.
Qed.

End RdoQuantCandidates.

Lemma rdoQuant_candidate_levels_witness :
  let q := sample_quant true 22 1%float rdoq_sample_resi in
  let cu := sample_cu false true true in
  exists c,
    rdoq_candidate c
      (rd (nquant_c (m_resiDctCoeff q) (rq_qCoef q cu 2 TEXT_LUMA 0)
             (replicate (32 * 32) 0) (replicate 16 0) (rq_qbits q 2 TEXT_LUMA)
             (rq_add q 2 TEXT_LUMA) (rq_numCoeff 2)).1.2
          (scan (rq_codeParams cu 2 TEXT_LUMA 0) 2)) /\
    Z.abs (Z.abs (rd (rdoQuant q cu 2 TEXT_LUMA 0 false (replicate 16 0)).1
                    (scan (rq_codeParams cu 2 TEXT_LUMA 0) 2)) - c)
    <= if bSignHideEnabled cu then 1 else 0.
Proof.
  intros q cu.
  apply (rdoQuant_candidate_levels q cu 2 TEXT_LUMA 0 false sample_codeParams_wf);
    [lia|reflexivity|change (1 ≪ (2 * 2)) with 16; lia].
Defined.

(** ** QP set-up for a coding unit *)

(** [setQPforQuant(cu)] sets the parameters of all three components from
    [qpy] and the two chroma offsets alone: nothing of the previous state
    survives.  Luma gets [qpy + QP_BD_OFFSET]; the two chroma components
    agree when their offsets do; and a chroma QP below 30 is not remapped. *)
Theorem setQPforQuant_cu_sets_all `{Config} (m1 m2 : TextType -> QpParam)
    (qpy chFmt chromaCbQpOffset chromaCrQpOffset : Z) :
  let m' := setQPforQuant_cu m1 qpy chFmt chromaCbQpOffset chromaCrQpOffset in
  (forall t, m' t = setQPforQuant_cu m2 qpy chFmt chromaCbQpOffset chromaCrQpOffset t) /\
  m' TEXT_LUMA = setQpParam (qpy + QP_BD_OFFSET) /\
  (chromaCbQpOffset = chromaCrQpOffset -> m' TEXT_CHROMA_U = m' TEXT_CHROMA_V) /\
  (- QP_BD_OFFSET <= qpy + chromaCbQpOffset < 30 ->
   m' TEXT_CHROMA_U = setQpParam (qpy + chromaCbQpOffset + QP_BD_OFFSET)).
Proof.
  intros m'. subst m'. unfold setQPforQuant_cu, setQPforQuant, qpParam_set. cbv zeta.
  split; [|split; [|split]].
  - intros []; reflexivity.
  - reflexivity.
  - intros ->. reflexivity.
  - intros Hq. cbn [TextType_eqb ttype_idx Z.eqb].
    assert (Hle : - QP_BD_OFFSET <= 57) by lia.
    destruct (Clip3_spec (- QP_BD_OFFSET) 57 (qpy + chromaCbQpOffset) Hle)
      as (_ & Hin & _ & _).
    assert (Hc : Clip3 (- QP_BD_OFFSET) 57 (qpy + chromaCbQpOffset) = qpy + chromaCbQpOffset)
      by (apply Hin; lia).
    rewrite Hc. destruct (Z.geb_spec (qpy + chromaCbQpOffset) 30); [lia|]. reflexivity.
Qed.

Lemma setQPforQuant_cu_sets_all_witness :
  let m' := setQPforQuant_cu (fun _ => setQpParam 0) 26 X265_CSP_I420 2 2 in
  (forall t, m' t = setQPforQuant_cu (fun _ => setQpParam 51) 26 X265_CSP_I420 2 2 t) /\
  m' TEXT_LUMA = setQpParam (26 + QP_BD_OFFSET) /\
  m' TEXT_CHROMA_U = m' TEXT_CHROMA_V /\
  m' TEXT_CHROMA_U = setQpParam (26 + 2 + QP_BD_OFFSET).
Proof.
  pose proof (setQPforQuant_cu_sets_all (fun _ => setQpParam 0) (fun _ => setQpParam 51)
                26 X265_CSP_I420 2 2) as Hall.
  cbv zeta in Hall. destruct Hall as (H1 & H2 & H3 & H4).
  cbv zeta. refine (conj H1 (conj H2 (conj (H3 eq_refl) (H4 _)))).
  vm_compute. repeat split; discriminate.
Defined.

(** ** Noise reduction in [transformNxN] *)

(** [transformNxN] never changes the QP parameters, the scaling lists, the
    RDOQ switch or the noise-reduction offsets.  It updates the
    noise-reduction statistics only for a block that is neither bypassed,
    transform-skipped nor intra, and only when noise reduction is on: then
    the count of the category [sizeIdx + 4 * !isLuma] grows by one, and no
    other category is touched. *)
Theorem transformNxN_noise_reduction `{Config} (p : EncoderPrimitives) (q : Quant)
    (cu : TComDataCU) (fenc : list Z) (fencStride : Z) (residual : list Z) (stride : Z)
    (coeff : list Z) (log2TrSize : Z) (ttype : TextType) (absPartIdx : Z)
    (useTransformSkip : bool) :
  let q' := (transformNxN p q cu fenc fencStride residual stride coeff log2TrSize ttype
               absPartIdx useTransformSkip).1.1 in
  let applies := negb (getCUTransquantBypass cu absPartIdx) && negb useTransformSkip
                 && bNoiseReduction (m_nr q) && negb (isIntra cu absPartIdx) in
  let cat := log2TrSize - 2 + 4 * b2z (negb (TextType_eqb ttype TEXT_LUMA)) in
  m_qpParam q' = m_qpParam q /\ m_scalingList q' = m_scalingList q /\
  m_useRDOQ q' = m_useRDOQ q /\
  bNoiseReduction (m_nr q') = bNoiseReduction (m_nr q) /\
  offsetDenoise (m_nr q') = offsetDenoise (m_nr q) /\
  (forall c, nr_count (m_nr q') c
             = if applies && (c =? cat) then nr_count (m_nr q) c + 1 else nr_count (m_nr q) c) /\
  (forall c, applies && (c =? cat) = false ->
             residualSum (m_nr q') c = residualSum (m_nr q) c).
Proof.
  intros q' applies cat. subst q' applies cat. unfold transformNxN.
  destruct (getCUTransquantBypass cu absPartIdx); cbn [negb andb].
  { destruct (cvt16to32_cnt _ _ _ _). cbn. repeat split; done. }
  cbv zeta.
  set (q1 := transform_stage p q cu fenc fencStride residual stride log2TrSize ttype
               absPartIdx useTransformSkip).
  assert (Hq1 :
    m_qpParam q1 = m_qpParam q /\ m_scalingList q1 = m_scalingList q /\
    m_useRDOQ q1 = m_useRDOQ q /\
    bNoiseReduction (m_nr q1) = bNoiseReduction (m_nr q) /\
    offsetDenoise (m_nr q1) = offsetDenoise (m_nr q) /\
    (forall c, nr_count (m_nr q1) c
               = if negb useTransformSkip && bNoiseReduction (m_nr q)
                    && negb (isIntra cu absPartIdx)
                    && (c =? log2TrSize - 2 + 4 * b2z (negb (TextType_eqb ttype TEXT_LUMA)))
                 then nr_count (m_nr q) c + 1 else nr_count (m_nr q) c) /\
    (forall c, negb useTransformSkip && bNoiseReduction (m_nr q)
               && negb (isIntra cu absPartIdx)
               && (c =? log2TrSize - 2 + 4 * b2z (negb (TextType_eqb ttype TEXT_LUMA))) = false ->
               residualSum (m_nr q1) c = residualSum (m_nr q) c)).
  { subst q1. unfold transform_stage. cbv zeta.
    destruct useTransformSkip; cbn [negb andb]; [cbn; repeat split; done|].
    destruct (if nz (m_psyRdoqScale q) && TextType_eqb ttype TEXT_LUMA && true
              then _ else _) as [fs fd].
    destruct (bNoiseReduction (m_nr q)) eqn:Enr; cbn [andb]; [|cbn; repeat split; done].
    destruct (isIntra cu absPartIdx); cbn [negb andb]; [cbn; repeat split; done|].
    destruct (denoiseDct _ _ _ _) as [r sum]. cbn.
    repeat split; try done.
    intros c Hc. rewrite Hc. reflexivity. }
  assert (Hres : forall r : Quant * list Z * Z, r.1.1 = q1 ->
    m_qpParam r.1.1 = m_qpParam q /\ m_scalingList r.1.1 = m_scalingList q /\
    m_useRDOQ r.1.1 = m_useRDOQ q /\
    bNoiseReduction (m_nr r.1.1) = bNoiseReduction (m_nr q) /\
    offsetDenoise (m_nr r.1.1) = offsetDenoise (m_nr q) /\
    (forall c, nr_count (m_nr r.1.1) c
               = if negb useTransformSkip && bNoiseReduction (m_nr q)
                    && negb (isIntra cu absPartIdx)
                    && (c =? log2TrSize - 2 + 4 * b2z (negb (TextType_eqb ttype TEXT_LUMA)))
                 then nr_count (m_nr q) c + 1 else nr_count (m_nr q) c) /\
    (forall c, negb useTransformSkip && bNoiseReduction (m_nr q)
               && negb (isIntra cu absPartIdx)
               && (c =? log2TrSize - 2 + 4 * b2z (negb (TextType_eqb ttype TEXT_LUMA))) = false ->
               residualSum (m_nr r.1.1) c = residualSum (m_nr q) c)).
  { intros r ->. exact Hq1. }
  apply Hres.
  destruct (m_useRDOQ q1).
  - destruct (rdoQuant _ _ _ _ _ _ _). reflexivity.
  - destruct (quant_c _ _ _ _ _ _ _) as [[dU c] ns].
    destruct ((ns >=? 2) && bSignHideEnabled cu); [|reflexivity].
    destruct (signBitHidingHDQ _ _ _ _ _). reflexivity.
Qed.

(** ** The two angular predictors agree *)

Section AngularRows.
Context `{Config}.
Variables (width : Z) (dst : list Z) (off dstStride : Z).
Hypothesis width_pos : 0 < width.
Hypothesis stride_block : width <= dstStride.
Hypothesis off_nonneg : 0 <= off.
Hypothesis block_in_dst : off + ((width - 1) * dstStride + width) <= Z.of_nat (length dst).

Local Abbreviation in_block := (in_block off dstStride width).

(** The row loop of the angular predictors, for any way [A], [B] of reading
    the two reference samples of a column at an offset. *)
Lemma ang_rows_gen (A B : Z -> Z -> Z) (angle : Z) :
  let r := (for_up (Z.to_nat width) (fun y '(dst, angleSum) =>
         let angleSum := angleSum + angle in
         let offset := angleSum ≫ 5 in
         let fraction := Z.land angleSum 31 in
         let dst :=
           if nz fraction then
             for_up (Z.to_nat width) (fun x dst =>
               aset dst (off + (y * dstStride + x))
                 (to_pixel (((32 - fraction) * A offset x + fraction * B offset x + 16) ≫ 5)))
               dst
           else
             for_up (Z.to_nat width) (fun x dst =>
               aset dst (off + (y * dstStride + x)) (A offset x)) dst in
         (dst, angleSum)) (dst, 0)).1 in
  length r = length dst /\
  (forall y x, 0 <= y < width -> 0 <= x < width ->
     rd r (off + (y * dstStride + x))
     = let s := (y + 1) * angle in
       if nz (Z.land s 31)
       then to_pixel (((32 - Z.land s 31) * A (s ≫ 5) x + Z.land s 31 * B (s ≫ 5) x + 16) ≫ 5)
       else A (s ≫ 5) x) /\
  (forall pos, ~ in_block pos -> rd r pos = rd dst pos).
Proof.
  cbv zeta.
  match goal with |- context [for_up ?n ?f (dst, 0)] => set (body := f) end.
  assert (Hinv : let st := for_up (Z.to_nat width) body (dst, 0) in
    st.2 = Z.of_nat (Z.to_nat width) * angle /\ length st.1 = length dst /\
    (forall y x, 0 <= y < Z.of_nat (Z.to_nat width) -> 0 <= x < width ->
       rd st.1 (off + (y * dstStride + x))
       = if nz (Z.land ((y + 1) * angle) 31)
         then to_pixel (((32 - Z.land ((y + 1) * angle) 31) * A (((y + 1) * angle) ≫ 5) x
                         + Z.land ((y + 1) * angle) 31 * B (((y + 1) * angle) ≫ 5) x + 16) ≫ 5)
         else A (((y + 1) * angle) ≫ 5) x) /\
    (forall pos, ~ in_block pos -> rd st.1 pos = rd dst pos)).
  { apply (for_up_ind (fun k st =>
      st.2 = k * angle /\ length st.1 = length dst /\
      (forall y x, 0 <= y < k -> 0 <= x < width ->
         rd st.1 (off + (y * dstStride + x))
         = if nz (Z.land ((y + 1) * angle) 31)
           then to_pixel (((32 - Z.land ((y + 1) * angle) 31) * A (((y + 1) * angle) ≫ 5) x
                           + Z.land ((y + 1) * angle) 31 * B (((y + 1) * angle) ≫ 5) x + 16) ≫ 5)
           else A (((y + 1) * angle) ≫ 5) x) /\
      (forall pos, ~ in_block pos -> rd st.1 pos = rd dst pos))).
    - simpl. split; [lia|]. split; [done|]. split; [intros; lia|done].
    - intros k [d sum] Hk (Hsum & Hl & Hrows & Hout). simpl in Hsum, Hl, Hrows, Hout.
      rewrite Z2Nat.id in Hk by lia. subst sum. unfold body. cbv zeta.
      replace (k * angle + angle) with ((k + 1) * angle) by lia.
      set (row := if nz _ then _ else _).
      assert (Hrow : length row = length d /\
                (forall x, 0 <= x < width ->
                   rd row (off + (k * dstStride + x))
                   = if nz (Z.land ((k + 1) * angle) 31)
                     then to_pixel (((32 - Z.land ((k + 1) * angle) 31)
                                       * A (((k + 1) * angle) ≫ 5) x
                                     + Z.land ((k + 1) * angle) 31
                                       * B (((k + 1) * angle) ≫ 5) x + 16) ≫ 5)
                     else A (((k + 1) * angle) ≫ 5) x) /\
                (forall pos, (forall x, 0 <= x < width -> off + (k * dstStride + x) <> pos) ->
                   rd row pos = rd d pos)).
      { assert (Hi : forall i j, 0 <= i < Z.of_nat (Z.to_nat width) ->
                  0 <= j < Z.of_nat (Z.to_nat width) ->
                  off + (k * dstStride + i) = off + (k * dstStride + j) -> i = j)
          by (intros; lia).
        assert (Hb : forall i, 0 <= i < Z.of_nat (Z.to_nat width) ->
                  0 <= off + (k * dstStride + i) < Z.of_nat (length d)).
        { intros i Hi'. rewrite Hl. apply (block_idx_in off dstStride width); lia. }
        subst row.
        destruct (nz (Z.land ((k + 1) * angle) 31)).
        - pose proof (fill_loop_spec (Z.to_nat width) (fun x => off + (k * dstStride + x))
            (fun x => to_pixel (((32 - Z.land ((k + 1) * angle) 31)
                        * A (((k + 1) * angle) ≫ 5) x
                      + Z.land ((k + 1) * angle) 31
                        * B (((k + 1) * angle) ≫ 5) x + 16) ≫ 5))
            d Hi Hb) as Hf.
          cbv zeta beta in Hf. rewrite Z2Nat.id in Hf by lia. exact Hf.
        - pose proof (fill_loop_spec (Z.to_nat width) (fun x => off + (k * dstStride + x))
            (fun x => A (((k + 1) * angle) ≫ 5) x) d Hi Hb) as Hf.
          cbv zeta beta in Hf. rewrite Z2Nat.id in Hf by lia. exact Hf. }
      destruct Hrow as (Lr & Hhit & Hmiss). simpl.
      split; [done|]. split; [congruence|]. split.
      + intros y x Hy Hx. destruct (Z.eq_dec y k) as [->|Hne]; [by apply Hhit|].
        rewrite Hmiss; [apply Hrows; lia|].
        intros x' Hx' Heq. apply (block_idx_inj off dstStride width) in Heq; lia.
      + intros pos Hpos. rewrite Hmiss; [by apply Hout|].
        intros x Hx <-. apply Hpos. exists k, x. lia. }
  cbv zeta in Hinv. destruct Hinv as (_ & Hl & Hrows & Hout).
  rewrite Z2Nat.id in Hrows by lia. done.
Qed.
End AngularRows.

(** The extension of the main reference to the left in [intra_pred_ang_c]. *)
Lemma ang_extend_spec (n : nat) (mainBuf sideBuf : list Z) (refMain refSide invAngle : Z) :
  Z.of_nat n <= refMain <= Z.of_nat (length mainBuf) ->
  let r := (for_up n (fun i '(mainBuf, invAngleSum) =>
              let k := - 1 - i in
              let invAngleSum := invAngleSum + invAngle in
              (aset mainBuf (refMain + k) (rd sideBuf (refSide + (invAngleSum ≫ 8))),
               invAngleSum)) (mainBuf, 128)).1 in
  (forall k, - Z.of_nat n <= k <= - 1 ->
     rd r (refMain + k) = rd sideBuf (refSide + ((128 + (- k) * invAngle) ≫ 8))) /\
  (forall p, ~ (refMain - Z.of_nat n <= p < refMain) -> rd r p = rd mainBuf p).
Proof.
  intros Hroom. cbv zeta.
  match goal with |- context [for_up n ?f ?i0] => set (body := f); set (s0 := i0) end.
  assert (Hinv : let st := for_up n body s0 in
    st.2 = 128 + Z.of_nat n * invAngle /\ length st.1 = length mainBuf /\
    (forall k, - Z.of_nat n <= k <= - 1 ->
       rd st.1 (refMain + k) = rd sideBuf (refSide + ((128 + (- k) * invAngle) ≫ 8))) /\
    (forall p, ~ (refMain - Z.of_nat n <= p < refMain) -> rd st.1 p = rd mainBuf p)).
  { apply (for_up_ind (fun i st =>
      st.2 = 128 + i * invAngle /\ length st.1 = length mainBuf /\
      (forall k, - i <= k <= - 1 ->
         rd st.1 (refMain + k) = rd sideBuf (refSide + ((128 + (- k) * invAngle) ≫ 8))) /\
      (forall p, ~ (refMain - i <= p < refMain) -> rd st.1 p = rd mainBuf p))).
    - subst s0. simpl. split; [lia|]. split; [done|]. split; [intros; lia|done].
    - intros i [m sum] Hi (Hsum & Hl & Hin & Hout). simpl in Hsum, Hl, Hin, Hout.
      subst sum. unfold body. cbv zeta. cbn [fst snd].
      split; [lia|]. split; [by rewrite length_aset|]. split.
      + intros k Hk. destruct (Z.eq_dec k (- 1 - i)) as [->|Hne].
        * rewrite aget_aset_eq by lia. do 3 f_equal. lia.
        * rewrite aget_aset_ne by lia. apply Hin. lia.
      + intros p Hp. rewrite aget_aset_ne by lia. apply Hout. lia. }
  cbv zeta in Hinv. destruct Hinv as (_ & _ & H1 & H2). done.
Qed.

(** The reference row [intra_pred_ang_c_new] builds for a negative angle. *)
Lemma ang_reference_spec (refBuf : list Z) (width : Z) (srcPix : list Z)
    (angleOffset angle : Z) :
  angle < 0 -> 0 <= width ->
  let nbProjected := - ((width * angle) ≫ 5) - 1 in
  0 <= nbProjected -> nbProjected + width + 1 <= Z.of_nat (length refBuf) ->
  let r := ang_reference refBuf width srcPix angleOffset angle in
  let invAngle := rd invAngleTable (- angleOffset - 1) in
  r.2 = nbProjected + 1 /\
  (forall i, 0 <= i < nbProjected ->
     rd r.1 (r.2 + (- 2 - i)) = rd srcPix (2 * width + ((128 + (i + 1) * invAngle) ≫ 8))) /\
  (forall i, 0 <= i <= width -> rd r.1 (r.2 + (- 1 + i)) = rd srcPix i).
Proof.
  intros Hang Hw nb Hnb Hlen. cbv zeta. unfold ang_reference.
  destruct (Z.ltb_spec angle 0); [|lia]. cbv zeta. fold nb. rewrite shiftl_1_double.
  set (inv := rd invAngleTable (- angleOffset - 1)).
  match goal with |- context [for_up (Z.to_nat nb) ?f ?i0] =>
    set (body := f); set (s0 := i0) end.
  assert (Hinv : let st := for_up (Z.to_nat nb) body s0 in
    st.2 = 128 + Z.of_nat (Z.to_nat nb) * inv /\ length st.1 = length refBuf /\
    (forall i, 0 <= i < Z.of_nat (Z.to_nat nb) ->
       rd st.1 (nb + 1 + (- 2 - i)) = rd srcPix (2 * width + ((128 + (i + 1) * inv) ≫ 8)))).
  { apply (for_up_ind (fun k st =>
      st.2 = 128 + k * inv /\ length st.1 = length refBuf /\
      (forall i, 0 <= i < k ->
         rd st.1 (nb + 1 + (- 2 - i)) = rd srcPix (2 * width + ((128 + (i + 1) * inv) ≫ 8))))).
    - subst s0. simpl. split; [lia|]. split; [done|]. intros; lia.
    - intros k [rb sum] Hk (Hsum & Hl & Hin). simpl in Hsum, Hl, Hin.
      rewrite Z2Nat.id in Hk by lia.
      subst sum. unfold body. cbv zeta. cbn [fst snd].
      split; [lia|]. split; [by rewrite length_aset|].
      intros i Hi. destruct (Z.eq_dec i k) as [->|Hne].
      + rewrite aget_aset_eq by lia. do 3 f_equal. lia.
      + rewrite aget_aset_ne by lia. apply Hin. lia. }
  cbv zeta in Hinv. destruct (for_up (Z.to_nat nb) body s0) as [rb1 sum1].
  cbn [fst snd] in Hinv. destruct Hinv as (_ & Hl1 & Hproj).
  rewrite Z2Nat.id in Hproj by lia.
  destruct (fill_loop_spec (Z.to_nat (width + 1)) (fun i => nb + 1 + (- 1 + i))
              (fun i => rd srcPix i) rb1) as (L2 & Hhit & Hmiss).
  { intros; lia. }
  { intros i Hi. rewrite Z2Nat.id in Hi by lia. lia. }
  cbv beta in L2, Hhit, Hmiss. rewrite Z2Nat.id in Hhit, Hmiss by lia.
  cbn [fst snd]. split; [done|]. split.
  - intros i Hi. rewrite Hmiss by (intros x Hx; lia). by apply Hproj.
  - intros i Hi. apply Hhit. lia.
Qed.

Lemma ang_table_facts (ao : Z) :
  - 8 <= ao <= 8 ->
  let angle := rd angleTable (8 + ao) in
  (if ao <? 0 then - 1 else 1) * rd angTable (Z.abs ao) = angle /\
  - 32 <= angle <= 32 /\ (ao < 0 -> angle <= - 2) /\ (0 < ao -> 2 <= angle) /\
  (ao < 0 ->
     rd invAngTable (Z.abs ao) = rd invAngleTable (- ao - 1) /\
     256 <= rd invAngleTable (- ao - 1) /\
     (- angle) * rd invAngleTable (- ao - 1) <= 8194).
Proof.
  intros Hao.
  assert (E : ao = -8 \/ ao = -7 \/ ao = -6 \/ ao = -5 \/ ao = -4 \/ ao = -3 \/ ao = -2 \/
              ao = -1 \/ ao = 0 \/ ao = 1 \/ ao = 2 \/ ao = 3 \/ ao = 4 \/ ao = 5 \/
              ao = 6 \/ ao = 7 \/ ao = 8) by lia.
  repeat (destruct E as [-> | E]); try subst ao; vm_compute; intuition congruence.
Qed.

(** A loop that rewrites one sample per iteration from its old value. *)
Lemma for_up_update_spec (n : nat) (idx : Z -> Z) (g : Z -> Z -> Z) (a : list Z) :
  (forall i j, 0 <= i < Z.of_nat n -> 0 <= j < Z.of_nat n -> idx i = idx j -> i = j) ->
  (forall i, 0 <= i < Z.of_nat n -> 0 <= idx i < Z.of_nat (length a)) ->
  let r := for_up n (fun i a => aset a (idx i) (g i (rd a (idx i)))) a in
  length r = length a /\
  (forall i, 0 <= i < Z.of_nat n -> rd r (idx i) = g i (rd a (idx i))) /\
  (forall pos, (forall i, 0 <= i < Z.of_nat n -> idx i <> pos) -> rd r pos = rd a pos).
Proof.
  intros Hinj Hin r. subst r.
  apply (for_up_ind (fun k s =>
    length s = length a /\
    (forall i, 0 <= i < k -> rd s (idx i) = g i (rd a (idx i))) /\
    (forall pos, (forall i, 0 <= i < k -> idx i <> pos) -> rd s pos = rd a pos))).
  - split; [done|]. split; [intros; lia|done].
  - intros k s Hk (Hlen & Hhit & Hmiss). split; [|split].
    + by rewrite length_aset.
    + intros i Hi. destruct (Z.eq_dec i k) as [->|Hne].
      * rewrite aget_aset_eq by (rewrite Hlen; apply Hin; lia).
        rewrite Hmiss; [done|]. intros j Hj Heq. apply Hinj in Heq; lia.
      * rewrite aget_aset_ne by (intros Heq; apply Hinj in Heq; lia).
        apply Hhit. lia.
    + intros pos Hpos. rewrite aget_aset_ne by (apply Hpos; lia).
      apply Hmiss. intros i Hi. apply Hpos. lia.
Qed.

Lemma shiftr5_div (s : Z) : s ≫ 5 = s / 32.
Proof. rewrite Z.shiftr_div_pow2 by lia. reflexivity. Qed.

Lemma land31_mod (s : Z) : Z.land s 31 = s mod 32.
Proof. apply (Z.land_ones s 5). lia. Qed.

Section OldCore.
Context `{Config}.
Variables (x265_clip : Z -> Z) (refBuf : list Z).
Variables (width : Z) (dst : list Z) (off dstStride : Z).
Hypothesis width_pos : 0 < width.
Hypothesis stride_block : width <= dstStride.
Hypothesis off_nonneg : 0 <= off.
Hypothesis block_in_dst : off + ((width - 1) * dstStride + width) <= Z.of_nat (length dst).
Hypothesis refBuf_len : 2 * width <= Z.of_nat (length refBuf).

Local Abbreviation in_block := (in_block off dstStride width).

Lemma old_core_agrees (mainBuf : list Z) (refMain : Z) (sideBuf : list Z) (refSide : Z)
    (src : list Z) (ao invAngle : Z) (bFilter : bool) :
  - 8 <= ao <= 8 -> (ao < 0 -> invAngle = rd invAngleTable (- ao - 1)) ->
  width <= refMain <= Z.of_nat (length mainBuf) ->
  (forall i, 0 <= i <= 2 * width -> rd mainBuf (refMain + i) = rd src i) ->
  rd sideBuf refSide = rd src 0 ->
  (forall i, 1 <= i <= 2 * width -> rd sideBuf (refSide + i) = rd src (2 * width + i)) ->
  let angle := rd angleTable (8 + ao) in
  let mainBuf' :=
    if angle <? 0 then
      (for_up (Z.to_nat (- 1 - ((width * angle) ≫ 5)))
         (fun i '(mainBuf, invAngleSum) =>
            let k := - 1 - i in
            let invAngleSum := invAngleSum + invAngle in
            (aset mainBuf (refMain + k) (rd sideBuf (refSide + (invAngleSum ≫ 8))),
             invAngleSum)) (mainBuf, 128)).1
    else mainBuf in
  let core :=
    if angle =? 0 then
      let dst :=
        for_up (Z.to_nat width) (fun k dst =>
          for_up (Z.to_nat width) (fun l dst =>
            aset dst (off + (k * dstStride + l)) (rd mainBuf' (refMain + (l + 1)))) dst) dst in
      if bFilter then
        for_up (Z.to_nat width) (fun k dst =>
          aset dst (off + k * dstStride)
            (x265_clip (s16 (rd dst (off + k * dstStride)
                             + ((rd sideBuf (refSide + (k + 1)) - rd sideBuf (refSide + 0)) ≫ 1)))))
          dst
      else dst
    else
      (for_up (Z.to_nat width) (fun k '(dst, deltaPos) =>
         let deltaPos := deltaPos + angle in
         let deltaInt := deltaPos ≫ 5 in
         let deltaFract := Z.land deltaPos (32 - 1) in
         let dst :=
           if nz deltaFract then
             for_up (Z.to_nat width) (fun l dst =>
               let refMainIndex := l + deltaInt + 1 in
               aset dst (off + (k * dstStride + l))
                 (to_pixel (((32 - deltaFract) * rd mainBuf' (refMain + refMainIndex)
                             + deltaFract * rd mainBuf' (refMain + (refMainIndex + 1)) + 16) ≫ 5)))
               dst
           else
             for_up (Z.to_nat width) (fun l dst =>
               aset dst (off + (k * dstStride + l)) (rd mainBuf' (refMain + (l + deltaInt + 1))))
               dst in
         (dst, deltaPos)) (dst, 0)).1 in
  length core = length dst /\
  (forall a b, 0 <= a < width -> 0 <= b < width ->
     rd core (off + (a * dstStride + b))
     = ang_value x265_clip refBuf width src ao bFilter a b) /\
  (forall pos, ~ in_block pos -> rd core pos = rd dst pos).
Proof.
  intros Hao Hinv Hroom M0 S0 SS angle mainBuf' core.
  pose proof (ang_table_facts ao Hao) as (_ & Hrange & Hneg & Hposv & Htab).
  cbv zeta in Hrange, Hneg, Hposv, Htab. fold angle in Hrange, Hneg, Hposv, Htab.
  subst core. unfold ang_value. fold angle.
  destruct (Z.eqb_spec angle 0) as [Ez|Enz].
  - (* the pure mode *)
    assert (Hm : mainBuf' = mainBuf).
    { subst mainBuf'. destruct (Z.ltb_spec angle 0); [lia|done]. }
    rewrite Hm. cbv zeta.
    change (for_up (Z.to_nat width) _ dst) with
      (fill2 (Z.to_nat width) (Z.to_nat width) (fun y x => off + (y * dstStride + x))
         (fun _ x => rd mainBuf (refMain + (x + 1))) dst).
    set (d0 := fill2 _ _ _ _ dst).
    assert (L0 : length d0 = length dst) by apply fill2_length.
    assert (Hd0 : forall y x, 0 <= y < width -> 0 <= x < width ->
              rd d0 (off + (y * dstStride + x)) = rd src (1 + x)).
    { intros y x Hy Hx. replace (1 + x) with (x + 1) by lia. rewrite <- M0 by lia.
      apply fill2_agree.
      - intros k l Hk Hl Heq. rewrite Z2Nat.id in Hk, Hl by lia.
        apply (block_idx_inj off dstStride width) in Heq; [|lia..].
        destruct Heq as [_ ->]. reflexivity.
      - right. split; [apply (block_idx_in off dstStride width); lia|].
        exists y, x. rewrite !Z2Nat.id by lia. lia. }
    assert (Hout0 : forall pos, ~ in_block pos -> rd d0 pos = rd dst pos).
    { intros pos Hpos. apply fill2_other. intros k l Hk Hl <-.
      rewrite Z2Nat.id in Hk, Hl by lia. apply Hpos. exists k, l. lia. }
    destruct bFilter; cbn [andb]; [|split; [done|]; split; [|done]; intros; by apply Hd0].
    destruct (for_up_update_spec (Z.to_nat width) (fun y => off + y * dstStride)
       (fun y v => x265_clip (s16 (v + ((rd sideBuf (refSide + (y + 1))
                                         - rd sideBuf (refSide + 0)) ≫ 1)))) d0)
      as (L1 & Hhit & Hmiss).
    { intros i j Hi Hj Heq. nia. }
    { intros i Hi. rewrite L0. rewrite Z2Nat.id in Hi by lia.
      pose proof (block_idx_in off dstStride width width_pos stride_block off_nonneg dst i 0
                    block_in_dst ltac:(lia) ltac:(lia)). lia. }
    cbv beta in L1, Hhit, Hmiss. rewrite Z2Nat.id in Hhit, Hmiss by lia.
    split; [congruence|]. split.
    + intros a b Ha Hb. destruct (Z.eqb_spec b 0) as [->|Hb0].
      * replace (off + (a * dstStride + 0)) with (off + a * dstStride) by lia.
        rewrite Hhit by done.
        specialize (Hd0 a 0 Ha ltac:(lia)).
        replace (off + (a * dstStride + 0)) with (off + a * dstStride) in Hd0 by lia.
        rewrite Hd0, (Z.add_0_r refSide), S0, (SS (a + 1)) by lia.
        rewrite shiftl_1_double. change (1 + 0) with 1.
        replace (2 * width + (a + 1)) with (2 * width + 1 + a) by lia. reflexivity.
      * rewrite Hmiss; [by apply Hd0|]. intros y' Hy' Heq.
        assert (Heq' : off + (y' * dstStride + 0) = off + (a * dstStride + b)) by lia.
        apply (block_idx_inj off dstStride width) in Heq'; lia.
    + intros pos Hpos. rewrite Hmiss; [by apply Hout0|].
      intros y Hy <-. apply Hpos. exists y, 0. lia.
  - (* the angular modes *)
    pose proof (ang_rows_gen width dst off dstStride width_pos stride_block off_nonneg
                  block_in_dst
                  (fun o l => rd mainBuf' (refMain + (l + o + 1)))
                  (fun o l => rd mainBuf' (refMain + (l + o + 1 + 1))) angle) as Hrows.
    cbv zeta beta in Hrows. destruct Hrows as (Lr & Hv & Ho).
    cbv zeta. change (32 - 1) with 31.
    split; [exact Lr|]. split; [|exact Ho].
    intros a b Ha Hb. rewrite (Hv a b Ha Hb). clear Hv Ho Lr.
    set (s := (a + 1) * angle). set (o := s ≫ 5). set (f := Z.land s 31).
    assert (Hf : f = s mod 32) by apply land31_mod.
    assert (Ho : o = s / 32) by apply shiftr5_div.
    pose proof (Z.mod_pos_bound s 32 ltac:(lia)) as Hfr.
    pose proof (Z.div_mod s 32 ltac:(lia)) as Hdm.
    destruct (Z.ltb_spec angle 0) as [Hlt|Hge].
    + (* negative angle: the projected reference *)
      assert (Hao0 : ao < 0).
      { destruct (Z_lt_dec ao 0); [done|]. destruct (Z.eq_dec ao 0) as [->|]; [done|].
        specialize (Hposv ltac:(lia)). lia. }
      destruct (Htab Hao0) as (_ & Hinv256 & Hprod). rewrite <- (Hinv Hao0) in Hinv256, Hprod.
      set (nb := - ((width * angle) ≫ 5) - 1).
      assert (Hnb : 0 <= nb <= width - 1 /\ 32 * nb < width * (- angle)).
      { subst nb. rewrite shiftr5_div.
        pose proof (Z.div_mod (width * angle) 32 ltac:(lia)).
        pose proof (Z.mod_pos_bound (width * angle) 32 ltac:(lia)). nia. }
      assert (Hob : - nb - 1 <= o <= - 1).
      { subst nb. rewrite shiftr5_div, Ho. split.
        - assert (width * angle / 32 <= s / 32); [|lia].
          apply Z.div_le_mono; [lia|]. subst s. nia.
        - assert (s < 0) by (subst s; nia). lia. }
      pose proof (ang_reference_spec refBuf width src ao angle Hlt ltac:(lia)) as Hrs.
      cbv zeta in Hrs. fold nb in Hrs. specialize (Hrs ltac:(lia) ltac:(lia)).
      destruct (ang_reference refBuf width src ao angle) as [refArr ref].
      cbn [fst snd] in Hrs. destruct Hrs as (Href & Hproj & Htop).
      rewrite <- (Hinv Hao0) in Hproj.
      destruct (ang_extend_spec (Z.to_nat nb) mainBuf sideBuf refMain refSide invAngle
                  ltac:(lia)) as (Hext & Hkeep).
      rewrite Z2Nat.id in Hext, Hkeep by lia.
      assert (Hm : mainBuf' = (for_up (Z.to_nat nb) (fun i '(mainBuf, invAngleSum) =>
                    let k := - 1 - i in
                    let invAngleSum := invAngleSum + invAngle in
                    (aset mainBuf (refMain + k) (rd sideBuf (refSide + (invAngleSum ≫ 8))),
                     invAngleSum)) (mainBuf, 128)).1).
      { subst mainBuf'. destruct (Z.ltb_spec angle 0); [|lia].
        subst nb. replace (- 1 - (width * angle) ≫ 5) with (- (width * angle) ≫ 5 - 1) by lia.
        reflexivity. }
      rewrite <- Hm in Hext, Hkeep.
      assert (Hread : forall t, - nb <= t <= width ->
                rd mainBuf' (refMain + t) = rd refArr (ref + (t - 1))).
      { intros t Ht. destruct (Z_lt_dec t 0) as [Htn|Htp].
        - rewrite Hext by lia.
          replace (ref + (t - 1)) with (ref + (- 2 - (- 1 - t))) by lia.
          rewrite Hproj by lia. replace (- 1 - t + 1) with (- t) by lia.
          apply SS.
          rewrite Z.shiftr_div_pow2 by lia. change (2 ^ 8) with 256. split.
          + apply Z.div_le_lower_bound; [lia|]. nia.
          + apply Z.lt_succ_r. apply Z.div_lt_upper_bound; [lia|]. nia.
        - rewrite Hkeep by lia. rewrite M0 by lia.
          replace (ref + (t - 1)) with (ref + (- 1 + t)) by lia.
          rewrite Htop by lia. reflexivity. }
      unfold ang_sample. cbv zeta. fold s. fold o. fold f.
      rewrite (Hread (b + o + 1)) by lia.
      replace (ref + (b + o + 1 - 1)) with (ref + (o + b)) by lia.
      destruct (nz f); [|reflexivity].
      rewrite (Hread (b + o + 1 + 1)) by lia.
      replace (ref + (b + o + 1 + 1 - 1)) with (ref + (o + b + 1)) by lia.
      reflexivity.
    + (* positive angle: the top row *)
      assert (Hm : mainBuf' = mainBuf).
      { subst mainBuf'. destruct (Z.ltb_spec angle 0); [lia|done]. }
      rewrite Hm. unfold ang_reference. destruct (Z.ltb_spec angle 0); [lia|].
      unfold ang_sample. cbv zeta. fold s. fold o. fold f.
      assert (Hs : 0 < s <= 32 * width) by (subst s; nia).
      assert (Hob : 0 <= o <= width) by (rewrite Ho; split;
        [apply Z.div_pos; lia|apply Z.div_le_upper_bound; lia]).
      rewrite (M0 (b + o + 1)) by lia.
      replace (1 + (o + b)) with (b + o + 1) by lia.
      unfold nz. destruct (Z.eqb_spec f 0) as [Ef|Ef]; cbn [negb]; [reflexivity|].
      assert (o < width) by nia.
      rewrite (M0 (b + o + 1 + 1)) by lia.
      replace (1 + (o + b + 1)) with (b + o + 1 + 1) by lia. reflexivity.
Qed.
End OldCore.

Section AngularVersions.
Context `{Config}.
Variables (x265_clip : Z -> Z) (neighbourBuf refBuf : list Z).
Variables (width : Z) (dst : list Z) (off dstStride : Z) (srcPix : list Z).
Variables (refLeftBuf : list Z) (refLeft : Z) (refAboveBuf : list Z) (refAbove : Z).
Hypothesis width_pos : 0 < width.
Hypothesis stride_block : width <= dstStride.
Hypothesis off_nonneg : 0 <= off.
Hypothesis block_in_dst : off + ((width - 1) * dstStride + width) <= Z.of_nat (length dst).
Hypothesis neighbourBuf_len : 4 * width + 1 <= Z.of_nat (length neighbourBuf).
Hypothesis refBuf_len : 2 * width <= Z.of_nat (length refBuf).
Hypothesis above_room : width <= refAbove <= Z.of_nat (length refAboveBuf).
Hypothesis left_room : width <= refLeft <= Z.of_nat (length refLeftBuf).
Hypothesis above_src : forall i, 0 <= i <= 2 * width ->
  rd refAboveBuf (refAbove + i) = rd srcPix i.
Hypothesis left_corner : rd refLeftBuf refLeft = rd srcPix 0.
Hypothesis left_src : forall i, 1 <= i <= 2 * width ->
  rd refLeftBuf (refLeft + i) = rd srcPix (2 * width + i).

(** [intra_pred_ang_c] and [intra_pred_ang_c_new] predict the same block for
    every mode from 2 to 34 when they are given the same neighbours:
    [refAbove[0 .. 2*width]] holding [srcPix[0 .. 2*width]] and
    [refLeft[0], refLeft[1 .. 2*width]] holding [srcPix[0]] and
    [srcPix[2*width + 1 .. 4*width]], with room for [width] samples before
    both pointers. *)
Theorem intra_pred_ang_versions_agree (dirMode : Z) (bFilter : bool) (y x : Z) :
  2 <= dirMode <= 34 -> 0 <= y < width -> 0 <= x < width ->
  rd (intra_pred_ang_c 26 10 x265_clip width dst off dstStride refLeftBuf refLeft
        refAboveBuf refAbove dirMode bFilter).1.1 (off + (y * dstStride + x))
  = rd (intra_pred_ang_c_new x265_clip neighbourBuf refBuf width dst off dstStride
          srcPix dirMode bFilter) (off + (y * dstStride + x)).
Proof.
  intros Hm Hy Hx.
  destruct (ang_spec x265_clip neighbourBuf refBuf width dst off dstStride
              width_pos stride_block off_nonneg block_in_dst srcPix dirMode bFilter)
    as (_ & Hnew & _).
  rewrite (Hnew y x Hy Hx). clear Hnew.
  unfold intra_pred_ang_c. cbv zeta.
  destruct (Z.ltb_spec dirMode 18) as [Hh|Hv]; cbn [negb].
  - (* horizontal: the left column is the main reference *)
    replace (- (dirMode - 10)) with (10 - dirMode) by lia.
    set (ao := 10 - dirMode).
    assert (Hao : - 8 <= ao <= 8) by (subst ao; lia).
    pose proof (ang_table_facts ao Hao) as (Hang & _ & _ & _ & Htab).
    cbv zeta in Hang, Htab. rewrite Hang.
    destruct (flip_neighbours_spec neighbourBuf width srcPix ltac:(lia) neighbourBuf_len)
      as (Hn0 & Hnsw).
    pose proof (old_core_agrees x265_clip refBuf width dst off dstStride width_pos
                  stride_block off_nonneg block_in_dst refBuf_len
                  refLeftBuf refLeft refAboveBuf refAbove
                  (flip_neighbours neighbourBuf width srcPix) ao
                  (rd invAngTable (Z.abs ao)) bFilter Hao) as Hc.
    specialize (Hc ltac:(intros Hlt; apply (Htab Hlt)) left_room).
    assert (M0 : forall i, 0 <= i <= 2 * width ->
              rd refLeftBuf (refLeft + i) = rd (flip_neighbours neighbourBuf width srcPix) i).
    { intros i Hi. destruct (Z.eq_dec i 0) as [->|Hi0].
      - rewrite Z.add_0_r, Hn0. exact left_corner.
      - rewrite left_src by lia. destruct (Hnsw (i - 1) ltac:(lia)) as [Ha _].
        replace (1 + (i - 1)) with i in Ha by lia. rewrite Ha. f_equal. lia. }
    assert (S0 : rd refAboveBuf refAbove = rd (flip_neighbours neighbourBuf width srcPix) 0).
    { rewrite Hn0. rewrite <- (above_src 0) by lia. f_equal. lia. }
    assert (SS : forall i, 1 <= i <= 2 * width ->
              rd refAboveBuf (refAbove + i)
              = rd (flip_neighbours neighbourBuf width srcPix) (2 * width + i)).
    { intros i Hi. rewrite above_src by lia. destruct (Hnsw (i - 1) ltac:(lia)) as [_ Hl].
      replace (2 * width + 1 + (i - 1)) with (2 * width + i) in Hl by lia.
      rewrite Hl. f_equal. lia. }
    specialize (Hc M0 S0 SS). cbv zeta in Hc. cbv beta iota. cbn [fst snd].
    match type of Hc with length ?c = _ /\ _ => set (core := c) in * end.
    destruct Hc as (Lc & Hval & _).
    destruct (flip_block_spec off dstStride width width_pos stride_block off_nonneg core)
      as (_ & Hfb & _); [by rewrite Lc|].
    rewrite Hfb by done. by apply Hval.
  - (* vertical: the top row is the main reference *)
    destruct (Z.ltb_spec dirMode 18); [lia|].
    set (ao := dirMode - 26).
    assert (Hao : - 8 <= ao <= 8) by (subst ao; lia).
    pose proof (ang_table_facts ao Hao) as (Hang & _ & _ & _ & Htab).
    cbv zeta in Hang, Htab. rewrite Hang.
    pose proof (old_core_agrees x265_clip refBuf width dst off dstStride width_pos
                  stride_block off_nonneg block_in_dst refBuf_len
                  refAboveBuf refAbove refLeftBuf refLeft srcPix ao
                  (rd invAngTable (Z.abs ao)) bFilter Hao) as Hc.
    specialize (Hc ltac:(intros Hlt; apply (Htab Hlt)) above_room above_src left_corner
                  left_src).
    cbv zeta in Hc. cbv beta iota. cbn [fst snd].
    destruct Hc as (_ & Hval & _). by apply Hval.
Qed.

End AngularVersions.

Lemma intra_pred_ang_versions_agree_witness :
  rd (intra_pred_ang_c 26 10 (Clip3 0 255) 4 (replicate 16 0) 0 4 ang_sample_left 4
        ang_sample_above 4 14 true).1.1 (0 + (1 * 4 + 2))
  = rd (intra_pred_ang_c_new (Clip3 0 255) (replicate 129 0) (replicate 64 0) 4
          (replicate 16 0) 0 4 planar_sample_ref 14 true) (0 + (1 * 4 + 2)).
Proof.
  apply intra_pred_ang_versions_agree; try (simpl; lia).
  - intros i Hi.
    assert (Ei : i = 0 \/ i = 1 \/ i = 2 \/ i = 3 \/ i = 4 \/ i = 5 \/ i = 6 \/ i = 7 \/
                 i = 8) by lia.
    repeat (destruct Ei as [-> | Ei]); try subst i; reflexivity.
  - reflexivity.
  - intros i Hi.
    assert (Ei : i = 1 \/ i = 2 \/ i = 3 \/ i = 4 \/ i = 5 \/ i = 6 \/ i = 7 \/ i = 8)
      by lia.
    repeat (destruct Ei as [-> | Ei]); try subst i; reflexivity.
Defined.
